(** * SimpleSAT: a shallow embedding of the solver core and its properties

    The development follows the C sources: [solver.c] (literal encoding,
    clause and literal state, the assignment primitives, the branching
    heuristic and the recursive search) and [format.c] (the DIMACS reader).

    Conventions of the embedding.
    - [unsigned int] is a 32-bit quantity: a [Z] in [0, 2^32), every
      arithmetic result reduced by [u32].  [int] results are re-read with
      [s32] (two's complement).
    - A growable C array (pointer, length, capacity) is a [list]; its length
      field is the length of the list, its capacity is not modelled.
    - A [ClauseState *] stored in an occurrence list is the index of the
      clause in [solver->clauses].
    - A failed [assert] aborts the program ([AssertionFailed]); an access
      outside an allocated array is [OutOfBounds]; recursion and the
      [while] loops of the search are driven by a fuel argument
      ([OutOfFuel] when it is exhausted). *)

From Stdlib Require Import ZArith Lia Bool Ascii String.
From stdpp Require Import base tactics option list numbers.

Local Open Scope Z_scope.

(** ** Machine integers *)

Definition UINT_MODULUS : Z := 4294967296.
Definition INT_MAX : Z := 2147483647.

(** Conversion to [unsigned int]. *)
Definition u32 (z : Z) : Z := z mod UINT_MODULUS.

(** Conversion to [int] (two's complement). *)
Definition s32 (z : Z) : Z := (z + 2147483648) mod UINT_MODULUS - 2147483648.

(** ** Results of running a piece of the program *)

Inductive Fault : Type :=
| AssertionFailed
| OutOfBounds
| OutOfFuel.

Inductive Result (A : Type) : Type :=
| Ret (a : A)
| Err (f : Fault).

Arguments Ret {A} a.
Arguments Err {A} f.

Definition bind {A B : Type} (m : Result A) (k : A -> Result B) : Result B :=
  match m with
  | Ret a => k a
  | Err f => Err f
  end.

Notation "'let*' x ':=' m 'in' k" := (bind m (fun x => k))
  (at level 10, x pattern, m at level 100, k at level 200).

(** [assert(b)] of <assert.h>. *)
Definition assert (b : bool) : Result unit :=
  if b then Ret tt else Err AssertionFailed.

(** A [for] loop over the elements of [l], threading the state. *)
Fixpoint foldM {S A : Type} (f : S -> A -> Result S) (l : list A) (s : S)
  : Result S :=
  match l with
  | [] => Ret s
  | x :: l' => let* s' := f s x in foldM f l' s'
  end.

(** ** Data model (solver.h) *)

Record ClauseState : Type := mkClause {
  clause_lits : list Z;       (* lits[0..n_lits) *)
  n_assigned_true : Z;
  n_assigned_false : Z;
  n_free_lits : Z
}.

Definition n_lits (c : ClauseState) : Z := Z.of_nat (length (clause_lits c)).

Record LitState : Type := mkLit {
  fixed : bool;
  assigned : bool;
  score : Z;
  cont_clauses : list nat     (* cont_clauses[0..n_cont_clauses), as clause indices *)
}.

Inductive Solution : Type :=
| SOLUTION_UNKNOWN
| SOLUTION_SATISFIABLE
| SOLUTION_UNSATISFIABLE.

Record Solver : Type := mkSolver {
  n_vars : Z;
  n_clauses : Z;
  lits : list LitState;
  clauses : list ClauseState;
  n_sat_clauses : Z;
  n_unsat_clauses : Z;
  n_units : Z;
  n_assigned : Z;
  unit_stack : list Z;
  solver_assigned : list Z;   (* the array [solver->assigned] *)
  solution : Solution;
  t_branches : Z;
  t_unit_props : Z
}.

(** Field updates. *)

Definition set_lits (v : list LitState) (s : Solver) : Solver :=
  mkSolver (n_vars s) (n_clauses s) v (clauses s) (n_sat_clauses s)
    (n_unsat_clauses s) (n_units s) (n_assigned s) (unit_stack s)
    (solver_assigned s) (solution s) (t_branches s) (t_unit_props s).

Definition set_clauses (v : list ClauseState) (s : Solver) : Solver :=
  mkSolver (n_vars s) (n_clauses s) (lits s) v (n_sat_clauses s)
    (n_unsat_clauses s) (n_units s) (n_assigned s) (unit_stack s)
    (solver_assigned s) (solution s) (t_branches s) (t_unit_props s).

Definition set_n_sat_clauses (v : Z) (s : Solver) : Solver :=
  mkSolver (n_vars s) (n_clauses s) (lits s) (clauses s) v
    (n_unsat_clauses s) (n_units s) (n_assigned s) (unit_stack s)
    (solver_assigned s) (solution s) (t_branches s) (t_unit_props s).

Definition set_n_unsat_clauses (v : Z) (s : Solver) : Solver :=
  mkSolver (n_vars s) (n_clauses s) (lits s) (clauses s) (n_sat_clauses s)
    v (n_units s) (n_assigned s) (unit_stack s)
    (solver_assigned s) (solution s) (t_branches s) (t_unit_props s).

Definition set_n_units (v : Z) (s : Solver) : Solver :=
  mkSolver (n_vars s) (n_clauses s) (lits s) (clauses s) (n_sat_clauses s)
    (n_unsat_clauses s) v (n_assigned s) (unit_stack s)
    (solver_assigned s) (solution s) (t_branches s) (t_unit_props s).

Definition set_n_assigned (v : Z) (s : Solver) : Solver :=
  mkSolver (n_vars s) (n_clauses s) (lits s) (clauses s) (n_sat_clauses s)
    (n_unsat_clauses s) (n_units s) v (unit_stack s)
    (solver_assigned s) (solution s) (t_branches s) (t_unit_props s).

Definition set_unit_stack (v : list Z) (s : Solver) : Solver :=
  mkSolver (n_vars s) (n_clauses s) (lits s) (clauses s) (n_sat_clauses s)
    (n_unsat_clauses s) (n_units s) (n_assigned s) v
    (solver_assigned s) (solution s) (t_branches s) (t_unit_props s).

Definition set_solver_assigned (v : list Z) (s : Solver) : Solver :=
  mkSolver (n_vars s) (n_clauses s) (lits s) (clauses s) (n_sat_clauses s)
    (n_unsat_clauses s) (n_units s) (n_assigned s) (unit_stack s)
    v (solution s) (t_branches s) (t_unit_props s).

Definition set_t_branches (v : Z) (s : Solver) : Solver :=
  mkSolver (n_vars s) (n_clauses s) (lits s) (clauses s) (n_sat_clauses s)
    (n_unsat_clauses s) (n_units s) (n_assigned s) (unit_stack s)
    (solver_assigned s) (solution s) v (t_unit_props s).

Definition set_t_unit_props (v : Z) (s : Solver) : Solver :=
  mkSolver (n_vars s) (n_clauses s) (lits s) (clauses s) (n_sat_clauses s)
    (n_unsat_clauses s) (n_units s) (n_assigned s) (unit_stack s)
    (solver_assigned s) (solution s) (t_branches s) v.

(** Array accesses.  An index is an [unsigned int], hence never negative. *)

Definition lit_at (s : Solver) (lit : Z) : Result LitState :=
  match lits s !! Z.to_nat lit with
  | Some ls => Ret ls
  | None => Err OutOfBounds
  end.

Definition clause_at (s : Solver) (ci : nat) : Result ClauseState :=
  match clauses s !! ci with
  | Some c => Ret c
  | None => Err OutOfBounds
  end.

Definition set_lit (lit : Z) (ls : LitState) (s : Solver) : Solver :=
  set_lits (<[Z.to_nat lit := ls]> (lits s)) s.

Definition set_clause (ci : nat) (c : ClauseState) (s : Solver) : Solver :=
  set_clauses (<[ci := c]> (clauses s)) s.

Definition array_at (a : list Z) (i : Z) : Result Z :=
  match a !! Z.to_nat i with
  | Some x => Ret x
  | None => Err OutOfBounds
  end.

(** ** Literal encoding *)

Definition negate (lit : Z) : Z := Z.lxor lit 1.

(** The arithmetic is done in [int] and the result converted to [Literal]
    ([unsigned int]) on return.  For [|repr| > 2^30] the shift does not fit
    in an [int], which C leaves undefined; the model takes the bits of the
    exact result, as two's-complement hardware does. *)
Definition lit_from_int (repr : Z) : Result Z :=
  let* _ := assert (negb (repr =? 0)) in
  if 0 <? repr then Ret (u32 (Z.shiftl (repr - 1) 1))
  else Ret (u32 (Z.lor (Z.shiftl (- repr - 1) 1) 1)).

(** The arithmetic is done in [unsigned int] and the result converted to
    [int] on return. *)
Definition int_from_lit (lit : Z) : Z :=
  if negb (Z.land lit 1 =? 0) then s32 (u32 (- u32 (Z.shiftr lit 1 + 1)))
  else s32 (u32 (Z.shiftr lit 1 + 1)).

(** ** Clause and literal state *)

Definition create_clause_state : ClauseState := mkClause [] 0 0 0.

Definition add_literal (cstate : ClauseState) (lit : Z) : ClauseState :=
  mkClause (clause_lits cstate ++ [lit])
    (n_assigned_true cstate) (n_assigned_false cstate)
    (u32 (n_free_lits cstate + 1)).

Definition create_lit_state : LitState := mkLit false false 0 [].

Definition add_cont_clause (lstate : LitState) (ci : nat) : LitState :=
  mkLit (fixed lstate) (assigned lstate) (score lstate)
    (cont_clauses lstate ++ [ci]).

(** The arrays [unit_stack] and [assigned] are allocated uninitialised; the
    model fills them with zeros. *)
Definition create_solver (num_vars num_clauses : Z) : Result Solver :=
  let* _ := assert (0 <? num_vars) in
  let n2 := u32 (Z.shiftl num_vars 1) in
  let max_unit_props := u32 (n2 + num_clauses) in
  Ret (mkSolver num_vars num_clauses
         (replicate (Z.to_nat n2) create_lit_state)
         (replicate (Z.to_nat num_clauses) create_clause_state)
         0 0 0 0
         (replicate (Z.to_nat max_unit_props) 0)
         (replicate (Z.to_nat n2) 0)
         SOLUTION_UNKNOWN 0 0).

Definition add_literal_to_clause (s : Solver) (ci : nat) (lit : Z)
  : Result Solver :=
  let* cstate := clause_at s ci in
  if existsb (Z.eqb lit) (clause_lits cstate) then Ret s
  else
    let s1 := set_clause ci (add_literal cstate lit) s in
    let* lstate := lit_at s1 lit in
    Ret (set_lit lit (add_cont_clause lstate ci) s1).

(** ** Branching heuristic *)

(** The literal codes [0 .. (n_vars << 1) - 1] visited by
    [for (lit = 0; lit < (n_vars << 1); ++lit)]. *)
Definition all_lits (s : Solver) : list Z :=
  seqZ 0 (u32 (Z.shiftl (n_vars s) 1)).

(** The literal codes visited by
    [for (lit = 0; lit < (n_vars << 1); lit += 2)]. *)
Definition even_lits (s : Solver) : list Z :=
  (fun k => 2 * k) <$> seqZ 0 (u32 (Z.shiftl (n_vars s) 1) / 2).

Definition set_score (v : Z) (ls : LitState) : LitState :=
  mkLit (fixed ls) (assigned ls) v (cont_clauses ls).

Definition clear_score (s : Solver) (lit : Z) : Result Solver :=
  let* ls := lit_at s lit in
  Ret (set_lit lit (set_score 0 ls) s).

(** The [switch] on [cstate->n_free_lits]. *)
Definition score_weight (n_free : Z) : Z :=
  if n_free =? 2 then 4 else if n_free =? 3 then 2 else 1.

(** One iteration of the inner loop of [update_scores] for literal [lit]. *)
Definition score_clause (lit : Z) (s : Solver) (ci : nat) : Result Solver :=
  let* cstate := clause_at s ci in
  if negb (n_assigned_true cstate =? 0) then Ret s
  else
    let* lstate := lit_at s lit in
    Ret (set_lit lit
           (set_score (u32 (score lstate + score_weight (n_free_lits cstate)))
              lstate) s).

(** One iteration of the outer (second) loop of [update_scores]. *)
Definition score_lit (s : Solver) (lit : Z) : Result Solver :=
  let* lstate := lit_at s lit in
  if fixed lstate then Ret s
  else foldM (score_clause lit) (cont_clauses lstate) s.

Definition update_scores (s : Solver) : Result Solver :=
  let* s1 := foldM clear_score (all_lits s) s in
  foldM score_lit (all_lits s1) s1.

(** One iteration of the loop of [choose_branch]; the accumulator is
    [(best_lit, best_score)]. *)
Definition choose_step (s : Solver) (best : Z * Z) (lit : Z)
  : Result (Z * Z) :=
  let* lstate := lit_at s lit in
  if fixed lstate then Ret best
  else
    let a := score lstate in
    let* nlstate := lit_at s (negate lit) in
    let b := score nlstate in
    let sc := u32 (u32 (a + 1) * u32 (b + 1)) in
    if snd best <? sc
    then Ret (if b <=? a then lit else negate lit, sc)
    else Ret best.

Definition choose_branch (s : Solver) : Result (Z * Solver) :=
  let* _ := assert (negb (n_assigned s =? n_vars s)) in
  let* _ := assert (negb (n_sat_clauses s =? n_clauses s)) in
  let* s1 := update_scores s in
  let* best := foldM (choose_step s1) (even_lits s1) (0, 0) in
  Ret (fst best, s1).

(** ** Assignment primitives *)

Definition set_counts (t f r : Z) (c : ClauseState) : ClauseState :=
  mkClause (clause_lits c) t f r.

Definition add_true_assignment (s : Solver) (ci : nat) : Result Solver :=
  let* cstate := clause_at s ci in
  let* _ := assert (0 <? n_free_lits cstate) in
  let s1 :=
    if n_assigned_true cstate =? 0
    then set_n_sat_clauses (u32 (n_sat_clauses s + 1)) s
    else s in
  Ret (set_clause ci
         (set_counts (u32 (n_assigned_true cstate + 1))
            (n_assigned_false cstate)
            (u32 (n_free_lits cstate - 1)) cstate) s1).

(** The scan of [get_unit]: the first literal that is not fixed, and
    [(Literal) -1] when there is none. *)
Fixpoint first_unfixed (s : Solver) (l : list Z) : Result Z :=
  match l with
  | [] => Ret (u32 (-1))
  | lit :: l' =>
      let* lstate := lit_at s lit in
      if negb (fixed lstate) then Ret lit else first_unfixed s l'
  end.

Definition get_unit (s : Solver) (cstate : ClauseState) : Result Z :=
  let* _ := assert (n_free_lits cstate =? 1) in
  let* _ := assert (n_assigned_true cstate =? 0) in
  first_unfixed s (clause_lits cstate).

(** [solver->unit_stack[solver->n_units++] = unit]. *)
Definition push_unit (s : Solver) (unit : Z) : Result Solver :=
  if (Z.to_nat (n_units s) <? length (unit_stack s))%nat
  then Ret (set_n_units (u32 (n_units s + 1))
              (set_unit_stack (<[Z.to_nat (n_units s) := unit]> (unit_stack s))
                 s))
  else Err OutOfBounds.

Definition add_false_assignment (s : Solver) (ci : nat) : Result Solver :=
  let* cstate := clause_at s ci in
  let* _ := assert (0 <? n_free_lits cstate) in
  let s1 :=
    if (n_assigned_true cstate =? 0) && (n_free_lits cstate =? 1)
    then set_n_unsat_clauses (u32 (n_unsat_clauses s + 1)) s
    else s in
  let cstate' :=
    set_counts (n_assigned_true cstate)
      (u32 (n_assigned_false cstate + 1))
      (u32 (n_free_lits cstate - 1)) cstate in
  let s2 := set_clause ci cstate' s1 in
  if (n_assigned_true cstate' =? 0) && (n_free_lits cstate' =? 1)
  then
    let* unit := get_unit s2 cstate' in
    push_unit s2 unit
  else Ret s2.

Definition undo_true_assignment (s : Solver) (ci : nat) : Result Solver :=
  let* cstate := clause_at s ci in
  let* _ := assert (n_free_lits cstate <? n_lits cstate) in
  let cstate' :=
    set_counts (u32 (n_assigned_true cstate - 1))
      (n_assigned_false cstate)
      (u32 (n_free_lits cstate + 1)) cstate in
  let s1 := set_clause ci cstate' s in
  if n_assigned_true cstate' =? 0
  then Ret (set_n_sat_clauses (u32 (n_sat_clauses s1 - 1)) s1)
  else Ret s1.

Definition undo_false_assignment (s : Solver) (ci : nat) : Result Solver :=
  let* cstate := clause_at s ci in
  let* _ := assert (n_free_lits cstate <? n_lits cstate) in
  let cstate' :=
    set_counts (n_assigned_true cstate)
      (u32 (n_assigned_false cstate - 1))
      (u32 (n_free_lits cstate + 1)) cstate in
  let s1 := set_clause ci cstate' s in
  if (n_assigned_true cstate' =? 0) && (n_free_lits cstate' =? 1)
  then Ret (set_n_unsat_clauses (u32 (n_unsat_clauses s1 - 1)) s1)
  else Ret s1.

(** ** Assignment commit and rollback *)

Definition set_flags (f a : bool) (ls : LitState) : LitState :=
  mkLit f a (score ls) (cont_clauses ls).

Definition set_fixed (f : bool) (ls : LitState) : LitState :=
  mkLit f (assigned ls) (score ls) (cont_clauses ls).

Definition make_assignment (s : Solver) (lit : Z) : Result Solver :=
  let* lstate := lit_at s lit in
  let* nlstate := lit_at s (negate lit) in
  let* _ := assert (negb (fixed lstate)) in
  let* _ := assert (negb (fixed nlstate)) in
  let s1 := set_lit lit (set_flags true true lstate) s in
  let s2 := set_lit (negate lit) (set_flags true false nlstate) s1 in
  let* s3 := foldM add_true_assignment (cont_clauses lstate) s2 in
  foldM add_false_assignment (cont_clauses nlstate) s3.

Definition undo_assignment (s : Solver) (lit : Z) : Result Solver :=
  let* lstate := lit_at s lit in
  let* nlstate := lit_at s (negate lit) in
  let* _ := assert (fixed lstate) in
  let* _ := assert (assigned lstate) in
  let* _ := assert (fixed nlstate) in
  let* _ := assert (negb (assigned nlstate)) in
  let* s1 := foldM undo_true_assignment (cont_clauses lstate) s in
  let* s2 := foldM undo_false_assignment (cont_clauses nlstate) s1 in
  let* lstate' := lit_at s2 lit in
  let s3 := set_lit lit (set_fixed false lstate') s2 in
  let* nlstate' := lit_at s3 (negate lit) in
  Ret (set_lit (negate lit) (set_fixed false nlstate') s3).

(** ** Search engine *)

Definition all_satisfied (s : Solver) : bool :=
  n_sat_clauses s =? n_clauses s.

Definition any_contradiction (s : Solver) : bool :=
  0 <? n_unsat_clauses s.

(** [solver->assigned[solver->n_assigned++] = lit]. *)
Definition push_assigned (s : Solver) (lit : Z) : Result Solver :=
  if (Z.to_nat (n_assigned s) <? length (solver_assigned s))%nat
  then Ret (set_n_assigned (u32 (n_assigned s + 1))
              (set_solver_assigned
                 (<[Z.to_nat (n_assigned s) := lit]> (solver_assigned s)) s))
  else Err OutOfBounds.

(** The propagation loop [while (solver->n_units > 0)] of [try_assignment].
    The boolean of the result is [true] when the loop was left through
    [goto backtrack]. *)
Fixpoint propagate (fuel : nat) (s : Solver) : Result (bool * Solver) :=
  if 0 <? n_units s then
    match fuel with
    | O => Err OutOfFuel
    | S fuel' =>
        let s1 := set_n_units (u32 (n_units s - 1)) s in
        let* unit := array_at (unit_stack s1) (n_units s1) in
        let* ustate := lit_at s1 unit in
        if negb (fixed ustate) then
          let s2 := set_t_unit_props (u32 (t_unit_props s1 + 1)) s1 in
          let* s3 := push_assigned s2 unit in
          let* s4 := make_assignment s3 unit in
          propagate fuel' s4
        else if negb (assigned ustate) then
          Ret (true, set_n_units 0 s1)
        else propagate fuel' s1
    end
  else Ret (false, s).

(** [k] iterations of the body of the backtrack loop. *)
Fixpoint unwind (k : nat) (s : Solver) : Result Solver :=
  match k with
  | O => Ret s
  | S k' =>
      let s1 := set_n_assigned (u32 (n_assigned s - 1)) s in
      let* lit := array_at (solver_assigned s1) (n_assigned s1) in
      let* s2 := undo_assignment s1 lit in
      unwind k' s2
  end.

(** [while (solver->n_assigned > prev_n_assigned)]: every iteration lowers
    [n_assigned] by one and nothing else changes it, so the loop runs
    [n_assigned - prev_n_assigned] times (not at all when that is
    negative); the [assert] that follows the loop is kept. *)
Definition backtrack (prev_n_assigned : Z) (s : Solver) : Result Solver :=
  let* s' := unwind (Z.to_nat (n_assigned s - prev_n_assigned)) s in
  let* _ := assert (n_assigned s' =? prev_n_assigned) in
  Ret s'.

(** [try_assignment], with the recursive call to [search_assignments]
    passed as [search]. *)
Definition try_assignment_with
    (search : Solver -> Result (Solution * Solver))
    (fuel : nat) (s : Solver) (branch : Z) : Result (Solution * Solver) :=
  let prev_n_assigned := n_assigned s in
  let s1 := set_t_branches (u32 (t_branches s + 1)) s in
  let* s2 := push_assigned s1 branch in
  let* s3 := make_assignment s2 branch in
  let* (conflict, s4) := propagate fuel s3 in
  let* (solution, s5) :=
    if conflict : bool then Ret (SOLUTION_UNSATISFIABLE, s4) else search s4 in
  match solution with
  | SOLUTION_UNSATISFIABLE =>
      let* s6 := backtrack prev_n_assigned s5 in
      Ret (SOLUTION_UNSATISFIABLE, s6)
  | _ => Ret (solution, s5)
  end.

Fixpoint search_assignments (fuel : nat) (s : Solver)
  : Result (Solution * Solver) :=
  match fuel with
  | O => Err OutOfFuel
  | S fuel' =>
      if any_contradiction s then Ret (SOLUTION_UNSATISFIABLE, s)
      else if all_satisfied s then Ret (SOLUTION_SATISFIABLE, s)
      else
        let* (branch, s1) := choose_branch s in
        let* (solution, s2) :=
          try_assignment_with (search_assignments fuel') fuel' s1 branch in
        match solution with
        | SOLUTION_UNSATISFIABLE =>
            let* (solution', s3) :=
              try_assignment_with (search_assignments fuel') fuel' s2
                (negate branch) in
            match solution' with
            | SOLUTION_UNSATISFIABLE => Ret (SOLUTION_UNSATISFIABLE, s3)
            | _ => Ret (solution', s3)
            end
        | _ => Ret (solution, s2)
        end
  end.

Definition try_assignment (fuel : nat) (s : Solver) (branch : Z)
  : Result (Solution * Solver) :=
  try_assignment_with (search_assignments fuel) fuel s branch.

(** ** Loading a formula

    What the clause loop of [read_problem] does with the integers it reads:
    clause [i] of the input goes to [solver->clauses[i]], each of its
    integers [repr] through
    [add_literal_to_clause(solver, cstate, lit_from_int(repr))]. *)

Definition load_literal (ci : nat) (s : Solver) (repr : Z) : Result Solver :=
  let* lit := lit_from_int repr in
  add_literal_to_clause s ci lit.

Definition load_clause (s : Solver) (icl : nat * list Z) : Result Solver :=
  foldM (load_literal (fst icl)) (snd icl) s.

Definition load_cnf (num_vars : Z) (cls : list (list Z)) : Result Solver :=
  let* s := create_solver num_vars (Z.of_nat (length cls)) in
  foldM load_clause (imap pair cls) s.

(** ** The DIMACS reader (format.c)

    The input stream is the list of the characters still to be read.  The
    C library functions the reader calls are modelled after the C standard:
    [fgets], the conversions of [sscanf] and [fscanf] used by the two format
    strings, [fgetc] and [isspace] (in the "C" locale).  [char] is signed,
    as on x86: the character of code 255 read into [char c] compares equal
    to [EOF]. *)

Inductive Error : Type :=
| ERROR_OK
| ERROR_INVALID_USAGE
| ERROR_INVALID_FORMAT
| ERROR_FILE_ACCESS.

Definition is_space (c : ascii) : bool :=
  let n := nat_of_ascii c in
  ((n =? 32) || ((9 <=? n) && (n <=? 13)))%nat.

Definition is_digit (c : ascii) : bool :=
  let n := nat_of_ascii c in
  ((48 <=? n) && (n <=? 57))%nat.

Definition digit_value (c : ascii) : Z := Z.of_nat (nat_of_ascii c) - 48.

Fixpoint skip_space (l : list ascii) : list ascii :=
  match l with
  | c :: l' => if is_space c then skip_space l' else l
  | [] => []
  end.

Fixpoint scan_digits (acc : Z) (l : list ascii) : Z * list ascii :=
  match l with
  | c :: l' =>
      if is_digit c then scan_digits (10 * acc + digit_value c) l' else (acc, l)
  | [] => (acc, [])
  end.

(** The conversion [%d]: white space is skipped, then an optional sign and a
    non-empty run of decimal digits are read.  The value is stored in an
    [int] (C leaves the result undefined when it does not fit; the model
    reduces it with [s32]).  [None] is a matching or input failure. *)
Definition scan_int (l : list ascii) : option (Z * list ascii) :=
  let l0 := skip_space l in
  let '(neg, l1) :=
    match l0 with
    | "-"%char :: r => (true, r)
    | "+"%char :: r => (false, r)
    | _ => (false, l0)
    end in
  match l1 with
  | c :: _ =>
      if is_digit c then
        let '(v, rest) := scan_digits 0 l1 in
        Some (s32 (if neg : bool then - v else v), rest)
      else None
  | [] => None
  end.

(** [fgets(buffer, size, stream)]: at most [size - 1] characters, up to and
    including the first newline; [None] (a null pointer) at end of file. *)
Fixpoint fgets_chars (k : nat) (stream : list ascii)
  : list ascii * list ascii :=
  match k, stream with
  | S k', c :: r =>
      if Ascii.eqb c "010"%char then ([c], r)
      else let '(b, r') := fgets_chars k' r in (c :: b, r')
  | _, _ => ([], stream)
  end.

Definition fgets (size : nat) (stream : list ascii)
  : option (list ascii * list ascii) :=
  match stream with
  | [] => None
  | _ => Some (fgets_chars (size - 1) stream)
  end.

(** The C string held by a buffer: the characters before the first NUL. *)
Fixpoint c_string (buffer : list ascii) : list ascii :=
  match buffer with
  | c :: r => if Ascii.eqb c "000"%char then [] else c :: c_string r
  | [] => []
  end.

(** [sscanf(buffer, "p cnf %d %d%n", &n_vars, &n_clauses, &pos) == 2]: the
    two values and [buffer + pos]; [None] when fewer than two conversions
    succeed.  A blank in the format matches any amount of white space. *)
Definition scan_problem_line (buffer : list ascii)
  : option (Z * Z * list ascii) :=
  match c_string buffer with
  | "p"%char :: r1 =>
      match skip_space r1 with
      | "c"%char :: "n"%char :: "f"%char :: r2 =>
          match scan_int (skip_space r2) with
          | Some (nv, r3) =>
              match scan_int (skip_space r3) with
              | Some (nc, r4) => Some (nv, nc, r4)
              | None => None
              end
          | None => None
          end
      | _ => None
      end
  | _ => None
  end.

(** The loop [do { fgets } while (buffer[0] == 'c')]: the first line that is
    not a comment and the rest of the stream; [None] when [fgets] returns a
    null pointer. *)
Fixpoint skip_comments (fuel : nat) (stream : list ascii)
  : option (list ascii * list ascii) :=
  match fgets 255 stream with
  | None => None
  | Some (buffer, rest) =>
      match buffer with
      | "c"%char :: _ =>
          match fuel with
          | O => None
          | S fuel' => skip_comments fuel' rest
          end
      | _ => Some (buffer, rest)
      end
  end.

(** The inner loop [for (;;)] that reads one clause.  [Ret None] is the
    exit through [goto cleanup_solver]. *)
Fixpoint read_clause (fuel : nat) (s : Solver) (ci : nat)
    (stream : list ascii) : Result (option (Solver * list ascii)) :=
  match fuel with
  | O => Err OutOfFuel
  | S fuel' =>
      match scan_int stream with          (* fscanf(stream, " %d", &repr) *)
      | None => Ret None
      | Some (repr, rest) =>
          if repr =? 0 then Ret (Some (s, rest))
          else
            let* lit := lit_from_int repr in
            let* s' := add_literal_to_clause s ci lit in
            read_clause fuel' s' ci rest
      end
  end.

Fixpoint read_clauses (cis : list nat) (s : Solver) (stream : list ascii)
  : Result (option (Solver * list ascii)) :=
  match cis with
  | [] => Ret (Some (s, stream))
  | ci :: cis' =>
      let* r := read_clause (S (length stream)) s ci stream in
      match r with
      | None => Ret None
      | Some (s', rest) => read_clauses cis' s' rest
      end
  end.

(** The last loop of [read_problem]: the value the local variable [err]
    holds when the loop is left. *)
Fixpoint end_of_input (err : Error) (stream : list ascii) : Error :=
  match stream with
  | [] => err                                         (* c == EOF *)
  | c :: rest =>
      if Ascii.eqb c "255"%char then err              (* (char) 255 == EOF *)
      else if negb (is_space c) then end_of_input ERROR_INVALID_FORMAT rest
      else end_of_input err rest
  end.

(** [read_problem]: the error code returned and, when it is [ERROR_OK], the
    solver that was built. *)
Definition read_problem (stream : list ascii)
  : Result (Error * option Solver) :=
  match skip_comments (length stream) stream with
  | None => Ret (ERROR_INVALID_FORMAT, None)     (* Expected problem line *)
  | Some (buffer, rest) =>
      match buffer with
      | "p"%char :: _ =>
          match scan_problem_line buffer with
          | None => Ret (ERROR_INVALID_FORMAT, None)  (* Invalid problem line *)
          | Some (nv, nc, tail) =>
              if negb (forallb is_space (c_string tail))
              then Ret (ERROR_INVALID_FORMAT, None)
              else if nv <=? 0 then Ret (ERROR_INVALID_FORMAT, None)
              else if nc <=? 0 then Ret (ERROR_INVALID_FORMAT, None)
              else
                let* s := create_solver nv nc in
                let* r := read_clauses (seq 0 (Z.to_nat nc)) s rest in
                match r with
                | None => Ret (ERROR_INVALID_FORMAT, None)
                | Some (s', rest') =>
                    let err := end_of_input ERROR_OK rest' in
                    Ret (ERROR_OK, Some s')
                end
          end
      | _ => Ret (ERROR_INVALID_FORMAT, None)    (* Expected problem line *)
      end
  end.

(** * Specification-level definitions *)

(** ** Views of a solver state *)

(** The assignment flags and the occurrence lists, literal by literal, and
    the literal lists of the clauses. *)
Definition flags (s : Solver) : list (bool * bool) :=
  (fun ls => (fixed ls, assigned ls)) <$> lits s.

Definition occ (s : Solver) : list (list nat) := cont_clauses <$> lits s.

Definition formula (s : Solver) : list (list Z) := clause_lits <$> clauses s.

(** The value the solver currently gives to a literal code: [Some b] when
    its [LitState] has [fixed] set and [assigned = b], [None] otherwise. *)
Definition val (s : Solver) (lit : Z) : option bool :=
  if lit <? 0 then None
  else
    match flags s !! Z.to_nat lit with
    | Some (true, b) => Some b
    | _ => None
    end.

(** ** Truth assignments *)

(** A total assignment gives a truth value to every variable index. *)
Definition var_of_lit (lit : Z) : Z := lit / 2 + 1.

Definition lit_val (a : Z -> bool) (lit : Z) : bool :=
  if Z.odd lit then negb (a (var_of_lit lit)) else a (var_of_lit lit).

(** The value of a DIMACS integer: variable [repr] or the negation of
    variable [- repr]. *)
Definition repr_val (a : Z -> bool) (repr : Z) : bool :=
  if 0 <? repr then a repr else negb (a (- repr)).

Definition clause_true (a : Z -> bool) (cl : list Z) : Prop :=
  exists repr, repr ∈ cl /\ repr_val a repr = true.

Definition cnf_true (a : Z -> bool) (cls : list (list Z)) : Prop :=
  forall cl, cl ∈ cls -> clause_true a cl.

(** [a] makes every clause stored in the solver true. *)
Definition Models (a : Z -> bool) (s : Solver) : Prop :=
  forall cl, cl ∈ formula s -> exists lit, lit ∈ cl /\ lit_val a lit = true.

(** [a] agrees with every literal the solver has fixed. *)
Definition Ext (a : Z -> bool) (s : Solver) : Prop :=
  forall lit b, val s lit = Some b -> lit_val a lit = b.

(** The recovered assignment satisfies a clause of the input: one of its
    integers is encoded by a literal that is fixed and assigned true. *)
Definition clause_satisfied (s : Solver) (cl : list Z) : Prop :=
  exists repr lit,
    repr ∈ cl /\ lit_from_int repr = Ret lit /\ val s lit = Some true.

(** ** Counting *)

Fixpoint countZ {A : Type} (p : A -> bool) (l : list A) : Z :=
  match l with
  | [] => 0
  | x :: l' => (if p x then 1 else 0) + countZ p l'
  end.

Definition is_val (v : Z -> option bool) (x : option bool) (lit : Z) : bool :=
  bool_decide (v lit = x).

(** The counters of a clause agree with the view [v] of its literals. *)
Definition cnt_ok (v : Z -> option bool) (c : ClauseState) : Prop :=
  n_assigned_true c = countZ (is_val v (Some true)) (clause_lits c) /\
  n_assigned_false c = countZ (is_val v (Some false)) (clause_lits c) /\
  n_free_lits c = countZ (is_val v None) (clause_lits c).

Definition clause_sat (c : ClauseState) : bool :=
  negb (n_assigned_true c =? 0).

(** A clause that went through the transition counted by
    [n_unsat_clauses]: no true literal, no free literal, and at least one
    false literal. *)
Definition clause_unsat (c : ClauseState) : bool :=
  (n_assigned_true c =? 0) && (n_free_lits c =? 0)
  && negb (n_assigned_false c =? 0).

(** A clause that can still become unit. *)
Definition clause_open (c : ClauseState) : bool :=
  (n_assigned_true c =? 0) && (2 <=? n_free_lits c).

(** ** Solver invariants *)

(** What is assumed of a run.  [in_bounds]: the unit stack is known to
    have at least [n_clauses] slots.  [asserted]: the formula is known to
    be [Clean], that is, to have no empty clause and few enough clauses for
    the product of two scores to fit in an [unsigned int]. *)
Record Mode : Type := mkMode { in_bounds : Prop; asserted : Prop }.

Definition lax : Mode := mkMode False False.
Definition bounded : Mode := mkMode True False.
Definition total : Mode := mkMode True True.

(** A literal scores at most 4 for each clause, so with at most 16383
    clauses a score is at most 65532 and [(a + 1) * (b + 1) < 2^32]. *)
Definition SCORED_CLAUSES : Z := 16383.

Definition Clean (s : Solver) : Prop :=
  n_clauses s <= SCORED_CLAUSES /\
  forall cl, cl ∈ formula s -> cl <> [].

(** What construction fixes for the lifetime of the solver. *)
Record Shape (strict : Mode) (s : Solver) : Prop := mkShape {
  shape_vars : 0 < n_vars s <= INT_MAX;
  shape_clauses : 0 <= n_clauses s <= INT_MAX;
  shape_lits : length (lits s) = Z.to_nat (2 * n_vars s);
  shape_cls : length (clauses s) = Z.to_nat (n_clauses s);
  shape_trail : length (solver_assigned s) = Z.to_nat (2 * n_vars s);
  shape_stack : in_bounds strict ->
    (Z.to_nat (n_clauses s) <= length (unit_stack s))%nat;
  shape_clean : asserted strict -> Clean s;
  shape_clause_lits : forall ci cl, formula s !! ci = Some cl ->
    NoDup cl /\ forall lit, lit ∈ cl -> 0 <= lit < 2 * n_vars s;
  shape_occ : forall lit L, 0 <= lit -> occ s !! Z.to_nat lit = Some L ->
    NoDup L /\
    forall ci, ci ∈ L <-> exists cl, formula s !! ci = Some cl /\ lit ∈ cl
}.

(** The counters, while the clauses listed in [pending] still await the
    update that takes them from the view [vold] to the view [v]. *)
Record Counters (v vold : Z -> option bool) (pending : list nat)
    (s : Solver) : Prop := mkCounters {
  cnt_pending : forall ci c, ci ∈ pending -> clauses s !! ci = Some c ->
    cnt_ok vold c;
  cnt_done : forall ci c, ci ∉ pending -> clauses s !! ci = Some c ->
    cnt_ok v c;
  cnt_sat : n_sat_clauses s = countZ clause_sat (clauses s);
  cnt_unsat : n_unsat_clauses s = countZ clause_unsat (clauses s)
}.

(** The unit stack: its height is bounded through the clauses that can
    still become unit, and every literal on it is forced by the clauses
    under the current assignment. *)
Record Units (s : Solver) : Prop := mkUnits {
  units_nonneg : 0 <= n_units s;
  units_fit : (Z.to_nat (n_units s) <= length (unit_stack s))%nat;
  units_pot : n_units s + countZ clause_open (clauses s) <= n_clauses s;
  units_lits : forall u, u ∈ take (Z.to_nat (n_units s)) (unit_stack s) ->
    0 <= u < 2 * n_vars s;
  units_forced : forall a, Models a s -> Ext a s ->
    forall u, u ∈ take (Z.to_nat (n_units s)) (unit_stack s) ->
    lit_val a u = true
}.

(** The assignment flags and the trail. *)
Record Trail (s : Solver) : Prop := mkTrail {
  trail_pair : forall lit, 0 <= lit < 2 * n_vars s ->
    val s (negate lit) = negb <$> val s lit;
  trail_nonneg : 0 <= n_assigned s;
  trail_nodup : NoDup (take (Z.to_nat (n_assigned s)) (solver_assigned s));
  trail_lits : forall lit,
    lit ∈ take (Z.to_nat (n_assigned s)) (solver_assigned s) <->
    val s lit = Some true
}.

Record Inv (strict : Mode) (s : Solver) : Prop := mkInv {
  inv_shape : Shape strict s;
  inv_counters : Counters (val s) (val s) [] s;
  inv_units : Units s;
  inv_trail : Trail s
}.

(** ** Relations between two states *)

(** Nothing but the scores (and the statistics) may differ. *)
Definition score_eq (s s' : Solver) : Prop :=
  n_vars s' = n_vars s /\ n_clauses s' = n_clauses s /\
  flags s' = flags s /\ occ s' = occ s /\ clauses s' = clauses s /\
  n_sat_clauses s' = n_sat_clauses s /\
  n_unsat_clauses s' = n_unsat_clauses s /\
  n_units s' = n_units s /\ n_assigned s' = n_assigned s /\
  unit_stack s' = unit_stack s /\ solver_assigned s' = solver_assigned s.

(** What the four counter primitives leave alone. *)
Definition prim_frame (s s' : Solver) : Prop :=
  n_vars s' = n_vars s /\ n_clauses s' = n_clauses s /\
  lits s' = lits s /\ formula s' = formula s /\
  n_assigned s' = n_assigned s /\ solver_assigned s' = solver_assigned s /\
  length (unit_stack s') = length (unit_stack s).

(** What the whole search leaves alone. *)
Definition same_problem (s s' : Solver) : Prop :=
  n_vars s' = n_vars s /\ n_clauses s' = n_clauses s /\
  occ s' = occ s /\ formula s' = formula s /\
  length (lits s') = length (lits s) /\
  length (unit_stack s') = length (unit_stack s) /\
  length (solver_assigned s') = length (solver_assigned s).

(** The trail of [s'] starts with the trail of [s]. *)
Definition trail_prefix (s s' : Solver) : Prop :=
  n_assigned s <= n_assigned s' /\
  take (Z.to_nat (n_assigned s)) (solver_assigned s') =
  take (Z.to_nat (n_assigned s)) (solver_assigned s).

(** ** Execution without faults

    [safe strict r Q]: the run [r] either returns a result satisfying [Q],
    or stops for lack of fuel, or stops on a fault that [strict] does not
    exclude: an out-of-bounds access is possible only if the unit stack is
    not known to be large enough, a failed assertion only if the formula
    is not known to be clean. *)
Definition safe {A : Type} (strict : Mode) (r : Result A) (Q : A -> Prop)
  : Prop :=
  match r with
  | Ret a => Q a
  | Err OutOfBounds => ~ in_bounds strict
  | Err AssertionFailed => ~ asserted strict
  | Err OutOfFuel => True
  end.

(** No score exceeds [b]. *)
Definition scores_le (b : Z) (s : Solver) : Prop :=
  forall i ls, lits s !! i = Some ls -> 0 <= score ls <= b.

(** The run does not stop for lack of fuel: the loops and the recursion of
    the program come to an end within the fuel given. *)
Definition fueled {A : Type} (r : Result A) : Prop := r <> Err OutOfFuel.

(** Fuel that is enough for [search_assignments] from [s]: one unit for
    every level of the recursion and, at every level, one for every
    iteration of the propagation loop. *)
Definition search_fuel (s : Solver) : Z :=
  (n_vars s - n_assigned s) * (n_clauses s + 2) + 1.

(** The state of a loop over an occurrence list: the clauses of [pending]
    contain [lit] and await their update. *)
Record Phase (v vold : Z -> option bool) (lit : Z) (s0 : Solver)
    (pending : list nat) (s : Solver) : Prop := mkPhase {
  ph_frame : prim_frame s0 s;
  ph_nodup : NoDup pending;
  ph_pending : forall ci, ci ∈ pending ->
    exists cl, formula s !! ci = Some cl /\ lit ∈ cl;
  ph_counters : Counters v vold pending s
}.

(** The view after [lit] is made true, and after that is undone. *)
Definition assigned_view (s : Solver) (lit z : Z) : option bool :=
  if decide (z = lit) then Some true
  else if decide (z = negate lit) then Some false
  else val s z.

Definition unassigned_view (s : Solver) (lit z : Z) : option bool :=
  if decide (z = lit) then None
  else if decide (z = negate lit) then None
  else val s z.

(** Only the array [lits] may differ. *)
Definition only_lits (s s' : Solver) : Prop := s' = set_lits (lits s') s.

(** What a call of [search_assignments] from [s] guarantees about its
    result. *)
Definition search_post (strict : Mode) (s : Solver)
    (r : Solution * Solver) : Prop :=
  Inv strict (snd r) /\ n_units (snd r) = 0 /\
  same_problem s (snd r) /\ trail_prefix s (snd r) /\
  match fst r with
  | SOLUTION_UNSATISFIABLE =>
      n_assigned (snd r) = n_assigned s /\
      forall a, Models a s -> ~ Ext a s
  | SOLUTION_SATISFIABLE => n_sat_clauses (snd r) = n_clauses (snd r)
  | SOLUTION_UNKNOWN => False
  end.

(** What a call of [try_assignment] from [s] with [branch] guarantees. *)
Definition try_post (strict : Mode) (s : Solver) (branch : Z)
    (r : Solution * Solver) : Prop :=
  Inv strict (snd r) /\ n_units (snd r) = 0 /\
  same_problem s (snd r) /\ trail_prefix s (snd r) /\
  match fst r with
  | SOLUTION_UNSATISFIABLE =>
      n_assigned (snd r) = n_assigned s /\
      forall a, Models a s -> Ext a s -> lit_val a branch = false
  | SOLUTION_SATISFIABLE =>
      n_sat_clauses (snd r) = n_clauses (snd r) /\
      n_assigned s < n_assigned (snd r) /\
      solver_assigned (snd r) !! Z.to_nat (n_assigned s) = Some branch
  | SOLUTION_UNKNOWN => False
  end.

(** A solver under construction: nothing is assigned, and clause [ci] holds
    the literals of the integers [inp ci] read for it so far. *)
Record Loading (strict : Mode) (inp : nat -> list Z) (s : Solver)
  : Prop := mkLoading {
  ld_shape : Shape (mkMode (in_bounds strict) False) s;
  ld_flags : forall i ls, lits s !! i = Some ls -> fixed ls = false;
  ld_counts : forall ci c, clauses s !! ci = Some c ->
    n_assigned_true c = 0 /\ n_assigned_false c = 0 /\
    n_free_lits c = n_lits c;
  ld_zero : n_sat_clauses s = 0 /\ n_unsat_clauses s = 0 /\
            n_units s = 0 /\ n_assigned s = 0;
  ld_input : forall ci c, clauses s !! ci = Some c ->
    forall lit, lit ∈ clause_lits c <->
                exists repr, repr ∈ inp ci /\ lit_from_int repr = Ret lit;
  ld_reprs : forall ci repr, repr ∈ inp ci ->
    exists lit, lit_from_int repr = Ret lit
}.


(** ** Inputs *)

(** The header values and the integers of the clauses are C [int]s, as
    [read_problem] reads them with [%d]; the number of variables is
    positive. *)
Definition cnf_ints (num_vars : Z) (cls : list (list Z)) : Prop :=
  0 < num_vars <= INT_MAX /\
  Z.of_nat (length cls) <= INT_MAX /\
  forall cl repr, cl ∈ cls -> repr ∈ cl -> - INT_MAX - 1 <= repr <= INT_MAX.

(** Formulas used as concrete instances. *)
Definition cnf_toy : list (list Z) := [[1; 2; 3]; [-1; -2]; [-2; -3]].

Definition cnf_contradiction : list (list Z) := [[1]; [-1]].

Definition cnf_empty_clause : list (list Z) := [[]].


(** Input streams used as concrete instances, given line by line. *)
Definition LF : ascii := "010"%char.

Definition text_lines (ls : list string) : list ascii :=
  concat ((fun l => list_ascii_of_string l ++ [LF]) <$> ls).

Definition stream_empty_clause : list ascii :=
  text_lines ["p cnf 1 1"%string; "0"%string].

Definition stream_trailing_junk : list ascii :=
  text_lines ["p cnf 1 1"%string; "1 0"%string] ++ ["x"%char].

(** A formula on which the branching score wraps around: variable 1 occurs
    in no clause, and variable 2 occurs in [k] clauses [x2] and in [k]
    clauses [~x2]; with [k = 65535] the score of the pair is
    [65536 * 65536 = 2^32]. *)
Definition cnf_overflow (k : nat) : list (list Z) :=
  replicate k [2] ++ replicate k [-2].

Definition overflow_count : nat := Z.to_nat 65535.

(** The solver states met on [cnf_overflow k]: the flags [f], [a] of
    variable 1, the scores [sc2], [sc3] of the two literals of variable 2,
    the length [na] of the trail and the counter [tb] of branches. *)
Definition overflow_solver (k : nat) (f a : bool) (sc2 sc3 na tb : Z)
  : Solver :=
  mkSolver 2 (Z.of_nat (k + k))
    [mkLit f a 0 []; mkLit f false 0 [];
     mkLit false false sc2 (seq 0 k); mkLit false false sc3 (seq k k)]
    (replicate k (mkClause [2] 0 0 1) ++ replicate k (mkClause [3] 0 0 1))
    0 0 0 na
    (replicate (Z.to_nat (u32 (4 + Z.of_nat (k + k)))) 0)
    [0; 0; 0; 0] SOLUTION_UNKNOWN tb 0.


(** ** Views used by the further properties *)

(** The integers of a clause without the repetitions: of the integers
    that occur more than once (or occur in [seen]) the first occurrence is
    kept. *)
Fixpoint first_occurrences (seen l : list Z) : list Z :=
  match l with
  | [] => []
  | x :: l' =>
      if existsb (Z.eqb x) seen then first_occurrences seen l'
      else x :: first_occurrences (x :: seen) l'
  end.

(** Whether the state of a literal code says [fixed == false]. *)
Definition unfixed (s : Solver) (lit : Z) : bool :=
  match lits s !! Z.to_nat lit with
  | Some ls => negb (fixed ls)
  | None => false
  end.

(** What a clause adds to the score of each of its literals that is not
    fixed: nothing once it has a true literal, and else a weight that
    depends on the number of its free literals. *)
Definition clause_weight (c : ClauseState) : Z :=
  if n_assigned_true c =? 0 then score_weight (n_free_lits c) else 0.

(** The score of a literal with state [ls], as a function of the clauses
    of [s]: the weights of the clauses on its occurrence list, added up in
    [unsigned int]; zero for a fixed literal. *)
Definition occurrence_score (s : Solver) (ls : LitState) : Z :=
  if fixed ls then 0
  else u32 (foldr Z.add 0
              ((fun ci => from_option clause_weight 0 (clauses s !! ci))
                 <$> cont_clauses ls)).

(** The inner loop of [update_scores], as a fold over the occurrence
    list. *)
Definition add_weights (s : Solver) (acc : Z) (l : list nat) : Z :=
  foldl (fun a ci =>
           match clauses s !! ci with
           | Some c => if n_assigned_true c =? 0
                       then u32 (a + score_weight (n_free_lits c)) else a
           | None => a
           end) acc l.


(** The score of a literal code, and the score [(a + 1) * (b + 1)] that
    [choose_branch] gives to the pair of a literal and its negation. *)
Definition lit_score (s : Solver) (lit : Z) : Z :=
  from_option score 0 (lits s !! Z.to_nat lit).

Definition pair_score (s : Solver) (lit : Z) : Z :=
  u32 (u32 (lit_score s lit + 1) * u32 (lit_score s (negate lit) + 1)).

(** ** The integers read by [read_problem] *)

(** The integers the inner loop of [read_problem] reads for one clause, up
    to the terminating [0], with the rest of the stream; the rest is
    [None] when the loop is left because no integer could be read. *)
Fixpoint scan_clause (fuel : nat) (stream : list ascii)
  : list Z * option (list ascii) :=
  match fuel with
  | O => ([], None)
  | S fuel' =>
      match scan_int stream with
      | None => ([], None)
      | Some (repr, rest) =>
          if repr =? 0 then ([], Some rest)
          else let '(cl, r) := scan_clause fuel' rest in (repr :: cl, r)
      end
  end.

(** The clauses read by [n] rounds of the outer loop; when a round fails
    the integers it read before failing are its clause, and the last
    one. *)
Fixpoint scan_clauses (n : nat) (stream : list ascii)
  : list (list Z) * option (list ascii) :=
  match n with
  | O => ([], Some stream)
  | S n' =>
      match scan_clause (S (length stream)) stream with
      | (cl, None) => ([cl], None)
      | (cl, Some rest) =>
          let '(cls, r) := scan_clauses n' rest in (cl :: cls, r)
      end
  end.

(** The problem line, after the comments: the two numbers accepted by
    [read_problem] and the stream that follows the line. *)
Definition scan_header (stream : list ascii) : option (Z * Z * list ascii) :=
  match skip_comments (length stream) stream with
  | Some ("p"%char :: line, rest) =>
      match scan_problem_line ("p"%char :: line) with
      | Some (nv, nc, tail) =>
          if forallb is_space (c_string tail) && (0 <? nv) && (0 <? nc)
          then Some (nv, nc, rest) else None
      | None => None
      end
  | _ => None
  end.

(** The formula written in a DIMACS stream: the number of variables and
    the clauses, when the problem line is accepted and all the clauses it
    announces can be read. *)
Definition parse_dimacs (stream : list ascii) : option (Z * list (list Z)) :=
  match scan_header stream with
  | Some (nv, nc, body) =>
      match scan_clauses (Z.to_nat nc) body with
      | (cls, Some _) => Some (nv, cls)
      | (_, None) => None
      end
  | None => None
  end.

(** A run whose only possible fault is an access outside an array. *)
Definition only_out_of_bounds {A : Type} (r : Result A) : Prop :=
  forall f, r = Err f -> f = OutOfBounds.


(** ** The command line (options.c)

    [argv] is the list of the arguments, [argv[0]] included; [argc] is its
    length.  A null pointer is [None].  The diagnostics written to
    [stderr] are not part of the model. *)

Inductive Action : Type :=
| ACTION_SOLVE_PROBLEM
| ACTION_SHOW_HELP
| ACTION_SHOW_VERSION.

Record Options : Type := mkOptions {
  infile : option string;
  outfile : option string;
  action : Action
}.

Definition set_infile (v : option string) (o : Options) : Options :=
  mkOptions v (outfile o) (action o).

Definition set_outfile (v : option string) (o : Options) : Options :=
  mkOptions (infile o) v (action o).

Definition set_action (v : Action) (o : Options) : Options :=
  mkOptions (infile o) (outfile o) v.

(** [strncmp(arg, "-", 1) == 0]. *)
Definition is_option (arg : string) : bool :=
  match arg with
  | String "-"%char _ => true
  | _ => false
  end.

(** The loop of [parse_options] over the arguments still to be read,
    [argv[i..argc)]. *)
Fixpoint parse_args (opts : Options) (args : list string)
  : Error * Options :=
  match args with
  | [] => (ERROR_OK, opts)
  | arg :: rest =>
      if is_option arg then
        if String.eqb arg "--help" then
          parse_args (set_action ACTION_SHOW_HELP opts) rest
        else if String.eqb arg "--version" then
          parse_args (set_action ACTION_SHOW_VERSION opts) rest
        else if String.eqb arg "-o" then
          match rest with
          | file :: rest' => parse_args (set_outfile (Some file) opts) rest'
          | [] => (ERROR_INVALID_USAGE, opts)
          end
        else (ERROR_INVALID_USAGE, opts)
      else
        match infile opts with
        | None => parse_args (set_infile (Some arg) opts) rest
        | Some _ => (ERROR_INVALID_USAGE, opts)
        end
  end.

(** [parse_options]: the error code returned and the options as they are
    left in [*opts]. *)
Definition parse_options (argv : list string) : Error * Options :=
  parse_args (mkOptions None None ACTION_SOLVE_PROBLEM) (tail argv).

(** ** Writing the solution (format.c)

    The output stream is the list of the characters written.  The text
    that [%f] prints for the elapsed time depends on the clock and is a
    parameter of the model, as is the program name and version printed on
    the first line. *)

Definition digit_char (d : Z) : ascii := ascii_of_nat (Z.to_nat (48 + d)).

(** The decimal digits of [n], most significant first, in front of [acc];
    [fuel] bounds the number of digits. *)
Fixpoint print_digits (fuel : nat) (n : Z) (acc : list ascii) : list ascii :=
  match fuel with
  | O => acc
  | S fuel' =>
      let acc' := digit_char (n mod 10) :: acc in
      if n <? 10 then acc' else print_digits fuel' (n / 10) acc'
  end.

(** The conversion [%d] of [printf] for an [int]: at most ten digits. *)
Definition print_int (n : Z) : list ascii :=
  if n <? 0 then "-"%char :: print_digits 10 (- n) []
  else print_digits 10 n [].

Definition solution_line (sol : Solution) : list ascii :=
  match sol with
  | SOLUTION_SATISFIABLE => list_ascii_of_string "s SATISFIABLE" ++ [LF]
  | SOLUTION_UNSATISFIABLE => list_ascii_of_string "s UNSATISFIABLE" ++ [LF]
  | SOLUTION_UNKNOWN => list_ascii_of_string "s UNKNOWN" ++ [LF]
  end.

(** Part 1 of [write_solution].  The two counters are [unsigned int]s
    printed with [%d]. *)
Definition write_statistics (banner elapsed : list ascii) (s : Solver)
  : list ascii :=
  list_ascii_of_string "c Generated by " ++ banner ++ [LF] ++
  list_ascii_of_string "c" ++ [LF] ++
  list_ascii_of_string "c Performance statistics" ++ [LF] ++
  list_ascii_of_string "c ----------------------" ++ [LF] ++
  list_ascii_of_string "c Elapsed time:       " ++ elapsed ++
  list_ascii_of_string " (s)" ++ [LF] ++
  list_ascii_of_string "c Attempted branches: " ++
  print_int (s32 (t_branches s)) ++ [LF] ++
  list_ascii_of_string "c Unit propagations:  " ++
  print_int (s32 (t_unit_props s)) ++ [LF] ++
  list_ascii_of_string "c" ++ [LF].

(** [sprintf(buffer, " %d", int_from_lit(lit))]. *)
Definition print_literal (lit : Z) : list ascii :=
  " "%char :: print_int (int_from_lit lit).

(** One iteration of the loop of part 3; the state is the text written
    since the [v] that opens the part, and [column]. *)
Definition write_literal (s : Solver) (st : list ascii * Z) (lit : Z)
  : Result (list ascii * Z) :=
  let* ls := lit_at s lit in
  if fixed ls && assigned ls then
    let buffer := print_literal lit in
    let numlen := Z.of_nat (length buffer) in
    let st1 :=
      if 79 <? snd st + numlen then (fst st ++ [LF; "v"%char], 1) else st in
    Ret (fst st1 ++ buffer, u32 (snd st1 + numlen))
  else Ret st.

(** Part 3 of [write_solution]. *)
Definition write_assignment (s : Solver) : Result (list ascii) :=
  let* st := foldM (write_literal s) (all_lits s) (["v"%char], 2) in
  if 79 <? u32 (snd st + 2)
  then Ret (fst st ++ LF :: list_ascii_of_string "v 0" ++ [LF])
  else Ret (fst st ++ list_ascii_of_string " 0" ++ [LF]).

Definition write_solution (banner elapsed : list ascii) (s : Solver)
  : Result (list ascii) :=
  let head := write_statistics banner elapsed s ++ solution_line (solution s) in
  match solution s with
  | SOLUTION_SATISFIABLE =>
      let* v := write_assignment s in Ret (head ++ v)
  | _ => Ret head
  end.

(** The literals that are fixed and assigned true, in the order of their
    codes, and the words of the [v] lines: one for each of them, then
    [0]. *)
Definition true_lits (s : Solver) : list Z :=
  filter (fun lit => val s lit = Some true) (all_lits s).

Definition value_words (s : Solver) : list (list ascii) :=
  (print_literal <$> true_lits s) ++ [list_ascii_of_string " 0"].

(** The words, each one after a line break ([newline], [v]) or not. *)
Definition laid_out (breaks : list bool) (words : list (list ascii))
  : list ascii :=
  concat (zip_with (fun (b : bool) w => (if b then [LF; "v"%char] else []) ++ w)
            breaks words).

(** The length of the longest line of a text: the state is the length of
    the line being read and the greatest length of the lines before. *)
Definition line_state (st : nat * nat) (c : ascii) : nat * nat :=
  if Ascii.eqb c LF then (O, Nat.max (fst st) (snd st))
  else (S (fst st), snd st).

Definition widest_line (text : list ascii) : nat :=
  let st := foldl line_state (O, O) text in Nat.max (fst st) (snd st).

(** The state of the loop of part 3 after the words [words] have been
    written: the text is the words laid out, no line so far is longer
    than 79, and [column] is at least the length of the current line. *)
Definition values_written (words : list (list ascii)) (st : list ascii * Z)
  : Prop :=
  exists breaks cur best,
    length breaks = length words /\
    fst st = "v"%char :: laid_out breaks words /\
    foldl line_state (O, O) (fst st) = (cur, best) /\
    (best <= 79)%nat /\ Z.of_nat cur <= snd st <= 79.

(** ** The program (main.c)

    The environment of a run: the files that [fopen] can open for reading,
    with their contents, the files it can open for writing, the standard
    input, and the two texts that [write_solution] takes as parameters. *)
Record World : Type := mkWorld {
  file_contents : string -> option (list ascii);
  file_writable : string -> bool;
  standard_input : list ascii;
  banner_text : list ascii;
  elapsed_text : list ascii
}.

(** What a run writes: nothing, a text on the standard output, or a text
    in the file [name]. *)
Inductive Written : Type :=
| NothingWritten
| ToStdout (text : list ascii)
| ToFile (name : string) (text : list ascii).

Record Outcome : Type := mkOutcome {
  exit_code : Z;
  written : Written
}.

Definition EXIT_SUCCESS : Z := 0.
Definition EXIT_FAILURE : Z := 1.

Definition set_solution (v : Solution) (s : Solver) : Solver :=
  mkSolver (n_vars s) (n_clauses s) (lits s) (clauses s) (n_sat_clauses s)
    (n_unsat_clauses s) (n_units s) (n_assigned s) (unit_stack s)
    (solver_assigned s) v (t_branches s) (t_unit_props s).

(** [solve_problem].  [read_problem] hands over a solver exactly when it
    returns [ERROR_OK].  The search is given the fuel [search_fuel]. *)
Definition solve_problem (w : World) (opts : Options)
  : Result (Error * Written) :=
  let* r :=
    match infile opts with
    | Some name =>
        match file_contents w name with
        | None => Ret (ERROR_FILE_ACCESS, None)
        | Some stream => read_problem stream
        end
    | None => read_problem (standard_input w)
    end in
  match r with
  | (ERROR_OK, Some s) =>
      let* (sol, s1) := search_assignments (Z.to_nat (search_fuel s)) s in
      let s2 := set_solution sol s1 in
      match outfile opts with
      | Some name =>
          if file_writable w name then
            let* text := write_solution (banner_text w) (elapsed_text w) s2 in
            Ret (ERROR_OK, ToFile name text)
          else Ret (ERROR_FILE_ACCESS, NothingWritten)
      | None =>
          let* text := write_solution (banner_text w) (elapsed_text w) s2 in
          Ret (ERROR_OK, ToStdout text)
      end
  | (err, _) => Ret (err, NothingWritten)
  end.

Definition help_text : list ascii :=
  text_lines ["Usage: simplesat [options] <file>"%string;
              "Options:"%string;
              "  --help     Show this help text"%string;
              "  --version  Show the program version"%string;
              "  -o <file>  Set the output file"%string].

Definition exit_status (err : Error) : Z :=
  match err with
  | ERROR_OK => EXIT_SUCCESS
  | _ => EXIT_FAILURE
  end.

Definition main (w : World) (argv : list string) : Result Outcome :=
  match parse_options argv with
  | (ERROR_OK, opts) =>
      match action opts with
      | ACTION_SOLVE_PROBLEM =>
          let* r := solve_problem w opts in
          Ret (mkOutcome (exit_status (fst r)) (snd r))
      | ACTION_SHOW_HELP => Ret (mkOutcome EXIT_SUCCESS (ToStdout help_text))
      | ACTION_SHOW_VERSION =>
          Ret (mkOutcome EXIT_SUCCESS (ToStdout (banner_text w ++ [LF])))
      end
  | (err, _) => Ret (mkOutcome (exit_status err) NothingWritten)
  end.

(** A file and an environment used as concrete instances. *)
Definition stream_toy : list ascii :=
  text_lines ["c a comment"%string; "p cnf 3 3"%string; "1 2 3 0"%string;
              "-1 -2 0 -2"%string; "-3 0"%string].

Definition world_toy : World :=
  mkWorld
    (fun name => if String.eqb name "toy.cnf" then Some stream_toy else None)
    (fun _ => false) []
    (list_ascii_of_string "SimpleSAT 0.0.1")
    (list_ascii_of_string "0.000002").

(** A formula and the solver states met on it when the problem line
    announces so many variables that the capacity computed for the unit
    stack wraps around: [x1 \/ x2] and [~x1 \/ ~x2] with [4 + m] literal
    codes, the four literals that occur in a clause having score [sc]. *)
Definition cnf_exclusive : list (list Z) := [[1; 2]; [-1; -2]].

Definition exclusive_solver (nv : Z) (m : nat) (sc : Z) : Solver :=
  mkSolver nv 2
    ([mkLit false false sc [0%nat]; mkLit false false sc [1%nat];
      mkLit false false sc [0%nat]; mkLit false false sc [1%nat]]
     ++ replicate m create_lit_state)
    [mkClause [0; 2] 0 0 2; mkClause [1; 3] 0 0 2]
    0 0 0 0 [] (replicate (4 + m) 0) SOLUTION_UNKNOWN 0 0.

Definition stream_exclusive : list ascii :=
  text_lines ["p cnf 2147483647 2"%string; "1 2 0"%string; "-1 -2 0"%string].

(** * Properties *)

(** ** The result monad *)

Lemma bind_Ret_inv {A B : Type} (m : Result A) (k : A -> Result B) (b : B) :
  bind m k = Ret b -> exists a, m = Ret a /\ k a = Ret b.
Proof. destruct m as [a|f]; simpl; [eauto | discriminate]. Qed.

Lemma assert_Ret_inv (b : bool) (u : unit) : assert b = Ret u -> b = true.
Proof. destruct b; [reflexivity | discriminate]. Qed.

Lemma foldM_app {S A : Type} (f : S -> A -> Result S) (l1 l2 : list A) (s : S) :
  foldM f (l1 ++ l2) s = let* s' := foldM f l1 s in foldM f l2 s'.
Proof.
  revert s; induction l1 as [|x l1 IH]; intros s; simpl; [reflexivity|].
  destruct (f s x); simpl; [apply IH | reflexivity].
Qed.

(** A property kept by every iteration is kept by the loop. *)
Lemma foldM_preserves {S A : Type} (P : S -> Prop) (f : S -> A -> Result S)
    (l : list A) :
  (forall s x s', x ∈ l -> P s -> f s x = Ret s' -> P s') ->
  forall s s', P s -> foldM f l s = Ret s' -> P s'.
Proof.
  induction l as [|x l IH]; intros Hf s s' HP H; simpl in H.
  - congruence.
  - apply bind_Ret_inv in H as (s1 & H1 & H2).
    eapply IH; [| |exact H2].
    + intros; eapply Hf; eauto. now right.
    + eapply Hf; eauto. now left.
Qed.

(** ** Machine arithmetic *)

Lemma u32_range (z : Z) : 0 <= u32 z < UINT_MODULUS.
Proof. unfold u32, UINT_MODULUS. apply Z.mod_pos_bound. lia. Qed.

Lemma u32_small (z : Z) : 0 <= z < UINT_MODULUS -> u32 z = z.
Proof. unfold u32. apply Z.mod_small. Qed.

Lemma s32_small (z : Z) : - 2147483648 <= z <= INT_MAX -> s32 z = z.
Proof.
  unfold s32, INT_MAX, UINT_MODULUS. intros H.
  rewrite Z.mod_small; lia.
Qed.

Lemma shiftl_1 (z : Z) : Z.shiftl z 1 = 2 * z.
Proof. rewrite Z.shiftl_mul_pow2 by lia. lia. Qed.

Lemma shiftr_1 (z : Z) : Z.shiftr z 1 = z / 2.
Proof. rewrite Z.shiftr_div_pow2 by lia. reflexivity. Qed.

Lemma land_1 (z : Z) : Z.land z 1 = z mod 2.
Proof. change 1 with (Z.ones 1) at 1. rewrite Z.land_ones by lia. reflexivity. Qed.

Lemma lor_even_1 (k : Z) : Z.lor (2 * k) 1 = 2 * k + 1.
Proof.
  assert (H : Z.land (2 * k) 1 = 0).
  { rewrite land_1, Z.mul_comm. apply Z.mod_mul. lia. }
  rewrite <- (Z.lxor_lor _ _ H). symmetry. apply Z.add_nocarry_lxor, H.
Qed.

Lemma lxor_even_1 (k : Z) : Z.lxor (2 * k) 1 = 2 * k + 1.
Proof.
  assert (H : Z.land (2 * k) 1 = 0).
  { rewrite land_1, Z.mul_comm. apply Z.mod_mul. lia. }
  symmetry. apply Z.add_nocarry_lxor, H.
Qed.

Lemma lxor_odd_1 (k : Z) : Z.lxor (2 * k + 1) 1 = 2 * k.
Proof.
  rewrite <- lxor_even_1, Z.lxor_assoc, Z.lxor_nilpotent, Z.lxor_0_r.
  reflexivity.
Qed.

Lemma negate_even (k : Z) : negate (2 * k) = 2 * k + 1.
Proof. apply lxor_even_1. Qed.

Lemma negate_odd (k : Z) : negate (2 * k + 1) = 2 * k.
Proof. apply lxor_odd_1. Qed.

Lemma negate_involutive (lit : Z) : negate (negate lit) = lit.
Proof.
  unfold negate. rewrite Z.lxor_assoc, Z.lxor_nilpotent, Z.lxor_0_r.
  reflexivity.
Qed.

Lemma parity_split (z : Z) : exists k, z = 2 * k \/ z = 2 * k + 1.
Proof.
  exists (z / 2). pose proof (Z.div_mod z 2 ltac:(lia)).
  pose proof (Z.mod_pos_bound z 2 ltac:(lia)). lia.
Qed.

Lemma negate_range (lit n : Z) :
  0 <= lit < 2 * n -> 0 <= negate lit < 2 * n.
Proof.
  intros H. destruct (parity_split lit) as [k [-> | ->]].
  - rewrite negate_even. lia.
  - rewrite negate_odd. lia.
Qed.

Lemma negate_neq (lit : Z) : negate lit <> lit.
Proof.
  destruct (parity_split lit) as [k [-> | ->]].
  - rewrite negate_even. lia.
  - rewrite negate_odd. lia.
Qed.

(** ** Literal encoding *)

(** C9. For every nonzero [n] whose absolute value is a variable index
    (at most [n_vars], itself an [int]), [lit_from_int] succeeds,
    [int_from_lit (lit_from_int n) = n], a positive [n] goes to the even
    code [(n - 1) << 1] and a negative one to the odd code
    [((- n - 1) << 1) | 1]; and [int_from_lit] is the inverse on every
    literal code of the solver. *)
Theorem int_from_lit_lit_from_int (nvars n : Z) :
  0 < nvars <= INT_MAX -> n <> 0 -> Z.abs n <= nvars ->
  exists lit,
    lit_from_int n = Ret lit /\
    int_from_lit lit = n /\
    (0 < n -> lit = Z.shiftl (n - 1) 1 /\ Z.even lit = true) /\
    (n < 0 -> lit = Z.lor (Z.shiftl (- n - 1) 1) 1 /\ Z.odd lit = true) /\
    (forall l, 0 <= l < 2 * nvars -> lit_from_int (int_from_lit l) = Ret l).
Proof.
  unfold INT_MAX. intros Hnv Hn Habs.
  assert (Hinv : forall l, 0 <= l < 2 * nvars ->
                   lit_from_int (int_from_lit l) = Ret l).
  { intros l Hl. unfold lit_from_int, int_from_lit.
    rewrite land_1, shiftr_1.
    destruct (parity_split l) as [k [-> | ->]].
    - replace ((2 * k) mod 2) with 0
        by (rewrite Z.mul_comm, Z.mod_mul; lia).
      replace (2 * k / 2) with k by (rewrite Z.mul_comm, Z.div_mul; lia).
      simpl negb. cbv iota.
      rewrite (u32_small (k + 1)) by (unfold UINT_MODULUS; lia).
      rewrite s32_small by (unfold INT_MAX; lia).
      replace (k + 1 =? 0) with false by (symmetry; apply Z.eqb_neq; lia).
      simpl. replace (0 <? k + 1) with true by (symmetry; apply Z.ltb_lt; lia).
      rewrite shiftl_1, u32_small by (unfold UINT_MODULUS; lia).
      f_equal. lia.
    - replace ((2 * k + 1) mod 2) with 1
        by (rewrite Z.add_comm, Z.mul_comm, Z.mod_add; [reflexivity | lia]).
      replace ((2 * k + 1) / 2) with k
        by (rewrite Z.add_comm, Z.mul_comm, Z.div_add; [reflexivity | lia]).
      simpl negb. cbv iota.
      rewrite (u32_small (k + 1)) by (unfold UINT_MODULUS; lia).
      replace (u32 (- (k + 1))) with (UINT_MODULUS - (k + 1)).
      2:{ unfold u32, UINT_MODULUS.
          rewrite <- (Z.mod_add _ 1) by lia. rewrite Z.mod_small; lia. }
      replace (s32 (UINT_MODULUS - (k + 1))) with (- (k + 1)).
      2:{ unfold s32, UINT_MODULUS.
          replace (4294967296 - (k + 1) + 2147483648)
            with (2147483648 - (k + 1) + 1 * 4294967296) by lia.
          rewrite Z.mod_add by lia. rewrite Z.mod_small; lia. }
      replace (- (k + 1) =? 0) with false by (symmetry; apply Z.eqb_neq; lia).
      simpl. replace (0 <? - (k + 1)) with false
        by (symmetry; apply Z.ltb_ge; lia).
      rewrite shiftl_1.
      replace (2 * (- - (k + 1) - 1)) with (2 * k) by lia.
      rewrite lor_even_1, u32_small by (unfold UINT_MODULUS; lia).
      reflexivity. }
  unfold lit_from_int.
  replace (n =? 0) with false by (symmetry; apply Z.eqb_neq; lia).
  simpl. destruct (0 <? n) eqn:Hpos.
  - apply Z.ltb_lt in Hpos. eexists; split; [reflexivity|].
    rewrite shiftl_1, u32_small by (unfold UINT_MODULUS; lia).
    repeat split; try lia.
    + unfold int_from_lit. rewrite land_1, shiftr_1.
      replace ((2 * (n - 1)) mod 2) with 0
        by (rewrite Z.mul_comm, Z.mod_mul; lia).
      replace (2 * (n - 1) / 2) with (n - 1)
        by (rewrite Z.mul_comm, Z.div_mul; lia).
      simpl. rewrite u32_small by (unfold UINT_MODULUS; lia).
      rewrite s32_small by (unfold INT_MAX; lia). lia.
    + rewrite Z.even_mul. reflexivity.
    + exact Hinv.
  - apply Z.ltb_ge in Hpos. eexists; split; [reflexivity|].
    rewrite shiftl_1, lor_even_1, u32_small by (unfold UINT_MODULUS; lia).
    repeat split; try lia.
    + unfold int_from_lit. rewrite land_1, shiftr_1.
      replace ((2 * (- n - 1) + 1) mod 2) with 1
        by (rewrite Z.add_comm, Z.mul_comm, Z.mod_add; [reflexivity | lia]).
      replace ((2 * (- n - 1) + 1) / 2) with (- n - 1)
        by (rewrite Z.add_comm, Z.mul_comm, Z.div_add; [reflexivity | lia]).
      simpl negb. cbv iota.
      rewrite (u32_small (- n - 1 + 1)) by (unfold UINT_MODULUS; lia).
      replace (- n - 1 + 1) with (- n) by lia.
      replace (u32 (- - n)) with (UINT_MODULUS + n).
      2:{ unfold u32, UINT_MODULUS.
          rewrite <- (Z.mod_add (- - n) 1) by lia. rewrite Z.mod_small; lia. }
      unfold s32, UINT_MODULUS.
      replace (4294967296 + n + 2147483648)
        with (2147483648 + n + 1 * 4294967296) by lia.
      rewrite Z.mod_add by lia. rewrite Z.mod_small; lia.
    + rewrite Z.odd_add, Z.odd_mul. reflexivity.
    + exact Hinv.
Qed.

Lemma int_from_lit_lit_from_int_witness :
  exists lit,
    lit_from_int (-3) = Ret lit /\
    int_from_lit lit = -3 /\
    (0 < -3 -> lit = Z.shiftl (-3 - 1) 1 /\ Z.even lit = true) /\
    (-3 < 0 -> lit = Z.lor (Z.shiftl (- -3 - 1) 1) 1 /\ Z.odd lit = true) /\
    (forall l, 0 <= l < 2 * 5 -> lit_from_int (int_from_lit l) = Ret l).
Proof.
  apply (int_from_lit_lit_from_int 5 (-3)); unfold INT_MAX; lia.
Defined.
(** ** Safe execution *)

Lemma safe_Ret {A : Type} (strict : Mode) (a : A) (Q : A -> Prop) :
  Q a -> safe strict (Ret a) Q.
Proof. intros H; exact H. Qed.

Lemma safe_bind {A B : Type} (strict : Mode) (m : Result A)
    (k : A -> Result B) (Q : A -> Prop) (R : B -> Prop) :
  safe strict m Q ->
  (forall a, m = Ret a -> Q a -> safe strict (k a) R) ->
  safe strict (bind m k) R.
Proof.
  destruct m as [a|[]]; simpl; intros Hm Hk; auto.
Qed.

(** Two steps run first, as one. *)
Lemma safe_bind2 {A B C : Type} (strict : Mode) (m : Result A)
    (f : A -> Result B) (g : B -> Result C) (Q : B -> Prop) (R : C -> Prop) :
  safe strict (bind m f) Q ->
  (forall b, Q b -> safe strict (g b) R) ->
  safe strict (bind m (fun x => bind (f x) g)) R.
Proof.
  destruct m as [a|[]]; simpl; intros Hm Hg; auto.
  eapply safe_bind; [exact Hm|]. intros b _ Hb. apply Hg, Hb.
Qed.

Lemma safe_assert {B : Type} (strict : Mode) (b : bool)
    (k : unit -> Result B) (R : B -> Prop) :
  (asserted strict -> b = true) ->
  (b = true -> safe strict (k tt) R) ->
  safe strict (bind (assert b) k) R.
Proof.
  destruct b; simpl; [auto|]. intros Hb _ Ha. specialize (Hb Ha). discriminate.
Qed.

Lemma safe_mono {A : Type} (strict : Mode) (m : Result A) (Q R : A -> Prop) :
  safe strict m Q -> (forall a, m = Ret a -> Q a -> R a) -> safe strict m R.
Proof. destruct m as [a|[]]; simpl; auto. Qed.

Lemma safe_inv {A : Type} (strict : Mode) (m : Result A) (Q : A -> Prop) (a : A) :
  safe strict m Q -> m = Ret a -> Q a.
Proof. intros H ->. exact H. Qed.

Lemma safe_in_bounds {A : Type} (strict : Mode) (m : Result A)
    (Q : A -> Prop) :
  in_bounds strict -> safe strict m Q -> m <> Err OutOfBounds.
Proof. intros Hb H ->. simpl in H. tauto. Qed.

(** The loop rule: [I rest s] holds when the elements [rest] are still to
    be visited. *)
Lemma foldM_safe {S A : Type} (strict : Mode) (I : list A -> S -> Prop)
    (f : S -> A -> Result S) (l : list A) (s : S) :
  I l s ->
  (forall x rest s, I (x :: rest) s -> safe strict (f s x) (I rest)) ->
  safe strict (foldM f l s) (I []).
Proof.
  intros HI Hstep. revert s HI.
  induction l as [|x l IH]; intros s HI; simpl.
  - exact HI.
  - eapply safe_bind; [apply Hstep, HI|].
    intros s' _ HI'. apply IH, HI'.
Qed.

(** ** Counting *)

Lemma countZ_bounds {A : Type} (p : A -> bool) (l : list A) :
  0 <= countZ p l <= Z.of_nat (length l).
Proof.
  induction l as [|x l IH]; simpl; [lia|]. destruct (p x); lia.
Qed.

Lemma countZ_ext {A : Type} (p q : A -> bool) (l : list A) :
  (forall x, x ∈ l -> p x = q x) -> countZ p l = countZ q l.
Proof.
  induction l as [|x l IH]; intros H; simpl; [reflexivity|].
  rewrite (H x) by (now left). rewrite IH; [reflexivity|].
  intros y Hy. apply H. now right.
Qed.

Lemma countZ_insert {A : Type} (p : A -> bool) (l : list A) (i : nat) (x y : A) :
  l !! i = Some x ->
  countZ p (<[i := y]> l) =
  countZ p l - (if p x then 1 else 0) + (if p y then 1 else 0).
Proof.
  revert i; induction l as [|z l IH]; intros [|i] H; simpl in *; try discriminate.
  - injection H as ->. lia.
  - rewrite (IH i H). lia.
Qed.

Lemma countZ_pos_elem {A : Type} (p : A -> bool) (l : list A) :
  0 < countZ p l -> exists x, x ∈ l /\ p x = true.
Proof.
  induction l as [|x l IH]; simpl; [lia|].
  destruct (p x) eqn:E.
  - intros _. exists x. split; [now left | exact E].
  - intros H. destruct IH as (y & Hy & Hp); [lia|].
    exists y. split; [now right | exact Hp].
Qed.

Lemma countZ_elem_pos {A : Type} (p : A -> bool) (l : list A) (x : A) :
  x ∈ l -> p x = true -> 0 < countZ p l.
Proof.
  induction 1 as [x l | x y l Hin IH]; simpl; intros Hp.
  - rewrite Hp. pose proof (countZ_bounds p l). lia.
  - specialize (IH Hp). destruct (p y); lia.
Qed.

Lemma countZ_zero {A : Type} (p : A -> bool) (l : list A) (x : A) :
  countZ p l = 0 -> x ∈ l -> p x = false.
Proof.
  intros H Hin. destruct (p x) eqn:E; [|reflexivity].
  pose proof (countZ_elem_pos p l x Hin E). lia.
Qed.

Lemma countZ_full {A : Type} (p : A -> bool) (l : list A) (x : A) :
  countZ p l = Z.of_nat (length l) -> x ∈ l -> p x = true.
Proof.
  induction l as [|y l IH]; simpl; intros H Hin.
  - inversion Hin.
  - pose proof (countZ_bounds p l).
    destruct (p y) eqn:E.
    + apply elem_of_cons in Hin as [-> | Hin]; [exact E|].
      apply IH; [lia | exact Hin].
    + lia.
Qed.

(** Two different elements satisfying [p] count for two. *)
Lemma countZ_two {A : Type} (p : A -> bool) (l : list A) (x y : A) :
  x ∈ l -> y ∈ l -> x <> y -> p x = true -> p y = true -> 2 <= countZ p l.
Proof.
  induction l as [|z l IH]; intros Hx Hy Hne Hpx Hpy; simpl.
  - inversion Hx.
  - apply elem_of_cons in Hx as [-> | Hx];
      apply elem_of_cons in Hy as [-> | Hy].
    + congruence.
    + rewrite Hpx. pose proof (countZ_elem_pos p l y Hy Hpy). lia.
    + rewrite Hpy. pose proof (countZ_elem_pos p l x Hx Hpx). lia.
    + specialize (IH Hx Hy Hne Hpx Hpy). destruct (p z); lia.
Qed.

(** Changing the predicate at one element of a duplicate-free list. *)
Lemma countZ_change {A : Type} (p q : A -> bool) (l : list A) (x : A) :
  NoDup l -> x ∈ l -> (forall y, y <> x -> q y = p y) ->
  countZ q l = countZ p l - (if p x then 1 else 0) + (if q x then 1 else 0).
Proof.
  induction l as [|z l IH]; intros Hnd Hin Hpq; simpl.
  - inversion Hin.
  - apply list.NoDup_cons in Hnd as [Hz Hnd].
    apply elem_of_cons in Hin as [-> | Hin].
    + rewrite (countZ_ext q p l); [lia|].
      intros y Hy. apply Hpq. intros ->. contradiction.
    + rewrite (IH Hnd Hin Hpq), (Hpq z); [lia|].
      intros ->. contradiction.
Qed.

Lemma countZ_unchanged {A : Type} (p q : A -> bool) (l : list A) (x : A) :
  x ∉ l -> (forall y, y <> x -> q y = p y) -> countZ q l = countZ p l.
Proof.
  intros Hx Hpq. apply countZ_ext. intros y Hy. apply Hpq.
  intros ->. contradiction.
Qed.

Lemma is_val_partition (v : Z -> option bool) (l : list Z) :
  countZ (is_val v (Some true)) l + countZ (is_val v (Some false)) l
  + countZ (is_val v None) l = Z.of_nat (length l).
Proof.
  induction l as [|x l IH]; simpl; [reflexivity|].
  unfold is_val in *.
  destruct (v x) as [[|]|]; repeat case_bool_decide; try congruence; lia.
Qed.

(** A duplicate-free list of literal codes below [k] has at most [k]
    elements. *)
Lemma NoDup_range_length (l : list Z) (k : Z) :
  0 <= k -> NoDup l -> (forall x, x ∈ l -> 0 <= x < k) ->
  Z.of_nat (length l) <= k.
Proof.
  intros Hk Hnd Hr.
  assert (Hsub : l ⊆+ seqZ 0 k).
  { apply NoDup_submseteq; [exact Hnd|].
    intros x Hx. apply elem_of_seqZ. specialize (Hr x Hx). lia. }
  apply submseteq_length in Hsub. rewrite length_seqZ in Hsub. lia.
Qed.
(** ** Array accesses *)

Lemma lit_at_Ret (s : Solver) (lit : Z) (ls : LitState) :
  lit_at s lit = Ret ls <-> lits s !! Z.to_nat lit = Some ls.
Proof.
  unfold lit_at. destruct (lits s !! Z.to_nat lit); split; congruence.
Qed.

Lemma clause_at_Ret (s : Solver) (ci : nat) (c : ClauseState) :
  clause_at s ci = Ret c <-> clauses s !! ci = Some c.
Proof.
  unfold clause_at. destruct (clauses s !! ci); split; congruence.
Qed.

Lemma array_at_Ret (a : list Z) (i x : Z) :
  array_at a i = Ret x <-> a !! Z.to_nat i = Some x.
Proof.
  unfold array_at. destruct (a !! Z.to_nat i); split; congruence.
Qed.

Lemma safe_lit_at {B : Type} (strict : Mode) (s : Solver) (lit : Z)
    (k : LitState -> Result B) (R : B -> Prop) :
  (Z.to_nat lit < length (lits s))%nat ->
  (forall ls, lits s !! Z.to_nat lit = Some ls -> safe strict (k ls) R) ->
  safe strict (bind (lit_at s lit) k) R.
Proof.
  intros Hlt Hk. unfold lit_at.
  destruct (lookup_lt_is_Some_2 _ _ Hlt) as [ls Hls].
  rewrite Hls. simpl. apply Hk, Hls.
Qed.

Lemma safe_clause_at {B : Type} (strict : Mode) (s : Solver) (ci : nat)
    (c : ClauseState) (k : ClauseState -> Result B) (R : B -> Prop) :
  clauses s !! ci = Some c ->
  safe strict (k c) R ->
  safe strict (bind (clause_at s ci) k) R.
Proof. intros Hc Hk. unfold clause_at. rewrite Hc. exact Hk. Qed.

(** ** Views *)

Lemma flags_lookup (s : Solver) (i : nat) (ls : LitState) :
  lits s !! i = Some ls -> flags s !! i = Some (fixed ls, assigned ls).
Proof. intros H. unfold flags. rewrite list_lookup_fmap, H. reflexivity. Qed.

Lemma occ_lookup (s : Solver) (i : nat) (ls : LitState) :
  lits s !! i = Some ls -> occ s !! i = Some (cont_clauses ls).
Proof. intros H. unfold occ. rewrite list_lookup_fmap, H. reflexivity. Qed.

Lemma formula_lookup (s : Solver) (ci : nat) (c : ClauseState) :
  clauses s !! ci = Some c -> formula s !! ci = Some (clause_lits c).
Proof. intros H. unfold formula. rewrite list_lookup_fmap, H. reflexivity. Qed.

Lemma formula_lookup_inv (s : Solver) (ci : nat) (cl : list Z) :
  formula s !! ci = Some cl ->
  exists c, clauses s !! ci = Some c /\ clause_lits c = cl.
Proof.
  unfold formula. rewrite list_lookup_fmap.
  destruct (clauses s !! ci) as [c|]; simpl; [|discriminate].
  intros [= <-]. eauto.
Qed.

Lemma formula_length (s : Solver) : length (formula s) = length (clauses s).
Proof. apply length_fmap. Qed.

Lemma val_lookup (s : Solver) (lit : Z) (ls : LitState) :
  0 <= lit -> lits s !! Z.to_nat lit = Some ls ->
  val s lit = if fixed ls then Some (assigned ls) else None.
Proof.
  intros Hlit Hls. unfold val.
  replace (lit <? 0) with false by (symmetry; apply Z.ltb_ge; lia).
  rewrite (flags_lookup _ _ _ Hls). reflexivity.
Qed.

Lemma val_Some_lookup (s : Solver) (lit : Z) (b : bool) :
  val s lit = Some b ->
  0 <= lit /\ exists ls, lits s !! Z.to_nat lit = Some ls /\
                         fixed ls = true /\ assigned ls = b.
Proof.
  unfold val. destruct (lit <? 0) eqn:E; [discriminate|].
  apply Z.ltb_ge in E. unfold flags. rewrite list_lookup_fmap.
  destruct (lits s !! Z.to_nat lit) as [ls|]; simpl; [|discriminate].
  destruct (fixed ls) eqn:F; [|discriminate].
  intros [= <-]. split; [lia|]. eauto.
Qed.

Lemma val_flags (s s' : Solver) (lit : Z) :
  flags s' = flags s -> val s' lit = val s lit.
Proof. intros H. unfold val. rewrite H. reflexivity. Qed.

Lemma val_lits (s s' : Solver) (lit : Z) :
  lits s' = lits s -> val s' lit = val s lit.
Proof. intros H. apply val_flags. unfold flags. rewrite H. reflexivity. Qed.

Lemma lit_val_negate (a : Z -> bool) (lit : Z) :
  lit_val a (negate lit) = negb (lit_val a lit).
Proof.
  unfold lit_val, var_of_lit.
  destruct (parity_split lit) as [k [-> | ->]].
  - rewrite negate_even.
    replace ((2 * k + 1) / 2) with k
      by (rewrite Z.add_comm, Z.mul_comm, Z.div_add; [reflexivity | lia]).
    replace (2 * k / 2) with k by (rewrite Z.mul_comm, Z.div_mul; lia).
    rewrite Z.odd_add, Z.odd_mul. reflexivity.
  - rewrite negate_odd.
    replace ((2 * k + 1) / 2) with k
      by (rewrite Z.add_comm, Z.mul_comm, Z.div_add; [reflexivity | lia]).
    replace (2 * k / 2) with k by (rewrite Z.mul_comm, Z.div_mul; lia).
    rewrite Z.odd_add, Z.odd_mul. simpl. rewrite negb_involutive.
    reflexivity.
Qed.

Lemma Ext_flags (a : Z -> bool) (s s' : Solver) :
  flags s' = flags s -> Ext a s -> Ext a s'.
Proof.
  intros H HE lit b Hv. apply HE. rewrite <- Hv. symmetry.
  apply val_flags, H.
Qed.

Lemma Models_formula (a : Z -> bool) (s s' : Solver) :
  formula s' = formula s -> Models a s -> Models a s'.
Proof. intros H HM cl Hcl. apply HM. rewrite <- H. exact Hcl. Qed.

(** ** Shape *)

Lemma Shape_same_problem (strict : Mode) (s s' : Solver) :
  same_problem s s' -> Shape strict s -> Shape strict s'.
Proof.
  intros (Hv & Hc & Ho & Hf & Hl & Hu & Ht) [].
  constructor; unfold Clean; rewrite ?Hv, ?Hc, ?Ho, ?Hf, ?Hl, ?Hu, ?Ht; auto.
  rewrite <- formula_length, Hf, formula_length. assumption.
Qed.

Lemma prim_frame_same_problem (s s' : Solver) :
  prim_frame s s' -> same_problem s s'.
Proof.
  intros (Hv & Hc & Hl & Hf & Hn & Ha & Hu).
  unfold same_problem, occ. rewrite Hv, Hc, Hl, Hf, Ha, Hu. tauto.
Qed.

Lemma prim_frame_refl (s : Solver) : prim_frame s s.
Proof. unfold prim_frame. tauto. Qed.

Lemma prim_frame_trans (s1 s2 s3 : Solver) :
  prim_frame s1 s2 -> prim_frame s2 s3 -> prim_frame s1 s3.
Proof.
  unfold prim_frame. intros (?&?&?&?&?&?&?) (?&?&?&?&?&?&?).
  repeat split; congruence.
Qed.

Lemma same_problem_refl (s : Solver) : same_problem s s.
Proof. unfold same_problem. tauto. Qed.

Lemma same_problem_trans (s1 s2 s3 : Solver) :
  same_problem s1 s2 -> same_problem s2 s3 -> same_problem s1 s3.
Proof.
  unfold same_problem. intros (?&?&?&?&?&?&?) (?&?&?&?&?&?&?).
  repeat split; congruence.
Qed.

Lemma score_eq_same_problem (s s' : Solver) :
  score_eq s s' -> same_problem s s'.
Proof.
  intros (Hv & Hc & Hfl & Ho & Hcl & _ & _ & _ & _ & Hu & Ha).
  unfold same_problem, formula. rewrite Hv, Hc, Ho, Hcl, Hu, Ha.
  repeat split; try reflexivity.
  rewrite <- (length_fmap cont_clauses (lits s')),
          <- (length_fmap cont_clauses (lits s)).
  fold (occ s') (occ s). rewrite Ho. reflexivity.
Qed.

Lemma shape_lit_bound (strict : Mode) (s : Solver) (lit : Z) :
  Shape strict s -> 0 <= lit < 2 * n_vars s ->
  (Z.to_nat lit < length (lits s))%nat.
Proof. intros Hs H. rewrite (shape_lits _ _ Hs). lia. Qed.

Lemma shape_lit_bound_inv (strict : Mode) (s : Solver) (lit : Z) (ls : LitState) :
  Shape strict s -> 0 <= lit -> lits s !! Z.to_nat lit = Some ls ->
  0 <= lit < 2 * n_vars s.
Proof.
  intros Hs H0 Hls. apply lookup_lt_Some in Hls.
  rewrite (shape_lits _ _ Hs) in Hls. lia.
Qed.

Lemma shape_clause (strict : Mode) (s : Solver) (ci : nat) (c : ClauseState) :
  Shape strict s -> clauses s !! ci = Some c ->
  NoDup (clause_lits c) /\
  (forall lit, lit ∈ clause_lits c -> 0 <= lit < 2 * n_vars s) /\
  n_lits c <= 2 * n_vars s.
Proof.
  intros Hs Hc.
  destruct (shape_clause_lits _ _ Hs ci _ (formula_lookup _ _ _ Hc))
    as [Hnd Hr].
  pose proof (shape_vars _ _ Hs).
  split; [exact Hnd|]. split; [exact Hr|].
  unfold n_lits. apply NoDup_range_length; [lia | exact Hnd | exact Hr].
Qed.

Lemma shape_cont (strict : Mode) (s : Solver) (lit : Z) (ls : LitState) :
  Shape strict s -> 0 <= lit -> lits s !! Z.to_nat lit = Some ls ->
  NoDup (cont_clauses ls) /\
  forall ci, ci ∈ cont_clauses ls <->
             exists cl, formula s !! ci = Some cl /\ lit ∈ cl.
Proof.
  intros Hs H0 Hls. apply (shape_occ _ _ Hs); [exact H0|].
  apply occ_lookup, Hls.
Qed.

(** ** Clause counters under a change of view *)

Lemma cnt_ok_range (v : Z -> option bool) (c : ClauseState) :
  cnt_ok v c ->
  0 <= n_assigned_true c /\ 0 <= n_assigned_false c /\ 0 <= n_free_lits c /\
  n_assigned_true c + n_assigned_false c + n_free_lits c = n_lits c.
Proof.
  intros (Ht & Hf & Hr).
  pose proof (is_val_partition v (clause_lits c)).
  pose proof (countZ_bounds (is_val v (Some true)) (clause_lits c)).
  pose proof (countZ_bounds (is_val v (Some false)) (clause_lits c)).
  pose proof (countZ_bounds (is_val v None) (clause_lits c)).
  unfold n_lits. lia.
Qed.

Lemma is_val_count_change (v v' : Z -> option bool) (l : list Z) (lit : Z)
    (x : option bool) :
  NoDup l -> lit ∈ l -> (forall y, y <> lit -> v' y = v y) ->
  countZ (is_val v' x) l =
  countZ (is_val v x) l - (if is_val v x lit then 1 else 0)
  + (if is_val v' x lit then 1 else 0).
Proof.
  intros Hnd Hin Hv. apply countZ_change; [exact Hnd | exact Hin |].
  intros y Hy. unfold is_val. rewrite (Hv y Hy). reflexivity.
Qed.

Lemma cnt_ok_ext (v v' : Z -> option bool) (c : ClauseState) :
  (forall z, v' z = v z) -> cnt_ok v c -> cnt_ok v' c.
Proof.
  intros Hv (Ht & Hf & Hr).
  assert (H : forall x, countZ (is_val v' x) (clause_lits c)
                        = countZ (is_val v x) (clause_lits c)).
  { intros x. apply countZ_ext. intros y _. unfold is_val.
    rewrite Hv. reflexivity. }
  unfold cnt_ok. rewrite !H. auto.
Qed.

Lemma cnt_ok_other (v v' : Z -> option bool) (lit : Z) (c : ClauseState) :
  lit ∉ clause_lits c -> (forall y, y <> lit -> v' y = v y) ->
  cnt_ok v c -> cnt_ok v' c.
Proof.
  intros Hn Hv (Ht & Hf & Hr).
  assert (H : forall x, countZ (is_val v' x) (clause_lits c)
                        = countZ (is_val v x) (clause_lits c)).
  { intros x. apply (countZ_unchanged _ _ _ lit); [exact Hn|].
    intros y Hy. unfold is_val. rewrite (Hv y Hy). reflexivity. }
  unfold cnt_ok. rewrite !H. auto.
Qed.

(** The view changes at [lit] from [x] to [y]: one unit of count moves. *)
Lemma cnt_ok_move (v v' : Z -> option bool) (lit : Z) (x y : option bool)
    (c : ClauseState) (t f r : Z) :
  NoDup (clause_lits c) -> lit ∈ clause_lits c ->
  (forall z, z <> lit -> v' z = v z) ->
  v lit = x -> v' lit = y -> x <> y ->
  cnt_ok v c ->
  t = n_assigned_true c - (if decide (x = Some true) then 1 else 0)
      + (if decide (y = Some true) then 1 else 0) ->
  f = n_assigned_false c - (if decide (x = Some false) then 1 else 0)
      + (if decide (y = Some false) then 1 else 0) ->
  r = n_free_lits c - (if decide (x = None) then 1 else 0)
      + (if decide (y = None) then 1 else 0) ->
  cnt_ok v' (set_counts t f r c).
Proof.
  intros Hnd Hin Hv Hx Hy Hxy (Ht & Hf & Hr) -> -> ->.
  unfold cnt_ok; simpl.
  rewrite !(is_val_count_change v v' _ lit _ Hnd Hin Hv).
  rewrite Ht, Hf, Hr. unfold is_val. rewrite Hx, Hy.
  repeat split; repeat case_bool_decide; repeat case_decide; congruence || lia.
Qed.
(** ** Frames of the state updates *)

Lemma set_clause_frame (s : Solver) (ci : nat) (c c' : ClauseState) :
  clauses s !! ci = Some c -> clause_lits c' = clause_lits c ->
  prim_frame s (set_clause ci c' s).
Proof.
  intros Hc Hl. unfold prim_frame, formula; simpl.
  rewrite list_fmap_insert, Hl.
  rewrite list_insert_id by (rewrite list_lookup_fmap, Hc; reflexivity).
  tauto.
Qed.

Lemma Units_frame (s s' : Solver) :
  prim_frame s s' -> n_units s' = n_units s -> unit_stack s' = unit_stack s ->
  countZ clause_open (clauses s') <= countZ clause_open (clauses s) ->
  Units s -> Units s'.
Proof.
  intros (Hv & Hc & Hl & Hf & _) Hn Hu Hle [H1 H2 H3 H4 H5].
  constructor; rewrite ?Hn, ?Hu, ?Hv, ?Hc; auto; try lia.
  intros a HM HE. apply H5.
  - apply (Models_formula a s'); [symmetry; exact Hf | exact HM].
  - apply (Ext_flags a s'); [unfold flags; rewrite Hl; reflexivity | exact HE].
Qed.

Lemma Phase_shape (strict : Mode) (v vold : Z -> option bool) (lit : Z)
    (s0 : Solver) (pending : list nat) (s : Solver) :
  Shape strict s0 -> Phase v vold lit s0 pending s -> Shape strict s.
Proof.
  intros Hs Hp. eapply Shape_same_problem; [|exact Hs].
  apply prim_frame_same_problem, (ph_frame _ _ _ _ _ _ Hp).
Qed.

Lemma Phase_head (strict : Mode) (v vold : Z -> option bool) (lit : Z)
    (s0 : Solver) (ci : nat) (rest : list nat) (s : Solver) :
  Shape strict s0 -> Phase v vold lit s0 (ci :: rest) s ->
  exists c, clauses s !! ci = Some c /\ lit ∈ clause_lits c /\
            NoDup (clause_lits c) /\ n_lits c <= 2 * n_vars s /\
            cnt_ok vold c /\ (ci ∉ rest) /\ NoDup rest.
Proof.
  intros Hs Hp. pose proof (Phase_shape _ _ _ _ _ _ _ Hs Hp) as Hs'.
  destruct (ph_pending _ _ _ _ _ _ Hp ci) as (cl & Hcl & Hin); [now left|].
  apply formula_lookup_inv in Hcl as (c & Hc & Hcl). subst cl.
  destruct (shape_clause _ _ _ _ Hs' Hc) as (Hnd & _ & Hlen).
  pose proof (ph_nodup _ _ _ _ _ _ Hp) as Hnd'.
  apply list.NoDup_cons in Hnd' as [Hci Hrest].
  exists c. split; [exact Hc|]. split; [exact Hin|]. split; [exact Hnd|].
  split; [exact Hlen|]. split; [|split; assumption].
  apply (cnt_pending _ _ _ _ (ph_counters _ _ _ _ _ _ Hp) ci);
    [now left | exact Hc].
Qed.

(** Rebuilding the loop invariant after the update of clause [ci]. *)
Lemma Phase_next (v vold : Z -> option bool) (lit : Z)
    (s0 : Solver) (ci : nat) (rest : list nat) (s s' : Solver)
    (c c' : ClauseState) :
  Phase v vold lit s0 (ci :: rest) s ->
  clauses s !! ci = Some c ->
  clauses s' = <[ci := c']> (clauses s) ->
  clause_lits c' = clause_lits c ->
  prim_frame s s' ->
  cnt_ok v c' ->
  n_sat_clauses s' = countZ clause_sat (clauses s') ->
  n_unsat_clauses s' = countZ clause_unsat (clauses s') ->
  Phase v vold lit s0 rest s'.
Proof.
  intros Hp Hc Hcl Hl Hfr Hok Hsat Hunsat.
  pose proof (ph_nodup _ _ _ _ _ _ Hp) as Hnd.
  apply list.NoDup_cons in Hnd as [Hci Hrest].
  assert (Hform : formula s' = formula s) by apply Hfr.
  constructor.
  - eapply prim_frame_trans; [apply (ph_frame _ _ _ _ _ _ Hp) | exact Hfr].
  - exact Hrest.
  - intros cj Hcj. rewrite Hform.
    apply (ph_pending _ _ _ _ _ _ Hp). now right.
  - constructor; [| |exact Hsat|exact Hunsat].
    + intros cj d Hcj Hd. rewrite Hcl in Hd.
      rewrite list_lookup_insert_ne in Hd by (intros ->; contradiction).
      apply (cnt_pending _ _ _ _ (ph_counters _ _ _ _ _ _ Hp) cj);
        [now right | exact Hd].
    + intros cj d Hcj Hd. rewrite Hcl in Hd.
      destruct (decide (cj = ci)) as [->|Hne].
      * rewrite list_lookup_insert_eq in Hd
          by (eapply lookup_lt_Some; exact Hc).
        injection Hd as <-. exact Hok.
      * rewrite list_lookup_insert_ne in Hd by congruence.
        apply (cnt_done _ _ _ _ (ph_counters _ _ _ _ _ _ Hp) cj); [|exact Hd].
        intros [->|Hin]%elem_of_cons; contradiction.
Qed.

Lemma count_le_clauses (strict : Mode) (s : Solver) (p : ClauseState -> bool) :
  Shape strict s -> 0 <= countZ p (clauses s) <= n_clauses s.
Proof.
  intros Hs. pose proof (countZ_bounds p (clauses s)).
  pose proof (shape_clauses _ _ Hs). rewrite (shape_cls _ _ Hs) in H. lia.
Qed.

Ltac u32_small_tac :=
  rewrite ?u32_small by (unfold UINT_MODULUS, INT_MAX in *; lia).

(** ** The four counter primitives inside their loops *)

Lemma count_lookup_pos {A : Type} (p : A -> bool) (l : list A) (i : nat) (x : A) :
  l !! i = Some x -> p x = true -> 1 <= countZ p l.
Proof.
  intros Hl Hp.
  pose proof (countZ_elem_pos p l x (list_elem_of_lookup_2 _ _ _ Hl) Hp). lia.
Qed.

Lemma cnt_ok_pos (v : Z -> option bool) (c : ClauseState) (lit : Z)
    (x : option bool) :
  lit ∈ clause_lits c -> v lit = x -> 1 <= countZ (is_val v x) (clause_lits c).
Proof.
  intros Hin Hv.
  pose proof (countZ_elem_pos (is_val v x) _ lit Hin) as H.
  unfold is_val in H at 1. rewrite Hv in H.
  specialize (H (bool_decide_eq_true_2 _ eq_refl)). lia.
Qed.


Lemma add_true_step (strict : Mode) (v vold : Z -> option bool) (lit : Z)
    (s0 : Solver) (ci : nat) (rest : list nat) (s : Solver) :
  Shape strict s0 ->
  vold lit = None -> v lit = Some true -> (forall z, z <> lit -> v z = vold z) ->
  Phase v vold lit s0 (ci :: rest) s /\ Units s ->
  safe strict (add_true_assignment s ci)
    (fun s' => Phase v vold lit s0 rest s' /\ Units s').
Proof.
  intros Hs0 Hvold Hv Hvv [Hp Hu].
  pose proof (Phase_shape _ _ _ _ _ _ _ Hs0 Hp) as Hs.
  destruct (Phase_head _ _ _ _ _ _ _ _ Hs0 Hp)
    as (c & Hc & Hin & Hnd & Hlen & Hok & Hci & Hrest).
  pose proof (cnt_ok_range _ _ Hok) as (Ht0 & Hf0 & Hr0 & Hsum).
  pose proof (shape_vars _ _ Hs) as Hnv.
  pose proof (count_le_clauses _ _ clause_sat Hs) as Hcs.
  pose proof (shape_clauses _ _ Hs) as Hnc.
  pose proof (cnt_sat _ _ _ _ (ph_counters _ _ _ _ _ _ Hp)) as Hsat.
  pose proof (cnt_unsat _ _ _ _ (ph_counters _ _ _ _ _ _ Hp)) as Hunsat.
  unfold add_true_assignment.
  eapply safe_clause_at; [exact Hc|].
  assert (Hfree : 0 < n_free_lits c).
  { pose proof (cnt_ok_pos vold c lit None Hin Hvold).
    destruct Hok as (_ & _ & Hr). lia. }
  apply safe_assert; [intros _; apply Z.ltb_lt; exact Hfree|]. intros _.
  apply safe_Ret.
  set (c' := set_counts _ _ _ c).
  assert (Hok' : cnt_ok v c').
  { eapply (cnt_ok_move vold v lit None (Some true)); eauto; try congruence;
      repeat case_decide; try congruence; u32_small_tac; lia. }
  assert (Hsatc' : clause_sat c' = true).
  { unfold clause_sat, c'; simpl. u32_small_tac.
    apply negb_true_iff, Z.eqb_neq. lia. }
  assert (Hunsatc' : clause_unsat c' = false).
  { unfold clause_unsat, c'; simpl. u32_small_tac.
    replace (n_assigned_true c + 1 =? 0) with false
      by (symmetry; apply Z.eqb_neq; lia). reflexivity. }
  assert (Hunsatc : clause_unsat c = false).
  { unfold clause_unsat.
    replace (n_free_lits c =? 0) with false
      by (symmetry; apply Z.eqb_neq; lia).
    rewrite andb_false_r. reflexivity. }
  assert (Hopenc' : clause_open c' = false).
  { unfold clause_open, c'; simpl. u32_small_tac.
    replace (n_assigned_true c + 1 =? 0) with false
      by (symmetry; apply Z.eqb_neq; lia). reflexivity. }
  assert (Hcount : forall p,
    countZ p (<[ci := c']> (clauses s)) =
    countZ p (clauses s) - (if p c then 1 else 0) + (if p c' then 1 else 0))
    by (intros p; apply countZ_insert, Hc).
  destruct (n_assigned_true c =? 0) eqn:Et.
  - apply Z.eqb_eq in Et.
    assert (Hsatc : clause_sat c = false)
      by (unfold clause_sat; rewrite Et; reflexivity).
    split.
    + eapply (Phase_next v vold lit s0 ci rest s _ c c'); eauto.
      * eapply prim_frame_trans; [|apply (set_clause_frame _ ci c c'); auto].
        unfold prim_frame; simpl; tauto.
      * simpl. rewrite Hcount, Hsatc, Hsatc', Hsat.
        pose proof (Hcount clause_sat) as Hcc.
        rewrite Hsatc, Hsatc' in Hcc.
        pose proof (countZ_bounds clause_sat (<[ci := c']> (clauses s))) as Hb.
        rewrite length_insert, (shape_cls _ _ Hs) in Hb.
        u32_small_tac. lia.
      * simpl. rewrite Hcount, Hunsatc, Hunsatc', Hunsat. lia.
    + eapply (Units_frame s); eauto.
      * eapply prim_frame_trans; [|apply (set_clause_frame _ ci c c'); auto].
        unfold prim_frame; simpl; tauto.
      * simpl. rewrite Hcount, Hopenc'. destruct (clause_open c); lia.
  - apply Z.eqb_neq in Et.
    assert (Hsatc : clause_sat c = true)
      by (unfold clause_sat; apply negb_true_iff, Z.eqb_neq; exact Et).
    split.
    + eapply (Phase_next v vold lit s0 ci rest s _ c c'); eauto.
      * apply (set_clause_frame _ ci c c'); auto.
      * simpl. rewrite Hcount, Hsatc, Hsatc', Hsat. lia.
      * simpl. rewrite Hcount, Hunsatc, Hunsatc', Hunsat. lia.
    + eapply (Units_frame s); eauto.
      * apply (set_clause_frame _ ci c c'); auto.
      * simpl. rewrite Hcount, Hopenc'. destruct (clause_open c); lia.
Qed.

Lemma take_push (l : list Z) (n : nat) (u : Z) :
  (n < length l)%nat -> take (S n) (<[n := u]> l) = take n l ++ [u].
Proof.
  intros Hn.
  rewrite (take_S_r _ _ u) by (apply list_lookup_insert_eq, Hn).
  rewrite take_insert_ge by lia. reflexivity.
Qed.

Lemma first_unfixed_safe (strict : Mode) (s : Solver) (l : list Z) :
  Shape strict s -> (forall x, x ∈ l -> 0 <= x < 2 * n_vars s) ->
  (exists x, x ∈ l /\ val s x = None) ->
  safe strict (first_unfixed s l) (fun u => u ∈ l /\ val s u = None).
Proof.
  intros Hs. induction l as [|x l IH]; intros Hr (y & Hy & Hvy).
  - inversion Hy.
  - simpl. assert (Hx : 0 <= x < 2 * n_vars s) by (apply Hr; now left).
    apply safe_lit_at; [eapply shape_lit_bound; eauto|].
    intros ls Hls. pose proof (val_lookup s x ls ltac:(lia) Hls) as Hval.
    destruct (fixed ls) eqn:F; simpl.
    + eapply safe_mono.
      * apply IH; [intros z Hz; apply Hr; now right|].
        apply elem_of_cons in Hy as [-> | Hy]; [congruence|]. eauto.
      * intros u _ [Hu Hvu]. split; [now right | exact Hvu].
    + split; [now left | exact Hval].
Qed.

(** The single free literal of a clause without true literal is true in
    every model that extends the current assignment. *)
Lemma unit_forced (a : Z -> bool) (s : Solver) (c : ClauseState) (u : Z) :
  Ext a s -> cnt_ok (val s) c ->
  n_assigned_true c = 0 -> n_free_lits c = 1 ->
  (exists lit, lit ∈ clause_lits c /\ lit_val a lit = true) ->
  u ∈ clause_lits c -> val s u = None -> lit_val a u = true.
Proof.
  intros HE (Ht & _ & Hr) Ht0 Hr1 (lit & Hin & Hlv) Hu Hvu.
  destruct (val s lit) as [[|]|] eqn:Hvl.
  - pose proof (countZ_elem_pos (is_val (val s) (Some true)) _ lit Hin) as H.
    unfold is_val in H at 1. rewrite Hvl in H.
    specialize (H (bool_decide_eq_true_2 _ eq_refl)). lia.
  - apply HE in Hvl. congruence.
  - destruct (decide (lit = u)) as [->|Hne]; [exact Hlv|].
    pose proof (countZ_two (is_val (val s) None) _ lit u Hin Hu Hne) as H.
    unfold is_val in H at 1 2. rewrite Hvl, Hvu in H.
    specialize (H (bool_decide_eq_true_2 _ eq_refl)
                  (bool_decide_eq_true_2 _ eq_refl)). lia.
Qed.

Lemma free_lit_exists (v : Z -> option bool) (c : ClauseState) :
  cnt_ok v c -> 0 < n_free_lits c ->
  exists x, x ∈ clause_lits c /\ v x = None.
Proof.
  intros (_ & _ & Hr) Hpos. rewrite Hr in Hpos.
  apply countZ_pos_elem in Hpos as (x & Hx & Hp).
  exists x. split; [exact Hx|]. unfold is_val in Hp.
  apply bool_decide_eq_true_1 in Hp. exact Hp.
Qed.

Lemma get_unit_unit (s : Solver) (c : ClauseState) :
  n_assigned_true c = 0 -> n_free_lits c = 1 ->
  get_unit s c = first_unfixed s (clause_lits c).
Proof. intros Ht Hr. unfold get_unit. rewrite Ht, Hr. reflexivity. Qed.

Lemma add_false_step (strict : Mode) (vold : Z -> option bool) (lit : Z)
    (s0 : Solver) (ci : nat) (rest : list nat) (s : Solver) :
  Shape strict s0 ->
  vold lit = None -> val s0 lit = Some false ->
  (forall z, z <> lit -> val s0 z = vold z) ->
  Phase (val s0) vold lit s0 (ci :: rest) s /\ Units s ->
  safe strict (add_false_assignment s ci)
    (fun s' => Phase (val s0) vold lit s0 rest s' /\ Units s').
Proof.
  intros Hs0 Hvold Hv Hvv [Hp Hu].
  pose proof (Phase_shape _ _ _ _ _ _ _ Hs0 Hp) as Hs.
  destruct (Phase_head _ _ _ _ _ _ _ _ Hs0 Hp)
    as (c & Hc & Hin & Hnd & Hlen & Hok & Hci & Hrest).
  pose proof (cnt_ok_range _ _ Hok) as (Ht0 & Hf0 & Hr0 & Hsum).
  pose proof (shape_vars _ _ Hs) as Hnv.
  pose proof (shape_clauses _ _ Hs) as Hnc.
  pose proof (count_le_clauses _ _ clause_unsat Hs) as Hcs.
  pose proof (cnt_sat _ _ _ _ (ph_counters _ _ _ _ _ _ Hp)) as Hsat.
  pose proof (cnt_unsat _ _ _ _ (ph_counters _ _ _ _ _ _ Hp)) as Hunsat.
  assert (Hlits : lits s = lits s0) by apply (ph_frame _ _ _ _ _ _ Hp).
  assert (Hval : forall z, val s z = val s0 z)
    by (intros z; apply val_lits, Hlits).
  unfold add_false_assignment.
  eapply safe_clause_at; [exact Hc|].
  assert (Hfree : 0 < n_free_lits c).
  { pose proof (cnt_ok_pos vold c lit None Hin Hvold).
    destruct Hok as (_ & _ & Hr). lia. }
  apply safe_assert; [intros _; apply Z.ltb_lt; exact Hfree|]. intros _.
  set (c' := set_counts _ _ _ c).
  set (s1 := if (n_assigned_true c =? 0) && (n_free_lits c =? 1)
             then set_n_unsat_clauses (u32 (n_unsat_clauses s + 1)) s
             else s).
  assert (Hc'eq : c' = set_counts (n_assigned_true c) (n_assigned_false c + 1)
                         (n_free_lits c - 1) c).
  { unfold c'. u32_small_tac. reflexivity. }
  clearbody c'. subst c'.
  set (c' := set_counts (n_assigned_true c) (n_assigned_false c + 1)
               (n_free_lits c - 1) c).
  assert (Hok' : cnt_ok (val s0) c').
  { eapply (cnt_ok_move vold (val s0) lit None (Some false)); eauto;
      try congruence; repeat case_decide; try congruence; lia. }
  assert (Hsatc' : clause_sat c' = clause_sat c) by reflexivity.
  assert (Hunsatc : clause_unsat c = false).
  { unfold clause_unsat.
    replace (n_free_lits c =? 0) with false
      by (symmetry; apply Z.eqb_neq; lia).
    rewrite andb_false_r. reflexivity. }
  assert (Hunsatc' : clause_unsat c' =
                     (n_assigned_true c =? 0) && (n_free_lits c =? 1)).
  { unfold clause_unsat, c'; simpl.
    replace (n_assigned_false c + 1 =? 0) with false
      by (symmetry; apply Z.eqb_neq; lia).
    replace (n_free_lits c - 1 =? 0) with (n_free_lits c =? 1)
      by (destruct (Z.eqb_spec (n_free_lits c) 1);
          symmetry; [apply Z.eqb_eq | apply Z.eqb_neq]; lia).
    rewrite andb_true_r. reflexivity. }
  assert (Hcount : forall p,
    countZ p (<[ci := c']> (clauses s)) =
    countZ p (clauses s) - (if p c then 1 else 0) + (if p c' then 1 else 0))
    by (intros p; apply countZ_insert, Hc).
  set (s2 := set_clause ci c' s1).
  assert (Hfr1 : prim_frame s s1).
  { unfold s1. destruct (_ && _); unfold prim_frame; simpl; tauto. }
  assert (Hcl1 : clauses s1 = clauses s).
  { unfold s1. destruct (_ && _); reflexivity. }
  assert (Hfr2 : prim_frame s s2).
  { eapply prim_frame_trans; [exact Hfr1|].
    apply (set_clause_frame s1 ci c c'); [rewrite Hcl1; exact Hc | reflexivity]. }
  assert (Hcl2 : clauses s2 = <[ci := c']> (clauses s)).
  { unfold s2; simpl. rewrite Hcl1. reflexivity. }
  assert (Hsat2 : n_sat_clauses s2 = countZ clause_sat (clauses s2)).
  { rewrite Hcl2, Hcount, Hsatc'.
    replace (n_sat_clauses s2) with (n_sat_clauses s)
      by (unfold s2, s1; destruct (_ && _); reflexivity).
    rewrite Hsat. lia. }
  assert (Hunsat2 : n_unsat_clauses s2 = countZ clause_unsat (clauses s2)).
  { rewrite Hcl2, Hcount, Hunsatc, Hunsatc'.
    pose proof (countZ_bounds clause_unsat (<[ci := c']> (clauses s))) as Hb.
    rewrite length_insert, (shape_cls _ _ Hs), Hcount, Hunsatc, Hunsatc' in Hb.
    unfold s2, s1. destruct (_ && _); simpl; u32_small_tac; lia. }
  assert (Hp2 : Phase (val s0) vold lit s0 rest s2).
  { eapply (Phase_next _ vold lit s0 ci rest s s2 c c'); eauto. }
  assert (Hnu2 : n_units s2 = n_units s)
    by (unfold s2, s1; destruct (_ && _); reflexivity).
  assert (Hst2 : unit_stack s2 = unit_stack s)
    by (unfold s2, s1; destruct (_ && _); reflexivity).
  assert (Hopen : clause_open c' = true -> clause_open c = true).
  { unfold clause_open, c'; simpl. intros [H1 H2]%andb_true_iff.
    rewrite H1. simpl. apply Z.leb_le in H2. apply Z.leb_le. lia. }
  change (safe strict
    (if (n_assigned_true c' =? 0) && (n_free_lits c' =? 1)
     then let* unit := get_unit s2 c' in push_unit s2 unit
     else Ret s2)
    (fun s' => Phase (val s0) vold lit s0 rest s' /\ Units s')).
  destruct ((n_assigned_true c' =? 0) && (n_free_lits c' =? 1)) eqn:Eunit.
  2:{ apply safe_Ret. split; [exact Hp2|].
      eapply (Units_frame s); eauto.
      rewrite Hcl2, Hcount.
      destruct (clause_open c') eqn:E1; [rewrite (Hopen eq_refl)|];
        destruct (clause_open c); lia. }
  apply andb_true_iff in Eunit as [Et'%Z.eqb_eq Er'%Z.eqb_eq].
  simpl in Et', Er'.
  assert (Hs2 : Shape strict s2).
  { eapply Shape_same_problem; [|exact Hs].
    apply prim_frame_same_problem, Hfr2. }
  assert (Hlits2 : lits s2 = lits s) by apply Hfr2.
  assert (Hval2 : forall z, val s2 z = val s0 z).
  { intros z. rewrite <- Hval. apply val_lits, Hlits2. }
  assert (Hopenc : clause_open c = true).
  { unfold clause_open. rewrite Et'.
    replace (n_free_lits c) with 2 by lia. reflexivity. }
  assert (Hopenc' : clause_open c' = false).
  { unfold clause_open, c'; simpl. rewrite Et'.
    replace (n_free_lits c - 1) with 1 by lia. reflexivity. }
  destruct (shape_clause _ _ _ _ Hs Hc) as (_ & Hrange & _).
  rewrite (get_unit_unit s2 c' Et' Er').
  eapply safe_bind.
  { apply (first_unfixed_safe strict s2 (clause_lits c)); [exact Hs2| |].
    - intros x Hx. replace (n_vars s2) with (n_vars s) by (symmetry; apply Hfr2).
      apply Hrange, Hx.
    - destruct (free_lit_exists (val s0) c' Hok') as (x & Hx & Hvx);
        [simpl; lia|].
      exists x. split; [exact Hx | rewrite Hval2; exact Hvx]. }
  intros u _ [Huin Hvu]. rewrite Hval2 in Hvu.
  pose proof (units_pot _ Hu) as Hpot.
  pose proof (units_nonneg _ Hu) as Hnn.
  pose proof (units_fit _ Hu) as Hfit.
  pose proof (countZ_bounds clause_open (<[ci := c']> (clauses s))) as Hb.
  rewrite Hcount, Hopenc, Hopenc' in Hb.
  clearbody s2. clear Hfr1 Hcl1. clearbody s1.
  unfold push_unit. rewrite Hnu2, Hst2.
  destruct (Nat.ltb_spec (Z.to_nat (n_units s)) (length (unit_stack s)))
    as [Hlt|Hge].
  2:{ simpl. intros Hstrict.
      pose proof (shape_stack _ _ Hs Hstrict). lia. }
  apply safe_Ret.
  set (s3 := set_n_units _ _).
  assert (Hfr3 : prim_frame s s3).
  { eapply prim_frame_trans; [exact Hfr2|].
    unfold s3, prim_frame; simpl. rewrite length_insert, Hst2. tauto. }
  split.
  - eapply (Phase_next _ vold lit s0 ci rest s s3 c c'); eauto.
  - assert (Htake : take (Z.to_nat (n_units s3)) (unit_stack s3)
                    = take (Z.to_nat (n_units s)) (unit_stack s) ++ [u]).
    { unfold s3; simpl. u32_small_tac.
      replace (Z.to_nat (n_units s + 1)) with (S (Z.to_nat (n_units s)))
        by lia.
      apply take_push, Hlt. }
    constructor.
    + unfold s3; simpl. apply u32_range.
    + unfold s3; simpl. rewrite length_insert. u32_small_tac. lia.
    + unfold s3; simpl. rewrite Hcl2, Hcount, Hopenc, Hopenc'.
      replace (n_clauses s2) with (n_clauses s) by (symmetry; apply Hfr2).
      u32_small_tac. lia.
    + rewrite Htake. intros x [Hx | ->%list_elem_of_singleton]%elem_of_app.
      * replace (n_vars s3) with (n_vars s) by (symmetry; apply Hfr3).
        apply (units_lits _ Hu), Hx.
      * replace (n_vars s3) with (n_vars s) by (symmetry; apply Hfr3).
        apply Hrange, Huin.
    + rewrite Htake. intros a HM HE x Hx.
      assert (HM' : Models a s).
      { apply (Models_formula a s3); [symmetry; apply Hfr3 | exact HM]. }
      assert (HE' : Ext a s).
      { apply (Ext_flags a s3); [|exact HE].
        unfold flags. f_equal. symmetry. apply Hfr3. }
      apply elem_of_app in Hx as [Hx | ->%list_elem_of_singleton].
      * apply (units_forced _ Hu a HM' HE' x Hx).
      * apply (unit_forced a s c'); auto.
        -- apply (cnt_ok_ext (val s0)); [exact Hval | exact Hok'].
        -- apply HM'. apply list_elem_of_lookup. exists ci.
           exact (formula_lookup _ _ _ Hc).
        -- rewrite Hval. exact Hvu.
Qed.

Lemma undo_true_step (strict : Mode) (v vold : Z -> option bool) (lit : Z)
    (s0 : Solver) (ci : nat) (rest : list nat) (s : Solver) :
  Shape strict s0 ->
  vold lit = Some true -> v lit = None -> (forall z, z <> lit -> v z = vold z) ->
  Phase v vold lit s0 (ci :: rest) s /\
  (n_units s = n_units s0 /\ unit_stack s = unit_stack s0) ->
  safe strict (undo_true_assignment s ci)
    (fun s' => Phase v vold lit s0 rest s' /\
               (n_units s' = n_units s0 /\ unit_stack s' = unit_stack s0)).
Proof.
  intros Hs0 Hvold Hv Hvv [Hp Hu].
  pose proof (Phase_shape _ _ _ _ _ _ _ Hs0 Hp) as Hs.
  destruct (Phase_head _ _ _ _ _ _ _ _ Hs0 Hp)
    as (c & Hc & Hin & Hnd & Hlen & Hok & Hci & Hrest).
  pose proof (cnt_ok_range _ _ Hok) as (Ht0 & Hf0 & Hr0 & Hsum).
  pose proof (cnt_ok_pos vold c lit _ Hin Hvold) as Htpos.
  rewrite <- (proj1 Hok) in Htpos.
  pose proof (shape_vars _ _ Hs) as Hnv.
  pose proof (shape_clauses _ _ Hs) as Hnc.
  pose proof (count_le_clauses _ _ clause_sat Hs) as Hcs.
  pose proof (cnt_sat _ _ _ _ (ph_counters _ _ _ _ _ _ Hp)) as Hsat.
  pose proof (cnt_unsat _ _ _ _ (ph_counters _ _ _ _ _ _ Hp)) as Hunsat.
  unfold undo_true_assignment.
  eapply safe_clause_at; [exact Hc|].
  apply safe_assert; [intros _; apply Z.ltb_lt; lia|]. intros _.
  set (c' := set_counts _ _ _ c).
  assert (Hc'eq : c' = set_counts (n_assigned_true c - 1) (n_assigned_false c)
                         (n_free_lits c + 1) c).
  { unfold c'. u32_small_tac. reflexivity. }
  clearbody c'. subst c'.
  set (c' := set_counts (n_assigned_true c - 1) (n_assigned_false c)
               (n_free_lits c + 1) c).
  assert (Hok' : cnt_ok v c').
  { eapply (cnt_ok_move vold v lit (Some true) None); eauto;
      try congruence; repeat case_decide; try congruence; lia. }
  assert (Hsatc : clause_sat c = true).
  { unfold clause_sat. apply negb_true_iff, Z.eqb_neq. lia. }
  assert (Hunsatc : clause_unsat c = false).
  { unfold clause_unsat.
    replace (n_assigned_true c =? 0) with false
      by (symmetry; apply Z.eqb_neq; lia). reflexivity. }
  assert (Hunsatc' : clause_unsat c' = false).
  { unfold clause_unsat, c'; simpl.
    replace (n_free_lits c + 1 =? 0) with false
      by (symmetry; apply Z.eqb_neq; lia).
    rewrite andb_false_r. reflexivity. }
  assert (Hcount : forall p,
    countZ p (<[ci := c']> (clauses s)) =
    countZ p (clauses s) - (if p c then 1 else 0) + (if p c' then 1 else 0))
    by (intros p; apply countZ_insert, Hc).
  pose proof (count_lookup_pos clause_sat _ _ _ Hc Hsatc) as Hsatpos.
  set (s1 := set_clause ci c' s).
  assert (Hfr1 : prim_frame s s1)
    by (apply (set_clause_frame s ci c c'); [exact Hc | reflexivity]).
  change (safe strict
    (if n_assigned_true c' =? 0
     then Ret (set_n_sat_clauses (u32 (n_sat_clauses s1 - 1)) s1)
     else Ret s1)
    (fun s' => Phase v vold lit s0 rest s' /\
               (n_units s' = n_units s0 /\ unit_stack s' = unit_stack s0))).
  destruct (n_assigned_true c' =? 0) eqn:Et; apply safe_Ret.
  - assert (Hsatc' : clause_sat c' = false)
      by (unfold clause_sat; rewrite Et; reflexivity).
    split; [|exact Hu].
    eapply (Phase_next v vold lit s0 ci rest s _ c c');
      [exact Hp | exact Hc | reflexivity | reflexivity | | exact Hok' | |].
    + eapply prim_frame_trans; [exact Hfr1|]. unfold prim_frame; simpl; tauto.
    + simpl. rewrite Hcount, Hsatc, Hsatc', Hsat. u32_small_tac. lia.
    + simpl. rewrite Hcount, Hunsatc, Hunsatc', Hunsat. lia.
  - assert (Hsatc' : clause_sat c' = true)
      by (unfold clause_sat; rewrite Et; reflexivity).
    split; [|exact Hu].
    eapply (Phase_next v vold lit s0 ci rest s _ c c');
      [exact Hp | exact Hc | reflexivity | reflexivity | exact Hfr1
      | exact Hok' | |].
    + simpl. rewrite Hcount, Hsatc, Hsatc', Hsat. lia.
    + simpl. rewrite Hcount, Hunsatc, Hunsatc', Hunsat. lia.
Qed.

Lemma undo_false_step (strict : Mode) (v vold : Z -> option bool) (lit : Z)
    (s0 : Solver) (ci : nat) (rest : list nat) (s : Solver) :
  Shape strict s0 ->
  vold lit = Some false -> v lit = None -> (forall z, z <> lit -> v z = vold z) ->
  Phase v vold lit s0 (ci :: rest) s /\
  (n_units s = n_units s0 /\ unit_stack s = unit_stack s0) ->
  safe strict (undo_false_assignment s ci)
    (fun s' => Phase v vold lit s0 rest s' /\
               (n_units s' = n_units s0 /\ unit_stack s' = unit_stack s0)).
Proof.
  intros Hs0 Hvold Hv Hvv [Hp Hu].
  pose proof (Phase_shape _ _ _ _ _ _ _ Hs0 Hp) as Hs.
  destruct (Phase_head _ _ _ _ _ _ _ _ Hs0 Hp)
    as (c & Hc & Hin & Hnd & Hlen & Hok & Hci & Hrest).
  pose proof (cnt_ok_range _ _ Hok) as (Ht0 & Hf0 & Hr0 & Hsum).
  pose proof (cnt_ok_pos vold c lit _ Hin Hvold) as Hfpos.
  rewrite <- (proj1 (proj2 Hok)) in Hfpos.
  pose proof (shape_vars _ _ Hs) as Hnv.
  pose proof (shape_clauses _ _ Hs) as Hnc.
  pose proof (count_le_clauses _ _ clause_unsat Hs) as Hcs.
  pose proof (cnt_sat _ _ _ _ (ph_counters _ _ _ _ _ _ Hp)) as Hsat.
  pose proof (cnt_unsat _ _ _ _ (ph_counters _ _ _ _ _ _ Hp)) as Hunsat.
  unfold undo_false_assignment.
  eapply safe_clause_at; [exact Hc|].
  apply safe_assert; [intros _; apply Z.ltb_lt; lia|]. intros _.
  set (c' := set_counts _ _ _ c).
  assert (Hc'eq : c' = set_counts (n_assigned_true c) (n_assigned_false c - 1)
                         (n_free_lits c + 1) c).
  { unfold c'. u32_small_tac. reflexivity. }
  clearbody c'. subst c'.
  set (c' := set_counts (n_assigned_true c) (n_assigned_false c - 1)
               (n_free_lits c + 1) c).
  assert (Hok' : cnt_ok v c').
  { eapply (cnt_ok_move vold v lit (Some false) None); eauto;
      try congruence; repeat case_decide; try congruence; lia. }
  assert (Hsatc' : clause_sat c' = clause_sat c) by reflexivity.
  assert (Hunsatc : clause_unsat c =
                    (n_assigned_true c' =? 0) && (n_free_lits c' =? 1)).
  { unfold clause_unsat, c'; simpl.
    replace (n_assigned_false c =? 0) with false
      by (symmetry; apply Z.eqb_neq; lia).
    replace (n_free_lits c + 1 =? 1) with (n_free_lits c =? 0)
      by (destruct (Z.eqb_spec (n_free_lits c) 0);
          symmetry; [apply Z.eqb_eq | apply Z.eqb_neq]; lia).
    rewrite andb_true_r. reflexivity. }
  assert (Hunsatc' : clause_unsat c' = false).
  { unfold clause_unsat, c'; simpl.
    replace (n_free_lits c + 1 =? 0) with false
      by (symmetry; apply Z.eqb_neq; lia).
    rewrite andb_false_r. reflexivity. }
  assert (Hcount : forall p,
    countZ p (<[ci := c']> (clauses s)) =
    countZ p (clauses s) - (if p c then 1 else 0) + (if p c' then 1 else 0))
    by (intros p; apply countZ_insert, Hc).
  set (s1 := set_clause ci c' s).
  assert (Hfr1 : prim_frame s s1)
    by (apply (set_clause_frame s ci c c'); [exact Hc | reflexivity]).
  change (safe strict
    (if (n_assigned_true c' =? 0) && (n_free_lits c' =? 1)
     then Ret (set_n_unsat_clauses (u32 (n_unsat_clauses s1 - 1)) s1)
     else Ret s1)
    (fun s' => Phase v vold lit s0 rest s' /\
               (n_units s' = n_units s0 /\ unit_stack s' = unit_stack s0))).
  destruct ((n_assigned_true c' =? 0) && (n_free_lits c' =? 1)) eqn:Eu;
    apply safe_Ret.
  - pose proof (count_lookup_pos clause_unsat _ _ _ Hc Hunsatc) as Hpos.
    split; [|exact Hu].
    eapply (Phase_next v vold lit s0 ci rest s _ c c');
      [exact Hp | exact Hc | reflexivity | reflexivity | | exact Hok' | |].
    + eapply prim_frame_trans; [exact Hfr1|]. unfold prim_frame; simpl; tauto.
    + simpl. rewrite Hcount, Hsatc', Hsat. lia.
    + simpl. rewrite Hcount, Hunsatc, Hunsatc', Hunsat. u32_small_tac. lia.
  - split; [|exact Hu].
    eapply (Phase_next v vold lit s0 ci rest s _ c c');
      [exact Hp | exact Hc | reflexivity | reflexivity | exact Hfr1
      | exact Hok' | |].
    + simpl. rewrite Hcount, Hsatc', Hsat. lia.
    + simpl. rewrite Hcount, Hunsatc, Hunsatc', Hunsat. lia.
Qed.

(** ** The loops over an occurrence list *)

Lemma Phase_start (strict : Mode) (v vold : Z -> option bool) (lit : Z)
    (s0 s : Solver) (L : list nat) :
  Shape strict s -> prim_frame s0 s -> 0 <= lit ->
  occ s !! Z.to_nat lit = Some L ->
  (forall z, z <> lit -> v z = vold z) ->
  (forall ci c, clauses s !! ci = Some c -> cnt_ok vold c) ->
  n_sat_clauses s = countZ clause_sat (clauses s) ->
  n_unsat_clauses s = countZ clause_unsat (clauses s) ->
  Phase v vold lit s0 L s.
Proof.
  intros Hs Hfr Hlit HL Hv Hok Hsat Hunsat.
  destruct (shape_occ _ _ Hs lit L Hlit HL) as [Hnd Hmem].
  constructor; [exact Hfr | exact Hnd | |].
  - intros ci Hci. apply Hmem, Hci.
  - constructor; [| |exact Hsat|exact Hunsat].
    + intros ci c _ Hc. apply (Hok ci c Hc).
    + intros ci c Hci Hc. apply (cnt_ok_other vold v lit).
      * intros Hin. apply Hci, Hmem. exists (clause_lits c).
        split; [apply formula_lookup, Hc | exact Hin].
      * exact Hv.
      * apply (Hok ci c Hc).
Qed.

Lemma Phase_end (v vold : Z -> option bool) (lit : Z) (s0 s : Solver) :
  Phase v vold lit s0 [] s ->
  prim_frame s0 s /\
  (forall ci c, clauses s !! ci = Some c -> cnt_ok v c) /\
  n_sat_clauses s = countZ clause_sat (clauses s) /\
  n_unsat_clauses s = countZ clause_unsat (clauses s).
Proof.
  intros [Hfr _ _ [_ Hdone Hsat Hunsat]].
  split; [exact Hfr|]. split; [|split; assumption].
  intros ci c Hc. apply (Hdone ci c); [|exact Hc]. apply not_elem_of_nil.
Qed.

Lemma add_true_loop (strict : Mode) (v vold : Z -> option bool) (lit : Z)
    (s0 : Solver) (L : list nat) (s : Solver) :
  Shape strict s0 ->
  vold lit = None -> v lit = Some true -> (forall z, z <> lit -> v z = vold z) ->
  Phase v vold lit s0 L s /\ Units s ->
  safe strict (foldM add_true_assignment L s)
    (fun s' => Phase v vold lit s0 [] s' /\ Units s').
Proof.
  intros Hs0 H1 H2 H3 HI.
  apply (foldM_safe strict
           (fun rest st => Phase v vold lit s0 rest st /\ Units st));
    [exact HI|].
  intros ci rest st Hst. apply add_true_step; assumption.
Qed.

Lemma add_false_loop (strict : Mode) (vold : Z -> option bool) (lit : Z)
    (s0 : Solver) (L : list nat) (s : Solver) :
  Shape strict s0 ->
  vold lit = None -> val s0 lit = Some false ->
  (forall z, z <> lit -> val s0 z = vold z) ->
  Phase (val s0) vold lit s0 L s /\ Units s ->
  safe strict (foldM add_false_assignment L s)
    (fun s' => Phase (val s0) vold lit s0 [] s' /\ Units s').
Proof.
  intros Hs0 H1 H2 H3 HI.
  apply (foldM_safe strict
           (fun rest st => Phase (val s0) vold lit s0 rest st /\ Units st));
    [exact HI|].
  intros ci rest st Hst. apply add_false_step; assumption.
Qed.

Lemma undo_true_loop (strict : Mode) (v vold : Z -> option bool) (lit : Z)
    (s0 : Solver) (L : list nat) (s : Solver) :
  Shape strict s0 ->
  vold lit = Some true -> v lit = None -> (forall z, z <> lit -> v z = vold z) ->
  Phase v vold lit s0 L s /\
  (n_units s = n_units s0 /\ unit_stack s = unit_stack s0) ->
  safe strict (foldM undo_true_assignment L s)
    (fun s' => Phase v vold lit s0 [] s' /\
               (n_units s' = n_units s0 /\ unit_stack s' = unit_stack s0)).
Proof.
  intros Hs0 H1 H2 H3 HI.
  apply (foldM_safe strict
           (fun rest st => Phase v vold lit s0 rest st /\
              (n_units st = n_units s0 /\ unit_stack st = unit_stack s0)));
    [exact HI|].
  intros ci rest st Hst. apply undo_true_step; assumption.
Qed.

Lemma undo_false_loop (strict : Mode) (v vold : Z -> option bool) (lit : Z)
    (s0 : Solver) (L : list nat) (s : Solver) :
  Shape strict s0 ->
  vold lit = Some false -> v lit = None -> (forall z, z <> lit -> v z = vold z) ->
  Phase v vold lit s0 L s /\
  (n_units s = n_units s0 /\ unit_stack s = unit_stack s0) ->
  safe strict (foldM undo_false_assignment L s)
    (fun s' => Phase v vold lit s0 [] s' /\
               (n_units s' = n_units s0 /\ unit_stack s' = unit_stack s0)).
Proof.
  intros Hs0 H1 H2 H3 HI.
  apply (foldM_safe strict
           (fun rest st => Phase v vold lit s0 rest st /\
              (n_units st = n_units s0 /\ unit_stack st = unit_stack s0)));
    [exact HI|].
  intros ci rest st Hst. apply undo_false_step; assumption.
Qed.

(** ** Writing the flags of a literal *)

Lemma val_set_lit (s : Solver) (lit z : Z) (ls : LitState) :
  0 <= lit -> (Z.to_nat lit < length (lits s))%nat ->
  val (set_lit lit ls s) z =
  if decide (z = lit)
  then (if fixed ls then Some (assigned ls) else None)
  else val s z.
Proof.
  intros Hlit Hlt. unfold val, flags; simpl.
  destruct (Z.ltb_spec z 0) as [Hz|Hz].
  - case_decide; [lia | reflexivity].
  - rewrite list_fmap_insert. case_decide as Hd.
    + subst z. rewrite list_lookup_insert_eq
        by (rewrite length_fmap; exact Hlt).
      reflexivity.
    + rewrite list_lookup_insert_ne by lia. reflexivity.
Qed.

Lemma set_lit_same_problem (s : Solver) (lit : Z) (ls ls' : LitState) :
  lits s !! Z.to_nat lit = Some ls -> cont_clauses ls' = cont_clauses ls ->
  same_problem s (set_lit lit ls' s) /\
  clauses (set_lit lit ls' s) = clauses s.
Proof.
  intros Hls Hc. unfold same_problem, occ, formula; simpl.
  rewrite list_fmap_insert, Hc, length_insert.
  rewrite list_insert_id by (rewrite list_lookup_fmap, Hls; reflexivity).
  tauto.
Qed.

Lemma Counters_ext (v v' w w' : Z -> option bool) (s : Solver) :
  (forall z, v' z = v z) -> Counters v w [] s -> Counters v' w' [] s.
Proof.
  intros Hv [_ Hd Hs Hu]. constructor; [| |exact Hs|exact Hu].
  - intros ci c Hin. inversion Hin.
  - intros ci c Hci Hc. apply (cnt_ok_ext v); [exact Hv|].
    apply (Hd ci c Hci Hc).
Qed.

Lemma Counters_all (v w : Z -> option bool) (s : Solver) :
  Counters v w [] s -> forall ci c, clauses s !! ci = Some c -> cnt_ok v c.
Proof.
  intros [_ Hd _ _] ci c Hc. apply (Hd ci c); [apply not_elem_of_nil|exact Hc].
Qed.

(** ** [make_assignment] *)

Lemma Units_weaken (s s' : Solver) :
  same_problem s s' -> clauses s' = clauses s ->
  n_units s' = n_units s -> unit_stack s' = unit_stack s ->
  (forall a, Ext a s' -> Ext a s) ->
  Units s -> Units s'.
Proof.
  intros (Hv & Hc & _ & Hf & _) Hcl Hn Hu HE [H1 H2 H3 H4 H5].
  constructor; rewrite ?Hn, ?Hu, ?Hv, ?Hc, ?Hcl; auto.
  intros a HM HE'. apply H5; [|apply HE, HE'].
  apply (Models_formula a s'); [symmetry; exact Hf | exact HM].
Qed.

Lemma only_lits_fields (s s' : Solver) :
  only_lits s s' ->
  n_vars s' = n_vars s /\ n_clauses s' = n_clauses s /\
  clauses s' = clauses s /\
  n_sat_clauses s' = n_sat_clauses s /\
  n_unsat_clauses s' = n_unsat_clauses s /\
  n_units s' = n_units s /\ n_assigned s' = n_assigned s /\
  unit_stack s' = unit_stack s /\ solver_assigned s' = solver_assigned s.
Proof. intros ->. simpl. tauto. Qed.

Lemma only_lits_set_lit (s : Solver) (lit : Z) (ls : LitState) :
  only_lits s (set_lit lit ls s).
Proof. reflexivity. Qed.

Lemma only_lits_trans (s1 s2 s3 : Solver) :
  only_lits s1 s2 -> only_lits s2 s3 -> only_lits s1 s3.
Proof. unfold only_lits. intros H1 H2. rewrite H2, H1. reflexivity. Qed.

Lemma make_assignment_safe (strict : Mode) (s : Solver) (lit : Z) :
  Shape strict s -> Counters (val s) (val s) [] s -> Units s ->
  0 <= lit < 2 * n_vars s ->
  (asserted strict -> val s lit = None /\ val s (negate lit) = None) ->
  safe strict (make_assignment s lit) (fun s' =>
    val s lit = None /\ val s (negate lit) = None /\
    (forall z, val s' z = assigned_view s lit z) /\
    same_problem s s' /\
    n_assigned s' = n_assigned s /\ solver_assigned s' = solver_assigned s /\
    Counters (val s') (val s') [] s' /\ Units s').
Proof.
  intros Hs Hcnt Hu Hlit Hfree.
  pose proof (negate_range lit (n_vars s) Hlit) as Hnlit.
  pose proof (negate_neq lit) as Hne.
  unfold make_assignment.
  apply safe_lit_at; [eapply shape_lit_bound; eauto|]. intros ls Hls.
  apply safe_lit_at; [eapply shape_lit_bound; eauto|]. intros nls Hnls.
  apply safe_assert.
  { intros Ha. destruct (Hfree Ha) as [H1 _].
    rewrite (val_lookup s lit ls) in H1 by (lia || assumption).
    destruct (fixed ls); [discriminate | reflexivity]. }
  intros Hf1%negb_true_iff.
  apply safe_assert.
  { intros Ha. destruct (Hfree Ha) as [_ H2].
    rewrite (val_lookup s (negate lit) nls) in H2 by (lia || assumption).
    destruct (fixed nls); [discriminate | reflexivity]. }
  intros Hf2%negb_true_iff.
  assert (Hvl : val s lit = None)
    by (rewrite (val_lookup s lit ls) by (lia || assumption);
        rewrite Hf1; reflexivity).
  assert (Hvn : val s (negate lit) = None)
    by (rewrite (val_lookup s (negate lit) nls) by (lia || assumption);
        rewrite Hf2; reflexivity).
  set (s1 := set_lit lit (set_flags true true ls) s).
  set (s2 := set_lit (negate lit) (set_flags true false nls) s1).
  destruct (set_lit_same_problem s lit ls (set_flags true true ls) Hls eq_refl)
    as [Hsp1 Hcl1]. fold s1 in Hsp1, Hcl1.
  assert (Hnls1 : lits s1 !! Z.to_nat (negate lit) = Some nls).
  { unfold s1; simpl. rewrite list_lookup_insert_ne by lia. exact Hnls. }
  destruct (set_lit_same_problem s1 (negate lit) nls (set_flags true false nls)
              Hnls1 eq_refl) as [Hsp2 Hcl2]. fold s2 in Hsp2, Hcl2.
  assert (Hsp : same_problem s s2) by (eapply same_problem_trans; eauto).
  assert (Hcl : clauses s2 = clauses s) by congruence.
  assert (Hs2 : Shape strict s2) by (eapply Shape_same_problem; eauto).
  assert (Hval2 : forall z, val s2 z = assigned_view s lit z).
  { intros z. unfold s2, assigned_view.
    rewrite val_set_lit; [|lia|].
    2:{ unfold s1; simpl. rewrite length_insert.
        eapply shape_lit_bound; eauto. }
    unfold s1. rewrite val_set_lit; [|lia|eapply shape_lit_bound; eauto].
    simpl. repeat case_decide; congruence. }
  set (v1 := fun z => if decide (z = lit) then Some true else val s z).
  assert (Hocc2 : occ s2 = occ s) by apply Hsp.
  assert (Hol : only_lits s s2).
  { eapply only_lits_trans; apply only_lits_set_lit. }
  apply only_lits_fields in Hol
    as (_ & _ & _ & Hsat2 & Hunsat2 & Hnu2 & Hna2 & Hus2 & Hsa2).
  assert (Hu2 : Units s2).
  { apply (Units_weaken s); auto.
    intros a HE z b Hz. apply HE. rewrite Hval2. unfold assigned_view.
    repeat case_decide; congruence. }
  clearbody s2. clear Hsp1 Hcl1 Hnls1 Hsp2 Hcl2. clearbody s1.
  eapply safe_bind.
  { apply (add_true_loop strict v1 (val s) lit s2 (cont_clauses ls) s2);
      [exact Hs2 | exact Hvl | | | ].
    - unfold v1. case_decide; congruence.
    - intros z Hz. unfold v1. case_decide; congruence.
    - split; [|exact Hu2].
      apply (Phase_start strict v1 (val s) lit s2 s2); auto.
      + apply prim_frame_refl.
      + lia.
      + rewrite Hocc2. apply occ_lookup, Hls.
      + intros z Hz. unfold v1. case_decide; congruence.
      + rewrite Hcl. apply (Counters_all _ _ _ Hcnt).
      + rewrite Hcl, Hsat2. apply (cnt_sat _ _ _ _ Hcnt).
      + rewrite Hcl, Hunsat2. apply (cnt_unsat _ _ _ _ Hcnt). }
  intros s3 _ [Hp3 Hu3].
  apply Phase_end in Hp3 as (Hfr3 & Hok3 & Hsat3 & Hunsat3).
  assert (Hs3 : Shape strict s3).
  { eapply Shape_same_problem; [|exact Hs2].
    apply prim_frame_same_problem, Hfr3. }
  eapply safe_mono.
  { apply (add_false_loop strict v1 (negate lit) s2 (cont_clauses nls) s3);
      [exact Hs2 | | | | ].
    - unfold v1. case_decide; congruence.
    - rewrite Hval2. unfold assigned_view. repeat case_decide; congruence.
    - intros z Hz. rewrite Hval2. unfold assigned_view, v1.
      repeat case_decide; congruence.
    - split; [|exact Hu3].
      apply (Phase_start strict (val s2) v1 (negate lit) s2 s3); auto.
      + lia.
      + replace (occ s3) with (occ s2)
          by (unfold occ; f_equal; symmetry; apply Hfr3).
        rewrite Hocc2. apply occ_lookup, Hnls.
      + intros z Hz. rewrite Hval2. unfold assigned_view, v1.
        repeat case_decide; congruence. }
  intros s4 _ [Hp4 Hu4].
  apply Phase_end in Hp4 as (Hfr4 & Hok4 & Hsat4 & Hunsat4).
  assert (Hval4 : forall z, val s4 z = val s2 z).
  { intros z. apply val_lits. apply Hfr4. }
  split; [exact Hvl|]. split; [exact Hvn|].
  split; [intros z; rewrite Hval4; apply Hval2|].
  split.
  { eapply same_problem_trans; [exact Hsp|].
    apply prim_frame_same_problem, Hfr4. }
  destruct Hfr4 as (_ & _ & _ & _ & Hn & Ha & _).
  split; [congruence|]. split; [congruence|].
  split; [|exact Hu4].
  constructor; [| |exact Hsat4|exact Hunsat4].
  - intros ci c Hin. inversion Hin.
  - intros ci c _ Hc. apply (cnt_ok_ext (val s2)); [exact Hval4|].
    apply (Hok4 ci c Hc).
Qed.

(** ** [undo_assignment] *)

Lemma undo_assignment_safe (strict : Mode) (s : Solver) (lit : Z) :
  Shape strict s -> Counters (val s) (val s) [] s ->
  0 <= lit < 2 * n_vars s ->
  (asserted strict -> val s lit = Some true /\ val s (negate lit) = Some false) ->
  safe strict (undo_assignment s lit) (fun s' =>
    val s lit = Some true /\ val s (negate lit) = Some false /\
    (forall z, val s' z = unassigned_view s lit z) /\
    same_problem s s' /\
    n_assigned s' = n_assigned s /\ solver_assigned s' = solver_assigned s /\
    n_units s' = n_units s /\ unit_stack s' = unit_stack s /\
    Counters (val s') (val s') [] s').
Proof.
  intros Hs Hcnt Hlit Hset.
  pose proof (negate_range lit (n_vars s) Hlit) as Hnlit.
  pose proof (negate_neq lit) as Hne.
  unfold undo_assignment.
  apply safe_lit_at; [eapply shape_lit_bound; eauto|]. intros ls Hls.
  apply safe_lit_at; [eapply shape_lit_bound; eauto|]. intros nls Hnls.
  assert (Hflags : asserted strict ->
            fixed ls = true /\ assigned ls = true /\
            fixed nls = true /\ assigned nls = false).
  { intros Ha. destruct (Hset Ha) as [H1 H2].
    rewrite (val_lookup s lit ls) in H1 by (lia || assumption).
    rewrite (val_lookup s (negate lit) nls) in H2 by (lia || assumption).
    destruct (fixed ls), (fixed nls); try discriminate.
    injection H1 as ->. injection H2 as ->. auto. }
  apply safe_assert; [intros Ha; apply (Hflags Ha)|]. intros Hf1.
  apply safe_assert; [intros Ha; apply (Hflags Ha)|]. intros Ha1.
  apply safe_assert; [intros Ha; apply (Hflags Ha)|]. intros Hf2.
  apply safe_assert.
  { intros Ha. apply negb_true_iff. apply (Hflags Ha). }
  intros Ha2%negb_true_iff.
  assert (Hvl : val s lit = Some true)
    by (rewrite (val_lookup s lit ls) by (lia || assumption);
        rewrite Hf1, Ha1; reflexivity).
  assert (Hvn : val s (negate lit) = Some false)
    by (rewrite (val_lookup s (negate lit) nls) by (lia || assumption);
        rewrite Hf2, Ha2; reflexivity).
  set (v3 := fun z => if decide (z = lit) then None else val s z).
  eapply safe_bind.
  { apply (undo_true_loop strict v3 (val s) lit s (cont_clauses ls) s);
      [exact Hs | exact Hvl | | | ].
    - unfold v3. case_decide; congruence.
    - intros z Hz. unfold v3. case_decide; congruence.
    - split; [|split; reflexivity].
      apply (Phase_start strict v3 (val s) lit s s); auto.
      + apply prim_frame_refl.
      + lia.
      + apply occ_lookup, Hls.
      + intros z Hz. unfold v3. case_decide; congruence.
      + apply (Counters_all _ _ _ Hcnt).
      + apply (cnt_sat _ _ _ _ Hcnt).
      + apply (cnt_unsat _ _ _ _ Hcnt). }
  intros s1 _ [Hp1 [Hnu1 Hus1]].
  apply Phase_end in Hp1 as (Hfr1 & Hok1 & Hsat1 & Hunsat1).
  assert (Hs1 : Shape strict s1).
  { eapply Shape_same_problem; [|exact Hs].
    apply prim_frame_same_problem, Hfr1. }
  eapply safe_bind.
  { apply (undo_false_loop strict (unassigned_view s lit) v3 (negate lit) s
             (cont_clauses nls) s1); [exact Hs | | | | ].
    - unfold v3. case_decide; congruence.
    - unfold unassigned_view. repeat case_decide; congruence.
    - intros z Hz. unfold unassigned_view, v3. repeat case_decide; congruence.
    - split; [|split; assumption].
      apply (Phase_start strict _ v3 (negate lit) s s1); auto.
      + lia.
      + replace (occ s1) with (occ s)
          by (unfold occ; f_equal; symmetry; apply Hfr1).
        apply occ_lookup, Hnls.
      + intros z Hz. unfold unassigned_view, v3.
        repeat case_decide; congruence. }
  intros s2 _ [Hp2 [Hnu2 Hus2]].
  apply Phase_end in Hp2 as (Hfr2 & Hok2 & Hsat2 & Hunsat2).
  assert (Hlits2 : lits s2 = lits s) by apply Hfr2.
  assert (Hs2 : Shape strict s2).
  { eapply Shape_same_problem; [|exact Hs].
    apply prim_frame_same_problem, Hfr2. }
  assert (Hlen2 : forall z, 0 <= z < 2 * n_vars s ->
                    (Z.to_nat z < length (lits s2))%nat).
  { intros z Hz. rewrite Hlits2. eapply shape_lit_bound; eauto. }
  apply safe_lit_at; [apply Hlen2, Hlit|]. intros ls' Hls'.
  rewrite Hlits2, Hls in Hls'. injection Hls' as <-.
  set (s3 := set_lit lit (set_fixed false ls) s2).
  apply safe_lit_at.
  { unfold s3; simpl. rewrite length_insert. apply Hlen2, Hnlit. }
  intros nls' Hnls'.
  assert (Hnls3 : lits s3 !! Z.to_nat (negate lit) = Some nls).
  { unfold s3; simpl. rewrite list_lookup_insert_ne by lia.
    rewrite Hlits2. exact Hnls. }
  rewrite Hnls3 in Hnls'. injection Hnls' as <-.
  apply safe_Ret.
  set (s4 := set_lit (negate lit) (set_fixed false nls) s3).
  assert (Hls2 : lits s2 !! Z.to_nat lit = Some ls) by (rewrite Hlits2; exact Hls).
  destruct (set_lit_same_problem s2 lit ls (set_fixed false ls) Hls2 eq_refl)
    as [Hsp3 Hcl3]. fold s3 in Hsp3, Hcl3.
  destruct (set_lit_same_problem s3 (negate lit) nls (set_fixed false nls)
              Hnls3 eq_refl) as [Hsp4 Hcl4]. fold s4 in Hsp4, Hcl4.
  assert (Hval4 : forall z, val s4 z = unassigned_view s lit z).
  { intros z. unfold s4, unassigned_view.
    rewrite val_set_lit; [|lia|].
    2:{ unfold s3; simpl. rewrite length_insert. apply Hlen2, Hnlit. }
    unfold s3. rewrite val_set_lit; [|lia|apply Hlen2, Hlit].
    simpl. rewrite (val_lits s s2 z Hlits2).
    repeat case_decide; congruence. }
  assert (Hol : only_lits s2 s4).
  { eapply only_lits_trans; apply only_lits_set_lit. }
  apply only_lits_fields in Hol
    as (_ & _ & Hcl & Hsat4 & Hunsat4 & Hnu4 & Hna4 & Hus4 & Hsa4).
  clearbody s4.
  pose proof (prim_frame_same_problem _ _ Hfr2) as Hsp2.
  destruct Hfr2 as (_ & _ & _ & _ & Hn & Ha & _).
  split; [exact Hvl|]. split; [exact Hvn|]. split; [exact Hval4|].
  split.
  { eapply same_problem_trans; [|exact Hsp4].
    eapply same_problem_trans; [|exact Hsp3]. exact Hsp2. }
  split; [congruence|]. split; [congruence|].
  split; [congruence|]. split; [congruence|].
  constructor.
  - intros ci c Hin. inversion Hin.
  - intros ci c _ Hc. rewrite Hcl in Hc.
    apply (cnt_ok_ext (unassigned_view s lit)); [exact Hval4|].
    apply (Hok2 ci c Hc).
  - rewrite Hsat4, Hcl. exact Hsat2.
  - rewrite Hunsat4, Hcl. exact Hunsat2.
Qed.

(** ** Moving invariants between states with the same view *)

Lemma Counters_transfer (s s' : Solver) :
  (forall z, val s' z = val s z) -> clauses s' = clauses s ->
  n_sat_clauses s' = n_sat_clauses s ->
  n_unsat_clauses s' = n_unsat_clauses s ->
  Counters (val s) (val s) [] s -> Counters (val s') (val s') [] s'.
Proof.
  intros Hv Hc Hs Hu [_ Hd H1 H2].
  constructor; rewrite ?Hc, ?Hs, ?Hu; auto.
  - intros ci c Hin. inversion Hin.
  - intros ci c Hci Hcl. apply (cnt_ok_ext (val s)); [exact Hv|].
    apply (Hd ci c Hci Hcl).
Qed.

Lemma Trail_transfer (s s' : Solver) :
  (forall z, val s' z = val s z) -> n_vars s' = n_vars s ->
  n_assigned s' = n_assigned s -> solver_assigned s' = solver_assigned s ->
  Trail s -> Trail s'.
Proof.
  intros Hv Hn Ha Hs [H1 H2 H3 H4].
  constructor; rewrite ?Hn, ?Ha, ?Hs; auto.
  - intros lit Hlit. rewrite !Hv. apply H1, Hlit.
  - intros lit. rewrite Hv. apply H4.
Qed.

Lemma Ext_val (a : Z -> bool) (s s' : Solver) :
  (forall z, val s' z = val s z) -> Ext a s -> Ext a s'.
Proof. intros Hv HE z b Hz. apply HE. rewrite <- Hv. exact Hz. Qed.

Lemma Inv_score_eq (strict : Mode) (s s' : Solver) :
  score_eq s s' -> Inv strict s -> Inv strict s'.
Proof.
  intros Hse [Hsh Hc Hu Ht].
  pose proof (score_eq_same_problem _ _ Hse) as Hsp.
  destruct Hse as (Hv & Hnc & Hfl & Ho & Hcl & Hsat & Hunsat & Hnu & Hna
                   & Hus & Hsa).
  assert (Hval : forall z, val s' z = val s z)
    by (intros z; apply val_flags, Hfl).
  constructor.
  - eapply Shape_same_problem; eauto.
  - apply (Counters_transfer s); auto.
  - apply (Units_weaken s); auto.
    intros a. apply Ext_val. intros z. symmetry. apply Hval.
  - apply (Trail_transfer s); auto.
Qed.

Lemma score_eq_refl (s : Solver) : score_eq s s.
Proof. unfold score_eq. tauto. Qed.

Lemma score_eq_trans (s1 s2 s3 : Solver) :
  score_eq s1 s2 -> score_eq s2 s3 -> score_eq s1 s3.
Proof.
  unfold score_eq.
  intros (?&?&?&?&?&?&?&?&?&?&?) (?&?&?&?&?&?&?&?&?&?&?).
  repeat split; congruence.
Qed.

Lemma Units_empty (strict : Mode) (s : Solver) :
  Shape strict s -> n_units s = 0 -> Units s.
Proof.
  intros Hs Hn. pose proof (count_le_clauses _ _ clause_open Hs).
  constructor; rewrite ?Hn; simpl; try lia.
  - intros u Hu. inversion Hu.
  - intros a _ _ u Hu. inversion Hu.
Qed.

(** ** The trail *)

Lemma negate_inj (x y : Z) : negate x = negate y -> x = y.
Proof.
  intros H. rewrite <- (negate_involutive x), H. apply negate_involutive.
Qed.

Lemma trail_in_range (strict : Mode) (s : Solver) (lit : Z) (b : bool) :
  Shape strict s -> val s lit = Some b -> 0 <= lit < 2 * n_vars s.
Proof.
  intros Hs Hv. apply val_Some_lookup in Hv as (H0 & ls & Hls & _).
  eapply shape_lit_bound_inv; eauto.
Qed.

(** Every variable is on the trail at most once. *)
Lemma trail_bound (strict : Mode) (s : Solver) :
  Shape strict s -> Trail s -> n_assigned s <= n_vars s.
Proof.
  intros Hs Ht.
  set (tr := take (Z.to_nat (n_assigned s)) (solver_assigned s)).
  pose proof (shape_vars _ _ Hs) as Hnv.
  assert (Hin : forall l, l ∈ tr -> val s l = Some true)
    by (intros l; apply (trail_lits _ Ht)).
  assert (Hnd : NoDup (tr ++ (negate <$> tr))).
  { apply list.NoDup_app. split; [apply (trail_nodup _ Ht)|]. split.
    - intros x Hx [y [-> Hy]]%list_elem_of_fmap.
      pose proof (Hin _ Hx) as H1. pose proof (Hin _ Hy) as H2.
      rewrite (trail_pair _ Ht y) in H1
        by (eapply trail_in_range; eauto).
      rewrite H2 in H1. discriminate.
    - apply NoDup_fmap_2_strong; [|apply (trail_nodup _ Ht)].
      intros x y _ _. apply negate_inj. }
  apply (NoDup_range_length _ (2 * n_vars s)) in Hnd; [|lia|].
  2:{ intros x [Hx | [y [-> Hy]]%list_elem_of_fmap]%elem_of_app.
      - eapply trail_in_range; eauto.
      - apply negate_range. eapply trail_in_range; eauto. }
  rewrite length_app, length_fmap in Hnd. unfold tr in Hnd.
  rewrite length_take, (shape_trail _ _ Hs) in Hnd.
  pose proof (trail_nonneg _ Ht). lia.
Qed.

(** The value of a literal is read off the trail. *)
Lemma val_from_trail (strict : Mode) (s s' : Solver) :
  Shape strict s -> Shape strict s' -> Trail s -> Trail s' ->
  n_vars s' = n_vars s ->
  take (Z.to_nat (n_assigned s')) (solver_assigned s') =
  take (Z.to_nat (n_assigned s)) (solver_assigned s) ->
  forall z, val s' z = val s z.
Proof.
  intros Hs Hs' Ht Ht' Hn Htr.
  assert (Htrue : forall z, val s' z = Some true <-> val s z = Some true).
  { intros z. rewrite <- (trail_lits _ Ht), <- (trail_lits _ Ht'), Htr.
    reflexivity. }
  assert (Hfalse : forall z, val s' z = Some false <-> val s z = Some false).
  { assert (H : forall t t', Shape strict t -> Trail t -> Trail t' ->
               n_vars t' = n_vars t ->
               (forall z, val t' z = Some true <-> val t z = Some true) ->
               forall z, val t z = Some false -> val t' z = Some false).
    { intros t t' Hst Htt Htt' Hnt Htt'' z Hz.
      pose proof (trail_in_range _ _ _ _ Hst Hz) as Hr.
      pose proof (trail_pair _ Htt z Hr) as Hp. rewrite Hz in Hp. simpl in Hp.
      apply Htt'' in Hp.
      pose proof (trail_pair _ Htt' (negate z)) as Hp'.
      rewrite negate_involutive, Hp in Hp'. simpl in Hp'.
      apply Hp'. rewrite Hnt. apply negate_range, Hr. }
    intros z. split.
    - apply (H s' s); auto. intros y. symmetry. apply Htrue.
    - apply (H s s'); auto. }
  intros z. destruct (val s z) as [[|]|] eqn:E.
  - apply Htrue, E.
  - apply Hfalse, E.
  - destruct (val s' z) as [[|]|] eqn:E'; [| |reflexivity].
    + apply Htrue in E'. congruence.
    + apply Hfalse in E'. congruence.
Qed.

(** Pushing a literal on the trail and making it true. *)
Lemma assign_safe (strict : Mode) (s : Solver) (lit : Z) :
  Inv strict s -> 0 <= lit < 2 * n_vars s ->
  (asserted strict -> val s lit = None) ->
  safe strict (let* s1 := push_assigned s lit in make_assignment s1 lit)
    (fun s' =>
       Inv strict s' /\ same_problem s s' /\
       n_assigned s' = n_assigned s + 1 /\
       trail_prefix s s' /\
       solver_assigned s' !! Z.to_nat (n_assigned s) = Some lit /\
       val s lit = None /\
       (forall z, val s' z = assigned_view s lit z)).
Proof.
  intros [Hs Hc Hu Ht] Hlit Hfree.
  pose proof (trail_bound _ _ Hs Ht) as Hb.
  pose proof (trail_nonneg _ Ht) as Hnn.
  pose proof (shape_vars _ _ Hs) as Hnv.
  unfold push_assigned.
  destruct (Nat.ltb_spec (Z.to_nat (n_assigned s)) (length (solver_assigned s)))
    as [Hlt|Hge].
  2:{ rewrite (shape_trail _ _ Hs) in Hge. lia. }
  simpl bind.
  set (s1 := set_n_assigned _ _).
  assert (Hsp1 : same_problem s s1).
  { unfold same_problem, s1; simpl. rewrite length_insert. tauto. }
  assert (Hval1 : forall z, val s1 z = val s z) by reflexivity.
  assert (Hs1 : Shape strict s1) by (eapply Shape_same_problem; eauto).
  assert (Hc1 : Counters (val s1) (val s1) [] s1)
    by (apply (Counters_transfer s); auto).
  assert (Hu1 : Units s1).
  { apply (Units_weaken s); auto. }
  assert (Hna1 : n_assigned s1 = n_assigned s + 1).
  { unfold s1; simpl. u32_small_tac. reflexivity. }
  assert (Hsa1 : solver_assigned s1
                 = <[Z.to_nat (n_assigned s) := lit]> (solver_assigned s))
    by reflexivity.
  clearbody s1.
  eapply safe_mono.
  { apply (make_assignment_safe strict s1 lit); auto.
    - replace (n_vars s1) with (n_vars s) by (symmetry; apply Hsp1). exact Hlit.
    - intros Ha. rewrite !Hval1, (trail_pair _ Ht lit Hlit), (Hfree Ha). auto. }
  intros s' _ (Hvl & Hvn & Hval' & Hsp' & Hna' & Hsa' & Hc' & Hu').
  rewrite Hval1 in Hvl, Hvn.
  assert (Hval : forall z, val s' z = assigned_view s lit z).
  { intros z. rewrite Hval'. unfold assigned_view. rewrite Hval1.
    reflexivity. }
  assert (Hsp : same_problem s s') by (eapply same_problem_trans; eauto).
  assert (Htake : take (Z.to_nat (n_assigned s')) (solver_assigned s') =
                  take (Z.to_nat (n_assigned s)) (solver_assigned s) ++ [lit]).
  { rewrite Hna', Hsa', Hna1, Hsa1.
    replace (Z.to_nat (n_assigned s + 1)) with (S (Z.to_nat (n_assigned s)))
      by lia.
    apply take_push, Hlt. }
  split; [|split; [exact Hsp|split; [lia|split; [|split; [|
             split; [exact Hvl|exact Hval]]]]]].
  2:{ unfold trail_prefix. rewrite Hna', Hsa', Hna1, Hsa1.
      split; [lia|]. apply take_insert_ge. lia. }
  2:{ rewrite Hsa', Hsa1. apply list_lookup_insert_eq, Hlt. }
  constructor; [eapply Shape_same_problem; eauto | exact Hc' | exact Hu' |].
  assert (Hnv' : n_vars s' = n_vars s) by apply Hsp.
  constructor.
  - intros z Hz. rewrite Hnv' in Hz. rewrite !Hval. unfold assigned_view.
    pose proof (negate_neq z). pose proof (negate_involutive z).
    pose proof (negate_involutive lit). pose proof (negate_neq lit).
    repeat case_decide; try congruence; try reflexivity.
    apply (trail_pair _ Ht), Hz.
  - lia.
  - rewrite Htake. apply list.NoDup_app. split; [apply (trail_nodup _ Ht)|].
    split; [|apply NoDup_singleton].
    intros x Hx ->%list_elem_of_singleton.
    apply (trail_lits _ Ht) in Hx. congruence.
  - intros z. rewrite Htake, Hval, elem_of_app, list_elem_of_singleton.
    rewrite (trail_lits _ Ht). unfold assigned_view.
    repeat case_decide; subst; split; intros Hx; try tauto; try congruence;
      destruct Hx; congruence.
Qed.

(** Popping the last literal of the trail and undoing it. *)
Lemma unassign_safe (strict : Mode) (s : Solver) :
  Inv strict s -> n_units s = 0 -> 0 < n_assigned s ->
  safe strict
    (let s1 := set_n_assigned (u32 (n_assigned s - 1)) s in
     let* lit := array_at (solver_assigned s1) (n_assigned s1) in
     undo_assignment s1 lit)
    (fun s' =>
       Inv strict s' /\ n_units s' = 0 /\ same_problem s s' /\
       n_assigned s' = n_assigned s - 1 /\
       solver_assigned s' = solver_assigned s).
Proof.
  intros [Hs Hc Hu Ht] Hnu Hpos.
  pose proof (trail_bound _ _ Hs Ht) as Hb.
  pose proof (shape_vars _ _ Hs) as Hnv.
  cbv zeta.
  set (s1 := set_n_assigned _ _).
  assert (Hna1 : n_assigned s1 = n_assigned s - 1).
  { unfold s1; simpl. u32_small_tac. reflexivity. }
  assert (Hsa1 : solver_assigned s1 = solver_assigned s) by reflexivity.
  assert (Hsp1 : same_problem s s1) by (unfold same_problem, s1; simpl; tauto).
  assert (Hval1 : forall z, val s1 z = val s z) by reflexivity.
  assert (Hs1 : Shape strict s1) by (eapply Shape_same_problem; eauto).
  assert (Hc1 : Counters (val s1) (val s1) [] s1)
    by (apply (Counters_transfer s); auto).
  assert (Hnu1 : n_units s1 = 0) by exact Hnu.
  assert (Hus1 : unit_stack s1 = unit_stack s) by reflexivity.
  clearbody s1. rewrite Hna1, Hsa1.
  unfold array_at.
  destruct (lookup_lt_is_Some_2 (solver_assigned s)
              (Z.to_nat (n_assigned s - 1))) as [lit Hl].
  { rewrite (shape_trail _ _ Hs). lia. }
  rewrite Hl. simpl bind.
  set (tr := take (Z.to_nat (n_assigned s)) (solver_assigned s)) in *.
  assert (Htr : tr = take (Z.to_nat (n_assigned s - 1)) (solver_assigned s)
                     ++ [lit]).
  { unfold tr.
    replace (Z.to_nat (n_assigned s)) with (S (Z.to_nat (n_assigned s - 1)))
      by lia.
    apply take_S_r, Hl. }
  assert (Hlt : val s lit = Some true).
  { apply (trail_lits _ Ht). fold tr. rewrite Htr.
    apply elem_of_app. right. now left. }
  pose proof (trail_in_range _ _ _ _ Hs Hlt) as Hlit.
  eapply safe_mono.
  { apply (undo_assignment_safe strict s1 lit); auto.
    - replace (n_vars s1) with (n_vars s) by (symmetry; apply Hsp1). exact Hlit.
    - intros _. rewrite !Hval1, (trail_pair _ Ht lit Hlit), Hlt. auto. }
  intros s' _ (_ & Hvn & Hval' & Hsp' & Hna' & Hsa' & Hnu' & Hus' & Hc').
  rewrite Hval1 in Hvn.
  assert (Hval : forall z, val s' z = unassigned_view s lit z).
  { intros z. rewrite Hval'. unfold unassigned_view. rewrite Hval1.
    reflexivity. }
  assert (Hsp : same_problem s s') by (eapply same_problem_trans; eauto).
  assert (Hs' : Shape strict s') by (eapply Shape_same_problem; eauto).
  assert (Hnv' : n_vars s' = n_vars s) by apply Hsp.
  pose proof (trail_nodup _ Ht) as Hnd. fold tr in Hnd. rewrite Htr in Hnd.
  apply list.NoDup_app in Hnd as (Hnd & Hnotin & _).
  split; [|split; [congruence|split; [exact Hsp|split; [lia|congruence]]]].
  constructor; [exact Hs' | exact Hc' | |].
  { apply (Units_empty strict); [exact Hs' | congruence]. }
  constructor.
  - intros z Hz. rewrite Hnv' in Hz. rewrite !Hval. unfold unassigned_view.
    pose proof (negate_neq z). pose proof (negate_involutive z).
    pose proof (negate_involutive lit). pose proof (negate_neq lit).
    repeat case_decide; try congruence; try reflexivity.
    apply (trail_pair _ Ht), Hz.
  - lia.
  - rewrite Hna', Hsa', Hna1, Hsa1. exact Hnd.
  - intros z. rewrite Hna', Hsa', Hna1, Hsa1, Hval. unfold unassigned_view.
    pose proof (trail_lits _ Ht z) as Hz. fold tr in Hz.
    rewrite Htr, elem_of_app, list_elem_of_singleton in Hz.
    split.
    + intros Hin. pose proof (Hnotin z Hin) as Hn.
      rewrite list_elem_of_singleton in Hn.
      assert (Hzt : val s z = Some true) by (apply Hz; now left).
      repeat case_decide; congruence.
    + repeat case_decide; try discriminate.
      intros Hzt. apply Hz in Hzt as [Hin | ->]; [exact Hin | congruence].
Qed.

Lemma trail_prefix_refl (s : Solver) : trail_prefix s s.
Proof. unfold trail_prefix. split; [lia | reflexivity]. Qed.

Lemma trail_prefix_trans (s1 s2 s3 : Solver) :
  0 <= n_assigned s1 ->
  trail_prefix s1 s2 -> trail_prefix s2 s3 -> trail_prefix s1 s3.
Proof.
  unfold trail_prefix. intros H0 [H1 H2] [H3 H4]. split; [lia|].
  rewrite <- H2.
  transitivity (take (Z.to_nat (n_assigned s1))
                  (take (Z.to_nat (n_assigned s2)) (solver_assigned s3))).
  - rewrite take_take. f_equal. lia.
  - rewrite H4, take_take. f_equal. lia.
Qed.

Lemma unwind_safe (strict : Mode) (k : nat) (s : Solver) :
  Inv strict s -> n_units s = 0 -> Z.of_nat k <= n_assigned s ->
  safe strict (unwind k s) (fun s' =>
    Inv strict s' /\ n_units s' = 0 /\ same_problem s s' /\
    n_assigned s' = n_assigned s - Z.of_nat k /\
    solver_assigned s' = solver_assigned s).
Proof.
  revert s. induction k as [|k IH]; intros s Hinv Hnu Hk.
  - simpl. split; [exact Hinv|]. split; [exact Hnu|].
    split; [apply same_problem_refl|]. split; [lia | reflexivity].
  - cbn [unwind]. cbv zeta.
    eapply (safe_bind2 strict _
              (fun lit => undo_assignment
                            (set_n_assigned (u32 (n_assigned s - 1)) s) lit)).
    { apply (unassign_safe strict s); [exact Hinv | exact Hnu | lia]. }
    intros s1 (Hinv1 & Hnu1 & Hsp1 & Hna1 & Hsa1).
    eapply safe_mono; [apply IH; [exact Hinv1 | exact Hnu1 | lia]|].
    intros s' _ (Hinv' & Hnu' & Hsp' & Hna' & Hsa').
    split; [exact Hinv'|]. split; [exact Hnu'|].
    split; [eapply same_problem_trans; eauto|].
    split; [lia | congruence].
Qed.

Lemma backtrack_safe (strict : Mode) (prev : Z) (s : Solver) :
  Inv strict s -> n_units s = 0 -> 0 <= prev <= n_assigned s ->
  safe strict (backtrack prev s) (fun s' =>
    Inv strict s' /\ n_units s' = 0 /\ same_problem s s' /\
    n_assigned s' = prev /\ solver_assigned s' = solver_assigned s).
Proof.
  intros Hinv Hnu Hprev. unfold backtrack.
  eapply safe_bind.
  { apply (unwind_safe strict _ s Hinv Hnu). lia. }
  intros s' _ (Hinv' & Hnu' & Hsp' & Hna' & Hsa').
  apply safe_assert; [intros _; apply Z.eqb_eq; lia|]. intros _.
  apply safe_Ret.
  split; [exact Hinv'|]. split; [exact Hnu'|]. split; [exact Hsp'|].
  split; [lia | exact Hsa'].
Qed.

(** ** The propagation loop *)

Lemma Inv_set_n_units (strict : Mode) (s : Solver) (k : Z) :
  Inv strict s -> 0 <= k <= n_units s -> Inv strict (set_n_units k s).
Proof.
  intros [Hs Hc Hu Ht] Hk.
  assert (Hsub : forall u, u ∈ take (Z.to_nat k) (unit_stack s) ->
                   u ∈ take (Z.to_nat (n_units s)) (unit_stack s)).
  { intros u (i & Hi & Hlt)%elem_of_take. apply elem_of_take.
    exists i. split; [exact Hi | lia]. }
  constructor.
  - eapply Shape_same_problem; [|exact Hs]. unfold same_problem; simpl; tauto.
  - apply (Counters_transfer s); auto.
  - destruct Hu as [H1 H2 H3 H4 H5]. constructor; simpl; try lia.
    + intros u Hu. apply H4, Hsub, Hu.
    + intros a HM HE u Hu. apply (H5 a HM HE), Hsub, Hu.
  - apply (Trail_transfer s); auto.
Qed.

Lemma propagate_safe (strict : Mode) (fuel : nat) (s : Solver) :
  Inv strict s ->
  safe strict (propagate fuel s) (fun r =>
    Inv strict (snd r) /\ n_units (snd r) = 0 /\
    same_problem s (snd r) /\ trail_prefix s (snd r) /\
    forall a, Models a s -> Ext a s ->
              if fst r then False else Ext a (snd r)).
Proof.
  revert s. induction fuel as [|fuel IH]; intros s Hinv;
    pose proof (units_nonneg _ (inv_units _ _ Hinv)) as Hnn;
    cbn [propagate]; destruct (Z.ltb_spec 0 (n_units s)) as [Hpos|Hz];
    try exact I;
    try (apply safe_Ret; simpl;
         split; [exact Hinv|]; split; [lia|];
         split; [apply same_problem_refl|];
         split; [apply trail_prefix_refl|]; intros a _ HE; exact HE).
  pose proof (inv_shape _ _ Hinv) as Hs.
  pose proof (inv_units _ _ Hinv) as Hu.
  pose proof (inv_trail _ _ Hinv) as Ht.
  pose proof (units_fit _ Hu) as Hfit.
  pose proof (units_pot _ Hu) as Hpot.
  pose proof (count_le_clauses _ _ clause_open Hs) as Hco.
  pose proof (shape_clauses _ _ Hs) as Hnc.
  set (s1 := set_n_units (u32 (n_units s - 1)) s).
  assert (Hn1 : u32 (n_units s - 1) = n_units s - 1)
    by (u32_small_tac; reflexivity).
  assert (Hinv1 : Inv strict s1).
  { unfold s1. rewrite Hn1. apply Inv_set_n_units; [exact Hinv | lia]. }
  assert (Hsp1 : same_problem s s1) by (unfold same_problem, s1; simpl; tauto).
  assert (Hval1 : forall z, val s1 z = val s z) by reflexivity.
  assert (Hna1 : n_assigned s1 = n_assigned s) by reflexivity.
  assert (Hsa1 : solver_assigned s1 = solver_assigned s) by reflexivity.
  assert (Hnu1 : n_units s1 = n_units s - 1) by exact Hn1.
  assert (Hus1 : unit_stack s1 = unit_stack s) by reflexivity.
  assert (Hpre1 : trail_prefix s s1).
  { unfold trail_prefix. rewrite Hna1, Hsa1. split; [lia | reflexivity]. }
  clearbody s1.
  unfold array_at. rewrite Hus1, Hnu1.
  destruct (lookup_lt_is_Some_2 (unit_stack s) (Z.to_nat (n_units s - 1)))
    as [u Hlu]; [lia|].
  rewrite Hlu. simpl bind.
  assert (Hin : u ∈ take (Z.to_nat (n_units s)) (unit_stack s)).
  { apply elem_of_take. exists (Z.to_nat (n_units s - 1)).
    split; [exact Hlu | lia]. }
  pose proof (units_lits _ Hu u Hin) as Hur.
  pose proof (units_forced _ Hu) as Hforced.
  apply safe_lit_at.
  { eapply shape_lit_bound; [apply (inv_shape _ _ Hinv1)|].
    replace (n_vars s1) with (n_vars s) by (symmetry; apply Hsp1). exact Hur. }
  intros us Hus.
  pose proof (val_lookup s1 u us ltac:(lia) Hus) as Hvu. rewrite Hval1 in Hvu.
  destruct (fixed us) eqn:Hfx; simpl negb; cbv iota.
  2:{ (* the unit is free: assign it and go on *)
      set (s2 := set_t_unit_props _ s1).
      assert (Hinv2 : Inv strict s2).
      { apply (Inv_score_eq strict s1); [|exact Hinv1].
        unfold score_eq, s2; simpl. tauto. }
      eapply (safe_bind2 strict _ (fun s3 => make_assignment s3 u)).
      { apply (assign_safe strict s2 u Hinv2).
        - replace (n_vars s2) with (n_vars s) by (symmetry; apply Hsp1).
          exact Hur.
        - intros _. change (val s2 u) with (val s1 u).
          rewrite Hval1, Hvu. reflexivity. }
      intros s4 (Hinv4 & Hsp4 & Hna4 & Hpre4 & _ & _ & Hval4).
      change (n_assigned s2) with (n_assigned s1) in Hna4.
      assert (Hpre14 : trail_prefix s1 s4) by exact Hpre4.
      assert (Hsp04 : same_problem s s4).
      { eapply same_problem_trans; [exact Hsp1 | exact Hsp4]. }
      eapply safe_mono; [apply IH, Hinv4|].
      intros [c s'] _ (Hinv' & Hnu' & Hsp' & Hpre' & Hsem'). simpl in *.
      pose proof (trail_nonneg _ Ht) as Hna0.
      split; [exact Hinv'|]. split; [exact Hnu'|].
      split; [eapply same_problem_trans; [exact Hsp04 | exact Hsp']|].
      split.
      { eapply trail_prefix_trans; [exact Hna0 | exact Hpre1 |].
        eapply trail_prefix_trans; [lia | exact Hpre14 | exact Hpre']. }
      intros a HM HE. apply Hsem'.
      - apply (Models_formula a s); [apply Hsp04 | exact HM].
      - intros z b. rewrite Hval4. unfold assigned_view.
        change (val s2 z) with (val s1 z). rewrite Hval1.
        repeat case_decide; subst.
        + intros [= <-]. apply (Hforced a HM HE), Hin.
        + intros [= <-].
          pose proof (Hforced a HM HE u Hin) as Hut.
          rewrite lit_val_negate, Hut. reflexivity.
        + apply HE. }
  pose proof (trail_nonneg _ Ht) as Hna0.
  destruct (assigned us) eqn:Has; simpl negb; cbv iota.
  - (* the unit is already true *)
    eapply safe_mono; [apply IH, Hinv1|].
    intros [c s'] _ (Hinv' & Hnu' & Hsp' & Hpre' & Hsem'). simpl in *.
    split; [exact Hinv'|]. split; [exact Hnu'|].
    split; [eapply same_problem_trans; [exact Hsp1 | exact Hsp']|].
    split; [eapply trail_prefix_trans; [exact Hna0 | exact Hpre1 | exact Hpre']|].
    intros a HM HE. apply Hsem'.
    + apply (Models_formula a s); [apply Hsp1 | exact HM].
    + apply (Ext_val a s); [exact Hval1 | exact HE].
  - (* the unit is false: conflict *)
    apply safe_Ret. simpl.
    split; [apply Inv_set_n_units; [exact Hinv1 | lia]|].
    split; [reflexivity|].
    split; [exact Hsp1|]. split; [exact Hpre1|].
    intros a HM HE. pose proof (Hforced a HM HE u Hin) as Hut.
    apply HE in Hvu. congruence.
Qed.
(** ** The branching heuristic *)

Lemma foldM_safe_forall {S A : Type} (strict : Mode) (P : S -> Prop)
    (R : A -> Prop) (f : S -> A -> Result S) (l : list A) (s : S) :
  Forall R l -> P s ->
  (forall x st, R x -> P st -> safe strict (f st x) P) ->
  safe strict (foldM f l s) P.
Proof.
  intros HR HP Hstep.
  apply (safe_mono strict _ (fun st => Forall R [] /\ P st));
    [|intros a _ [_ Ha]; exact Ha].
  apply (foldM_safe strict (fun rest st => Forall R rest /\ P st));
    [split; assumption|].
  intros x rest st [Hx%Forall_cons_1 HPst].
  eapply safe_mono; [apply Hstep; [apply Hx | exact HPst]|].
  intros st' _ HP'. split; [apply Hx | exact HP'].
Qed.

Lemma shape_shift (strict : Mode) (s : Solver) :
  Shape strict s -> u32 (Z.shiftl (n_vars s) 1) = 2 * n_vars s.
Proof.
  intros Hs. pose proof (shape_vars _ _ Hs).
  rewrite shiftl_1. u32_small_tac. reflexivity.
Qed.

Lemma all_lits_range (strict : Mode) (s : Solver) :
  Shape strict s -> Forall (fun lit => 0 <= lit < 2 * n_vars s) (all_lits s).
Proof.
  intros Hs. unfold all_lits. rewrite (shape_shift _ _ Hs).
  apply list.Forall_forall. intros x Hx%elem_of_seqZ. lia.
Qed.

Lemma even_lits_range (strict : Mode) (s : Solver) :
  Shape strict s -> Forall (fun lit => 0 <= lit < 2 * n_vars s) (even_lits s).
Proof.
  intros Hs. unfold even_lits. rewrite (shape_shift _ _ Hs).
  replace (2 * n_vars s / 2) with (n_vars s)
    by (rewrite Z.mul_comm, Z.div_mul; lia).
  apply list.Forall_forall. intros x (k & -> & Hk%elem_of_seqZ)%list_elem_of_fmap.
  lia.
Qed.

Lemma set_score_score_eq (s : Solver) (lit v : Z) (ls : LitState) :
  lits s !! Z.to_nat lit = Some ls ->
  score_eq s (set_lit lit (set_score v ls) s).
Proof.
  intros Hls. unfold score_eq, flags, occ; simpl.
  rewrite !list_fmap_insert. simpl.
  rewrite !list_insert_id by (rewrite list_lookup_fmap, Hls; reflexivity).
  tauto.
Qed.

Lemma score_eq_bound (strict : Mode) (s st : Solver) (lit : Z) :
  Shape strict s -> score_eq s st -> 0 <= lit < 2 * n_vars s ->
  (Z.to_nat lit < length (lits st))%nat.
Proof.
  intros Hs Hse Hlit.
  apply (shape_lit_bound strict).
  - eapply Shape_same_problem; [apply score_eq_same_problem, Hse | exact Hs].
  - replace (n_vars st) with (n_vars s) by (symmetry; apply Hse). exact Hlit.
Qed.

(** *** The scores computed by [update_scores] *)

Lemma NoDup_nat_range_length (l : list nat) (n : nat) :
  NoDup l -> (forall x, x ∈ l -> (x < n)%nat) -> (length l <= n)%nat.
Proof.
  intros Hnd Hr.
  assert (Hsub : l ⊆+ seq 0 n).
  { apply NoDup_submseteq; [exact Hnd|].
    intros x Hx. apply elem_of_seq. specialize (Hr x Hx). lia. }
  apply submseteq_length in Hsub. rewrite length_seq in Hsub. exact Hsub.
Qed.

(** A literal occurs in at most [n_clauses] clauses. *)
Lemma cont_clauses_length (strict : Mode) (s : Solver) (lit : Z)
    (ls : LitState) :
  Shape strict s -> 0 <= lit -> lits s !! Z.to_nat lit = Some ls ->
  Z.of_nat (length (cont_clauses ls)) <= n_clauses s.
Proof.
  intros Hs H0 Hls.
  destruct (shape_cont _ _ _ _ Hs H0 Hls) as [Hnd Hmem].
  pose proof (shape_clauses _ _ Hs) as Hnc.
  pose proof (NoDup_nat_range_length (cont_clauses ls)
                (Z.to_nat (n_clauses s)) Hnd) as Hlen.
  assert (Hlt : forall x, x ∈ cont_clauses ls -> (x < Z.to_nat (n_clauses s))%nat).
  { intros ci (cl & Hcl & _)%Hmem. apply lookup_lt_Some in Hcl.
    rewrite formula_length, (shape_cls _ _ Hs) in Hcl. exact Hcl. }
  specialize (Hlen Hlt). lia.
Qed.

Lemma u32_le (z : Z) : 0 <= z -> 0 <= u32 z <= z.
Proof.
  intros Hz. split; [apply u32_range|].
  unfold u32, UINT_MODULUS. apply Z.mod_le; lia.
Qed.

Lemma score_weight_range (n : Z) : 1 <= score_weight n <= 4.
Proof. unfold score_weight. repeat destruct (_ =? _); lia. Qed.

(** The first loop: every score is reset. *)
Lemma clear_scores_safe (strict : Mode) (s : Solver) :
  Shape strict s ->
  safe strict (foldM clear_score (all_lits s) s)
    (fun s1 => score_eq s s1 /\ scores_le 0 s1).
Proof.
  intros Hs.
  pose proof (shape_vars _ _ Hs) as Hnv.
  eapply safe_mono.
  { apply (foldM_safe strict (fun rest st =>
             score_eq s st /\
             Forall (fun lit => 0 <= lit < 2 * n_vars s) rest /\
             forall i ls, lits st !! i = Some ls -> Z.of_nat i ∉ rest ->
                          score ls = 0)).
    - split; [apply score_eq_refl|]. split; [apply (all_lits_range _ _ Hs)|].
      intros i ls Hi Hnot. exfalso. apply Hnot.
      unfold all_lits. rewrite (shape_shift _ _ Hs). apply elem_of_seqZ.
      apply lookup_lt_Some in Hi. rewrite (shape_lits _ _ Hs) in Hi. lia.
    - intros lit rest st (Hse & [Hlit Hrest]%Forall_cons_1 & Hz).
      unfold clear_score.
      apply safe_lit_at; [eapply score_eq_bound; eauto|].
      intros ls Hls. apply safe_Ret.
      split; [eapply score_eq_trans; [exact Hse | apply set_score_score_eq, Hls]|].
      split; [exact Hrest|].
      intros i ls' Hi Hnot. simpl in Hi.
      destruct (decide (i = Z.to_nat lit)) as [->|Hne].
      + rewrite list_lookup_insert_eq in Hi by (eapply lookup_lt_Some; eauto).
        injection Hi as <-. reflexivity.
      + rewrite list_lookup_insert_ne in Hi by congruence.
        apply (Hz i ls' Hi). intros [Heq | Hin]%elem_of_cons; [lia | tauto]. }
  intros s1 _ (Hse & _ & Hz). split; [exact Hse|].
  intros i ls Hi. rewrite (Hz i ls Hi) by apply not_elem_of_nil. lia.
Qed.

(** The inner loop of the second one, for a literal whose score is 0. *)
Lemma score_clauses_safe (strict : Mode) (s st : Solver) (lit : Z)
    (ls : LitState) :
  Shape strict s -> score_eq s st -> 0 <= lit < 2 * n_vars s ->
  lits st !! Z.to_nat lit = Some ls -> score ls = 0 ->
  safe strict (foldM (score_clause lit) (cont_clauses ls) st)
    (fun st' => score_eq s st' /\
                exists ls', lits st' = <[Z.to_nat lit := ls']> (lits st) /\
                            0 <= score ls' <= 4 * n_clauses s).
Proof.
  intros Hs Hse Hlit Hls Hzero.
  assert (Hst : Shape strict st).
  { eapply Shape_same_problem; [apply score_eq_same_problem, Hse | exact Hs]. }
  assert (Hnc : n_clauses st = n_clauses s) by apply Hse.
  pose proof (cont_clauses_length _ _ _ _ Hst (proj1 Hlit) Hls) as Hlen.
  rewrite Hnc in Hlen.
  destruct (shape_cont _ _ _ _ Hst (proj1 Hlit) Hls) as [_ Hmem].
  eapply safe_mono.
  { apply (foldM_safe strict (fun rest st' =>
             score_eq s st' /\
             Forall (fun ci => exists c, clauses s !! ci = Some c) rest /\
             exists ls', lits st' = <[Z.to_nat lit := ls']> (lits st) /\
                         0 <= score ls' /\
                         score ls' + 4 * Z.of_nat (length rest)
                           <= 4 * n_clauses s)).
    - split; [exact Hse|]. split.
      + apply list.Forall_forall. intros ci (cl & Hcl & _)%Hmem.
        apply formula_lookup_inv in Hcl as (c & Hc & _).
        exists c. replace (clauses s) with (clauses st) by apply Hse. exact Hc.
      + exists ls. split; [symmetry; apply list_insert_id, Hls|]. lia.
    - intros ci rest st' (Hse' & [[c Hc] Hrest]%Forall_cons_1 & ls' & Hl' & H0 & Hb).
      simpl length in Hb.
      unfold score_clause.
      assert (Hcl : clauses st' = clauses s) by apply Hse'.
      eapply safe_clause_at; [rewrite Hcl; exact Hc|].
      destruct (negb (n_assigned_true c =? 0)).
      + apply safe_Ret. split; [exact Hse'|]. split; [exact Hrest|].
        exists ls'. split; [exact Hl'|]. lia.
      + cbv iota.
        apply safe_lit_at; [apply (score_eq_bound strict s st' lit Hs Hse' Hlit)|].
        intros ls'' Hls''. apply safe_Ret.
        assert (Heq : ls'' = ls').
        { rewrite Hl', list_lookup_insert_eq in Hls''
            by (eapply lookup_lt_Some; eauto). congruence. }
        subst ls''.
        split; [eapply score_eq_trans; [exact Hse' | apply set_score_score_eq, Hls'']|].
        split; [exact Hrest|].
        eexists. split.
        { simpl. rewrite Hl', list_insert_insert_eq. reflexivity. }
        simpl.
        pose proof (score_weight_range (n_free_lits c)) as Hw.
        pose proof (u32_le (score ls' + score_weight (n_free_lits c))
                      ltac:(lia)) as Hu.
        lia. }
  intros st' _ (Hse' & _ & ls' & Hl' & H0 & Hb). split; [exact Hse'|].
  exists ls'. split; [exact Hl'|]. simpl in Hb. lia.
Qed.

(** The second loop. *)
Lemma score_lits_safe (strict : Mode) (s s1 : Solver) :
  Shape strict s -> score_eq s s1 -> scores_le 0 s1 ->
  safe strict (foldM score_lit (all_lits s) s1)
    (fun s2 => score_eq s s2 /\ scores_le (4 * n_clauses s) s2).
Proof.
  intros Hs Hse1 Hz1.
  pose proof (shape_vars _ _ Hs) as Hnv.
  pose proof (shape_clauses _ _ Hs) as Hnc.
  eapply safe_mono.
  { apply (foldM_safe strict (fun rest st =>
             score_eq s st /\
             Forall (fun lit => 0 <= lit < 2 * n_vars s) rest /\
             NoDup rest /\
             forall i ls, lits st !! i = Some ls ->
               0 <= score ls <= 4 * n_clauses s /\
               (Z.of_nat i ∈ rest -> score ls = 0))).
    - split; [exact Hse1|]. split; [apply (all_lits_range _ _ Hs)|].
      split; [apply NoDup_seqZ|].
      intros i ls Hi. pose proof (Hz1 i ls Hi). split; lia.
    - intros lit rest st (Hse & [Hlit Hrest]%Forall_cons_1
                          & [Hnotin Hnd]%list.NoDup_cons & Hsc).
      unfold score_lit.
      apply safe_lit_at; [eapply score_eq_bound; eauto|].
      intros ls Hls.
      destruct (fixed ls).
      { apply safe_Ret. split; [exact Hse|]. split; [exact Hrest|].
        split; [exact Hnd|]. intros i ls' Hi.
        destruct (Hsc i ls' Hi) as [Hb Hz]. split; [exact Hb|].
        intros Hin. apply Hz. now right. }
      assert (Hzero : score ls = 0).
      { apply (Hsc _ _ Hls). rewrite Z2Nat.id by lia. now left. }
      eapply safe_mono;
        [apply (score_clauses_safe strict s st lit ls); assumption|].
      intros st' _ (Hse' & ls' & Hl' & Hb').
      split; [exact Hse'|]. split; [exact Hrest|]. split; [exact Hnd|].
      intros i ls'' Hi. rewrite Hl' in Hi.
      destruct (decide (i = Z.to_nat lit)) as [->|Hne].
      + rewrite list_lookup_insert_eq in Hi by (eapply lookup_lt_Some; eauto).
        injection Hi as <-. split; [exact Hb'|].
        rewrite Z2Nat.id by lia. intros Hin. contradiction.
      + rewrite list_lookup_insert_ne in Hi by congruence.
        destruct (Hsc i ls'' Hi) as [Hb Hz]. split; [exact Hb|].
        intros Hin. apply Hz. now right. }
  intros s2 _ (Hse & _ & _ & Hsc). split; [exact Hse|].
  intros i ls Hi. apply (Hsc i ls Hi).
Qed.

Lemma update_scores_safe (strict : Mode) (s : Solver) :
  Shape strict s ->
  safe strict (update_scores s)
    (fun s1 => score_eq s s1 /\ scores_le (4 * n_clauses s) s1).
Proof.
  intros Hs. unfold update_scores.
  eapply safe_bind; [apply clear_scores_safe, Hs|].
  intros s1 _ [Hse1 Hz1].
  assert (Hall : all_lits s1 = all_lits s).
  { unfold all_lits. replace (n_vars s1) with (n_vars s)
      by (symmetry; apply Hse1). reflexivity. }
  rewrite Hall. apply score_lits_safe; assumption.
Qed.

(** *** A variable is left to branch on *)

Lemma countZ_not_all {A : Type} (p : A -> bool) (l : list A) :
  countZ p l <> Z.of_nat (length l) -> exists x, x ∈ l /\ p x = false.
Proof.
  induction l as [|x l IH]; simpl countZ; simpl length; [lia|].
  destruct (p x) eqn:E.
  - intros H. destruct IH as (y & Hy & Hp); [lia|].
    exists y. split; [now right | exact Hp].
  - intros _. exists x. split; [now left | exact E].
Qed.

(** In a clean formula, a clause that is neither satisfied nor counted as
    contradicted has a literal that is not fixed. *)
Lemma open_free_literal (strict : Mode) (s : Solver) :
  Inv strict s -> Clean s ->
  n_unsat_clauses s = 0 -> n_sat_clauses s <> n_clauses s ->
  exists lit, 0 <= lit < 2 * n_vars s /\ val s lit = None.
Proof.
  intros Hinv [_ Hne] Hunsat Hsat.
  pose proof (inv_shape _ _ Hinv) as Hs.
  pose proof (inv_counters _ _ Hinv) as Hc.
  pose proof (shape_clauses _ _ Hs) as Hnc.
  rewrite (cnt_sat _ _ _ _ Hc) in Hsat.
  rewrite (cnt_unsat _ _ _ _ Hc) in Hunsat.
  destruct (countZ_not_all clause_sat (clauses s)) as (c & Hin & Hcs).
  { rewrite (shape_cls _ _ Hs). lia. }
  pose proof (countZ_zero _ _ c Hunsat Hin) as Hcu.
  apply list_elem_of_lookup in Hin as [ci Hci].
  pose proof (Counters_all _ _ _ Hc ci c Hci) as Hok.
  pose proof (cnt_ok_range _ _ Hok) as (Ht0 & Hf0 & Hr0 & Hsum).
  assert (Hlits : clause_lits c <> []).
  { apply Hne. apply list_elem_of_lookup. exists ci.
    apply formula_lookup, Hci. }
  assert (Hlen : 0 < n_lits c).
  { unfold n_lits. destruct (clause_lits c); [congruence | simpl; lia]. }
  unfold clause_sat in Hcs. apply negb_false_iff, Z.eqb_eq in Hcs.
  unfold clause_unsat in Hcu. rewrite Hcs in Hcu. simpl in Hcu.
  assert (Hfree : 0 < n_free_lits c).
  { destruct (Z.eqb_spec (n_free_lits c) 0) as [E|E]; [|lia].
    simpl in Hcu. apply negb_false_iff, Z.eqb_eq in Hcu. lia. }
  destruct Hok as (_ & _ & Hr). rewrite Hr in Hfree.
  apply countZ_pos_elem in Hfree as (lit & Hlit & Hv).
  exists lit. split.
  - apply (shape_clause _ _ _ _ Hs Hci), Hlit.
  - unfold is_val in Hv. apply bool_decide_eq_true_1 in Hv. exact Hv.
Qed.

(** A literal that is not fixed leaves room on the trail. *)
Lemma trail_room (strict : Mode) (s : Solver) (x : Z) :
  Shape strict s -> Trail s -> 0 <= x < 2 * n_vars s -> val s x = None ->
  n_assigned s < n_vars s.
Proof.
  intros Hs Ht Hx Hvx.
  set (tr := take (Z.to_nat (n_assigned s)) (solver_assigned s)).
  pose proof (shape_vars _ _ Hs) as Hnv.
  assert (Hin : forall l, l ∈ tr -> val s l = Some true)
    by (intros l; apply (trail_lits _ Ht)).
  assert (Hnd : NoDup (x :: tr ++ (negate <$> tr))).
  { apply list.NoDup_cons. split.
    - intros [H | [y [-> Hy]]%list_elem_of_fmap]%elem_of_app.
      + apply Hin in H. congruence.
      + pose proof (Hin _ Hy) as H2.
        rewrite (trail_pair _ Ht y), H2 in Hvx
          by (eapply trail_in_range; eauto).
        discriminate.
    - apply list.NoDup_app. split; [apply (trail_nodup _ Ht)|]. split.
      + intros z Hz [y [-> Hy]]%list_elem_of_fmap.
        pose proof (Hin _ Hz) as H1. pose proof (Hin _ Hy) as H2.
        rewrite (trail_pair _ Ht y) in H1
          by (eapply trail_in_range; eauto).
        rewrite H2 in H1. discriminate.
      + apply NoDup_fmap_2_strong; [|apply (trail_nodup _ Ht)].
        intros a b _ _. apply negate_inj. }
  apply (NoDup_range_length _ (2 * n_vars s)) in Hnd; [|lia|].
  2:{ intros z [-> | [Hz | [y [-> Hy]]%list_elem_of_fmap]%elem_of_app]%elem_of_cons.
      - exact Hx.
      - eapply trail_in_range; eauto.
      - apply negate_range. eapply trail_in_range; eauto. }
  simpl length in Hnd. rewrite length_app, length_fmap in Hnd. unfold tr in Hnd.
  rewrite length_take, (shape_trail _ _ Hs) in Hnd.
  pose proof (trail_nonneg _ Ht). lia.
Qed.

(** The even literal of the variable of [lit]. *)
Lemma even_sibling (strict : Mode) (s : Solver) (lit : Z) :
  Shape strict s -> Trail s -> 0 <= lit < 2 * n_vars s -> val s lit = None ->
  exists e, e ∈ even_lits s /\ val s e = None.
Proof.
  intros Hs Ht Hlit Hv.
  pose proof (shape_vars _ _ Hs) as Hnv.
  assert (Hev : forall k, 0 <= k < n_vars s -> 2 * k ∈ even_lits s).
  { intros k Hk. unfold even_lits. rewrite (shape_shift _ _ Hs).
    replace (2 * n_vars s / 2) with (n_vars s)
      by (rewrite Z.mul_comm, Z.div_mul; lia).
    apply list_elem_of_fmap. exists k. split; [reflexivity|].
    apply elem_of_seqZ. lia. }
  destruct (parity_split lit) as [k [-> | ->]].
  - exists (2 * k). split; [apply Hev; lia | exact Hv].
  - exists (2 * k). split; [apply Hev; lia|].
    rewrite <- (negate_odd k), (trail_pair _ Ht _ Hlit), Hv. reflexivity.
Qed.

(** *** The choice *)

Lemma score_product (a b : Z) :
  0 <= a <= 4 * SCORED_CLAUSES -> 0 <= b <= 4 * SCORED_CLAUSES ->
  0 < u32 (u32 (a + 1) * u32 (b + 1)).
Proof.
  unfold SCORED_CLAUSES. intros Ha Hb.
  rewrite (u32_small (a + 1)), (u32_small (b + 1))
    by (unfold UINT_MODULUS; lia).
  rewrite u32_small; [nia|]. unfold UINT_MODULUS. nia.
Qed.

Lemma choose_loop_safe (strict : Mode) (s : Solver) :
  Inv strict s ->
  (asserted strict -> scores_le (4 * SCORED_CLAUSES) s) ->
  safe strict (foldM (choose_step s) (even_lits s) (0, 0))
    (fun best =>
       0 <= fst best < 2 * n_vars s /\
       (asserted strict ->
        (exists e, e ∈ even_lits s /\ val s e = None) ->
        val s (fst best) = None)).
Proof.
  intros Hinv Hsc.
  pose proof (inv_shape _ _ Hinv) as Hs.
  pose proof (inv_trail _ _ Hinv) as Ht.
  pose proof (shape_vars _ _ Hs) as Hnv.
  eapply safe_mono.
  { apply (foldM_safe strict (fun rest best =>
             Forall (fun lit => 0 <= lit < 2 * n_vars s) rest /\
             0 <= fst best < 2 * n_vars s /\ 0 <= snd best /\
             (asserted strict ->
              (0 < snd best -> val s (fst best) = None) /\
              forall e, e ∈ even_lits s -> e ∉ rest -> val s e = None ->
                        0 < snd best))).
    - split; [apply (even_lits_range _ _ Hs)|]. simpl.
      split; [lia|]. split; [lia|]. intros _. split; [lia|].
      intros e He Hnot. contradiction.
    - intros lit rest best ([Hlit Hrest]%Forall_cons_1 & Hb & H0 & Hprog).
      unfold choose_step.
      pose proof (negate_range _ _ Hlit) as Hn.
      apply safe_lit_at; [eapply shape_lit_bound; eauto|]. intros ls Hls.
      pose proof (val_lookup s lit ls (proj1 Hlit) Hls) as Hvl.
      destruct (fixed ls).
      { apply safe_Ret. split; [exact Hrest|]. split; [exact Hb|].
        split; [exact H0|]. intros Ha. destruct (Hprog Ha) as [Hp1 Hp2].
        split; [exact Hp1|]. intros e He Hnot Hve.
        apply (Hp2 e He); [|exact Hve].
        intros [-> | Hin]%elem_of_cons; [congruence | contradiction]. }
      apply safe_lit_at; [eapply shape_lit_bound; eauto|]. intros nls Hnls.
      set (sc := u32 (u32 (score ls + 1) * u32 (score nls + 1))).
      assert (Hsc0 : 0 <= sc) by apply u32_range.
      assert (Hscpos : asserted strict -> 0 < sc).
      { intros Ha. apply score_product.
        - apply (Hsc Ha _ _ Hls).
        - apply (Hsc Ha _ _ Hnls). }
      assert (Hvn : val s (negate lit) = None).
      { rewrite (trail_pair _ Ht _ Hlit), Hvl. reflexivity. }
      destruct (Z.ltb_spec (snd best) sc) as [Hlt|Hge]; apply safe_Ret.
      + split; [exact Hrest|]. simpl.
        split; [destruct (_ <=? _); assumption|]. split; [exact Hsc0|].
        intros Ha. split; [intros _; destruct (_ <=? _); assumption|].
        intros e _ _ _. apply Hscpos, Ha.
      + split; [exact Hrest|]. split; [exact Hb|]. split; [exact H0|].
        intros Ha. destruct (Hprog Ha) as [Hp1 Hp2].
        split; [exact Hp1|]. intros e _ _ _. specialize (Hscpos Ha). lia. }
  intros best _ (_ & Hb & _ & Hprog). split; [exact Hb|].
  intros Ha (e & He & Hve). destruct (Hprog Ha) as [Hp1 Hp2].
  apply Hp1. apply (Hp2 e He); [apply not_elem_of_nil | exact Hve].
Qed.

Lemma choose_branch_safe (strict : Mode) (s : Solver) :
  Inv strict s ->
  (asserted strict -> n_unsat_clauses s = 0 /\ n_sat_clauses s <> n_clauses s) ->
  safe strict (choose_branch s)
    (fun r => score_eq s (snd r) /\ 0 <= fst r < 2 * n_vars s /\
              (asserted strict -> val s (fst r) = None)).
Proof.
  intros Hinv Hopen. pose proof (inv_shape _ _ Hinv) as Hs.
  assert (Hfree : asserted strict ->
            exists lit, 0 <= lit < 2 * n_vars s /\ val s lit = None).
  { intros Ha. destruct (Hopen Ha) as [H1 H2].
    apply (open_free_literal strict); auto. apply (shape_clean _ _ Hs Ha). }
  unfold choose_branch.
  apply safe_assert.
  { intros Ha. destruct (Hfree Ha) as (lit & Hlit & Hv).
    pose proof (trail_room _ _ _ Hs (inv_trail _ _ Hinv) Hlit Hv).
    apply negb_true_iff, Z.eqb_neq. lia. }
  intros _. apply safe_assert.
  { intros Ha. apply negb_true_iff, Z.eqb_neq, (Hopen Ha). }
  intros _.
  eapply safe_bind; [apply update_scores_safe, Hs|].
  intros s1 _ [Hse Hsc].
  pose proof (Inv_score_eq strict s s1 Hse Hinv) as Hinv1.
  assert (Hnv : n_vars s1 = n_vars s) by apply Hse.
  assert (Hval : forall z, val s1 z = val s z)
    by (intros z; apply val_flags, Hse).
  eapply safe_bind.
  { apply (choose_loop_safe strict s1 Hinv1).
    intros Ha i ls Hi. specialize (Hsc i ls Hi).
    destruct (shape_clean _ _ Hs Ha) as [Hnc _]. lia. }
  intros best _ [Hbest Hnone]. apply safe_Ret. simpl.
  split; [exact Hse|]. split; [rewrite <- Hnv; exact Hbest|].
  intros Ha. rewrite <- Hval. apply (Hnone Ha).
  destruct (Hfree Ha) as (lit & Hlit & Hv).
  apply (even_sibling strict s1 lit); [apply Hinv1 | apply Hinv1 | |].
  - rewrite Hnv. exact Hlit.
  - rewrite Hval. exact Hv.
Qed.

(** ** [try_assignment] and [search_assignments] *)

Lemma contradiction_no_model (strict : Mode) (s : Solver) :
  Inv strict s -> 0 < n_unsat_clauses s ->
  forall a, Models a s -> ~ Ext a s.
Proof.
  intros Hinv Hpos a HM HE.
  pose proof (inv_counters _ _ Hinv) as Hc.
  rewrite (cnt_unsat _ _ _ _ Hc) in Hpos.
  apply countZ_pos_elem in Hpos as (c & Hin & Hun).
  apply list_elem_of_lookup in Hin as [ci Hci].
  pose proof (Counters_all _ _ _ Hc ci c Hci) as (Ht & _ & Hr).
  unfold clause_unsat in Hun.
  apply andb_true_iff in Hun as [[Ht0%Z.eqb_eq Hr0%Z.eqb_eq]%andb_true_iff _].
  destruct (HM (clause_lits c)) as (lit & Hlit & Hlv).
  { apply list_elem_of_lookup. exists ci. apply formula_lookup, Hci. }
  rewrite Ht0 in Ht. rewrite Hr0 in Hr.
  pose proof (countZ_zero _ _ lit (eq_sym Ht) Hlit) as H1.
  pose proof (countZ_zero _ _ lit (eq_sym Hr) Hlit) as H2.
  unfold is_val in H1, H2.
  apply bool_decide_eq_false_1 in H1. apply bool_decide_eq_false_1 in H2.
  destruct (val s lit) as [[|]|] eqn:E; try congruence.
  apply HE in E. congruence.
Qed.

Lemma all_satisfied_true_lit (strict : Mode) (s : Solver) (c : ClauseState) :
  Inv strict s -> n_sat_clauses s = n_clauses s -> c ∈ clauses s ->
  exists lit, lit ∈ clause_lits c /\ val s lit = Some true.
Proof.
  intros Hinv Hall Hin.
  pose proof (inv_counters _ _ Hinv) as Hc.
  pose proof (inv_shape _ _ Hinv) as Hs.
  rewrite (cnt_sat _ _ _ _ Hc) in Hall.
  assert (Hfull : countZ clause_sat (clauses s) = Z.of_nat (length (clauses s))).
  { rewrite Hall, (shape_cls _ _ Hs). pose proof (shape_clauses _ _ Hs). lia. }
  pose proof (countZ_full _ _ c Hfull Hin) as Hsat.
  apply list_elem_of_lookup in Hin as [ci Hci].
  pose proof (Counters_all _ _ _ Hc ci c Hci) as (Ht & _ & _).
  unfold clause_sat in Hsat. apply negb_true_iff, Z.eqb_neq in Hsat.
  pose proof (countZ_bounds (is_val (val s) (Some true)) (clause_lits c)).
  destruct (countZ_pos_elem (is_val (val s) (Some true)) (clause_lits c))
    as (lit & Hlit & Hv); [lia|].
  exists lit. split; [exact Hlit|].
  unfold is_val in Hv. apply bool_decide_eq_true_1 in Hv. exact Hv.
Qed.

Lemma prefix_lookup (s s' : Solver) (i : nat) :
  trail_prefix s s' -> (i < Z.to_nat (n_assigned s))%nat ->
  solver_assigned s' !! i = solver_assigned s !! i.
Proof.
  intros [_ H] Hi.
  rewrite <- (lookup_take_lt (solver_assigned s') _ i Hi), H.
  apply lookup_take_lt, Hi.
Qed.

Lemma Ext_assigned (a : Z -> bool) (s s' : Solver) (lit : Z) :
  (forall z, val s' z = assigned_view s lit z) ->
  Ext a s -> lit_val a lit = true -> Ext a s'.
Proof.
  intros Hval HE Hl z b. rewrite Hval. unfold assigned_view.
  repeat case_decide; subst.
  - intros [= <-]. exact Hl.
  - intros [= <-]. rewrite lit_val_negate, Hl. reflexivity.
  - apply HE.
Qed.

Lemma try_assignment_safe (strict : Mode)
    (search : Solver -> Result (Solution * Solver)) (fuel : nat)
    (s : Solver) (branch : Z) :
  (forall s1, Inv strict s1 -> n_units s1 = 0 ->
              safe strict (search s1) (search_post strict s1)) ->
  Inv strict s -> n_units s = 0 -> 0 <= branch < 2 * n_vars s ->
  (asserted strict -> val s branch = None) ->
  safe strict (try_assignment_with search fuel s branch)
    (try_post strict s branch).
Proof.
  intros Hsearch Hinv Hnu Hbr Hfree.
  pose proof (trail_nonneg _ (inv_trail _ _ Hinv)) as Hna0.
  unfold try_assignment_with. cbv zeta.
  set (s1 := set_t_branches _ s).
  assert (Hinv1 : Inv strict s1).
  { apply (Inv_score_eq strict s); [|exact Hinv].
    unfold score_eq, s1; simpl. tauto. }
  eapply (safe_bind2 strict _ (fun s2 => make_assignment s2 branch)).
  { apply (assign_safe strict s1 branch Hinv1); [exact Hbr | exact Hfree]. }
  intros s3 (Hinv3 & Hsp3 & Hna3 & Hpre3 & Hlk3 & Hvl & Hval3).
  change (n_assigned s1) with (n_assigned s) in Hna3, Hlk3.
  assert (Hpre03 : trail_prefix s s3) by exact Hpre3.
  assert (Hsp03 : same_problem s s3) by exact Hsp3.
  assert (Hval03 : forall z, val s3 z = assigned_view s branch z) by exact Hval3.
  clear Hpre3 Hsp3 Hval3 Hvl. clearbody s1.
  eapply safe_bind; [apply propagate_safe, Hinv3|].
  intros [conflict s4] _ (Hinv4 & Hnu4 & Hsp4 & Hpre4 & Hsem4). simpl in *.
  assert (Hpre04 : trail_prefix s s4)
    by (eapply trail_prefix_trans; eauto).
  assert (Hsp04 : same_problem s s4) by (eapply same_problem_trans; eauto).
  assert (Hsem : forall a, Models a s -> Ext a s -> lit_val a branch = true ->
                           if conflict then False else Ext a s4).
  { intros a HM HE Hl. apply Hsem4.
    - apply (Models_formula a s); [apply Hsp03 | exact HM].
    - apply (Ext_assigned a s s3 branch); assumption. }
  assert (Hfinish : forall s5, Inv strict s5 -> n_units s5 = 0 ->
            same_problem s s5 -> trail_prefix s s5 ->
            (forall a, Models a s -> Ext a s -> lit_val a branch = false) ->
            safe strict
              (let* s6 := backtrack (n_assigned s) s5 in
               Ret (SOLUTION_UNSATISFIABLE, s6))
              (try_post strict s branch)).
  { intros s5 Hinv5 Hnu5 Hsp5 Hpre5 Hno.
    eapply safe_bind.
    { apply (backtrack_safe strict _ s5 Hinv5 Hnu5).
      split; [exact Hna0 | apply Hpre5]. }
    intros s6 _ (Hinv6 & Hnu6 & Hsp6 & Hna6 & Hsa6).
    apply safe_Ret. unfold try_post; simpl.
    split; [exact Hinv6|]. split; [exact Hnu6|].
    split; [eapply same_problem_trans; eauto|].
    split; [|split; [exact Hna6 | exact Hno]].
    unfold trail_prefix. rewrite Hna6, Hsa6. split; [lia | apply Hpre5]. }
  destruct conflict.
  - simpl bind. apply Hfinish; auto.
    intros a HM HE. destruct (lit_val a branch) eqn:El; [|reflexivity].
    destruct (Hsem a HM HE El).
  - eapply safe_bind; [apply Hsearch; assumption|].
    intros [sol s5] _ (Hinv5 & Hnu5 & Hsp5 & Hpre5 & Hsol). simpl in *.
    pose proof (trail_nonneg _ (inv_trail _ _ Hinv3)) as Hna3'.
    assert (Hpre05 : trail_prefix s s5).
    { eapply trail_prefix_trans; [exact Hna0 | exact Hpre04 | exact Hpre5]. }
    assert (Hsp05 : same_problem s s5) by (eapply same_problem_trans; eauto).
    destruct sol; [destruct Hsol | |].
    + apply safe_Ret. unfold try_post; simpl.
      split; [exact Hinv5|]. split; [exact Hnu5|].
      split; [exact Hsp05|]. split; [exact Hpre05|].
      split; [exact Hsol|].
      assert (Hpre35 : trail_prefix s3 s5).
      { eapply trail_prefix_trans; [exact Hna3' | exact Hpre4 | exact Hpre5]. }
      pose proof (proj1 Hpre35) as Hle.
      split; [lia|].
      rewrite <- Hlk3.
      apply (prefix_lookup s3 s5); [exact Hpre35 | lia].
    + destruct Hsol as [Hna5 Hno5].
      apply Hfinish; auto.
      intros a HM HE. destruct (lit_val a branch) eqn:El; [|reflexivity].
      exfalso. apply (Hno5 a).
      * apply (Models_formula a s); [apply Hsp04 | exact HM].
      * apply (Hsem a HM HE El).
Qed.

Lemma score_eq_prefix (s s' : Solver) : score_eq s s' -> trail_prefix s s'.
Proof.
  intros (_ & _ & _ & _ & _ & _ & _ & _ & Hna & _ & Hsa).
  unfold trail_prefix. rewrite Hna, Hsa. split; [lia | reflexivity].
Qed.

Lemma search_assignments_safe (strict : Mode) (fuel : nat) (s : Solver) :
  Inv strict s -> n_units s = 0 ->
  safe strict (search_assignments fuel s) (search_post strict s).
Proof.
  revert s. induction fuel as [|fuel IH]; intros s Hinv Hnu; [exact I|].
  cbn [search_assignments]. unfold any_contradiction, all_satisfied.
  pose proof (trail_nonneg _ (inv_trail _ _ Hinv)) as Hna0.
  destruct (Z.ltb_spec 0 (n_unsat_clauses s)) as [Hcontra|Hnone].
  { apply safe_Ret. unfold search_post; simpl.
    split; [exact Hinv|]. split; [exact Hnu|].
    split; [apply same_problem_refl|]. split; [apply trail_prefix_refl|].
    split; [reflexivity|].
    apply (contradiction_no_model strict); assumption. }
  destruct (Z.eqb_spec (n_sat_clauses s) (n_clauses s)) as [Hall|Hnall].
  { apply safe_Ret. unfold search_post; simpl.
    split; [exact Hinv|]. split; [exact Hnu|].
    split; [apply same_problem_refl|]. split; [apply trail_prefix_refl|].
    exact Hall. }
  eapply safe_bind.
  { apply (choose_branch_safe strict s Hinv). intros _. split; [|exact Hnall].
    pose proof (count_le_clauses _ _ clause_unsat (inv_shape _ _ Hinv)) as Hcu.
    rewrite <- (cnt_unsat _ _ _ _ (inv_counters _ _ Hinv)) in Hcu. lia. }
  intros [b s1] _ (Hse & Hb & Hbfree). simpl in Hse, Hb, Hbfree.
  pose proof (Inv_score_eq strict s s1 Hse Hinv) as Hinv1.
  pose proof (score_eq_same_problem _ _ Hse) as Hsp1.
  pose proof (score_eq_prefix _ _ Hse) as Hpre1.
  assert (Hnu1 : n_units s1 = 0).
  { destruct Hse as (_ & _ & _ & _ & _ & _ & _ & H & _). congruence. }
  assert (Hna1 : n_assigned s1 = n_assigned s) by apply Hse.
  assert (Hnv1 : n_vars s1 = n_vars s) by apply Hse.
  assert (Hfl1 : flags s1 = flags s) by apply Hse.
  eapply safe_bind.
  { apply (try_assignment_safe strict _ fuel s1 b IH Hinv1 Hnu1).
    - rewrite Hnv1. exact Hb.
    - intros Ha. rewrite (val_flags s s1 b Hfl1). exact (Hbfree Ha). }
  intros [sol s2] _ (Hinv2 & Hnu2 & Hsp2 & Hpre2 & Hsol). simpl in *.
  assert (Hsp02 : same_problem s s2) by (eapply same_problem_trans; eauto).
  assert (Hpre02 : trail_prefix s s2)
    by (eapply trail_prefix_trans; eauto).
  destruct sol; [destruct Hsol | |].
  { apply safe_Ret. unfold search_post; simpl.
    split; [exact Hinv2|]. split; [exact Hnu2|].
    split; [exact Hsp02|]. split; [exact Hpre02|]. apply Hsol. }
  destruct Hsol as [Hna2 Hno2].
  assert (Hval2 : forall z, val s2 z = val s1 z).
  { apply (val_from_trail strict s1 s2);
      [apply Hinv1 | apply Hinv2 | apply Hinv1 | apply Hinv2 | apply Hsp2 |].
    rewrite Hna2. apply Hpre2. }
  eapply safe_bind.
  { apply (try_assignment_safe strict _ fuel s2 (negate b) IH Hinv2 Hnu2).
    - replace (n_vars s2) with (n_vars s) by (symmetry; apply Hsp02).
      apply negate_range, Hb.
    - intros Ha. rewrite Hval2, (val_flags s s1 _ Hfl1).
      rewrite (trail_pair _ (inv_trail _ _ Hinv) b Hb), (Hbfree Ha).
      reflexivity. }
  intros [sol' s3] _ (Hinv3 & Hnu3 & Hsp3 & Hpre3 & Hsol'). simpl in *.
  assert (Hsp03 : same_problem s s3) by (eapply same_problem_trans; eauto).
  assert (Hpre03 : trail_prefix s s3).
  { eapply trail_prefix_trans; [exact Hna0 | exact Hpre02 | exact Hpre3]. }
  destruct sol'; [destruct Hsol' | |]; apply safe_Ret; unfold search_post; simpl;
    (split; [exact Hinv3|]); (split; [exact Hnu3|]);
    (split; [exact Hsp03|]); (split; [exact Hpre03|]); [apply Hsol'|].
  destruct Hsol' as [Hna3 Hno3].
  split; [congruence|].
  intros a HM HE.
  assert (HM1 : Models a s1)
    by (apply (Models_formula a s); [apply Hsp1 | exact HM]).
  assert (HE1 : Ext a s1) by (apply (Ext_flags a s); assumption).
  pose proof (Hno2 a HM1 HE1) as Hf1.
  assert (HM2 : Models a s2)
    by (apply (Models_formula a s); [apply Hsp02 | exact HM]).
  assert (HE2 : Ext a s2) by (apply (Ext_val a s1); assumption).
  pose proof (Hno3 a HM2 HE2) as Hf2.
  rewrite lit_val_negate, Hf1 in Hf2. discriminate.
Qed.

(** ** Loading a formula *)

Lemma countZ_none {A : Type} (p : A -> bool) (l : list A) :
  (forall x, x ∈ l -> p x = false) -> countZ p l = 0.
Proof.
  induction l as [|x l IH]; intros H; simpl; [reflexivity|].
  rewrite (H x) by (now left). rewrite IH; [reflexivity|].
  intros y Hy. apply H. now right.
Qed.

Lemma countZ_all {A : Type} (p : A -> bool) (l : list A) :
  (forall x, x ∈ l -> p x = true) -> countZ p l = Z.of_nat (length l).
Proof.
  induction l as [|x l IH]; intros H; simpl length; simpl countZ; [reflexivity|].
  rewrite (H x) by (now left). rewrite IH; [lia|].
  intros y Hy. apply H. now right.
Qed.

Lemma Loading_ext (strict : Mode) (inp inp' : nat -> list Z) (s : Solver) :
  (forall ci, inp' ci = inp ci) -> Loading strict inp s -> Loading strict inp' s.
Proof.
  intros He [H1 H2 H3 H4 H5 H6]. constructor; auto.
  - intros ci c Hc lit. rewrite He. apply (H5 ci c Hc).
  - intros ci repr. rewrite He. apply H6.
Qed.

Lemma lit_from_int_nonneg (repr lit : Z) :
  lit_from_int repr = Ret lit -> 0 <= lit < UINT_MODULUS.
Proof.
  unfold lit_from_int. destruct (negb (repr =? 0)); simpl; [|discriminate].
  destruct (0 <? repr); intros [= <-]; apply u32_range.
Qed.

Lemma existsb_eqb_elem (lit : Z) (l : list Z) :
  existsb (Z.eqb lit) l = true <-> lit ∈ l.
Proof.
  induction l as [|x l IH]; simpl.
  - split; [discriminate | intros H; inversion H].
  - rewrite orb_true_iff, IH, elem_of_cons, Z.eqb_eq. reflexivity.
Qed.

Lemma create_solver_Loading (strict : Mode) (nv nc : Z) (s : Solver) :
  0 < nv <= INT_MAX -> 0 <= nc <= INT_MAX ->
  (in_bounds strict -> 2 * nv + nc < UINT_MODULUS) ->
  create_solver nv nc = Ret s ->
  Loading strict (fun _ => []) s /\ n_vars s = nv /\ n_clauses s = nc.
Proof.
  intros Hnv Hnc Hstrict. unfold create_solver.
  replace (0 <? nv) with true by (symmetry; apply Z.ltb_lt; lia).
  simpl. intros [= <-]. split; [|split; reflexivity].
  assert (Hsh : u32 (Z.shiftl nv 1) = 2 * nv).
  { rewrite shiftl_1. u32_small_tac. reflexivity. }
  rewrite Hsh.
  constructor; simpl.
  - constructor; simpl; rewrite ?length_replicate; auto; try tauto.
    + intros Hst. specialize (Hstrict Hst). u32_small_tac. lia.
    + intros ci cl. unfold formula; simpl. rewrite list_lookup_fmap.
      intros Hl. destruct (replicate _ _ !! ci) as [c|] eqn:E; [|discriminate].
      apply lookup_replicate in E as [-> _]. simpl in Hl. injection Hl as <-.
      split; [apply NoDup_nil_2 | intros lit Hin; inversion Hin].
    + intros lit L _. unfold occ, formula; simpl. rewrite list_lookup_fmap.
      intros Hl. destruct (replicate _ _ !! _) as [ls|] eqn:E; [|discriminate].
      apply lookup_replicate in E as [-> _]. simpl in Hl. injection Hl as <-.
      split; [apply NoDup_nil_2|]. intros ci. split; [intros H; inversion H|].
      intros (cl & Hcl & Hin). rewrite list_lookup_fmap in Hcl.
      destruct (replicate _ _ !! ci) as [c|] eqn:E; [|discriminate].
      apply lookup_replicate in E as [-> _]. simpl in Hcl.
      injection Hcl as <-. inversion Hin.
  - intros i ls [-> _]%lookup_replicate. reflexivity.
  - intros ci c [-> _]%lookup_replicate. repeat split.
  - tauto.
  - intros ci c [-> _]%lookup_replicate lit. simpl.
    split; [intros H; inversion H | intros (r & H & _); inversion H].
  - intros ci repr H. inversion H.
Qed.

Lemma add_literal_to_clause_Loading (strict : Mode) (inp : nat -> list Z)
    (s s' : Solver) (ci : nat) (repr lit : Z) :
  Loading strict inp s -> lit_from_int repr = Ret lit ->
  add_literal_to_clause s ci lit = Ret s' ->
  Loading strict
    (fun cj => if decide (cj = ci) then inp ci ++ [repr] else inp cj) s' /\
  n_vars s' = n_vars s /\ n_clauses s' = n_clauses s.
Proof.
  intros Hld Hrepr Hadd.
  pose proof (lit_from_int_nonneg _ _ Hrepr) as Hlit0.
  pose proof (ld_shape _ _ _ Hld) as Hs.
  pose proof (shape_vars _ _ Hs) as Hnv.
  unfold add_literal_to_clause in Hadd.
  apply bind_Ret_inv in Hadd as (c & Hc%clause_at_Ret & Hadd).
  pose proof (ld_input _ _ _ Hld ci c Hc) as Hinp.
  destruct (existsb (Z.eqb lit) (clause_lits c)) eqn:Eex.
  { (* the literal is already in the clause *)
    injection Hadd as <-. split; [|split; reflexivity].
    apply existsb_eqb_elem in Eex.
    destruct Hld as [H1 H2 H3 H4 H5 H6]. constructor; auto.
    - intros cj d Hd l. rewrite (H5 cj d Hd l).
      case_decide as Hcj; [|reflexivity].
      subst cj. split.
      + intros (r & Hr & Hl). exists r. split; [|exact Hl].
        apply elem_of_app. now left.
      + intros (r & [Hr | ->%list_elem_of_singleton]%elem_of_app & Hl).
        * exists r. split; assumption.
        * assert (l = lit) by congruence. subst l.
          apply Hinp, Eex.
    - intros cj r. case_decide; [|apply H6]. subst cj.
      intros [Hr | ->%list_elem_of_singleton]%elem_of_app;
        [apply (H6 ci r Hr) | eauto]. }
  assert (Hnotin : lit ∉ clause_lits c).
  { intros Hin%existsb_eqb_elem. congruence. }
  apply bind_Ret_inv in Hadd as (ls & Hls%lit_at_Ret & Hadd).
  injection Hadd as <-.
  simpl in Hls.
  assert (Hlitr : 0 <= lit < 2 * n_vars s).
  { eapply shape_lit_bound_inv; eauto. lia. }
  destruct (shape_clause _ _ _ _ Hs Hc) as (Hnd & Hrange & Hlen).
  destruct (shape_cont _ _ _ _ Hs (proj1 Hlitr) Hls) as [Hcnd Hcmem].
  destruct (ld_counts _ _ _ Hld ci c Hc) as (Ht & Hf & Hfree).
  assert (Hci : (ci < length (clauses s))%nat) by (eapply lookup_lt_Some; eauto).
  assert (Hli : (Z.to_nat lit < length (lits s))%nat)
    by (eapply lookup_lt_Some; eauto).
  assert (Hcinot : ci ∉ cont_clauses ls).
  { intros (cl & Hcl & Hin)%Hcmem.
    rewrite (formula_lookup _ _ _ Hc) in Hcl. injection Hcl as <-.
    contradiction. }
  split; [|split; reflexivity].
  assert (Hform : forall cj cl,
    formula (set_lit lit (add_cont_clause ls ci)
               (set_clause ci (add_literal c lit) s)) !! cj = Some cl <->
    (cj = ci /\ cl = clause_lits c ++ [lit]) \/
    (cj <> ci /\ formula s !! cj = Some cl)).
  { intros cj cl. unfold formula; simpl. rewrite list_fmap_insert. simpl.
    destruct (decide (cj = ci)) as [->|Hne].
    - rewrite list_lookup_insert_eq by (rewrite length_fmap; exact Hci).
      split; [intros [= <-]; left; auto | intros [[_ ->] | [? _]]; congruence].
    - rewrite list_lookup_insert_ne by congruence.
      split; [right; auto | intros [[? _] | [_ H]]; congruence]. }
  constructor.
  - (* shape *)
    constructor; simpl; rewrite ?length_insert;
      try apply Hs; try tauto.
    + intros cj cl [[-> ->] | [Hne Hcl]]%Hform.
      * split.
        -- apply list.NoDup_app. split; [exact Hnd|].
           split; [|apply NoDup_singleton].
           intros x Hx ->%list_elem_of_singleton. contradiction.
        -- intros x [Hx | ->%list_elem_of_singleton]%elem_of_app;
             [apply Hrange, Hx | exact Hlitr].
      * apply (shape_clause_lits _ _ Hs cj cl Hcl).
    + intros l L Hl0. unfold occ; simpl. rewrite list_fmap_insert. simpl.
      destruct (decide (l = lit)) as [->|Hne].
      * rewrite list_lookup_insert_eq by (rewrite length_fmap; exact Hli).
        intros [= <-]. split.
        -- apply list.NoDup_app. split; [exact Hcnd|].
           split; [|apply NoDup_singleton].
           intros x Hx ->%list_elem_of_singleton. contradiction.
        -- intros cj. rewrite elem_of_app, list_elem_of_singleton, Hcmem.
           split.
           ++ intros [(cl & Hcl & Hin) | ->].
              ** destruct (decide (cj = ci)) as [->|Hcj].
                 --- exists (clause_lits c ++ [lit]). split.
                     +++ apply Hform. left. auto.
                     +++ apply elem_of_app. right. now left.
                 --- exists cl. split; [apply Hform; right; auto | exact Hin].
              ** exists (clause_lits c ++ [lit]). split.
                 --- apply Hform. left. auto.
                 --- apply elem_of_app. right. now left.
           ++ intros (cl & [[-> ->] | [Hcj Hcl]]%Hform & Hin).
              ** right. reflexivity.
              ** left. exists cl. auto.
      * rewrite list_lookup_insert_ne by lia.
        intros HL. destruct (shape_occ _ _ Hs l L Hl0 HL) as [HLnd HLmem].
        split; [exact HLnd|]. intros cj. rewrite HLmem. split.
        -- intros (cl & Hcl & Hin).
           destruct (decide (cj = ci)) as [->|Hcj].
           ++ exists (clause_lits c ++ [lit]). split.
              ** apply Hform. left. auto.
              ** rewrite (formula_lookup _ _ _ Hc) in Hcl.
                 injection Hcl as <-. apply elem_of_app. now left.
           ++ exists cl. split; [apply Hform; right; auto | exact Hin].
        -- intros (cl & [[-> ->] | [Hcj Hcl]]%Hform & Hin).
           ++ exists (clause_lits c). split; [apply formula_lookup, Hc|].
              apply elem_of_app in Hin as [Hin | Hin%list_elem_of_singleton];
                [exact Hin | congruence].
           ++ exists cl. auto.
  - (* flags *)
    intros i ls'. simpl.
    destruct (decide (i = Z.to_nat lit)) as [->|Hne].
    + rewrite list_lookup_insert_eq by exact Hli. intros [= <-]. simpl.
      apply (ld_flags _ _ _ Hld _ _ Hls).
    + rewrite list_lookup_insert_ne by congruence.
      apply (ld_flags _ _ _ Hld).
  - (* counters *)
    intros cj d. simpl.
    destruct (decide (cj = ci)) as [->|Hne].
    + rewrite list_lookup_insert_eq by exact Hci. intros [= <-].
      unfold n_lits in *. simpl. rewrite length_app. simpl.
      split; [exact Ht|]. split; [exact Hf|].
      rewrite Hfree. u32_small_tac. lia.
    + rewrite list_lookup_insert_ne by congruence.
      apply (ld_counts _ _ _ Hld).
  - apply (ld_zero _ _ _ Hld).
  - (* input *)
    intros cj d. cbn [clauses set_lit set_lits set_clause set_clauses].
    destruct (decide (cj = ci)) as [->|Hne].
    + rewrite list_lookup_insert_eq by exact Hci. intros [= <-] l.
      cbn [clause_lits add_literal].
      rewrite elem_of_app, list_elem_of_singleton, Hinp.
      split.
      * intros [(r & Hr & Hl) | ->].
        -- exists r. split; [apply elem_of_app; now left | exact Hl].
        -- exists repr. split; [apply elem_of_app; right; now left | exact Hrepr].
      * intros (r & [Hr | ->%list_elem_of_singleton]%elem_of_app & Hl).
        -- left. exists r. auto.
        -- right. congruence.
    + rewrite list_lookup_insert_ne by congruence.
      intros Hd l. apply (ld_input _ _ _ Hld cj d Hd).
  - (* every integer read is encoded *)
    intros cj r. case_decide; [|apply (ld_reprs _ _ _ Hld)]. subst cj.
    intros [Hr | ->%list_elem_of_singleton]%elem_of_app;
      [apply (ld_reprs _ _ _ Hld ci r Hr) | eauto].
Qed.

Lemma load_clause_Loading (strict : Mode) (cl : list Z) (ci : nat) :
  forall (inp : nat -> list Z) (s s' : Solver),
  Loading strict inp s -> foldM (load_literal ci) cl s = Ret s' ->
  Loading strict
    (fun cj => if decide (cj = ci) then inp ci ++ cl else inp cj) s' /\
  n_vars s' = n_vars s /\ n_clauses s' = n_clauses s.
Proof.
  induction cl as [|repr cl IH]; intros inp s s' Hld Hrun; simpl in Hrun.
  - injection Hrun as <-. split; [|split; reflexivity].
    apply (Loading_ext strict inp); [|exact Hld].
    intros cj. case_decide; [subst; apply app_nil_r | reflexivity].
  - apply bind_Ret_inv in Hrun as (s1 & Hstep & Hrun).
    unfold load_literal in Hstep.
    apply bind_Ret_inv in Hstep as (lit & Hlit & Hadd).
    destruct (add_literal_to_clause_Loading strict inp s s1 ci repr lit
                Hld Hlit Hadd) as (Hld1 & Hnv1 & Hnc1).
    destruct (IH _ s1 s' Hld1 Hrun) as (Hld' & Hnv' & Hnc').
    split; [|split; congruence].
    eapply Loading_ext; [|exact Hld'].
    intros cj. simpl. repeat case_decide; try congruence.
    rewrite <- app_assoc. reflexivity.
Qed.

Lemma load_clauses_Loading (strict : Mode) (s : Solver) (l : list (list Z)) :
  Loading strict (fun _ => []) s ->
  forall s', foldM load_clause (imap pair l) s = Ret s' ->
  Loading strict (fun ci => default [] (l !! ci)) s' /\
  n_vars s' = n_vars s /\ n_clauses s' = n_clauses s.
Proof.
  intros Hld. induction l as [|cl l IH] using rev_ind; intros s' Hrun.
  - simpl in Hrun. injection Hrun as <-. split; [|split; reflexivity].
    exact Hld.
  - rewrite imap_app, foldM_app in Hrun.
    apply bind_Ret_inv in Hrun as (s1 & Hrun1 & Hrun2).
    destruct (IH s1 Hrun1) as (Hld1 & Hnv1 & Hnc1).
    simpl in Hrun2. apply bind_Ret_inv in Hrun2 as (s2 & Hrun2 & Heq).
    injection Heq as <-.
    unfold load_clause in Hrun2. simpl in Hrun2.
    destruct (load_clause_Loading strict cl _ _ s1 s2 Hld1 Hrun2)
      as (Hld2 & Hnv2 & Hnc2).
    split; [|split; congruence].
    eapply Loading_ext; [|exact Hld2].
    intros cj. simpl. rewrite Nat.add_0_r.
    case_decide as Hcj.
    + subst cj. rewrite lookup_app_r by lia.
      rewrite Nat.sub_diag. simpl.
      rewrite (lookup_ge_None_2 l (length l)) by lia. reflexivity.
    + destruct (decide (cj < length l)%nat).
      * rewrite lookup_app_l by lia. reflexivity.
      * rewrite (lookup_ge_None_2 l cj) by lia.
        rewrite lookup_app_r by lia.
        destruct (cj - length l)%nat as [|k] eqn:E; [lia|]. reflexivity.
Qed.

Lemma Loading_val (strict : Mode) (inp : nat -> list Z) (s : Solver) (z : Z) :
  Loading strict inp s -> val s z = None.
Proof.
  intros Hld. unfold val. destruct (z <? 0); [reflexivity|].
  unfold flags. rewrite list_lookup_fmap.
  destruct (lits s !! Z.to_nat z) as [ls|] eqn:E; [|reflexivity].
  simpl. rewrite (ld_flags _ _ _ Hld _ _ E). reflexivity.
Qed.

Lemma Shape_asserted (strict : Mode) (s : Solver) :
  Shape (mkMode (in_bounds strict) False) s -> (asserted strict -> Clean s) ->
  Shape strict s.
Proof. intros [] Hc. constructor; auto. Qed.

Lemma Loading_Inv (strict : Mode) (inp : nat -> list Z) (s : Solver) :
  Loading strict inp s -> (asserted strict -> Clean s) -> Inv strict s.
Proof.
  intros Hld Hclean.
  pose proof (Shape_asserted _ _ (ld_shape _ _ _ Hld) Hclean) as Hs.
  destruct (ld_zero _ _ _ Hld) as (Hsat & Hunsat & Hnu & Hna).
  assert (Hval : forall z, val s z = None)
    by (intros z; eapply Loading_val; eauto).
  constructor; [exact Hs | | |].
  - constructor.
    + intros ci c Hin. inversion Hin.
    + intros ci c _ Hc.
      destruct (ld_counts _ _ _ Hld ci c Hc) as (Ht & Hf & Hfr).
      unfold cnt_ok. rewrite Ht, Hf, Hfr.
      split; [|split].
      * symmetry. apply countZ_none. intros x _. unfold is_val.
        rewrite Hval. apply bool_decide_eq_false_2. congruence.
      * symmetry. apply countZ_none. intros x _. unfold is_val.
        rewrite Hval. apply bool_decide_eq_false_2. congruence.
      * symmetry. apply countZ_all. intros x _. unfold is_val.
        rewrite Hval. apply bool_decide_eq_true_2. reflexivity.
    + rewrite Hsat. symmetry. apply countZ_none.
      intros c [ci Hc]%list_elem_of_lookup.
      destruct (ld_counts _ _ _ Hld ci c Hc) as (Ht & _).
      unfold clause_sat. rewrite Ht. reflexivity.
    + rewrite Hunsat. symmetry. apply countZ_none.
      intros c [ci Hc]%list_elem_of_lookup.
      destruct (ld_counts _ _ _ Hld ci c Hc) as (_ & Hf & _).
      unfold clause_unsat. rewrite Hf. simpl. apply andb_false_r.
  - apply (Units_empty strict); assumption.
  - constructor; rewrite ?Hna; simpl.
    + intros lit _. rewrite !Hval. reflexivity.
    + lia.
    + apply NoDup_nil_2.
    + intros lit. rewrite Hval. split; [intros H; inversion H | discriminate].
Qed.

Lemma load_cnf_Inv (strict : Mode) (nv : Z) (cls : list (list Z)) (s0 : Solver) :
  0 < nv <= INT_MAX -> Z.of_nat (length cls) <= INT_MAX ->
  (in_bounds strict -> 2 * nv + Z.of_nat (length cls) < UINT_MODULUS) ->
  (asserted strict ->
   Z.of_nat (length cls) <= SCORED_CLAUSES /\ forall cl, cl ∈ cls -> cl <> []) ->
  load_cnf nv cls = Ret s0 ->
  Inv strict s0 /\ n_units s0 = 0 /\ n_assigned s0 = 0 /\
  n_vars s0 = nv /\ n_clauses s0 = Z.of_nat (length cls) /\
  (forall z, val s0 z = None) /\
  (forall ci c, clauses s0 !! ci = Some c ->
     forall lit, lit ∈ clause_lits c <->
       exists repr, repr ∈ default [] (cls !! ci) /\
                    lit_from_int repr = Ret lit) /\
  (forall ci repr, repr ∈ default [] (cls !! ci) ->
     exists lit, lit_from_int repr = Ret lit).
Proof.
  intros Hnv Hnc Hstrict Hclean Hload. unfold load_cnf in Hload.
  apply bind_Ret_inv in Hload as (s & Hcreate & Hrun).
  destruct (create_solver_Loading strict nv _ s Hnv
              (conj (Nat2Z.is_nonneg _) Hnc) Hstrict Hcreate)
    as (Hld & Hnvs & Hncs).
  destruct (load_clauses_Loading strict s cls Hld s0 Hrun)
    as (Hld0 & Hnv0 & Hnc0).
  split.
  { eapply Loading_Inv; [exact Hld0|]. intros Ha.
    destruct (Hclean Ha) as [Hsc Hne]. split; [lia|].
    intros cl [ci Hci]%list_elem_of_lookup.
    apply formula_lookup_inv in Hci as (c & Hc & <-).
    destruct (lookup_lt_is_Some_2 cls ci) as [icl Hicl].
    { apply lookup_lt_Some in Hc.
      rewrite (shape_cls _ _ (ld_shape _ _ _ Hld0)) in Hc. lia. }
    assert (Hin : icl ∈ cls) by (apply list_elem_of_lookup; eauto).
    specialize (Hne icl Hin).
    destruct icl as [|repr icl]; [congruence|].
    destruct (ld_reprs _ _ _ Hld0 ci repr) as [lit Hlit].
    { rewrite Hicl. simpl. left. }
    intros Hnil.
    assert (Hl : lit ∈ clause_lits c).
    { apply (ld_input _ _ _ Hld0 ci c Hc). exists repr. split; [|exact Hlit].
      rewrite Hicl. simpl. left. }
    rewrite Hnil in Hl. inversion Hl. }
  destruct (ld_zero _ _ _ Hld0) as (_ & _ & Hnu & Hna).
  split; [exact Hnu|]. split; [exact Hna|].
  split; [congruence|]. split; [congruence|].
  split; [intros z; eapply Loading_val; eauto|].
  split; [apply (ld_input _ _ _ Hld0) | apply (ld_reprs _ _ _ Hld0)].
Qed.

(** ** Loading succeeds on integers in the variable range *)

Lemma lit_from_int_range (nv repr : Z) :
  0 < nv <= INT_MAX -> repr <> 0 -> Z.abs repr <= nv ->
  exists lit, lit_from_int repr = Ret lit /\ 0 <= lit < 2 * nv.
Proof.
  unfold INT_MAX. intros Hnv Hne Habs. unfold lit_from_int.
  destruct (Z.eqb_spec repr 0) as [|_]; [contradiction|]. simpl.
  destruct (Z.ltb_spec 0 repr) as [Hpos|Hneg]; eexists; (split; [reflexivity|]).
  - rewrite shiftl_1, u32_small by (unfold UINT_MODULUS; lia). lia.
  - rewrite shiftl_1, lor_even_1, u32_small by (unfold UINT_MODULUS; lia). lia.
Qed.

Lemma add_literal_to_clause_total (strict : Mode) (inp : nat -> list Z)
    (s : Solver) (ci : nat) (lit : Z) :
  Loading strict inp s -> (ci < Z.to_nat (n_clauses s))%nat ->
  0 <= lit < 2 * n_vars s ->
  exists s', add_literal_to_clause s ci lit = Ret s'.
Proof.
  intros Hld Hci Hlit. pose proof (ld_shape _ _ _ Hld) as Hs.
  unfold add_literal_to_clause.
  destruct (lookup_lt_is_Some_2 (clauses s) ci) as [c Hc];
    [rewrite (shape_cls _ _ Hs); exact Hci|].
  apply clause_at_Ret in Hc. rewrite Hc. simpl.
  destruct (existsb _ _); [eauto|].
  destruct (lookup_lt_is_Some_2 (lits s) (Z.to_nat lit)) as [ls Hls];
    [eapply shape_lit_bound; eauto|].
  unfold lit_at. simpl. rewrite Hls. simpl. eauto.
Qed.

Lemma load_clause_total (strict : Mode) (cl : list Z) (ci : nat) :
  forall (inp : nat -> list Z) (s : Solver),
  Loading strict inp s -> (ci < Z.to_nat (n_clauses s))%nat ->
  (forall repr, repr ∈ cl -> repr <> 0 /\ Z.abs repr <= n_vars s) ->
  exists s', foldM (load_literal ci) cl s = Ret s'.
Proof.
  induction cl as [|repr cl IH]; intros inp s Hld Hci Hr; simpl; [eauto|].
  pose proof (shape_vars _ _ (ld_shape _ _ _ Hld)) as Hnv.
  destruct (Hr repr) as [Hne Habs]; [now left|].
  destruct (lit_from_int_range _ _ Hnv Hne Habs) as (lit & Hlit & Hlr).
  destruct (add_literal_to_clause_total strict inp s ci lit Hld Hci Hlr)
    as [s1 Hadd].
  unfold load_literal at 1. rewrite Hlit. simpl. rewrite Hadd. simpl.
  destruct (add_literal_to_clause_Loading strict inp s s1 ci repr lit
              Hld Hlit Hadd) as (Hld1 & Hnv1 & Hnc1).
  apply (IH _ s1 Hld1); [rewrite Hnc1; exact Hci|].
  intros r Hin. rewrite Hnv1. apply Hr. now right.
Qed.

Lemma load_clauses_total (strict : Mode) (s : Solver) (l : list (list Z)) :
  Loading strict (fun _ => []) s ->
  (length l <= Z.to_nat (n_clauses s))%nat ->
  (forall cl repr, cl ∈ l -> repr ∈ cl -> repr <> 0 /\ Z.abs repr <= n_vars s) ->
  exists s', foldM load_clause (imap pair l) s = Ret s'.
Proof.
  intros Hld. induction l as [|cl l IH] using rev_ind; intros Hlen Hr;
    [simpl; eauto|].
  rewrite length_app in Hlen. simpl in Hlen.
  destruct IH as [s1 Hrun1]; [lia | |].
  { intros c r Hc. apply Hr. apply elem_of_app. now left. }
  destruct (load_clauses_Loading strict s l Hld s1 Hrun1)
    as (Hld1 & Hnv1 & Hnc1).
  rewrite imap_app, foldM_app, Hrun1. simpl.
  unfold load_clause at 1. simpl.
  destruct (load_clause_total strict cl (length l + 0) _ s1 Hld1) as [s2 Hrun2].
  - rewrite Hnc1. lia.
  - intros r Hin. rewrite Hnv1. apply (Hr cl r); [|exact Hin].
    apply elem_of_app. right. now left.
  - rewrite Hrun2. simpl. eauto.
Qed.

Lemma load_cnf_total (nv : Z) (cls : list (list Z)) :
  0 < nv <= INT_MAX -> Z.of_nat (length cls) <= INT_MAX ->
  (forall cl repr, cl ∈ cls -> repr ∈ cl -> repr <> 0 /\ Z.abs repr <= nv) ->
  exists s0, load_cnf nv cls = Ret s0.
Proof.
  intros Hnv Hnc Hr. unfold load_cnf.
  destruct (create_solver nv (Z.of_nat (length cls))) as [s|f] eqn:Hcreate.
  2:{ unfold create_solver in Hcreate.
      replace (0 <? nv) with true in Hcreate
        by (symmetry; apply Z.ltb_lt; lia).
      discriminate. }
  destruct (create_solver_Loading lax nv _ s Hnv
              (conj (Nat2Z.is_nonneg _) Hnc) ltac:(simpl; tauto) Hcreate)
    as (Hld & Hnvs & Hncs).
  simpl. apply (load_clauses_total lax s cls Hld).
  - rewrite Hncs. lia.
  - intros cl repr Hcl Hrepr. rewrite Hnvs. eauto.
Qed.

(** ** Completeness and soundness of the search *)

Lemma loaded_clause (nv : Z) (cls : list (list Z)) (s0 s' : Solver)
    (ci : nat) (cl : list Z) :
  0 < nv <= INT_MAX -> Z.of_nat (length cls) <= INT_MAX ->
  load_cnf nv cls = Ret s0 -> same_problem s0 s' ->
  cls !! ci = Some cl ->
  exists c, clauses s' !! ci = Some c /\
    (forall lit, lit ∈ clause_lits c <->
       exists repr, repr ∈ cl /\ lit_from_int repr = Ret lit) /\
    (forall repr, repr ∈ cl -> exists lit, lit_from_int repr = Ret lit).
Proof.
  intros Hnv Hnc Hload Hsp Hcl.
  destruct (load_cnf_Inv lax nv cls s0 Hnv Hnc ltac:(simpl; tauto)
              ltac:(simpl; tauto) Hload)
    as (Hinv & _ & _ & _ & Hncl & _ & Hinp & Hreprs).
  pose proof (shape_cls _ _ (inv_shape _ _ Hinv)) as Hlen.
  destruct (lookup_lt_is_Some_2 (clauses s0) ci) as [c0 Hc0].
  { rewrite Hlen, Hncl. apply lookup_lt_Some in Hcl. lia. }
  assert (Hf : formula s' !! ci = Some (clause_lits c0)).
  { replace (formula s') with (formula s0) by (symmetry; apply Hsp).
    apply formula_lookup, Hc0. }
  apply formula_lookup_inv in Hf as (c & Hc & Hlits).
  exists c. split; [exact Hc|]. rewrite Hlits.
  specialize (Hinp ci c0 Hc0). specialize (Hreprs ci).
  rewrite Hcl in Hinp, Hreprs. simpl in Hinp, Hreprs. auto.
Qed.

(** When every clause is counted as satisfied, every clause of the input
    has an integer whose literal is fixed and assigned true. *)
Lemma all_satisfied_model (strict : Mode) (nv : Z) (cls : list (list Z))
    (s0 s' : Solver) :
  0 < nv <= INT_MAX -> Z.of_nat (length cls) <= INT_MAX ->
  load_cnf nv cls = Ret s0 -> same_problem s0 s' ->
  Inv strict s' -> n_sat_clauses s' = n_clauses s' ->
  forall cl, cl ∈ cls -> clause_satisfied s' cl.
Proof.
  intros Hnv Hnc Hload Hsp Hinv' Hall cl [ci Hcl]%list_elem_of_lookup.
  destruct (loaded_clause nv cls s0 s' ci cl Hnv Hnc Hload Hsp Hcl)
    as (c & Hc & Hlits & _).
  destruct (all_satisfied_true_lit strict s' c Hinv' Hall)
    as (lit & Hlit & Hval).
  { apply list_elem_of_lookup. eauto. }
  apply Hlits in Hlit as (repr & Hrepr & Henc).
  exists repr, lit. auto.
Qed.

(** C1. For a formula loaded into a fresh solver, when
    [search_assignments] returns SATISFIABLE every input clause contains
    an integer whose literal is fixed and assigned true in the final
    state. *)
Theorem search_satisfiable_satisfies (nv : Z) (cls : list (list Z))
    (fuel : nat) (s0 s' : Solver) :
  0 < nv <= INT_MAX -> Z.of_nat (length cls) <= INT_MAX ->
  load_cnf nv cls = Ret s0 ->
  search_assignments fuel s0 = Ret (SOLUTION_SATISFIABLE, s') ->
  forall cl, cl ∈ cls -> clause_satisfied s' cl.
Proof.
  intros Hnv Hnc Hload Hrun.
  destruct (load_cnf_Inv lax nv cls s0 Hnv Hnc ltac:(simpl; tauto)
              ltac:(simpl; tauto) Hload)
    as (Hinv & Hnu & _).
  pose proof (search_assignments_safe lax fuel s0 Hinv Hnu) as Hsafe.
  rewrite Hrun in Hsafe.
  destruct Hsafe as (Hinv' & _ & Hsp & _ & Hall). simpl in *.
  apply (all_satisfied_model lax nv cls s0 s'); assumption.
Qed.

Lemma search_satisfiable_satisfies_witness :
  exists s0 s',
    load_cnf 3 cnf_toy = Ret s0 /\
    search_assignments 10 s0 = Ret (SOLUTION_SATISFIABLE, s') /\
    forall cl, cl ∈ cnf_toy -> clause_satisfied s' cl.
Proof.
  eexists. eexists.
  split; [vm_compute; reflexivity|].
  split; [vm_compute; reflexivity|].
  eapply (search_satisfiable_satisfies 3 cnf_toy 10);
    [unfold INT_MAX; lia | vm_compute; discriminate
    | vm_compute; reflexivity | vm_compute; reflexivity].
Defined.

(** The value of an integer of the input is the value of its literal. *)
Lemma lit_val_lit_from_int (a : Z -> bool) (repr lit : Z) :
  - INT_MAX - 1 <= repr <= INT_MAX -> lit_from_int repr = Ret lit ->
  lit_val a lit = repr_val a repr.
Proof.
  unfold INT_MAX. intros Hr. unfold lit_from_int, repr_val.
  destruct (Z.eqb_spec repr 0) as [->|Hne]; simpl; [discriminate|].
  unfold lit_val, var_of_lit.
  destruct (Z.ltb_spec 0 repr) as [Hpos|Hneg]; intros [= <-].
  - rewrite shiftl_1, u32_small by (unfold UINT_MODULUS; lia).
    rewrite Z.odd_mul. simpl.
    replace (2 * (repr - 1) / 2) with (repr - 1)
      by (rewrite Z.mul_comm, Z.div_mul; lia).
    f_equal. lia.
  - rewrite shiftl_1, lor_even_1, u32_small by (unfold UINT_MODULUS; lia).
    rewrite Z.odd_add, Z.odd_mul. simpl.
    replace ((2 * (- repr - 1) + 1) / 2) with (- repr - 1)
      by (rewrite Z.add_comm, Z.mul_comm, Z.div_add; [reflexivity | lia]).
    do 2 f_equal. lia.
Qed.

(** A model of the input is a model of the clauses stored in the fresh
    solver, which has fixed no literal. *)
Lemma loaded_no_model (nv : Z) (cls : list (list Z)) (s0 : Solver) :
  cnf_ints nv cls -> load_cnf nv cls = Ret s0 ->
  (forall a, Models a s0 -> ~ Ext a s0) ->
  forall a : Z -> bool, ~ cnf_true a cls.
Proof.
  intros (Hnv & Hnc & Hints) Hload Hno a Htrue.
  destruct (load_cnf_Inv lax nv cls s0 Hnv Hnc ltac:(simpl; tauto)
              ltac:(simpl; tauto) Hload)
    as (Hinv & Hnu & _ & _ & Hncl & Hval & _).
  apply (Hno a).
  - intros lits [ci Hci]%list_elem_of_lookup.
    apply formula_lookup_inv in Hci as (c & Hc & <-).
    pose proof (shape_cls _ _ (inv_shape _ _ Hinv)) as Hlen.
    destruct (lookup_lt_is_Some_2 cls ci) as [cl Hcl].
    { apply lookup_lt_Some in Hc. lia. }
    destruct (loaded_clause nv cls s0 s0 ci cl Hnv Hnc Hload
                (same_problem_refl s0) Hcl) as (c' & Hc' & Hlits & Henc).
    rewrite Hc in Hc'. injection Hc' as <-.
    assert (Hin : cl ∈ cls) by (apply list_elem_of_lookup; eauto).
    destruct (Htrue cl Hin) as (repr & Hrepr & Hrv).
    destruct (Henc repr Hrepr) as (lit & Hlit).
    exists lit. split; [apply Hlits; eauto|].
    rewrite (lit_val_lit_from_int a repr lit); eauto.
  - intros lit b. rewrite Hval. discriminate.
Qed.

(** C2. For a formula loaded into a fresh solver, when
    [search_assignments] returns UNSATISFIABLE no assignment of truth
    values to the variables makes every clause true. *)
Theorem search_unsatisfiable_no_assignment (nv : Z) (cls : list (list Z))
    (fuel : nat) (s0 s' : Solver) :
  cnf_ints nv cls ->
  load_cnf nv cls = Ret s0 ->
  search_assignments fuel s0 = Ret (SOLUTION_UNSATISFIABLE, s') ->
  forall a : Z -> bool, ~ cnf_true a cls.
Proof.
  intros Hints Hload Hrun.
  pose proof Hints as (Hnv & Hnc & _).
  destruct (load_cnf_Inv lax nv cls s0 Hnv Hnc ltac:(simpl; tauto)
              ltac:(simpl; tauto) Hload)
    as (Hinv & Hnu & _).
  pose proof (search_assignments_safe lax fuel s0 Hinv Hnu) as Hsafe.
  rewrite Hrun in Hsafe.
  destruct Hsafe as (_ & _ & _ & _ & _ & Hno). simpl in Hno.
  apply (loaded_no_model nv cls s0); assumption.
Qed.

Lemma search_unsatisfiable_no_assignment_witness :
  exists s0 s',
    load_cnf 1 cnf_contradiction = Ret s0 /\
    search_assignments 10 s0 = Ret (SOLUTION_UNSATISFIABLE, s') /\
    forall a : Z -> bool, ~ cnf_true a cnf_contradiction.
Proof.
  eexists. eexists.
  split; [vm_compute; reflexivity|].
  split; [vm_compute; reflexivity|].
  eapply (search_unsatisfiable_no_assignment 1 cnf_contradiction 10);
    [|vm_compute; reflexivity | vm_compute; reflexivity].
  split; [unfold INT_MAX; lia|]. split; [vm_compute; discriminate|].
  intros cl repr Hcl Hrepr. unfold cnf_contradiction in Hcl.
  repeat (apply elem_of_cons in Hcl as [-> | Hcl]);
    try (apply elem_of_nil in Hcl; contradiction);
    repeat (apply elem_of_cons in Hrepr as [-> | Hrepr]);
    try (apply elem_of_nil in Hrepr; contradiction);
    unfold INT_MAX; lia.
Defined.

(** ** The unit stack at the boundaries of the search *)

Lemma add_true_assignment_units (s s' : Solver) (ci : nat) :
  add_true_assignment s ci = Ret s' -> n_units s' = n_units s.
Proof.
  unfold add_true_assignment. intros H.
  apply bind_Ret_inv in H as (c & _ & H).
  apply bind_Ret_inv in H as (u & _ & H).
  injection H as <-. destruct (_ =? _); reflexivity.
Qed.

Lemma add_false_assignment_units (s s' : Solver) (ci : nat) :
  add_false_assignment s ci = Ret s' -> 0 <= n_units s -> 0 <= n_units s'.
Proof.
  unfold add_false_assignment. intros H Hn.
  apply bind_Ret_inv in H as (c & _ & H).
  apply bind_Ret_inv in H as (u & _ & H).
  set (s1 := if (n_assigned_true c =? 0) && (n_free_lits c =? 1)
             then _ else s) in H.
  assert (Hn1 : n_units s1 = n_units s)
    by (unfold s1; destruct (_ && _); reflexivity).
  clearbody s1.
  destruct (_ && _).
  - apply bind_Ret_inv in H as (unit & _ & H). unfold push_unit in H.
    destruct (_ <? _)%nat; [|discriminate].
    injection H as <-. simpl. apply u32_range.
  - injection H as <-. simpl. lia.
Qed.

Lemma make_assignment_units (s s' : Solver) (lit : Z) :
  make_assignment s lit = Ret s' -> 0 <= n_units s -> 0 <= n_units s'.
Proof.
  unfold make_assignment. intros H Hn.
  apply bind_Ret_inv in H as (ls & _ & H).
  apply bind_Ret_inv in H as (nls & _ & H).
  apply bind_Ret_inv in H as (u1 & _ & H).
  apply bind_Ret_inv in H as (u2 & _ & H).
  apply bind_Ret_inv in H as (s3 & H3 & H).
  assert (Hn3 : 0 <= n_units s3).
  { revert H3. apply (foldM_preserves (fun st => 0 <= n_units st)).
    - intros st ci st' _ Hst Hrun.
      rewrite (add_true_assignment_units _ _ _ Hrun). exact Hst.
    - simpl. exact Hn. }
  revert H. apply (foldM_preserves (fun st => 0 <= n_units st)); [|exact Hn3].
  intros st ci st' _ Hst Hrun.
  apply (add_false_assignment_units _ _ _ Hrun Hst).
Qed.

Lemma undo_true_assignment_units (s s' : Solver) (ci : nat) :
  undo_true_assignment s ci = Ret s' -> n_units s' = n_units s.
Proof.
  unfold undo_true_assignment. intros H.
  apply bind_Ret_inv in H as (c & _ & H).
  apply bind_Ret_inv in H as (u & _ & H).
  destruct (_ =? _); injection H as <-; reflexivity.
Qed.

Lemma undo_false_assignment_units (s s' : Solver) (ci : nat) :
  undo_false_assignment s ci = Ret s' -> n_units s' = n_units s.
Proof.
  unfold undo_false_assignment. intros H.
  apply bind_Ret_inv in H as (c & _ & H).
  apply bind_Ret_inv in H as (u & _ & H).
  destruct (_ && _); injection H as <-; reflexivity.
Qed.

Lemma undo_assignment_units (s s' : Solver) (lit : Z) :
  undo_assignment s lit = Ret s' -> n_units s' = n_units s.
Proof.
  unfold undo_assignment. intros H.
  apply bind_Ret_inv in H as (ls & _ & H).
  apply bind_Ret_inv in H as (nls & _ & H).
  do 4 apply bind_Ret_inv in H as (? & _ & H).
  apply bind_Ret_inv in H as (s1 & H1 & H).
  apply bind_Ret_inv in H as (s2 & H2 & H).
  apply bind_Ret_inv in H as (ls' & _ & H).
  apply bind_Ret_inv in H as (nls' & _ & H).
  injection H as <-. simpl.
  assert (Hn1 : n_units s1 = n_units s).
  { revert H1. apply (foldM_preserves (fun st => n_units st = n_units s));
      [|reflexivity].
    intros st ci st' _ Hst Hrun.
    rewrite (undo_true_assignment_units _ _ _ Hrun). exact Hst. }
  revert H2. apply (foldM_preserves (fun st => n_units st = n_units s));
    [|exact Hn1].
  intros st ci st' _ Hst Hrun.
  rewrite (undo_false_assignment_units _ _ _ Hrun). exact Hst.
Qed.

Lemma push_assigned_units (s s' : Solver) (lit : Z) :
  push_assigned s lit = Ret s' -> n_units s' = n_units s.
Proof.
  unfold push_assigned. destruct (_ <? _)%nat; [|discriminate].
  intros [= <-]. reflexivity.
Qed.

Lemma propagate_units (fuel : nat) (s : Solver) (r : bool * Solver) :
  propagate fuel s = Ret r -> 0 <= n_units s -> n_units (snd r) = 0.
Proof.
  revert s. induction fuel as [|fuel IH]; intros s H Hn;
    cbn [propagate] in H;
    destruct (Z.ltb_spec 0 (n_units s)) as [Hpos|Hz];
    try discriminate;
    try (injection H as <-; simpl; lia).
  apply bind_Ret_inv in H as (unit & _ & H).
  apply bind_Ret_inv in H as (us & _ & H).
  destruct (negb (fixed us)).
  - apply bind_Ret_inv in H as (s3 & H3 & H).
    apply bind_Ret_inv in H as (s4 & H4 & H).
    apply (IH s4 H).
    apply (make_assignment_units _ _ _ H4).
    rewrite (push_assigned_units _ _ _ H3). simpl. apply u32_range.
  - destruct (negb (assigned us)).
    + injection H as <-. reflexivity.
    + apply (IH _ H). simpl. apply u32_range.
Qed.

Lemma unwind_units (k : nat) (s s' : Solver) :
  unwind k s = Ret s' -> n_units s' = n_units s.
Proof.
  revert s. induction k as [|k IH]; intros s H; simpl in H.
  - injection H as <-. reflexivity.
  - apply bind_Ret_inv in H as (lit & _ & H).
    apply bind_Ret_inv in H as (s2 & H2 & H).
    rewrite (IH _ H), (undo_assignment_units _ _ _ H2). reflexivity.
Qed.

Lemma backtrack_units (prev : Z) (s s' : Solver) :
  backtrack prev s = Ret s' -> n_units s' = n_units s.
Proof.
  unfold backtrack. intros H.
  apply bind_Ret_inv in H as (s1 & H1 & H).
  apply bind_Ret_inv in H as (u & _ & H).
  injection H as <-. apply (unwind_units _ _ _ H1).
Qed.

Lemma score_clause_units (lit : Z) (s s' : Solver) (ci : nat) :
  score_clause lit s ci = Ret s' -> n_units s' = n_units s.
Proof.
  unfold score_clause. intros H.
  apply bind_Ret_inv in H as (c & _ & H).
  destruct (negb _); [injection H as <-; reflexivity|].
  apply bind_Ret_inv in H as (ls & _ & H). injection H as <-. reflexivity.
Qed.

Lemma update_scores_units (s s' : Solver) :
  update_scores s = Ret s' -> n_units s' = n_units s.
Proof.
  unfold update_scores. intros H.
  apply bind_Ret_inv in H as (s1 & H1 & H).
  assert (Hn1 : n_units s1 = n_units s).
  { revert H1. apply (foldM_preserves (fun st => n_units st = n_units s));
      [|reflexivity].
    intros st lit st' _ Hst Hrun. unfold clear_score in Hrun.
    apply bind_Ret_inv in Hrun as (ls & _ & Hrun).
    injection Hrun as <-. exact Hst. }
  revert H. apply (foldM_preserves (fun st => n_units st = n_units s));
    [|exact Hn1].
  intros st lit st' _ Hst Hrun. unfold score_lit in Hrun.
  apply bind_Ret_inv in Hrun as (ls & _ & Hrun).
  destruct (fixed ls); [injection Hrun as <-; exact Hst|].
  revert Hrun. apply (foldM_preserves (fun st0 => n_units st0 = n_units s));
    [|exact Hst].
  intros st0 ci st0' _ Hst0 Hrun.
  rewrite (score_clause_units _ _ _ _ Hrun). exact Hst0.
Qed.

Lemma choose_branch_units (s : Solver) (r : Z * Solver) :
  choose_branch s = Ret r -> n_units (snd r) = n_units s.
Proof.
  unfold choose_branch. intros H.
  do 2 apply bind_Ret_inv in H as (? & _ & H).
  apply bind_Ret_inv in H as (s1 & H1 & H).
  apply bind_Ret_inv in H as (best & _ & H).
  injection H as <-. simpl. apply (update_scores_units _ _ H1).
Qed.

(** The state in which [try_assignment] calls [search_assignments]. *)
Lemma try_assignment_with_inv
    (search : Solver -> Result (Solution * Solver)) (fuel : nat)
    (s : Solver) (branch : Z) (r : Solution * Solver) :
  try_assignment_with search fuel s branch = Ret r ->
  0 <= n_units s ->
  exists (conflict : bool) (s4 : Solver) (r5 : Solution * Solver),
    n_units s4 = 0 /\
    (if conflict then r5 = (SOLUTION_UNSATISFIABLE, s4) else search s4 = Ret r5) /\
    n_units (snd r) = n_units (snd r5).
Proof.
  unfold try_assignment_with. intros H Hn.
  apply bind_Ret_inv in H as (s2 & H2 & H).
  apply bind_Ret_inv in H as (s3 & H3 & H).
  apply bind_Ret_inv in H as ([conflict s4] & H4 & H).
  apply bind_Ret_inv in H as ([sol s5] & H5 & H).
  assert (Hn3 : 0 <= n_units s3).
  { apply (make_assignment_units _ _ _ H3).
    rewrite (push_assigned_units _ _ _ H2). exact Hn. }
  pose proof (propagate_units _ _ _ H4 Hn3) as Hn4. simpl in Hn4.
  exists conflict, s4, (sol, s5). split; [exact Hn4|].
  split.
  - destruct conflict; [injection H5 as <- <-; reflexivity | exact H5].
  - destruct sol; try (injection H as <-; reflexivity).
    apply bind_Ret_inv in H as (s6 & H6 & H). injection H as <-. simpl.
    apply (backtrack_units _ _ _ H6).
Qed.

Lemma search_assignments_units (fuel : nat) (s : Solver)
    (r : Solution * Solver) :
  n_units s = 0 -> search_assignments fuel s = Ret r -> n_units (snd r) = 0.
Proof.
  revert s r. induction fuel as [|fuel IH]; intros s r Hn H;
    [discriminate|].
  cbn [search_assignments] in H.
  destruct (any_contradiction s); [injection H as <-; exact Hn|].
  destruct (all_satisfied s); [injection H as <-; exact Hn|].
  apply bind_Ret_inv in H as ([b s1] & H1 & H).
  pose proof (choose_branch_units _ _ H1) as Hn1. simpl in Hn1.
  assert (Htry : forall st b' r', n_units st = 0 ->
            try_assignment_with (search_assignments fuel) fuel st b' = Ret r' ->
            n_units (snd r') = 0).
  { intros st b' r' Hst Hrun.
    assert (Hst0 : 0 <= n_units st) by lia.
    destruct (try_assignment_with_inv _ _ _ _ _ Hrun Hst0)
      as (conflict & s4 & r5 & Hn4 & Hr5 & Heq).
    rewrite Heq. destruct conflict; [subst r5; exact Hn4|].
    apply (IH s4 r5 Hn4 Hr5). }
  apply bind_Ret_inv in H as ([sol s2] & H2 & H).
  pose proof (Htry s1 b (sol, s2) (eq_trans Hn1 Hn) H2) as Hn2. simpl in Hn2.
  destruct sol; try (injection H as <-; exact Hn2).
  apply bind_Ret_inv in H as ([sol' s3] & H3 & H).
  pose proof (Htry _ _ _ Hn2 H3) as Hn3. simpl in Hn3.
  destruct sol'; injection H as <-; exact Hn3.
Qed.

Lemma add_literal_to_clause_units (s s' : Solver) (ci : nat) (lit : Z) :
  add_literal_to_clause s ci lit = Ret s' -> n_units s' = n_units s.
Proof.
  unfold add_literal_to_clause. intros H.
  apply bind_Ret_inv in H as (c & _ & H).
  destruct (existsb _ _); [injection H as <-; reflexivity|].
  apply bind_Ret_inv in H as (ls & _ & H). injection H as <-. reflexivity.
Qed.

Lemma load_cnf_units (nv : Z) (cls : list (list Z)) (s0 : Solver) :
  load_cnf nv cls = Ret s0 -> n_units s0 = 0.
Proof.
  unfold load_cnf. intros H.
  apply bind_Ret_inv in H as (s & Hc & H).
  assert (Hn : n_units s = 0).
  { unfold create_solver in Hc. apply bind_Ret_inv in Hc as (u & _ & Hc).
    injection Hc as <-. reflexivity. }
  revert H. apply (foldM_preserves (fun st => n_units st = 0)); [|exact Hn].
  intros st [ci cl] st' _ Hst Hrun. unfold load_clause in Hrun. simpl in Hrun.
  revert Hrun. apply (foldM_preserves (fun st0 => n_units st0 = 0)); [|exact Hst].
  intros st0 repr st0' _ Hst0 Hrun. unfold load_literal in Hrun.
  apply bind_Ret_inv in Hrun as (lit & _ & Hrun).
  rewrite (add_literal_to_clause_units _ _ _ _ Hrun). exact Hst0.
Qed.

(** C7. The unit stack is empty whenever [search_assignments] is entered
    and whenever it returns: a freshly loaded solver has [n_units = 0]
    (the top-level entry); started with [n_units = 0] the search returns
    with [n_units = 0]; and [try_assignment] calls [search_assignments]
    only in states with [n_units = 0], that is, its result depends on the
    recursive call only through such states. *)
Theorem search_assignments_n_units_zero :
  (forall nv cls s0, load_cnf nv cls = Ret s0 -> n_units s0 = 0) /\
  (forall fuel s sol s',
     n_units s = 0 -> search_assignments fuel s = Ret (sol, s') ->
     n_units s' = 0) /\
  (forall (search search' : Solver -> Result (Solution * Solver))
          fuel s branch,
     0 <= n_units s ->
     (forall s1, n_units s1 = 0 -> search s1 = search' s1) ->
     try_assignment_with search fuel s branch =
     try_assignment_with search' fuel s branch).
Proof.
  split; [exact load_cnf_units|]. split.
  - intros fuel s sol s' Hn H.
    apply (search_assignments_units fuel s (sol, s') Hn H).
  - intros search search' fuel s branch Hn Hagree.
    unfold try_assignment_with.
    destruct (push_assigned _ branch) as [s2|] eqn:H2; [|reflexivity].
    simpl. destruct (make_assignment s2 branch) as [s3|] eqn:H3; [|reflexivity].
    simpl. destruct (propagate fuel s3) as [[conflict s4]|] eqn:H4;
      [|reflexivity].
    simpl. destruct conflict; [reflexivity|].
    rewrite Hagree; [reflexivity|].
    apply (propagate_units _ _ _ H4).
    apply (make_assignment_units _ _ _ H3).
    rewrite (push_assigned_units _ _ _ H2). exact Hn.
Qed.

(** ** The capacity of the unit stack *)

Lemma Inv_shrink_stack (s : Solver) :
  Inv bounded s -> n_units s = 0 ->
  Inv bounded
    (set_unit_stack (take (Z.to_nat (n_clauses s)) (unit_stack s)) s).
Proof.
  intros [Hs Hc Hu Ht] Hn.
  assert (Hs' : Shape bounded
            (set_unit_stack (take (Z.to_nat (n_clauses s)) (unit_stack s)) s)).
  { destruct Hs as [H1 H2 H3 H4 H5 H6 H7 H8].
    constructor; simpl; auto.
    intros _. rewrite length_take. specialize (H6 I). lia. }
  constructor; [exact Hs' | | |].
  - apply (Counters_transfer s); auto.
  - apply (Units_empty bounded); [exact Hs' | exact Hn].
  - apply (Trail_transfer s); auto.
Qed.

(** X20. For a loaded formula whose sizes fit in an [unsigned int]
    ([2 * n_vars + n_clauses < 2^32]), [create_solver] allocates
    [2 * n_vars + n_clauses] slots for the unit stack and no run of the
    search writes (or reads) outside an array; the same holds when the
    unit stack is cut down to [n_clauses] slots, so that [n_units] never
    exceeds [n_clauses]. *)
Theorem unit_stack_within_capacity (nv : Z) (cls : list (list Z))
    (fuel : nat) (s0 : Solver) :
  0 < nv <= INT_MAX -> Z.of_nat (length cls) <= INT_MAX ->
  2 * nv + Z.of_nat (length cls) < UINT_MODULUS ->
  load_cnf nv cls = Ret s0 ->
  length (unit_stack s0) = Z.to_nat (2 * n_vars s0 + n_clauses s0) /\
  search_assignments fuel s0 <> Err OutOfBounds /\
  search_assignments fuel
    (set_unit_stack (take (Z.to_nat (n_clauses s0)) (unit_stack s0)) s0)
  <> Err OutOfBounds.
Proof.
  intros Hnv Hnc Hfit Hload.
  destruct (load_cnf_Inv bounded nv cls s0 Hnv Hnc (fun _ => Hfit)
              ltac:(simpl; tauto) Hload)
    as (Hinv & Hnu & _ & Hnvs & Hncs & _).
  split; [|split].
  - unfold load_cnf in Hload.
    apply bind_Ret_inv in Hload as (s & Hc & Hrun).
    assert (Hlen : length (unit_stack s) = Z.to_nat (2 * nv + Z.of_nat (length cls))).
    { unfold create_solver in Hc. apply bind_Ret_inv in Hc as (u & _ & Hc).
      injection Hc as <-. simpl. rewrite length_replicate, shiftl_1.
      unfold INT_MAX in *.
      rewrite (u32_small (2 * nv)) by (unfold UINT_MODULUS; lia).
      rewrite u32_small by lia. reflexivity. }
    rewrite Hnvs, Hncs, <- Hlen.
    revert Hrun.
    apply (foldM_preserves
             (fun st => length (unit_stack st) = length (unit_stack s)));
      [|reflexivity].
    intros st [ci cl] st' _ Hst Hrun. unfold load_clause in Hrun.
    simpl in Hrun. revert Hrun.
    apply (foldM_preserves
             (fun st0 => length (unit_stack st0) = length (unit_stack s)));
      [|exact Hst].
    intros st0 repr st0' _ Hst0 Hrun. unfold load_literal in Hrun.
    apply bind_Ret_inv in Hrun as (lit & _ & Hrun).
    unfold add_literal_to_clause in Hrun.
    apply bind_Ret_inv in Hrun as (c & _ & Hrun).
    destruct (existsb _ _); [injection Hrun as <-; exact Hst0|].
    apply bind_Ret_inv in Hrun as (ls & _ & Hrun).
    injection Hrun as <-. exact Hst0.
  - eapply (safe_in_bounds bounded); [exact I|].
    apply (search_assignments_safe bounded fuel s0 Hinv Hnu).
  - eapply (safe_in_bounds bounded); [exact I|].
    apply (search_assignments_safe bounded fuel); [|exact Hnu].
    apply Inv_shrink_stack; assumption.
Qed.

Lemma unit_stack_within_capacity_witness :
  exists s0,
    load_cnf 3 cnf_toy = Ret s0 /\
    length (unit_stack s0) = Z.to_nat (2 * n_vars s0 + n_clauses s0) /\
    search_assignments 10 s0 <> Err OutOfBounds /\
    search_assignments 10
      (set_unit_stack (take (Z.to_nat (n_clauses s0)) (unit_stack s0)) s0)
    <> Err OutOfBounds.
Proof.
  eexists. split; [vm_compute; reflexivity|].
  apply (unit_stack_within_capacity 3 cnf_toy 10);
    [unfold INT_MAX; lia | vm_compute; discriminate
    | vm_compute; reflexivity | vm_compute; reflexivity].
Defined.

(** ** Atomicity of [try_assignment] *)

(** Under the invariants the counters of the clauses are a function of the
    literal lists and of the values of the literals. *)
Lemma clauses_determined (strict : Mode) (s s' : Solver) :
  Inv strict s -> Inv strict s' -> same_problem s s' ->
  (forall lit, val s' lit = val s lit) ->
  clauses s' = clauses s.
Proof.
  intros Hinv Hinv' Hsp Hval.
  assert (Hform : formula s' = formula s) by apply Hsp.
  apply list_eq. intros ci.
  destruct (clauses s !! ci) as [c|] eqn:Hc.
  - pose proof (formula_lookup _ _ _ Hc) as Hf. rewrite <- Hform in Hf.
    apply formula_lookup_inv in Hf as (c' & Hc' & Hl).
    rewrite Hc'. f_equal.
    pose proof (Counters_all _ _ _ (inv_counters _ _ Hinv) ci c Hc)
      as (Ht & Hf & Hr).
    pose proof (Counters_all _ _ _ (inv_counters _ _ Hinv') ci c' Hc') as Hok'.
    apply (cnt_ok_ext (val s') (val s)) in Hok';
      [|intros z; symmetry; apply Hval].
    destruct Hok' as (Ht' & Hf' & Hr'). rewrite Hl in Ht', Hf', Hr'.
    destruct c as [l t f r], c' as [l' t' f' r']. simpl in *. congruence.
  - apply lookup_ge_None in Hc. apply lookup_ge_None.
    rewrite <- formula_length, Hform, formula_length. exact Hc.
Qed.

Lemma fixed_determined (s s' : Solver) :
  length (lits s') = length (lits s) ->
  (forall lit, val s' lit = val s lit) ->
  fixed <$> lits s' = fixed <$> lits s.
Proof.
  intros Hlen Hval. apply list_eq. intros i. rewrite !list_lookup_fmap.
  destruct (lits s !! i) as [ls|] eqn:Hls.
  - destruct (lookup_lt_is_Some_2 (lits s') i) as [ls' Hls'].
    { rewrite Hlen. eapply lookup_lt_Some; eauto. }
    rewrite Hls'. simpl. f_equal.
    specialize (Hval (Z.of_nat i)).
    rewrite (val_lookup s' _ ls'), (val_lookup s _ ls) in Hval
      by (rewrite ?Nat2Z.id; auto; lia).
    destruct (fixed ls'), (fixed ls); congruence.
  - apply lookup_ge_None in Hls.
    rewrite (lookup_ge_None_2 (lits s') i) by lia. reflexivity.
Qed.

Lemma try_assignment_branch_range (strict : Mode) (fuel : nat) (s : Solver)
    (branch : Z) (r : Solution * Solver) :
  Shape strict s -> 0 <= branch ->
  try_assignment fuel s branch = Ret r -> 0 <= branch < 2 * n_vars s.
Proof.
  intros Hs H0 H. unfold try_assignment, try_assignment_with in H.
  apply bind_Ret_inv in H as (s2 & H2 & H).
  apply bind_Ret_inv in H as (s3 & H3 & _).
  unfold make_assignment in H3.
  apply bind_Ret_inv in H3 as (ls & Hls%lit_at_Ret & _).
  unfold push_assigned in H2. destruct (_ <? _)%nat; [|discriminate].
  injection H2 as <-. simpl in Hls.
  eapply shape_lit_bound_inv; eauto.
Qed.

(** C6 (as amended). For a call [try_assignment(solver, branch)] made from
    a state satisfying the solver invariants, with an empty unit stack: on
    UNSATISFIABLE, [n_assigned], every clause (literals and counters),
    [n_sat_clauses], [n_unsat_clauses], every [fixed] flag and the value of
    every literal (its [assigned] flag when it is fixed) are what they were
    before the call, and so is the trail below [n_assigned]; on
    SATISFIABLE the trail is kept: it extends the previous one, holds
    [branch] at the old [n_assigned], and every literal on it is fixed and
    assigned true.  The verdict is never UNKNOWN. *)
Theorem try_assignment_atomic (fuel : nat) (s s' : Solver) (branch : Z)
    (sol : Solution) :
  Inv lax s -> n_units s = 0 -> 0 <= branch ->
  try_assignment fuel s branch = Ret (sol, s') ->
  match sol with
  | SOLUTION_UNSATISFIABLE =>
      n_assigned s' = n_assigned s /\
      clauses s' = clauses s /\
      n_sat_clauses s' = n_sat_clauses s /\
      n_unsat_clauses s' = n_unsat_clauses s /\
      fixed <$> lits s' = fixed <$> lits s /\
      (forall lit, val s' lit = val s lit) /\
      take (Z.to_nat (n_assigned s)) (solver_assigned s') =
      take (Z.to_nat (n_assigned s)) (solver_assigned s)
  | SOLUTION_SATISFIABLE =>
      n_assigned s < n_assigned s' /\
      take (Z.to_nat (n_assigned s)) (solver_assigned s') =
      take (Z.to_nat (n_assigned s)) (solver_assigned s) /\
      solver_assigned s' !! Z.to_nat (n_assigned s) = Some branch /\
      forall lit,
        lit ∈ take (Z.to_nat (n_assigned s')) (solver_assigned s') ->
        val s' lit = Some true
  | SOLUTION_UNKNOWN => False
  end.
Proof.
  intros Hinv Hnu H0 Hrun.
  pose proof (try_assignment_branch_range lax fuel s branch _
                (inv_shape _ _ Hinv) H0 Hrun) as Hbr.
  pose proof (try_assignment_safe lax (search_assignments fuel) fuel s branch
                (search_assignments_safe lax fuel) Hinv Hnu Hbr
                ltac:(simpl; tauto)) as Hsafe.
  unfold try_assignment in Hrun. rewrite Hrun in Hsafe.
  destruct Hsafe as (Hinv' & Hnu' & Hsp & Hpre & Hsol). simpl in *.
  destruct sol; [exact Hsol | |].
  - destruct Hsol as (_ & Hlt & Hlk).
    split; [exact Hlt|]. split; [apply Hpre|]. split; [exact Hlk|].
    intros lit. apply (trail_lits _ (inv_trail _ _ Hinv')).
  - destruct Hsol as (Hna & _).
    assert (Hval : forall lit, val s' lit = val s lit).
    { apply (val_from_trail lax s s');
        [apply Hinv | apply Hinv' | apply Hinv | apply Hinv' | apply Hsp |].
      rewrite Hna. apply Hpre. }
    assert (Hcl : clauses s' = clauses s)
      by (apply (clauses_determined lax); assumption).
    split; [exact Hna|]. split; [exact Hcl|].
    split.
    { rewrite (cnt_sat _ _ _ _ (inv_counters _ _ Hinv')),
              (cnt_sat _ _ _ _ (inv_counters _ _ Hinv)), Hcl. reflexivity. }
    split.
    { rewrite (cnt_unsat _ _ _ _ (inv_counters _ _ Hinv')),
              (cnt_unsat _ _ _ _ (inv_counters _ _ Hinv)), Hcl. reflexivity. }
    split; [apply fixed_determined; [apply Hsp | exact Hval]|].
    split; [exact Hval | apply Hpre].
Qed.

Lemma try_assignment_atomic_witness :
  exists s s',
    load_cnf 1 cnf_contradiction = Ret s /\
    try_assignment 5 s 0 = Ret (SOLUTION_UNSATISFIABLE, s') /\
    (n_assigned s' = n_assigned s /\
     clauses s' = clauses s /\
     n_sat_clauses s' = n_sat_clauses s /\
     n_unsat_clauses s' = n_unsat_clauses s /\
     fixed <$> lits s' = fixed <$> lits s /\
     (forall lit, val s' lit = val s lit) /\
     take (Z.to_nat (n_assigned s)) (solver_assigned s') =
     take (Z.to_nat (n_assigned s)) (solver_assigned s)).
Proof.
  eexists. eexists.
  split; [vm_compute; reflexivity|].
  split; [vm_compute; reflexivity|].
  eapply (try_assignment_atomic 5 _ _ 0 SOLUTION_UNSATISFIABLE);
    [|vm_compute; reflexivity | lia | vm_compute; reflexivity].
  eapply (load_cnf_Inv lax 1 cnf_contradiction);
    [unfold INT_MAX; lia | vm_compute; discriminate | simpl; tauto
    | simpl; tauto | vm_compute; reflexivity].
Defined.

(** C6 as first stated fails: after a failed [try_assignment] the
    [assigned] flag of the branch literal stays set, although the literal
    is no longer fixed.  The state is the fresh solver of the formula
    [x1 /\ ~x1], which satisfies the invariants. *)
Lemma try_assignment_assigned_flag_stale :
  exists s s',
    load_cnf 1 cnf_contradiction = Ret s /\
    Inv lax s /\ n_units s = 0 /\
    try_assignment 5 s 0 = Ret (SOLUTION_UNSATISFIABLE, s') /\
    assigned <$> lits s = [false; false] /\
    assigned <$> lits s' = [true; false].
Proof.
  eexists. eexists.
  split; [vm_compute; reflexivity|].
  split.
  { eapply (load_cnf_Inv lax 1 cnf_contradiction);
      [unfold INT_MAX; lia | vm_compute; discriminate | simpl; tauto
      | simpl; tauto | vm_compute; reflexivity]. }
  split; [reflexivity|].
  split; [vm_compute; reflexivity|].
  split; reflexivity.
Qed.

(** ** The effect of [add_false_assignment] *)

(** The scan of [get_unit] returns when the literals it reads index the
    array of literal states, and it does not depend on the clauses, the
    counters or the unit stack. *)
Lemma first_unfixed_total (s : Solver) (l : list Z) :
  Forall (fun lit => (Z.to_nat lit < length (lits s))%nat) l ->
  exists unit, first_unfixed s l = Ret unit.
Proof.
  induction 1 as [|lit l Hlit _ IH]; simpl; [eauto|].
  destruct (lookup_lt_is_Some_2 _ _ Hlit) as [ls Hls].
  apply lit_at_Ret in Hls. rewrite Hls. simpl.
  destruct (fixed ls); simpl; eauto.
Qed.

Lemma first_unfixed_lits (s s' : Solver) (l : list Z) :
  lits s' = lits s -> first_unfixed s' l = first_unfixed s l.
Proof.
  intros Hl. induction l as [|lit l IH]; simpl; [reflexivity|].
  unfold lit_at. rewrite Hl.
  destruct (lits s !! Z.to_nat lit) as [ls|]; simpl; [|reflexivity].
  destruct (fixed ls); simpl; auto.
Qed.

(** What the scan of [get_unit] returns: the first literal of the list
    whose state is not fixed, every literal before it being fixed; and
    [(Literal) -1] when every literal of the list is fixed. *)
Lemma first_unfixed_scan (s : Solver) (l : list Z) :
  Forall (fun lit => (Z.to_nat lit < length (lits s))%nat) l ->
  exists unit, first_unfixed s l = Ret unit /\
    ((exists pre post, l = pre ++ unit :: post /\
        (forall x, x ∈ pre -> unfixed s x = false) /\
        unfixed s unit = true) \/
     ((forall x, x ∈ l -> unfixed s x = false) /\ unit = u32 (-1))).
Proof.
  induction 1 as [|lit l Hlit _ IH]; simpl.
  - eexists. split; [reflexivity|]. right.
    split; [intros x Hx; inversion Hx | reflexivity].
  - destruct (lookup_lt_is_Some_2 _ _ Hlit) as [ls Hls].
    rewrite (proj2 (lit_at_Ret _ _ _) Hls). simpl.
    assert (Hu : unfixed s lit = negb (fixed ls))
      by (unfold unfixed; rewrite Hls; reflexivity).
    destruct (fixed ls); simpl in *.
    + destruct IH as (unit & Hrun & Hsem). exists unit.
      split; [exact Hrun|].
      destruct Hsem as [(pre & post & -> & Hpre & Hunit)|[Hall ->]].
      * left. exists (lit :: pre), post. split; [reflexivity|].
        split; [|exact Hunit].
        intros x [->|Hx]%elem_of_cons; [exact Hu | auto].
      * right. split; [|reflexivity].
        intros x [->|Hx]%elem_of_cons; [exact Hu | auto].
    + exists lit. split; [reflexivity|]. left. exists [], l.
      split; [reflexivity|]. split; [intros x Hx; inversion Hx | exact Hu].
Qed.

(** When exactly one literal of a duplicate-free list is not fixed, the
    scan returns that literal. *)
Lemma first_unfixed_only (s : Solver) (l : list Z) (unit : Z) :
  (exists pre post, l = pre ++ unit :: post /\
      (forall x, x ∈ pre -> unfixed s x = false) /\
      unfixed s unit = true) \/
  ((forall x, x ∈ l -> unfixed s x = false) /\ unit = u32 (-1)) ->
  countZ (unfixed s) l = 1 ->
  unit ∈ l /\ unfixed s unit = true /\
  forall x, x ∈ l -> x <> unit -> unfixed s x = false.
Proof.
  intros [(pre & post & -> & Hpre & Hunit)|[Hall _]] Hcount.
  - assert (Hin : unit ∈ pre ++ unit :: post)
      by (apply elem_of_app; right; now left).
    split; [exact Hin|]. split; [exact Hunit|].
    intros x Hx Hne. destruct (unfixed s x) eqn:E; [|reflexivity].
    pose proof (countZ_two (unfixed s) _ x unit Hx Hin Hne E Hunit). lia.
  - rewrite countZ_none in Hcount by exact Hall. discriminate.
Qed.

(** C5. A call [add_false_assignment(solver, c)] on a clause with
    [n_free_lits > 0] returns, and on return: [n_unsat_clauses] has been
    incremented exactly when the clause had [n_assigned_true == 0] and
    [n_free_lits == 1] before the call; [n_assigned_false] has been
    incremented and [n_free_lits] decremented (the other fields of the
    clause, the other clauses and the literal states are untouched); and
    exactly when the clause has [n_assigned_true == 0] and
    [n_free_lits == 1] after the decrement, the unit literal of the clause
    has been written at [unit_stack[n_units]] and [n_units] incremented.
    The literal written is the first literal of the clause whose state is
    not fixed (the sentinel [(Literal) -1] if all are fixed); when the
    counter agrees with the flags, that is, when the new [n_free_lits]
    counts the literals of the clause that are not fixed, as it does
    inside [make_assignment], where the flags are set before the counters
    are updated, it is a literal of the clause, it is not fixed, and it is
    the only one.  The increments are those of [unsigned int]. *)
Theorem add_false_assignment_effect (s : Solver) (ci : nat) (c : ClauseState) :
  clauses s !! ci = Some c ->
  0 < n_free_lits c < UINT_MODULUS ->
  Forall (fun lit => (Z.to_nat lit < length (lits s))%nat) (clause_lits c) ->
  (Z.to_nat (n_units s) < length (unit_stack s))%nat ->
  exists s' c',
    add_false_assignment s ci = Ret s' /\
    clauses s' = <[ci := c']> (clauses s) /\
    lits s' = lits s /\
    n_sat_clauses s' = n_sat_clauses s /\
    clause_lits c' = clause_lits c /\
    n_assigned_true c' = n_assigned_true c /\
    n_assigned_false c' = u32 (n_assigned_false c + 1) /\
    n_free_lits c' = n_free_lits c - 1 /\
    n_unsat_clauses s' =
      (if (n_assigned_true c =? 0) && (n_free_lits c =? 1)
       then u32 (n_unsat_clauses s + 1) else n_unsat_clauses s) /\
    (if (n_assigned_true c' =? 0) && (n_free_lits c' =? 1)
     then exists unit,
            first_unfixed s (clause_lits c) = Ret unit /\
            ((exists pre post,
                clause_lits c = pre ++ unit :: post /\
                (forall x, x ∈ pre -> unfixed s x = false) /\
                unfixed s unit = true) \/
             ((forall x, x ∈ clause_lits c -> unfixed s x = false) /\
              unit = u32 (-1))) /\
            (countZ (unfixed s) (clause_lits c) = n_free_lits c' ->
             unit ∈ clause_lits c /\ unfixed s unit = true /\
             forall x, x ∈ clause_lits c -> x <> unit ->
                       unfixed s x = false) /\
            unit_stack s' = <[Z.to_nat (n_units s) := unit]> (unit_stack s) /\
            n_units s' = u32 (n_units s + 1)
     else unit_stack s' = unit_stack s /\ n_units s' = n_units s).
Proof.
  intros Hc Hfree Hlits Hcap.
  unfold add_false_assignment.
  apply clause_at_Ret in Hc as Hat. rewrite Hat. simpl.
  assert (H0 : (0 <? n_free_lits c) = true) by (apply Z.ltb_lt; lia).
  rewrite H0. simpl.
  rewrite (u32_small (n_free_lits c - 1)) by lia.
  set (c' := set_counts (n_assigned_true c) (u32 (n_assigned_false c + 1))
               (n_free_lits c - 1) c).
  set (s1 := if (n_assigned_true c =? 0) && (n_free_lits c =? 1)
             then set_n_unsat_clauses (u32 (n_unsat_clauses s + 1)) s else s).
  assert (Hs1 : clauses s1 = clauses s /\ lits s1 = lits s /\
                n_sat_clauses s1 = n_sat_clauses s /\
                unit_stack s1 = unit_stack s /\ n_units s1 = n_units s /\
                n_unsat_clauses s1 =
                  (if (n_assigned_true c =? 0) && (n_free_lits c =? 1)
                   then u32 (n_unsat_clauses s + 1) else n_unsat_clauses s)).
  { subst s1. destruct ((n_assigned_true c =? 0) && (n_free_lits c =? 1));
      simpl; auto 10. }
  destruct Hs1 as (Hcl1 & Hl1 & Hsat1 & Hst1 & Hnu1 & Hun1).
  clearbody s1.
  change (n_assigned_true c') with (n_assigned_true c).
  change (n_free_lits c') with (n_free_lits c - 1).
  destruct ((n_assigned_true c =? 0) && (n_free_lits c - 1 =? 1)) eqn:Hunit.
  - apply andb_true_iff in Hunit as [Ht Hf].
    destruct (first_unfixed_scan s (clause_lits c) Hlits)
      as (unit & Hu & Hscan).
    unfold get_unit.
    change (n_free_lits c') with (n_free_lits c - 1).
    change (n_assigned_true c') with (n_assigned_true c).
    change (clause_lits c') with (clause_lits c).
    rewrite Hf, Ht. simpl.
    rewrite (first_unfixed_lits s (set_clause ci c' s1)) by exact Hl1.
    rewrite Hu. simpl. unfold push_unit. simpl. rewrite Hst1, Hnu1.
    destruct (Nat.ltb_spec (Z.to_nat (n_units s)) (length (unit_stack s)));
      [|lia].
    eexists. exists c'. split; [reflexivity|]. simpl.
    rewrite Hcl1, Ht, Hf. rewrite Ht in Hun1. simpl in Hun1 |- *.
    repeat (split; [first [reflexivity | assumption]|]).
    exists unit. split; [reflexivity|]. split; [exact Hscan|].
    split; [|auto].
    intros Hcount. apply (first_unfixed_only s _ unit Hscan).
    apply Z.eqb_eq in Hf. lia.
  - eexists. exists c'. split; [reflexivity|]. simpl.
    rewrite Hcl1, Hunit.
    repeat (split; [first [reflexivity | assumption]|]).
    auto.
Qed.

Lemma add_false_assignment_effect_witness :
  exists s0 s s' c',
    load_cnf 3 cnf_toy = Ret s0 /\
    add_true_assignment
      (set_lit 1 (mkLit true false 0 [1%nat])
         (set_lit 0 (mkLit true true 0 [0%nat]) s0)) 0 = Ret s /\
    add_false_assignment s 1 = Ret s' /\
    make_assignment s0 0 = Ret s' /\
    clauses s' !! 1%nat = Some c' /\
    clause_lits c' = [1; 3] /\
    n_assigned_false c' = 1 /\ n_free_lits c' = 1 /\
    unfixed s 1 = false /\ unfixed s 3 = true /\
    unit_stack s' !! 0%nat = Some 3 /\ n_units s' = 1.
Proof.
  destruct (load_cnf 3 cnf_toy) as [s0|f] eqn:Hload;
    [|vm_compute in Hload; discriminate].
  vm_compute in Hload. injection Hload as Hs0.
  destruct (add_true_assignment
              (set_lit 1 (mkLit true false 0 [1%nat])
                 (set_lit 0 (mkLit true true 0 [0%nat]) s0)) 0)
    as [s|f] eqn:Htrue;
    [|rewrite <- Hs0 in Htrue; vm_compute in Htrue; discriminate].
  rewrite <- Hs0 in Htrue. vm_compute in Htrue. injection Htrue as Hs.
  assert (H1 : clauses s !! 1%nat = Some (mkClause [1; 3] 0 0 2))
    by (rewrite <- Hs; reflexivity).
  assert (H2 : 0 < 2 < UINT_MODULUS) by (unfold UINT_MODULUS; lia).
  assert (H3 : Forall (fun lit => (Z.to_nat lit < length (lits s))%nat) [1; 3])
    by (rewrite <- Hs; repeat (constructor; [simpl; lia|]); constructor).
  assert (H4 : (Z.to_nat (n_units s) < length (unit_stack s))%nat)
    by (rewrite <- Hs; simpl; lia).
  assert (Hfix : unfixed s 1 = false) by (rewrite <- Hs; reflexivity).
  assert (Hcount : countZ (unfixed s) [1; 3] = 1)
    by (rewrite <- Hs; reflexivity).
  destruct (add_false_assignment_effect s 1 (mkClause [1; 3] 0 0 2) H1 H2 H3 H4)
    as (s' & c' & Hrun & Hcl & _ & _ & Hlits & Ht & Hf & Hr & _ & Hunit).
  rewrite Hr, Ht in Hunit.
  cbn [n_assigned_true n_free_lits clause_lits] in Hunit, Hlits, Hf, Hr.
  change (exists unit,
            first_unfixed s [1; 3] = Ret unit /\
            ((exists pre post,
                [1; 3] = pre ++ unit :: post /\
                (forall x, x ∈ pre -> unfixed s x = false) /\
                unfixed s unit = true) \/
             ((forall x, x ∈ [1; 3] -> unfixed s x = false) /\
              unit = u32 (-1))) /\
            (countZ (unfixed s) [1; 3] = 1 ->
             unit ∈ [1; 3] /\ unfixed s unit = true /\
             forall x, x ∈ [1; 3] -> x <> unit -> unfixed s x = false) /\
            unit_stack s' = <[Z.to_nat (n_units s) := unit]> (unit_stack s) /\
            n_units s' = u32 (n_units s + 1)) in Hunit.
  destruct Hunit as (unit & _ & _ & Honly & Hst & Hn).
  destruct (Honly Hcount) as (Hin & Hfree & _).
  assert (Hunit3 : unit = 3).
  { apply elem_of_cons in Hin as [->|Hin]; [congruence|].
    apply elem_of_cons in Hin as [->|Hin]; [reflexivity|].
    inversion Hin. }
  subst unit.
  exists s0, s, s', c'.
  split; [reflexivity|]. split; [rewrite <- Hs0, <- Hs; reflexivity|].
  split; [exact Hrun|].
  split.
  { rewrite <- Hrun, <- Hs, <- Hs0. reflexivity. }
  split; [rewrite Hcl, <- Hs; reflexivity|].
  split; [exact Hlits|].
  split; [rewrite Hf; reflexivity|].
  split; [rewrite Hr; reflexivity|].
  split; [exact Hfix|]. split; [exact Hfree|].
  rewrite <- Hs in Hst, Hn.
  split; [rewrite Hst; reflexivity | rewrite Hn; reflexivity].
Defined.

(** ** Empty clauses *)

(** C3 does not hold of the code.  The stream [p cnf 1 1 / 0] is accepted
    by [read_problem] and gives the solver with one variable and one empty
    clause.  No counter ever records that clause as contradicted, so
    [search_assignments] branches on the only variable and, called again
    with every variable assigned, fails the assertion
    [n_assigned != n_vars] of [choose_branch]: whatever the fuel, the
    search does not return UNSATISFIABLE. *)
Theorem search_empty_clause_assertion_fails :
  exists s0,
    read_problem stream_empty_clause = Ret (ERROR_OK, Some s0) /\
    load_cnf 1 cnf_empty_clause = Ret s0 /\
    formula s0 = [[]] /\
    any_contradiction s0 = false /\
    (forall fuel, search_assignments (S (S fuel)) s0 = Err AssertionFailed) /\
    (forall fuel s', search_assignments fuel s0 <>
                     Ret (SOLUTION_UNSATISFIABLE, s')).
Proof.
  eexists.
  split; [vm_compute; reflexivity|].
  split; [vm_compute; reflexivity|].
  split; [reflexivity|].
  split; [reflexivity|].
  assert (Hfail : forall fuel,
             search_assignments (S (S fuel))
               (mkSolver 1 1 [mkLit false false 0 []; mkLit false false 0 []]
                  [mkClause [] 0 0 0] 0 0 0 0 [0; 0; 0] [0] SOLUTION_UNKNOWN
                  0 0) = Err AssertionFailed).
  { intros fuel. vm_compute. reflexivity. }
  split; [exact Hfail|].
  intros [|[|fuel]] s'; [discriminate | discriminate |].
  intros Hret.
  pose proof (eq_trans (eq_sym (Hfail fuel)) Hret) as Habs. discriminate Habs.
Qed.

(** ** End of the input *)

(** C4 does not hold of the code.  On the stream [p cnf 1 1 / 1 0 / x] the
    last loop of [read_problem] meets the character [x] and sets its local
    [err] to [ERROR_INVALID_FORMAT], but the function then returns the
    constant [ERROR_OK], with the solver built. *)
Theorem read_problem_trailing_junk_ok :
  exists s,
    read_problem stream_trailing_junk = Ret (ERROR_OK, Some s) /\
    formula s = [[0]] /\
    end_of_input ERROR_OK [LF; "x"%char] = ERROR_INVALID_FORMAT.
Proof.
  eexists. split; [vm_compute; reflexivity|]. split; reflexivity.
Qed.

(** ** Overflow of the branching score *)

Lemma search_assignments_unfold (fuel : nat) (s : Solver) :
  search_assignments (S fuel) s =
  if any_contradiction s then Ret (SOLUTION_UNSATISFIABLE, s)
  else if all_satisfied s then Ret (SOLUTION_SATISFIABLE, s)
  else
    let* (branch, s1) := choose_branch s in
    let* (solution, s2) :=
      try_assignment_with (search_assignments fuel) fuel s1 branch in
    match solution with
    | SOLUTION_UNSATISFIABLE =>
        let* (solution', s3) :=
          try_assignment_with (search_assignments fuel) fuel s2
            (negate branch) in
        match solution' with
        | SOLUTION_UNSATISFIABLE => Ret (SOLUTION_UNSATISFIABLE, s3)
        | _ => Ret (solution', s3)
        end
    | _ => Ret (solution, s2)
    end.
Proof. reflexivity. Qed.

Lemma bind_Ret {A B : Type} (a : A) (k : A -> Result B) :
  bind (Ret a) k = k a.
Proof. reflexivity. Qed.

Lemma set_lit_set_lit (lit : Z) (x y : LitState) (s : Solver) :
  set_lit lit x (set_lit lit y s) = set_lit lit x s.
Proof.
  unfold set_lit, set_lits. simpl. rewrite list_insert_insert_eq. reflexivity.
Qed.

(** The inner loop of [update_scores] over clauses that are not satisfied
    and weigh 1 adds their number to the score. *)
Lemma score_clause_sum (lit : Z) (l : list nat) :
  forall (s : Solver) (ls : LitState),
    lits s !! Z.to_nat lit = Some ls ->
    Forall (fun ci => exists c, clauses s !! ci = Some c /\
                        n_assigned_true c = 0 /\
                        score_weight (n_free_lits c) = 1) l ->
    l <> [] ->
    foldM (score_clause lit) l s =
    Ret (set_lit lit
           (set_score (u32 (score ls + Z.of_nat (length l))) ls) s).
Proof.
  induction l as [|ci l IH]; intros s ls Hls Hall Hne; [congruence|].
  apply list.Forall_cons in Hall as [(c & Hc & Ht & Hw) Hall].
  simpl foldM. unfold score_clause at 1.
  apply clause_at_Ret in Hc as Hcat. apply lit_at_Ret in Hls as Hlat.
  rewrite Hcat. simpl bind. rewrite Ht. simpl negb. cbv iota.
  rewrite Hlat. simpl bind. rewrite Hw.
  destruct l as [|cj l].
  - reflexivity.
  - rewrite (IH _ (set_score (u32 (score ls + 1)) ls)); [| |exact Hall|discriminate].
    + rewrite set_lit_set_lit. do 2 f_equal.
      unfold set_score. simpl. f_equal.
      unfold u32. rewrite Zplus_mod_idemp_l. f_equal. simpl length. lia.
    + simpl. apply list_lookup_insert_eq. eapply lookup_lt_Some; eauto.
Qed.

(** Reading [m] consecutive clauses that consist of the one integer
    [repr]. *)
Lemma load_unit_clauses (repr lit : Z) (m : nat) :
  lit_from_int repr = Ret lit ->
  forall (o : nat) (s : Solver) (pre post : list ClauseState) (ls : LitState),
    clauses s = pre ++ replicate m create_clause_state ++ post ->
    length pre = o ->
    lits s !! Z.to_nat lit = Some ls ->
    foldM load_clause (imap (fun i cl => ((o + i)%nat, cl)) (replicate m [repr])) s =
    Ret (set_lits
           (<[Z.to_nat lit :=
                mkLit (fixed ls) (assigned ls) (score ls)
                  (cont_clauses ls ++ seq o m)]> (lits s))
           (set_clauses (pre ++ replicate m (mkClause [lit] 0 0 1) ++ post) s)).
Proof.
  intros Hrepr. induction m as [|m IH]; intros o s pre post ls Hcl Hpre Hls.
  - simpl. rewrite app_nil_r. destruct ls as [f a sc cc]. simpl.
    rewrite list_insert_id by exact Hls.
    simpl in Hcl. rewrite <- Hcl. destruct s. reflexivity.
  - simpl replicate. simpl imap. simpl foldM.
    unfold load_clause at 1. simpl foldM. unfold load_literal.
    rewrite Hrepr. simpl bind. unfold add_literal_to_clause.
    assert (Hc : clauses s !! (o + 0)%nat = Some create_clause_state).
    { rewrite Hcl, Nat.add_0_r, <- Hpre. simpl.
      rewrite lookup_app_r by lia. rewrite Nat.sub_diag. reflexivity. }
    apply clause_at_Ret in Hc. rewrite Hc. simpl bind. simpl existsb. cbv iota.
    assert (Hl : lit_at (set_clause (o + 0) (add_literal create_clause_state lit) s)
                   lit = Ret ls) by (apply lit_at_Ret; exact Hls).
    rewrite Hl. simpl bind.
    rewrite (imap_ext _ (fun i cl => ((S o + i)%nat, cl)))
      by (intros i x _; simpl; f_equal; lia).
    rewrite (IH (S o) _ (pre ++ [mkClause [lit] 0 0 1]) post
               (add_cont_clause ls (o + 0))).
    + f_equal. unfold set_lit, set_lits, set_clauses, set_clause. simpl.
      rewrite list_insert_insert_eq, Nat.add_0_r, <- !app_assoc. simpl.
      reflexivity.
    + simpl. rewrite Hcl, Nat.add_0_r, <- Hpre. simpl.
      rewrite insert_app_r_alt by lia. rewrite Nat.sub_diag. simpl.
      rewrite <- app_assoc. reflexivity.
    + rewrite length_app. simpl. lia.
    + simpl. apply list_lookup_insert_eq. eapply lookup_lt_Some; eauto.
Qed.

Section Overflow.

Variable k : nat.
Hypothesis Hk : Z.of_nat k = 65535.

Lemma overflow_clause_2 (ci : nat) :
  ci ∈ seq 0 k ->
  exists c, (replicate k (mkClause [2] 0 0 1) ++
             replicate k (mkClause [3] 0 0 1)) !! ci = Some c /\
            n_assigned_true c = 0 /\ score_weight (n_free_lits c) = 1.
Proof.
  intros Hci%elem_of_seq. exists (mkClause [2] 0 0 1).
  split; [|split; reflexivity].
  rewrite lookup_app_l by (rewrite length_replicate; lia).
  apply lookup_replicate_2. lia.
Qed.

Lemma overflow_clause_3 (ci : nat) :
  ci ∈ seq k k ->
  exists c, (replicate k (mkClause [2] 0 0 1) ++
             replicate k (mkClause [3] 0 0 1)) !! ci = Some c /\
            n_assigned_true c = 0 /\ score_weight (n_free_lits c) = 1.
Proof.
  intros Hci%elem_of_seq. exists (mkClause [3] 0 0 1).
  split; [|split; reflexivity].
  rewrite lookup_app_r by (rewrite length_replicate; lia).
  apply lookup_replicate_2. rewrite length_replicate. lia.
Qed.

Lemma overflow_seq_nonempty (o : nat) : seq o k <> [].
Proof.
  intros H. apply (f_equal length) in H. rewrite length_seq in H.
  simpl in H. lia.
Qed.

Lemma overflow_load :
  load_cnf 2 (cnf_overflow k) = Ret (overflow_solver k false false 0 0 0 0).
Proof.
  unfold load_cnf, cnf_overflow.
  rewrite length_app, !length_replicate.
  unfold create_solver. simpl bind.
  rewrite Nat2Z.id, imap_app, foldM_app, length_replicate.
  change (u32 (Z.shiftl 2 1)) with 4.
  change (Z.to_nat 4) with 4%nat. simpl replicate at 1 3.
  rewrite (replicate_add k k).
  rewrite (imap_ext (pair) (fun i cl => ((0 + i)%nat, cl)) (replicate k [2]))
    by reflexivity.
  rewrite (load_unit_clauses 2 2 k eq_refl 0 _ []
             (replicate k create_clause_state) create_lit_state);
    [|reflexivity|reflexivity|reflexivity].
  simpl bind.
  rewrite (imap_ext _ (fun i cl => ((k + i)%nat, cl)) (replicate k [-2]))
    by reflexivity.
  rewrite (load_unit_clauses (-2) 3 k eq_refl k _
             (replicate k (mkClause [2] 0 0 1)) [] create_lit_state);
    [|simpl; rewrite app_nil_r; reflexivity|apply length_replicate|reflexivity].
  f_equal. unfold overflow_solver, set_lits, set_clauses. simpl.
  rewrite app_nil_r. reflexivity.
Qed.

Lemma overflow_update_scores (f a : bool) (sc2 sc3 na tb : Z) :
  update_scores (overflow_solver k f a sc2 sc3 na tb) =
  Ret (overflow_solver k f a 65535 65535 na tb).
Proof.
  unfold update_scores.
  change (foldM clear_score (all_lits (overflow_solver k f a sc2 sc3 na tb))
            (overflow_solver k f a sc2 sc3 na tb))
    with (Ret (A := Solver) (overflow_solver k f a 0 0 na tb)).
  rewrite bind_Ret.
  change (all_lits (overflow_solver k f a 0 0 na tb))
    with ([0; 1] ++ [2] ++ [3]).
  assert (H01 : foldM score_lit [0; 1] (overflow_solver k f a 0 0 na tb) =
                Ret (overflow_solver k f a 0 0 na tb))
    by (destruct f; reflexivity).
  rewrite foldM_app, H01, bind_Ret, foldM_app.
  assert (H2 : foldM score_lit [2] (overflow_solver k f a 0 0 na tb) =
               Ret (overflow_solver k f a 65535 0 na tb)).
  { change (foldM score_lit [2] (overflow_solver k f a 0 0 na tb))
      with (let* s' := foldM (score_clause 2) (seq 0 k)
                         (overflow_solver k f a 0 0 na tb) in Ret s').
    rewrite (score_clause_sum 2 (seq 0 k) _ (mkLit false false 0 (seq 0 k)));
      [|reflexivity
       |apply list.Forall_forall; intros ci Hci; apply overflow_clause_2, Hci
       |apply overflow_seq_nonempty].
    rewrite length_seq. cbn [score]. rewrite Hk. reflexivity. }
  rewrite H2, bind_Ret.
  change (foldM score_lit [3] (overflow_solver k f a 65535 0 na tb))
    with (let* s' := foldM (score_clause 3) (seq k k)
                       (overflow_solver k f a 65535 0 na tb) in Ret s').
  rewrite (score_clause_sum 3 (seq k k) _ (mkLit false false 0 (seq k k)));
    [|reflexivity
     |apply list.Forall_forall; intros ci Hci; apply overflow_clause_3, Hci
     |apply overflow_seq_nonempty].
  rewrite length_seq. cbn [score]. rewrite Hk. reflexivity.
Qed.

Lemma overflow_clauses_positive : 0 <> Z.of_nat (k + k).
Proof. lia. Qed.

Lemma overflow_choose_branch (f a : bool) (sc2 sc3 na tb : Z) :
  na <> 2 ->
  choose_branch (overflow_solver k f a sc2 sc3 na tb) =
  Ret (0, overflow_solver k f a 65535 65535 na tb).
Proof.
  intros Hna. unfold choose_branch.
  change (n_assigned (overflow_solver k f a sc2 sc3 na tb)) with na.
  change (n_vars (overflow_solver k f a sc2 sc3 na tb)) with 2.
  change (n_sat_clauses (overflow_solver k f a sc2 sc3 na tb)) with 0.
  change (n_clauses (overflow_solver k f a sc2 sc3 na tb))
    with (Z.of_nat (k + k)).
  destruct (Z.eqb_spec na 2) as [|_]; [contradiction|].
  destruct (Z.eqb_spec 0 (Z.of_nat (k + k))) as [H0|_];
    [exfalso; exact (overflow_clauses_positive H0)|].
  simpl negb. unfold assert. rewrite !bind_Ret.
  rewrite overflow_update_scores, bind_Ret.
  destruct f; reflexivity.
Qed.

Lemma overflow_assign (sc2 sc3 tb : Z) :
  (let* s2 := push_assigned
                (set_t_branches (u32 (tb + 1))
                   (overflow_solver k false false sc2 sc3 0 tb)) 0 in
   make_assignment s2 0) =
  Ret (overflow_solver k true true sc2 sc3 1 (u32 (tb + 1))).
Proof. reflexivity. Qed.

Lemma overflow_search (fuel : nat) :
  search_assignments (S (S fuel)) (overflow_solver k false false 0 0 0 0) =
  Err AssertionFailed.
Proof.
  rewrite search_assignments_unfold.
  change (any_contradiction (overflow_solver k false false 0 0 0 0))
    with false.
  unfold all_satisfied at 1.
  change (n_sat_clauses (overflow_solver k false false 0 0 0 0)) with 0.
  change (n_clauses (overflow_solver k false false 0 0 0 0))
    with (Z.of_nat (k + k)).
  destruct (Z.eqb_spec 0 (Z.of_nat (k + k))) as [H0|_];
    [exfalso; exact (overflow_clauses_positive H0)|].
  cbv iota.
  rewrite overflow_choose_branch by discriminate. rewrite bind_Ret.
  cbv beta iota.
  assert (Htry : try_assignment_with (search_assignments (S fuel)) (S fuel)
                   (overflow_solver k false false 65535 65535 0 0) 0 =
                 Err AssertionFailed).
  { unfold try_assignment_with.
    change (let* s2 := push_assigned
                         (set_t_branches
                            (u32 (t_branches
                                    (overflow_solver k false false 65535 65535 0 0) + 1))
                            (overflow_solver k false false 65535 65535 0 0)) 0 in
            let* s3 := make_assignment s2 0 in
            let* (conflict, s4) := propagate (S fuel) s3 in
            let* (solution, s5) :=
              if conflict : bool then Ret (SOLUTION_UNSATISFIABLE, s4)
              else search_assignments (S fuel) s4 in
            match solution with
            | SOLUTION_UNSATISFIABLE =>
                let* s6 := backtrack
                             (n_assigned
                                (overflow_solver k false false 65535 65535 0 0))
                             s5 in
                Ret (SOLUTION_UNSATISFIABLE, s6)
            | _ => Ret (solution, s5)
            end)
      with (let* (solution, s5) :=
              search_assignments (S fuel)
                (overflow_solver k true true 65535 65535 1 1) in
            match solution with
            | SOLUTION_UNSATISFIABLE =>
                let* s6 := backtrack 0 s5 in Ret (SOLUTION_UNSATISFIABLE, s6)
            | _ => Ret (solution, s5)
            end).
    rewrite search_assignments_unfold.
    change (any_contradiction (overflow_solver k true true 65535 65535 1 1))
      with false.
    unfold all_satisfied at 1.
    change (n_sat_clauses (overflow_solver k true true 65535 65535 1 1)) with 0.
    change (n_clauses (overflow_solver k true true 65535 65535 1 1))
      with (Z.of_nat (k + k)).
    destruct (Z.eqb_spec 0 (Z.of_nat (k + k))) as [H0|_];
      [exfalso; exact (overflow_clauses_positive H0)|].
    cbv iota.
    rewrite overflow_choose_branch by discriminate. rewrite bind_Ret.
    cbv beta iota. reflexivity. }
  rewrite Htry. reflexivity.
Qed.

End Overflow.

(** C10 does not hold of the code.  The formula has two variables,
    65535 clauses [x2] and 65535 clauses [~x2].  The first call of
    [choose_branch] returns the literal of code 0 (variable 1), which is
    then assigned.  In the state reached, variable 2 is unassigned and both
    of its literals have score 65535, so the score of the pair is
    [65536 * 65536 = 2^32], which is 0 as an [unsigned int] and not
    greater than [best_score]: the second call returns the placeholder
    [best_lit = 0], a literal that is fixed, and [make_assignment] then
    fails its assertion. *)
Theorem choose_branch_returns_fixed_placeholder :
  exists s0 s1 s3 s4,
    load_cnf 2 (cnf_overflow overflow_count) = Ret s0 /\
    choose_branch s0 = Ret (0, s1) /\
    (let* s2 := push_assigned
                  (set_t_branches (u32 (t_branches s1 + 1)) s1) 0 in
     make_assignment s2 0) = Ret s3 /\
    n_units s3 = 0 /\
    any_contradiction s3 = false /\ all_satisfied s3 = false /\
    n_assigned s3 = 1 /\ n_vars s3 = 2 /\
    val s3 0 = Some true /\ val s3 2 = None /\
    score <$> lits s4 = [0; 0; 65535; 65535] /\
    u32 (u32 (65535 + 1) * u32 (65535 + 1)) = 0 /\
    choose_branch s3 = Ret (0, s4) /\
    forall fuel, search_assignments (S (S fuel)) s0 = Err AssertionFailed.
Proof.
  assert (Hk : Z.of_nat overflow_count = 65535) by reflexivity.
  exists (overflow_solver overflow_count false false 0 0 0 0),
         (overflow_solver overflow_count false false 65535 65535 0 0),
         (overflow_solver overflow_count true true 65535 65535 1 1),
         (overflow_solver overflow_count true true 65535 65535 1 1).
  split; [apply overflow_load|].
  split; [apply overflow_choose_branch; [exact Hk | discriminate]|].
  split; [apply overflow_assign|].
  split; [reflexivity|]. split; [reflexivity|].
  split.
  { unfold all_satisfied.
    change ((0 =? Z.of_nat (overflow_count + overflow_count)) = false).
    apply Z.eqb_neq. lia. }
  split; [reflexivity|]. split; [reflexivity|].
  split; [reflexivity|]. split; [reflexivity|].
  split; [reflexivity|]. split; [reflexivity|].
  split; [apply overflow_choose_branch; [exact Hk | discriminate]|].
  intros fuel. apply overflow_search, Hk.
Qed.

(** ** Termination: the fuel that is enough *)

Lemma fueled_Ret {A : Type} (a : A) : fueled (Ret a).
Proof. discriminate. Qed.

Lemma fueled_bind {A B : Type} (m : Result A) (k : A -> Result B) :
  fueled m -> (forall a, m = Ret a -> fueled (k a)) -> fueled (bind m k).
Proof.
  destruct m as [a|f]; simpl; intros Hm Hk; [apply Hk; reflexivity|].
  intros H. apply Hm. congruence.
Qed.

Lemma fueled_assert (b : bool) : fueled (assert b).
Proof. destruct b; discriminate. Qed.

Lemma fueled_foldM {S A : Type} (f : S -> A -> Result S) (l : list A) (s : S) :
  (forall s x, fueled (f s x)) -> fueled (foldM f l s).
Proof.
  intros Hf. revert s. induction l as [|x l IH]; intros s; simpl.
  - apply fueled_Ret.
  - apply fueled_bind; [apply Hf | intros s' _; apply IH].
Qed.

Lemma fueled_lit_at (s : Solver) (lit : Z) : fueled (lit_at s lit).
Proof. unfold lit_at. destruct (lits s !! _); discriminate. Qed.

Lemma fueled_clause_at (s : Solver) (ci : nat) : fueled (clause_at s ci).
Proof. unfold clause_at. destruct (clauses s !! _); discriminate. Qed.

Lemma fueled_array_at (a : list Z) (i : Z) : fueled (array_at a i).
Proof. unfold array_at. destruct (a !! _); discriminate. Qed.

Lemma fueled_push_assigned (s : Solver) (lit : Z) :
  fueled (push_assigned s lit).
Proof. unfold push_assigned. destruct (_ <? _)%nat; discriminate. Qed.

Lemma fueled_push_unit (s : Solver) (u : Z) : fueled (push_unit s u).
Proof. unfold push_unit. destruct (_ <? _)%nat; discriminate. Qed.

(** Straight-line code and [for] loops use no fuel. *)
Ltac fueled_tac :=
  repeat first
    [ apply fueled_Ret
    | apply fueled_assert
    | apply fueled_lit_at
    | apply fueled_clause_at
    | apply fueled_array_at
    | apply fueled_push_assigned
    | apply fueled_push_unit
    | match goal with
      | |- fueled (bind _ _) => apply fueled_bind; [|intros ? _]
      | |- fueled (if ?b then _ else _) => destruct b
      | |- fueled (let (_, _) := ?p in _) => destruct p
      end ].

Lemma fueled_first_unfixed (s : Solver) (l : list Z) :
  fueled (first_unfixed s l).
Proof. induction l as [|lit l IH]; simpl; fueled_tac. exact IH. Qed.

Lemma fueled_add_true_assignment (s : Solver) (ci : nat) :
  fueled (add_true_assignment s ci).
Proof. unfold add_true_assignment. fueled_tac. Qed.

Lemma fueled_add_false_assignment (s : Solver) (ci : nat) :
  fueled (add_false_assignment s ci).
Proof.
  unfold add_false_assignment, get_unit. fueled_tac.
  apply fueled_first_unfixed.
Qed.

Lemma fueled_undo_true_assignment (s : Solver) (ci : nat) :
  fueled (undo_true_assignment s ci).
Proof. unfold undo_true_assignment. fueled_tac. Qed.

Lemma fueled_undo_false_assignment (s : Solver) (ci : nat) :
  fueled (undo_false_assignment s ci).
Proof. unfold undo_false_assignment. fueled_tac. Qed.

Lemma fueled_make_assignment (s : Solver) (lit : Z) :
  fueled (make_assignment s lit).
Proof.
  unfold make_assignment. fueled_tac;
    apply fueled_foldM;
    auto using fueled_add_true_assignment, fueled_add_false_assignment.
Qed.

Lemma fueled_undo_assignment (s : Solver) (lit : Z) :
  fueled (undo_assignment s lit).
Proof.
  unfold undo_assignment. fueled_tac;
    apply fueled_foldM;
    auto using fueled_undo_true_assignment, fueled_undo_false_assignment.
Qed.

Lemma fueled_unwind (k : nat) (s : Solver) : fueled (unwind k s).
Proof.
  revert s. induction k as [|k IH]; intros s; cbn [unwind];
    [apply fueled_Ret|].
  cbv zeta. apply fueled_bind; [apply fueled_array_at|]. intros lit _.
  apply fueled_bind; [apply fueled_undo_assignment|]. intros s2 _. apply IH.
Qed.

Lemma fueled_backtrack (prev : Z) (s : Solver) : fueled (backtrack prev s).
Proof. unfold backtrack. fueled_tac. apply fueled_unwind. Qed.

Lemma fueled_update_scores (s : Solver) : fueled (update_scores s).
Proof.
  unfold update_scores. fueled_tac; apply fueled_foldM; intros s' lit.
  - unfold clear_score. fueled_tac.
  - unfold score_lit. fueled_tac. apply fueled_foldM. intros s'' ci.
    unfold score_clause. fueled_tac.
Qed.

Lemma fueled_choose_branch (s : Solver) : fueled (choose_branch s).
Proof.
  unfold choose_branch. fueled_tac.
  - apply fueled_update_scores.
  - apply fueled_foldM. intros best lit. unfold choose_step. fueled_tac.
Qed.

(** The height of the unit stack of a state that satisfies the invariants
    is at most [n_clauses], and its trail holds at most [n_vars]
    literals. *)
Lemma Inv_bounds (strict : Mode) (s : Solver) :
  Inv strict s ->
  0 <= n_units s <= n_clauses s /\ 0 <= n_assigned s <= n_vars s.
Proof.
  intros Hinv.
  pose proof (units_nonneg _ (inv_units _ _ Hinv)).
  pose proof (units_pot _ (inv_units _ _ Hinv)).
  pose proof (count_le_clauses _ _ clause_open (inv_shape _ _ Hinv)).
  pose proof (trail_nonneg _ (inv_trail _ _ Hinv)).
  pose proof (trail_bound _ _ (inv_shape _ _ Hinv) (inv_trail _ _ Hinv)).
  lia.
Qed.

(** The propagation loop: an iteration either assigns a variable or takes
    a literal off the unit stack without putting any back. *)
Lemma propagate_fueled (strict : Mode) (fuel : nat) :
  forall s : Solver,
    Inv strict s ->
    (n_vars s - n_assigned s) * (n_clauses s + 1) + n_units s
      <= Z.of_nat fuel ->
    fueled (propagate fuel s).
Proof.
  induction fuel as [|fuel IH]; intros s Hinv Hfuel;
    pose proof (Inv_bounds _ _ Hinv) as (Hnu & Hna);
    cbn [propagate]; destruct (Z.ltb_spec 0 (n_units s)) as [Hpos|Hz];
    try apply fueled_Ret.
  { exfalso. nia. }
  pose proof (inv_shape _ _ Hinv) as Hs.
  pose proof (inv_units _ _ Hinv) as Hu.
  pose proof (shape_clauses _ _ Hs) as Hnc.
  pose proof (units_fit _ Hu) as Hfit.
  set (s1 := set_n_units (u32 (n_units s - 1)) s).
  assert (Hn1 : u32 (n_units s - 1) = n_units s - 1)
    by (apply u32_small; unfold UINT_MODULUS, INT_MAX in *; lia).
  assert (Hinv1 : Inv strict s1).
  { unfold s1. rewrite Hn1. apply Inv_set_n_units; [exact Hinv | lia]. }
  assert (Hnu1 : n_units s1 = n_units s - 1) by exact Hn1.
  assert (Hus1 : unit_stack s1 = unit_stack s) by reflexivity.
  assert (Hna1 : n_assigned s1 = n_assigned s) by reflexivity.
  assert (Hnv1 : n_vars s1 = n_vars s) by reflexivity.
  assert (Hnc1 : n_clauses s1 = n_clauses s) by reflexivity.
  clearbody s1. cbv zeta.
  apply fueled_bind; [apply fueled_array_at|]. intros u Hlu.
  apply array_at_Ret in Hlu. rewrite Hus1, Hnu1 in Hlu.
  assert (Hin : u ∈ take (Z.to_nat (n_units s)) (unit_stack s)).
  { apply elem_of_take. exists (Z.to_nat (n_units s - 1)).
    split; [exact Hlu | lia]. }
  pose proof (units_lits _ Hu u Hin) as Hur.
  apply fueled_bind; [apply fueled_lit_at|]. intros us Hus%lit_at_Ret.
  pose proof (val_lookup s1 u us (proj1 Hur) Hus) as Hvu.
  destruct (fixed us); simpl negb; cbv iota.
  - destruct (assigned us); simpl negb; cbv iota; [|apply fueled_Ret].
    apply IH; [exact Hinv1|]. rewrite Hnv1, Hna1, Hnc1, Hnu1. lia.
  - set (s2 := set_t_unit_props _ s1).
    assert (Hinv2 : Inv strict s2).
    { apply (Inv_score_eq strict s1); [|exact Hinv1].
      unfold score_eq, s2; simpl. tauto. }
    pose proof (assign_safe strict s2 u Hinv2) as Hsafe.
    change (n_vars s2) with (n_vars s1) in Hsafe. rewrite Hnv1 in Hsafe.
    specialize (Hsafe Hur (fun _ => Hvu)).
    apply fueled_bind; [apply fueled_push_assigned|]. intros s3 H3.
    apply fueled_bind; [apply fueled_make_assignment|]. intros s4 H4.
    rewrite H3 in Hsafe. simpl in Hsafe. rewrite H4 in Hsafe.
    destruct Hsafe as (Hinv4 & Hsp4 & Hna4 & _).
    change (n_assigned s2) with (n_assigned s1) in Hna4.
    destruct Hsp4 as (Hnv4 & Hnc4 & _).
    change (n_vars s2) with (n_vars s1) in Hnv4.
    change (n_clauses s2) with (n_clauses s1) in Hnc4.
    pose proof (Inv_bounds _ _ Hinv4) as (Hnu4 & Hna4').
    apply IH; [exact Hinv4|].
    rewrite Hnv4, Hnc4, Hna4, Hnv1, Hnc1, Hna1 in *. nia.
Qed.

Lemma try_assignment_with_fueled (strict : Mode)
    (search : Solver -> Result (Solution * Solver)) (fuel : nat)
    (s : Solver) (branch : Z) :
  Inv strict s -> n_units s = 0 -> 0 <= branch < 2 * n_vars s ->
  (asserted strict -> val s branch = None) ->
  (forall s1, Inv strict s1 -> n_units s1 = 0 ->
              n_vars s1 = n_vars s -> n_clauses s1 = n_clauses s ->
              n_assigned s < n_assigned s1 -> fueled (search s1)) ->
  (n_vars s - n_assigned s) * (n_clauses s + 2) <= Z.of_nat fuel ->
  fueled (try_assignment_with search fuel s branch).
Proof.
  intros Hinv Hnu Hbr Hfree Hsearch Hfuel.
  pose proof (Inv_bounds _ _ Hinv) as (_ & Hna).
  pose proof (shape_clauses _ _ (inv_shape _ _ Hinv)) as Hnc.
  unfold try_assignment_with. cbv zeta.
  set (s1 := set_t_branches _ s).
  assert (Hinv1 : Inv strict s1).
  { apply (Inv_score_eq strict s); [|exact Hinv].
    unfold score_eq, s1; simpl. tauto. }
  pose proof (assign_safe strict s1 branch Hinv1 Hbr Hfree) as Hsafe.
  apply fueled_bind; [apply fueled_push_assigned|]. intros s2 H2.
  apply fueled_bind; [apply fueled_make_assignment|]. intros s3 H3.
  rewrite H2 in Hsafe. simpl in Hsafe. rewrite H3 in Hsafe.
  destruct Hsafe as (Hinv3 & (Hnv3 & Hnc3 & _) & Hna3 & _).
  change (n_assigned s1) with (n_assigned s) in Hna3.
  change (n_vars s1) with (n_vars s) in Hnv3.
  change (n_clauses s1) with (n_clauses s) in Hnc3.
  pose proof (Inv_bounds _ _ Hinv3) as (Hnu3 & Hna3').
  clearbody s1.
  apply fueled_bind.
  { apply (propagate_fueled strict); [exact Hinv3|].
    rewrite Hnv3, Hnc3, Hna3 in *. nia. }
  intros [conflict s4] Hp.
  pose proof (safe_inv _ _ _ _ (propagate_safe strict fuel s3 Hinv3) Hp)
    as (Hinv4 & Hnu4 & (Hnv4 & Hnc4 & _) & (Hle4 & _) & _).
  simpl in Hinv4, Hnu4, Hnv4, Hnc4, Hle4.
  assert (Hback : forall s5,
             fueled (let* s6 := backtrack (n_assigned s) s5 in
                     Ret (SOLUTION_UNSATISFIABLE, s6))).
  { intros s5. apply fueled_bind; [apply fueled_backtrack|].
    intros s6 _. apply fueled_Ret. }
  destruct conflict.
  - simpl bind. apply Hback.
  - apply fueled_bind.
    { apply Hsearch; [exact Hinv4 | exact Hnu4 | congruence | congruence | lia]. }
    intros [sol s5] _. destruct sol; [apply fueled_Ret | apply fueled_Ret|].
    apply Hback.
Qed.

Lemma choose_branch_unassigned (s : Solver) (r : Z * Solver) :
  choose_branch s = Ret r -> n_assigned s <> n_vars s.
Proof.
  unfold choose_branch. intros H.
  apply bind_Ret_inv in H as (u & Ha & _).
  apply assert_Ret_inv in Ha. apply negb_true_iff in Ha.
  apply Z.eqb_neq, Ha.
Qed.

Lemma search_assignments_fueled (strict : Mode) (fuel : nat) :
  forall s : Solver,
    Inv strict s -> n_units s = 0 -> search_fuel s <= Z.of_nat fuel ->
    fueled (search_assignments fuel s).
Proof.
  unfold search_fuel.
  induction fuel as [|fuel IH]; intros s Hinv Hnu Hfuel;
    pose proof (Inv_bounds _ _ Hinv) as (_ & Hna);
    pose proof (shape_clauses _ _ (inv_shape _ _ Hinv)) as Hnc.
  { exfalso. nia. }
  cbn [search_assignments]. unfold any_contradiction, all_satisfied.
  destruct (Z.ltb_spec 0 (n_unsat_clauses s)) as [_|Hnone];
    [apply fueled_Ret|].
  destruct (Z.eqb_spec (n_sat_clauses s) (n_clauses s)) as [_|Hnall];
    [apply fueled_Ret|].
  apply fueled_bind; [apply fueled_choose_branch|]. intros [b s1] Hcb.
  pose proof (choose_branch_unassigned _ _ Hcb) as Hfree.
  assert (Hopen : asserted strict ->
            n_unsat_clauses s = 0 /\ n_sat_clauses s <> n_clauses s).
  { intros _. split; [|exact Hnall].
    pose proof (count_le_clauses _ _ clause_unsat (inv_shape _ _ Hinv)) as Hcu.
    rewrite <- (cnt_unsat _ _ _ _ (inv_counters _ _ Hinv)) in Hcu. lia. }
  pose proof (safe_inv _ _ _ _ (choose_branch_safe strict s Hinv Hopen) Hcb)
    as (Hse & Hb & Hbfree).
  simpl in Hse, Hb, Hbfree.
  pose proof (Inv_score_eq strict s s1 Hse Hinv) as Hinv1.
  assert (Hnu1 : n_units s1 = 0).
  { destruct Hse as (_ & _ & _ & _ & _ & _ & _ & H & _). congruence. }
  assert (Hna1 : n_assigned s1 = n_assigned s) by apply Hse.
  assert (Hnv1 : n_vars s1 = n_vars s) by apply Hse.
  assert (Hnc1 : n_clauses s1 = n_clauses s) by apply Hse.
  assert (Hfl1 : flags s1 = flags s) by apply Hse.
  assert (Hb1 : 0 <= b < 2 * n_vars s1) by (rewrite Hnv1; exact Hb).
  assert (Hfree1 : asserted strict -> val s1 b = None).
  { intros Ha. rewrite (val_flags s s1 b Hfl1). exact (Hbfree Ha). }
  assert (Hrec : forall s2 : Solver,
             n_vars s2 = n_vars s -> n_clauses s2 = n_clauses s ->
             n_assigned s2 = n_assigned s ->
             forall s', Inv strict s' -> n_units s' = 0 ->
               n_vars s' = n_vars s2 -> n_clauses s' = n_clauses s2 ->
               n_assigned s2 < n_assigned s' ->
               fueled (search_assignments fuel s')).
  { intros s2 E1 E2 E3 s' Hinv' Hnu' E4 E5 Hlt.
    apply IH; [exact Hinv' | exact Hnu' |].
    pose proof (Inv_bounds _ _ Hinv') as (_ & Hna').
    rewrite E4, E5, E1, E2 in *. nia. }
  apply fueled_bind.
  { apply (try_assignment_with_fueled strict);
      [exact Hinv1 | exact Hnu1 | exact Hb1 | exact Hfree1 | |].
    - apply Hrec; assumption.
    - rewrite Hnv1, Hna1, Hnc1. nia. }
  intros [sol s2] Htry.
  destruct sol; [apply fueled_Ret | apply fueled_Ret|].
  pose proof (safe_inv _ _ _ _
                (try_assignment_safe strict _ fuel s1 b
                   (search_assignments_safe strict fuel) Hinv1 Hnu1
                   Hb1 Hfree1) Htry)
    as (Hinv2 & Hnu2 & Hsp2 & Hpre2 & Hna2 & _).
  simpl in Hinv2, Hnu2, Hsp2, Hpre2, Hna2.
  pose proof Hsp2 as (Hnv2 & Hnc2 & _).
  assert (Hval2 : forall z, val s2 z = val s1 z).
  { apply (val_from_trail strict s1 s2);
      [apply Hinv1 | apply Hinv2 | apply Hinv1 | apply Hinv2 | exact Hnv2 |].
    rewrite Hna2. apply Hpre2. }
  apply fueled_bind.
  { apply (try_assignment_with_fueled strict); [exact Hinv2 | exact Hnu2 | | | |].
    - rewrite Hnv2. apply negate_range, Hb1.
    - intros Ha. rewrite Hval2.
      rewrite (trail_pair _ (inv_trail _ _ Hinv1) b Hb1), (Hfree1 Ha).
      reflexivity.
    - apply Hrec; congruence.
    - rewrite Hnv2, Hnc2, Hna2, Hnv1, Hna1, Hnc1. nia. }
  intros [sol' s3] _. destruct sol'; apply fueled_Ret.
Qed.

(** X1. Termination of the search.  For a loaded formula whose sizes fit
    in an [unsigned int], [n_vars * (n_clauses + 2) + 1] units of fuel are
    enough: the run of [search_assignments] ends, either with the verdict
    SATISFIABLE or UNSATISFIABLE (never UNKNOWN) or on a failed
    assertion; it neither runs out of fuel nor leaves an array. *)
Theorem search_assignments_terminates (nv : Z) (cls : list (list Z))
    (fuel : nat) (s0 : Solver) :
  0 < nv <= INT_MAX -> Z.of_nat (length cls) <= INT_MAX ->
  2 * nv + Z.of_nat (length cls) < UINT_MODULUS ->
  load_cnf nv cls = Ret s0 ->
  nv * (Z.of_nat (length cls) + 2) + 1 <= Z.of_nat fuel ->
  search_assignments fuel s0 = Err AssertionFailed \/
  exists sol s',
    search_assignments fuel s0 = Ret (sol, s') /\ sol <> SOLUTION_UNKNOWN.
Proof.
  intros Hnv Hnc Hfit Hload Hfuel.
  destruct (load_cnf_Inv bounded nv cls s0 Hnv Hnc (fun _ => Hfit)
              ltac:(simpl; tauto) Hload)
    as (Hinv & Hnu & Hna & Hnvs & Hncs & _).
  pose proof (search_assignments_safe bounded fuel s0 Hinv Hnu) as Hsafe.
  pose proof (search_assignments_fueled bounded fuel s0 Hinv Hnu) as Hfueled.
  unfold search_fuel in Hfueled. rewrite Hnvs, Hncs, Hna, Z.sub_0_r in Hfueled.
  specialize (Hfueled Hfuel).
  destruct (search_assignments fuel s0) as [[sol s']|[| |]].
  - right. exists sol, s'. split; [reflexivity|].
    destruct Hsafe as (_ & _ & _ & _ & Hsol). simpl in Hsol.
    intros ->. exact Hsol.
  - left. reflexivity.
  - simpl in Hsafe. tauto.
  - congruence.
Qed.

Lemma search_assignments_terminates_witness :
  exists s0 sol s',
    load_cnf 3 cnf_toy = Ret s0 /\
    search_assignments 20 s0 = Ret (sol, s') /\ sol <> SOLUTION_UNKNOWN.
Proof.
  destruct (load_cnf 3 cnf_toy) as [s0|f] eqn:Hload;
    [|vm_compute in Hload; discriminate].
  exists s0.
  assert (H1 : 0 < 3 <= INT_MAX) by (unfold INT_MAX; lia).
  assert (H2 : Z.of_nat (length cnf_toy) <= INT_MAX)
    by (simpl; unfold INT_MAX; lia).
  assert (H3 : 2 * 3 + Z.of_nat (length cnf_toy) < UINT_MODULUS)
    by (simpl; unfold UINT_MODULUS; lia).
  assert (H4 : 3 * (Z.of_nat (length cnf_toy) + 2) + 1 <= Z.of_nat 20)
    by (simpl; lia).
  destruct (search_assignments_terminates 3 cnf_toy 20 s0 H1 H2 H3 Hload H4)
    as [Hfail | (sol & s' & Hres & Hsol)].
  - exfalso. vm_compute in Hload. injection Hload as <-.
    vm_compute in Hfail. discriminate Hfail.
  - exists sol, s'. split; [reflexivity|]. split; [exact Hres | exact Hsol].
Defined.

(** ** Total correctness on clean formulas *)



(** X3. In a state that satisfies the invariants of a clean formula (no
    empty clause, at most 16383 clauses), with some clause not yet
    satisfied and none counted as contradicted, [choose_branch] passes
    its two assertions and returns a literal whose variable is
    unassigned; it changes nothing but the scores. *)
Theorem choose_branch_unassigned_literal (s : Solver) :
  Inv total s ->
  any_contradiction s = false -> all_satisfied s = false ->
  exists lit s1,
    choose_branch s = Ret (lit, s1) /\
    0 <= lit < 2 * n_vars s /\
    val s lit = None /\ val s (negate lit) = None /\
    score_eq s s1.
Proof.
  intros Hinv Hnone Hnall.
  unfold any_contradiction in Hnone. unfold all_satisfied in Hnall.
  apply Z.ltb_ge in Hnone. apply Z.eqb_neq in Hnall.
  assert (Hopen : asserted total ->
            n_unsat_clauses s = 0 /\ n_sat_clauses s <> n_clauses s).
  { intros _. split; [|exact Hnall].
    pose proof (count_le_clauses _ _ clause_unsat (inv_shape _ _ Hinv)) as Hcu.
    rewrite <- (cnt_unsat _ _ _ _ (inv_counters _ _ Hinv)) in Hcu. lia. }
  pose proof (choose_branch_safe total s Hinv Hopen) as Hsafe.
  pose proof (fueled_choose_branch s) as Hfueled.
  destruct (choose_branch s) as [[lit s1]|[| |]];
    [|exfalso; apply Hsafe; exact I | exfalso; apply Hsafe; exact I
     |congruence].
  destruct Hsafe as (Hse & Hlit & Hfree). simpl in Hse, Hlit, Hfree.
  exists lit, s1. split; [reflexivity|]. split; [exact Hlit|].
  split; [exact (Hfree I)|]. split; [|exact Hse].
  rewrite (trail_pair _ (inv_trail _ _ Hinv) lit Hlit), (Hfree I).
  reflexivity.
Qed.

Lemma choose_branch_unassigned_literal_witness :
  exists s lit s1,
    load_cnf 3 cnf_toy = Ret s /\
    choose_branch s = Ret (lit, s1) /\
    0 <= lit < 2 * n_vars s /\
    val s lit = None /\ val s (negate lit) = None /\
    score_eq s s1.
Proof.
  destruct (load_cnf 3 cnf_toy) as [s|f] eqn:Hload;
    [|vm_compute in Hload; discriminate].
  assert (Hinv : Inv total s).
  { eapply (load_cnf_Inv total 3 cnf_toy);
      [unfold INT_MAX; lia | simpl; unfold INT_MAX; lia
      | intros _; simpl; unfold UINT_MODULUS; lia | | exact Hload].
    intros _. split; [simpl; unfold SCORED_CLAUSES; lia|].
    intros cl Hcl. unfold cnf_toy in Hcl.
    repeat (apply elem_of_cons in Hcl as [-> | Hcl]);
      try (apply elem_of_nil in Hcl; contradiction); discriminate. }
  vm_compute in Hload. injection Hload as Hs.
  destruct (choose_branch_unassigned_literal s Hinv)
    as (lit & s1 & H); [rewrite <- Hs; reflexivity | rewrite <- Hs; reflexivity|].
  exists s, lit, s1. split; [reflexivity | exact H].
Defined.

(** * Further properties of the code *)

(** ** Negation of literal codes *)

Lemma int_from_lit_even (k : Z) :
  0 <= k < INT_MAX -> int_from_lit (2 * k) = k + 1.
Proof.
  unfold INT_MAX. intros Hk. unfold int_from_lit.
  rewrite land_1, shiftr_1.
  replace ((2 * k) mod 2) with 0 by (rewrite Z.mul_comm, Z.mod_mul; lia).
  replace (2 * k / 2) with k by (rewrite Z.mul_comm, Z.div_mul; lia).
  simpl negb. cbv iota.
  rewrite (u32_small (k + 1)) by (unfold UINT_MODULUS; lia).
  apply s32_small. unfold INT_MAX. lia.
Qed.

Lemma int_from_lit_odd (k : Z) :
  0 <= k < INT_MAX -> int_from_lit (2 * k + 1) = - (k + 1).
Proof.
  unfold INT_MAX. intros Hk. unfold int_from_lit.
  rewrite land_1, shiftr_1.
  replace ((2 * k + 1) mod 2) with 1
    by (rewrite Z.add_comm, Z.mul_comm, Z.mod_add; [reflexivity | lia]).
  replace ((2 * k + 1) / 2) with k
    by (rewrite Z.add_comm, Z.mul_comm, Z.div_add; [reflexivity | lia]).
  simpl negb. cbv iota.
  rewrite (u32_small (k + 1)) by (unfold UINT_MODULUS; lia).
  replace (u32 (- (k + 1))) with (UINT_MODULUS - (k + 1)).
  2:{ unfold u32, UINT_MODULUS.
      rewrite <- (Z.mod_add _ 1) by lia. rewrite Z.mod_small; lia. }
  unfold s32, UINT_MODULUS.
  replace (4294967296 - (k + 1) + 2147483648)
    with (2147483648 - (k + 1) + 1 * 4294967296) by lia.
  rewrite Z.mod_add by lia. rewrite Z.mod_small; lia.
Qed.

Lemma lit_from_int_int_from_lit (l : Z) :
  0 <= l < 2 * INT_MAX -> lit_from_int (int_from_lit l) = Ret l.
Proof.
  intros Hl. destruct (parity_split l) as [k [-> | ->]].
  - rewrite int_from_lit_even by lia. unfold lit_from_int.
    replace (k + 1 =? 0) with false by (symmetry; apply Z.eqb_neq; lia).
    simpl. replace (0 <? k + 1) with true by (symmetry; apply Z.ltb_lt; lia).
    rewrite shiftl_1, u32_small by (unfold UINT_MODULUS, INT_MAX in *; lia).
    f_equal. lia.
  - rewrite int_from_lit_odd by lia. unfold lit_from_int.
    replace (- (k + 1) =? 0) with false by (symmetry; apply Z.eqb_neq; lia).
    simpl. replace (0 <? - (k + 1)) with false
      by (symmetry; apply Z.ltb_ge; lia).
    replace (- - (k + 1) - 1) with k by lia.
    rewrite shiftl_1, lor_even_1.
    rewrite u32_small by (unfold UINT_MODULUS, INT_MAX in *; lia).
    reflexivity.
Qed.

(** X4. [negate] exchanges the two literals of a variable: on every literal
    code of a solver with [n_vars <= INT_MAX] it is an involution without
    fixed point that stays within the codes of the solver, keeps the
    variable, and changes the sign of the DIMACS integer printed for the
    literal; on the input side, the literal of [- n] is the negation of the
    literal of [n]. *)
Theorem negate_opposite_literal (nvars lit : Z) :
  0 < nvars <= INT_MAX -> 0 <= lit < 2 * nvars ->
  negate (negate lit) = lit /\ negate lit <> lit /\
  0 <= negate lit < 2 * nvars /\
  var_of_lit (negate lit) = var_of_lit lit /\
  int_from_lit (negate lit) = - int_from_lit lit /\
  lit_from_int (- int_from_lit lit) = Ret (negate lit).
Proof.
  intros Hnv Hlit.
  assert (Hsign : forall l, 0 <= l < 2 * nvars ->
            int_from_lit (negate l) = - int_from_lit l).
  { intros l Hl. destruct (parity_split l) as [k [-> | ->]].
    - rewrite negate_even, int_from_lit_even, int_from_lit_odd by lia.
      reflexivity.
    - rewrite negate_odd, int_from_lit_even, int_from_lit_odd by lia. lia. }
  pose proof (negate_range lit nvars Hlit) as Hr.
  split; [apply negate_involutive|]. split; [apply negate_neq|].
  split; [exact Hr|]. split.
  - unfold var_of_lit. destruct (parity_split lit) as [k [-> | ->]].
    + rewrite negate_even. f_equal.
      rewrite (Z.mul_comm 2 k), Z.div_mul by lia.
      rewrite Z.add_comm, Z.div_add by lia. reflexivity.
    + rewrite negate_odd. f_equal.
      rewrite (Z.mul_comm 2 k), Z.div_mul by lia.
      rewrite Z.add_comm, Z.div_add by lia. reflexivity.
  - split; [apply Hsign; exact Hlit|].
    rewrite <- Hsign by exact Hlit.
    apply lit_from_int_int_from_lit. unfold INT_MAX in *. lia.
Qed.

Lemma negate_opposite_literal_witness :
  negate (negate 4) = 4 /\ negate 4 <> 4 /\
  0 <= negate 4 < 2 * 3 /\
  var_of_lit (negate 4) = var_of_lit 4 /\
  int_from_lit (negate 4) = - int_from_lit 4 /\
  lit_from_int (- int_from_lit 4) = Ret (negate 4).
Proof.
  apply (negate_opposite_literal 3 4); unfold INT_MAX; lia.
Defined.

(** ** Repeated literals *)

Lemma add_literal_to_clause_present (s : Solver) (ci : nat) (c : ClauseState)
    (lit : Z) :
  clauses s !! ci = Some c -> lit ∈ clause_lits c ->
  add_literal_to_clause s ci lit = Ret s.
Proof.
  intros Hc Hin. unfold add_literal_to_clause.
  rewrite (proj2 (clause_at_Ret _ _ _) Hc). simpl.
  replace (existsb (Z.eqb lit) (clause_lits c)) with true; [reflexivity|].
  symmetry. apply existsb_exists. exists lit. split.
  - apply list_elem_of_In, Hin.
  - apply Z.eqb_refl.
Qed.

Lemma add_literal_to_clause_grows (s s' : Solver) (ci : nat) (lit : Z) :
  add_literal_to_clause s ci lit = Ret s' ->
  exists c c', clauses s !! ci = Some c /\ clauses s' !! ci = Some c' /\
    lit ∈ clause_lits c' /\
    forall x, x ∈ clause_lits c -> x ∈ clause_lits c'.
Proof.
  unfold add_literal_to_clause. intros H.
  apply bind_Ret_inv in H as (c & Hc%clause_at_Ret & H).
  destruct (existsb (Z.eqb lit) (clause_lits c)) eqn:E.
  - injection H as <-. exists c, c. repeat split; auto.
    apply existsb_exists in E as (x & Hx & ->%Z.eqb_eq).
    apply list_elem_of_In, Hx.
  - apply bind_Ret_inv in H as (ls & _ & H). injection H as <-.
    exists c, (add_literal c lit). split; [exact Hc|]. split.
    + simpl. apply list_lookup_insert_eq. eapply lookup_lt_Some; eauto.
    + simpl. split; [apply elem_of_app; right; now left|].
      intros x Hx. apply elem_of_app. now left.
Qed.

Lemma load_clause_first_occurrences (ci : nat) (l seen : list Z) (s : Solver) :
  (forall x, x ∈ seen -> exists lit c,
     lit_from_int x = Ret lit /\ clauses s !! ci = Some c /\
     lit ∈ clause_lits c) ->
  foldM (load_literal ci) l s =
  foldM (load_literal ci) (first_occurrences seen l) s.
Proof.
  revert seen s. induction l as [|x l IH]; intros seen s Hseen; simpl;
    [reflexivity|].
  destruct (existsb (Z.eqb x) seen) eqn:E.
  - apply existsb_exists in E as (y & Hy%list_elem_of_In & <-%Z.eqb_eq).
    destruct (Hseen x Hy) as (lit & c & Hlit & Hc & Hin).
    unfold load_literal at 1. rewrite Hlit. simpl.
    rewrite (add_literal_to_clause_present s ci c lit Hc Hin). simpl.
    apply IH, Hseen.
  - simpl. destruct (load_literal ci s x) as [s'|f] eqn:Hl; simpl;
      [|reflexivity].
    apply IH. unfold load_literal in Hl.
    apply bind_Ret_inv in Hl as (lit & Hlit & Hadd).
    apply add_literal_to_clause_grows in Hadd as (c & c' & Hc & Hc' & Hin & Hmono).
    intros y [->|Hy]%elem_of_cons.
    + exists lit, c'. auto.
    + destruct (Hseen y Hy) as (lit' & c0 & Hlit' & Hc0 & Hin').
      exists lit', c'. repeat split; auto. apply Hmono. congruence.
Qed.

Lemma load_clauses_first_occurrences (cls : list (list Z)) (j : nat -> nat)
    (s : Solver) :
  foldM load_clause (imap (fun i cl => (j i, cl)) cls) s =
  foldM load_clause
    (imap (fun i cl => (j i, cl)) (first_occurrences [] <$> cls)) s.
Proof.
  revert j s. induction cls as [|cl cls IH]; intros j s; simpl; [reflexivity|].
  unfold load_clause at 1 3. simpl fst. simpl snd.
  rewrite <- (load_clause_first_occurrences _ cl [] s)
    by (intros x Hx; inversion Hx).
  destruct (foldM (load_literal (j 0%nat)) cl s) as [s'|f]; simpl;
    [|reflexivity].
  exact (IH (fun i => j (S i)) s').
Qed.

(** X5. Writing a literal more than once in a clause changes nothing:
    [add_literal_to_clause] returns before touching the solver when the
    literal is already in the clause, so the formula and the formula with
    only the first occurrence of every integer kept in each clause build
    the same solver, or stop on the same fault. *)
Theorem load_cnf_repeated_literals (num_vars : Z) (cls : list (list Z)) :
  load_cnf num_vars cls = load_cnf num_vars (first_occurrences [] <$> cls).
Proof.
  unfold load_cnf. rewrite length_fmap.
  destruct (create_solver num_vars (Z.of_nat (length cls))) as [s|f]; simpl;
    [|reflexivity].
  exact (load_clauses_first_occurrences cls (fun i => i) s).
Qed.

(** ** The unit literal of a clause *)

(** X6. In a state satisfying the solver invariants, for a clause with no
    true literal and exactly one free literal, [get_unit] passes its two
    assertions and returns a literal of the clause whose variable is
    unassigned; every other literal of the clause is fixed and assigned
    false, so the literal returned is the only one that can still make the
    clause true. *)
Theorem get_unit_only_free_literal (strict : Mode) (s : Solver) (ci : nat)
    (c : ClauseState) :
  Inv strict s -> clauses s !! ci = Some c ->
  n_assigned_true c = 0 -> n_free_lits c = 1 ->
  exists u, get_unit s c = Ret u /\
    u ∈ clause_lits c /\ val s u = None /\ val s (negate u) = None /\
    forall lit, lit ∈ clause_lits c -> lit <> u -> val s lit = Some false.
Proof.
  intros Hinv Hc Ht Hr.
  pose proof (inv_shape _ _ Hinv) as Hs.
  destruct (shape_clause _ _ _ _ Hs Hc) as (Hnd & Hrange & _).
  pose proof (Counters_all _ _ _ (inv_counters _ _ Hinv) ci c Hc) as Hok.
  rewrite (get_unit_unit s c Ht Hr).
  destruct (first_unfixed_total s (clause_lits c)) as [u Hu].
  { apply list.Forall_forall. intros lit Hlit.
    eapply shape_lit_bound; eauto. }
  exists u. split; [exact Hu|].
  assert (Hfree : exists x, x ∈ clause_lits c /\ val s x = None)
    by (apply free_lit_exists; [exact Hok|lia]).
  pose proof (safe_inv _ _ _ u
                (first_unfixed_safe strict s (clause_lits c) Hs Hrange Hfree)
                Hu) as [Hin Hval].
  split; [exact Hin|]. split; [exact Hval|]. split.
  - rewrite (trail_pair _ (inv_trail _ _ Hinv) u (Hrange u Hin)), Hval.
    reflexivity.
  - intros lit Hlit Hne. destruct Hok as (Hct & _ & Hcr).
    destruct (val s lit) as [[|]|] eqn:Hv; [| reflexivity |].
    + pose proof (cnt_ok_pos (val s) c lit (Some true) Hlit Hv). lia.
    + pose proof (countZ_two (is_val (val s) None) (clause_lits c) lit u
                    Hlit Hin Hne) as H2.
      unfold is_val in H2 at 1 2. rewrite Hv, Hval in H2.
      specialize (H2 (bool_decide_eq_true_2 _ eq_refl)
                     (bool_decide_eq_true_2 _ eq_refl)). lia.
Qed.

Lemma get_unit_only_free_literal_witness :
  exists s u,
    load_cnf 1 cnf_contradiction = Ret s /\
    get_unit s (mkClause [0] 0 0 1) = Ret u /\
    u ∈ [0] /\ val s u = None /\ val s (negate u) = None /\
    forall lit, lit ∈ [0] -> lit <> u -> val s lit = Some false.
Proof.
  destruct (load_cnf 1 cnf_contradiction) as [s|f] eqn:Hload;
    [|vm_compute in Hload; discriminate].
  assert (Hinv : Inv lax s).
  { eapply (load_cnf_Inv lax 1 cnf_contradiction);
      [unfold INT_MAX; lia | simpl; unfold INT_MAX; lia
      | intros [] | intros [] | exact Hload]. }
  vm_compute in Hload. injection Hload as Hs.
  assert (Hc : clauses s !! 0%nat = Some (mkClause [0] 0 0 1))
    by (rewrite <- Hs; reflexivity).
  destruct (get_unit_only_free_literal lax s 0 (mkClause [0] 0 0 1) Hinv Hc
              eq_refl eq_refl) as (u & H).
  exists s, u. split; [reflexivity | exact H].
Defined.

(** ** What the two verdict tests mean *)

(** X7. In a state satisfying the solver invariants the two counters read
    by the search say what they are meant to say about the current partial
    assignment: [all_satisfied] holds exactly when every clause has a
    literal that is fixed and assigned true, and [any_contradiction] holds
    exactly when some clause with at least one literal has all its
    literals fixed and assigned false.  A clause without literals is
    counted by neither. *)
Theorem verdict_tests_meaning (strict : Mode) (s : Solver) :
  Inv strict s ->
  (all_satisfied s = true <->
   forall cl, cl ∈ formula s -> exists lit, lit ∈ cl /\ val s lit = Some true)
  /\
  (any_contradiction s = true <->
   exists cl, cl ∈ formula s /\ cl <> [] /\
              forall lit, lit ∈ cl -> val s lit = Some false).
Proof.
  intros Hinv.
  pose proof (inv_shape _ _ Hinv) as Hs.
  pose proof (inv_counters _ _ Hinv) as Hc.
  pose proof (shape_clauses _ _ Hs) as Hnc.
  unfold all_satisfied, any_contradiction. split; split.
  - intros Hall%Z.eqb_eq cl [ci Hcl]%list_elem_of_lookup.
    apply formula_lookup_inv in Hcl as (c & Hci & <-).
    apply (all_satisfied_true_lit strict s c Hinv Hall).
    apply list_elem_of_lookup. eauto.
  - intros Hall. apply Z.eqb_eq.
    rewrite (cnt_sat _ _ _ _ Hc), countZ_all.
    + rewrite (shape_cls _ _ Hs). lia.
    + intros c [ci Hci]%list_elem_of_lookup.
      destruct (Hall (clause_lits c)) as (lit & Hlit & Hval).
      { apply list_elem_of_lookup. exists ci. apply formula_lookup, Hci. }
      pose proof (Counters_all _ _ _ Hc ci c Hci) as (Ht & _ & _).
      pose proof (cnt_ok_pos (val s) c lit (Some true) Hlit Hval).
      unfold clause_sat. apply negb_true_iff, Z.eqb_neq. lia.
  - intros Hpos%Z.ltb_lt. rewrite (cnt_unsat _ _ _ _ Hc) in Hpos.
    apply countZ_pos_elem in Hpos as (c & [ci Hci]%list_elem_of_lookup & Hun).
    pose proof (Counters_all _ _ _ Hc ci c Hci) as (Ht & Hf & Hr).
    unfold clause_unsat in Hun.
    apply andb_true_iff in Hun as [[Ht0%Z.eqb_eq Hr0%Z.eqb_eq]%andb_true_iff
                                   Hf0%negb_true_iff%Z.eqb_neq].
    exists (clause_lits c). split; [|split].
    + apply list_elem_of_lookup. exists ci. apply formula_lookup, Hci.
    + intros Hnil. rewrite Hnil in Hf. simpl in Hf. contradiction.
    + intros lit Hlit. destruct (val s lit) as [[|]|] eqn:Hv; [|reflexivity|].
      * pose proof (cnt_ok_pos (val s) c lit (Some true) Hlit Hv). lia.
      * pose proof (cnt_ok_pos (val s) c lit None Hlit Hv). lia.
  - intros (cl & [ci Hcl]%list_elem_of_lookup & Hne & Hfalse).
    apply formula_lookup_inv in Hcl as (c & Hci & <-).
    pose proof (Counters_all _ _ _ Hc ci c Hci) as (Ht & Hf & Hr).
    apply Z.ltb_lt. rewrite (cnt_unsat _ _ _ _ Hc).
    apply (countZ_elem_pos _ _ c); [apply list_elem_of_lookup; eauto|].
    unfold clause_unsat.
    rewrite Ht, Hr, Hf.
    rewrite (countZ_none (is_val (val s) (Some true))),
            (countZ_none (is_val (val s) None)),
            (countZ_all (is_val (val s) (Some false))).
    + simpl. apply negb_true_iff, Z.eqb_neq.
      destruct (clause_lits c); [contradiction|]. simpl length. lia.
    + intros x Hx. unfold is_val. rewrite (Hfalse x Hx).
      apply bool_decide_eq_true_2. reflexivity.
    + intros x Hx. unfold is_val. rewrite (Hfalse x Hx).
      apply bool_decide_eq_false_2. discriminate.
    + intros x Hx. unfold is_val. rewrite (Hfalse x Hx).
      apply bool_decide_eq_false_2. discriminate.
Qed.

Lemma verdict_tests_meaning_witness :
  exists s,
    load_cnf 3 cnf_toy = Ret s /\
    (all_satisfied s = true <->
     forall cl, cl ∈ formula s ->
       exists lit, lit ∈ cl /\ val s lit = Some true) /\
    (any_contradiction s = true <->
     exists cl, cl ∈ formula s /\ cl <> [] /\
                forall lit, lit ∈ cl -> val s lit = Some false).
Proof.
  destruct (load_cnf 3 cnf_toy) as [s|f] eqn:Hload;
    [|vm_compute in Hload; discriminate].
  exists s. split; [reflexivity|].
  apply (verdict_tests_meaning lax s).
  eapply (load_cnf_Inv lax 3 cnf_toy);
    [unfold INT_MAX; lia | simpl; unfold INT_MAX; lia
    | intros [] | intros [] | exact Hload].
Defined.

(** ** Undoing the counter updates *)

Lemma u32_succ_pred (z : Z) : 0 <= z < UINT_MODULUS -> u32 (u32 (z + 1) - 1) = z.
Proof.
  intros Hz. unfold u32.
  rewrite Zminus_mod_idemp_l. replace (z + 1 - 1) with z by lia.
  apply Z.mod_small, Hz.
Qed.

Lemma u32_pred_succ (z : Z) : 0 <= z < UINT_MODULUS -> u32 (u32 (z - 1) + 1) = z.
Proof.
  intros Hz. unfold u32.
  rewrite Zplus_mod_idemp_l. replace (z - 1 + 1) with z by lia.
  apply Z.mod_small, Hz.
Qed.

Lemma set_clause_restore (s : Solver) (ci : nat) (c c' : ClauseState) :
  clauses s !! ci = Some c ->
  set_clause ci c (set_clause ci c' s) = s.
Proof.
  intros Hc. destruct s. unfold set_clause, set_clauses. simpl in *.
  rewrite list_insert_insert_eq, list_insert_id by exact Hc. reflexivity.
Qed.

(** X8. The counter updates of a clause are undone exactly.  On a clause
    with a free literal and counters that are [unsigned int]s,
    [undo_true_assignment] after [add_true_assignment] gives back the
    solver state as it was, [n_sat_clauses] included; and
    [undo_false_assignment] after [add_false_assignment] gives back the
    state up to the unit stack: a unit literal pushed by
    [add_false_assignment] stays on the stack and [n_units] is not
    lowered. *)
Theorem undo_counter_updates (s : Solver) (ci : nat) (c : ClauseState) :
  clauses s !! ci = Some c ->
  0 < n_free_lits c <= n_lits c -> n_lits c < UINT_MODULUS ->
  0 <= n_assigned_true c < UINT_MODULUS ->
  0 <= n_assigned_false c < UINT_MODULUS ->
  0 <= n_sat_clauses s < UINT_MODULUS ->
  0 <= n_unsat_clauses s < UINT_MODULUS ->
  (exists s1, add_true_assignment s ci = Ret s1 /\
              undo_true_assignment s1 ci = Ret s) /\
  (forall s1, add_false_assignment s ci = Ret s1 ->
     undo_false_assignment s1 ci =
     Ret (set_n_units (n_units s1) (set_unit_stack (unit_stack s1) s))).
Proof.
  intros Hc Hfree Hlits Ht Hf Hsat Hunsat.
  assert (Hlt : (ci < length (clauses s))%nat) by (eapply lookup_lt_Some; eauto).
  split.
  - unfold add_true_assignment.
    rewrite (proj2 (clause_at_Ret _ _ _) Hc). simpl.
    replace (0 <? n_free_lits c) with true by (symmetry; apply Z.ltb_lt; lia).
    simpl. eexists. split; [reflexivity|].
    unfold undo_true_assignment, clause_at.
    set (s0 := if n_assigned_true c =? 0
               then set_n_sat_clauses (u32 (n_sat_clauses s + 1)) s else s).
    assert (Hcl0 : clauses s0 = clauses s) by (subst s0; destruct (_ =? _); reflexivity).
    simpl clauses. rewrite Hcl0, list_lookup_insert_eq by exact Hlt. simpl.
    unfold n_lits at 1. simpl clause_lits. fold (n_lits c).
    rewrite (u32_small (n_free_lits c - 1)) by lia.
    replace (n_free_lits c - 1 <? n_lits c) with true
      by (symmetry; apply Z.ltb_lt; lia).
    simpl. rewrite u32_succ_pred by lia.
    replace (n_free_lits c - 1 + 1) with (n_free_lits c) by lia.
    rewrite (u32_small (n_free_lits c)) by lia.
    replace (set_counts (n_assigned_true c) (n_assigned_false c)
               (n_free_lits c) _) with c by (destruct c; reflexivity).
    subst s0. destruct (n_assigned_true c =? 0) eqn:E.
    + f_equal. destruct s. unfold set_clause, set_clauses, set_n_sat_clauses.
      simpl in *. rewrite list_insert_insert_eq, list_insert_id by exact Hc.
      rewrite u32_succ_pred by lia. reflexivity.
    + f_equal. apply set_clause_restore, Hc.
  - intros s1 Hadd. unfold add_false_assignment in Hadd.
    rewrite (proj2 (clause_at_Ret _ _ _) Hc) in Hadd. simpl in Hadd.
    replace (0 <? n_free_lits c) with true in Hadd
      by (symmetry; apply Z.ltb_lt; lia).
    simpl in Hadd.
    rewrite (u32_small (n_free_lits c - 1)) in Hadd by lia.
    set (s0 := if (n_assigned_true c =? 0) && (n_free_lits c =? 1)
               then set_n_unsat_clauses (u32 (n_unsat_clauses s + 1)) s else s)
      in Hadd.
    set (c' := set_counts (n_assigned_true c) (u32 (n_assigned_false c + 1))
                 (n_free_lits c - 1) c) in Hadd.
    assert (Hs1 : exists us nu,
              s1 = set_n_units nu (set_unit_stack us (set_clause ci c' s0))).
    { destruct ((n_assigned_true c =? 0) && (n_free_lits c - 1 =? 1)).
      - apply bind_Ret_inv in Hadd as (unit & _ & Hpush).
        unfold push_unit in Hpush. destruct (_ <? _)%nat; [|discriminate].
        injection Hpush as <-. eexists _, _. reflexivity.
      - injection Hadd as <-. exists (unit_stack s0), (n_units s0).
        destruct s0. reflexivity. }
    destruct Hs1 as (us & nu & ->). clear Hadd.
    assert (Hcl0 : clauses s0 = clauses s)
      by (subst s0; destruct (_ && _); reflexivity).
    unfold undo_false_assignment, clause_at. simpl clauses.
    rewrite Hcl0, list_lookup_insert_eq by exact Hlt. simpl.
    unfold n_lits at 1. simpl clause_lits. fold (n_lits c).
    replace (n_free_lits c - 1 <? n_lits c) with true
      by (symmetry; apply Z.ltb_lt; lia).
    simpl. rewrite u32_succ_pred by lia.
    replace (n_free_lits c - 1 + 1) with (n_free_lits c) by lia.
    rewrite (u32_small (n_free_lits c)) by lia.
    replace (set_counts (n_assigned_true c) (n_assigned_false c)
               (n_free_lits c) _) with c by (destruct c; reflexivity).
    subst s0. destruct ((n_assigned_true c =? 0) && (n_free_lits c =? 1)).
    + f_equal. destruct s.
      unfold set_clause, set_clauses, set_n_unsat_clauses, set_n_units,
        set_unit_stack.
      simpl in *. rewrite list_insert_insert_eq, list_insert_id by exact Hc.
      rewrite u32_succ_pred by lia. reflexivity.
    + f_equal. destruct s.
      unfold set_clause, set_clauses, set_n_units, set_unit_stack.
      simpl in *. rewrite list_insert_insert_eq, list_insert_id by exact Hc.
      reflexivity.
Qed.

Lemma undo_counter_updates_witness :
  exists s,
    load_cnf 3 cnf_toy = Ret s /\
    (exists s1, add_true_assignment s 0 = Ret s1 /\
                undo_true_assignment s1 0 = Ret s) /\
    (forall s1, add_false_assignment s 0 = Ret s1 ->
       undo_false_assignment s1 0 =
       Ret (set_n_units (n_units s1) (set_unit_stack (unit_stack s1) s))).
Proof.
  destruct (load_cnf 3 cnf_toy) as [s|f] eqn:Hload;
    [|vm_compute in Hload; discriminate].
  vm_compute in Hload. injection Hload as Hs.
  exists s. split; [reflexivity|].
  apply (undo_counter_updates s 0 (mkClause [0; 2; 4] 0 0 3));
    rewrite <- ?Hs; unfold UINT_MODULUS, n_lits; simpl; first [reflexivity | lia].
Defined.

(** ** Undoing an assignment *)

(** A run that can neither fail nor run out of fuel returns. *)
Lemma total_returns {A : Type} (m : Result A) (Q : A -> Prop) :
  safe total m Q -> fueled m -> exists a, m = Ret a /\ Q a.
Proof.
  destruct m as [a|[| |]]; simpl; intros Hsafe Hfuel.
  - eauto.
  - exfalso. apply Hsafe. exact I.
  - exfalso. apply Hsafe. exact I.
  - exfalso. apply Hfuel. reflexivity.
Qed.

(** The counters are a function of the literal lists and of the values of
    the literals. *)
Lemma clauses_of_counters (s s' : Solver) :
  formula s' = formula s ->
  Counters (val s) (val s) [] s -> Counters (val s') (val s') [] s' ->
  (forall lit, val s' lit = val s lit) ->
  clauses s' = clauses s /\ n_sat_clauses s' = n_sat_clauses s /\
  n_unsat_clauses s' = n_unsat_clauses s.
Proof.
  intros Hform Hcnt Hcnt' Hval.
  assert (Hcl : clauses s' = clauses s).
  { apply list_eq. intros ci.
    destruct (clauses s !! ci) as [c|] eqn:Hc.
    - pose proof (formula_lookup _ _ _ Hc) as Hf. rewrite <- Hform in Hf.
      apply formula_lookup_inv in Hf as (c' & Hc' & Hl).
      rewrite Hc'. f_equal.
      pose proof (Counters_all _ _ _ Hcnt ci c Hc) as (Ht & Hf & Hr).
      pose proof (Counters_all _ _ _ Hcnt' ci c' Hc') as Hok'.
      apply (cnt_ok_ext (val s') (val s)) in Hok';
        [|intros z; symmetry; apply Hval].
      destruct Hok' as (Ht' & Hf' & Hr'). rewrite Hl in Ht', Hf', Hr'.
      destruct c as [l t f r], c' as [l' t' f' r']. simpl in *. congruence.
    - apply lookup_ge_None in Hc. apply lookup_ge_None.
      rewrite <- formula_length, Hform, formula_length. exact Hc. }
  split; [exact Hcl|].
  rewrite (cnt_sat _ _ _ _ Hcnt), (cnt_sat _ _ _ _ Hcnt'),
          (cnt_unsat _ _ _ _ Hcnt), (cnt_unsat _ _ _ _ Hcnt'), Hcl.
  split; reflexivity.
Qed.

(** X9. [undo_assignment] takes back what [make_assignment] did.  From a
    state satisfying the solver invariants of a clean formula, for a
    literal of an unassigned variable, [make_assignment] followed by
    [undo_assignment] of the same literal both return, and afterwards
    every clause counter, [n_sat_clauses], [n_unsat_clauses], every
    [fixed] flag, the value of every literal, the occurrence lists and the
    trail are what they were before (the unit stack, on which
    [make_assignment] may have pushed literals, is left as it is). *)
Theorem undo_assignment_inverts_make_assignment (s : Solver) (lit : Z) :
  Inv total s -> 0 <= lit < 2 * n_vars s -> val s lit = None ->
  exists s1 s2,
    make_assignment s lit = Ret s1 /\
    val s1 lit = Some true /\ val s1 (negate lit) = Some false /\
    undo_assignment s1 lit = Ret s2 /\
    clauses s2 = clauses s /\
    n_sat_clauses s2 = n_sat_clauses s /\
    n_unsat_clauses s2 = n_unsat_clauses s /\
    (forall z, val s2 z = val s z) /\
    (fixed <$> lits s2) = (fixed <$> lits s) /\
    occ s2 = occ s /\
    n_assigned s2 = n_assigned s /\
    solver_assigned s2 = solver_assigned s.
Proof.
  intros Hinv Hlit Hval.
  pose proof (inv_shape _ _ Hinv) as Hs.
  assert (Hnval : val s (negate lit) = None).
  { rewrite (trail_pair _ (inv_trail _ _ Hinv) lit Hlit), Hval. reflexivity. }
  destruct (total_returns _ _
              (make_assignment_safe total s lit Hs (inv_counters _ _ Hinv)
                 (inv_units _ _ Hinv) Hlit (fun _ => conj Hval Hnval))
              (fueled_make_assignment s lit))
    as (s1 & Hmake & _ & _ & Hv1 & Hsp1 & Hna1 & Hsa1 & Hc1 & Hu1).
  assert (Hs1 : Shape total s1) by (eapply Shape_same_problem; eauto).
  assert (Hlit1 : 0 <= lit < 2 * n_vars s1)
    by (destruct Hsp1 as (-> & _); exact Hlit).
  assert (Ht1 : val s1 lit = Some true).
  { rewrite Hv1. unfold assigned_view. rewrite decide_True; reflexivity. }
  assert (Hf1 : val s1 (negate lit) = Some false).
  { rewrite Hv1. unfold assigned_view.
    rewrite decide_False by apply negate_neq.
    rewrite decide_True; reflexivity. }
  destruct (total_returns _ _
              (undo_assignment_safe total s1 lit Hs1 Hc1 Hlit1
                 (fun _ => conj Ht1 Hf1))
              (fueled_undo_assignment s1 lit))
    as (s2 & Hundo & _ & _ & Hv2 & Hsp2 & Hna2 & Hsa2 & Hnu2 & Hus2 & Hc2).
  assert (Hv : forall z, val s2 z = val s z).
  { intros z. rewrite Hv2. unfold unassigned_view.
    destruct (decide (z = lit)) as [->|Hz]; [symmetry; exact Hval|].
    destruct (decide (z = negate lit)) as [->|Hz']; [symmetry; exact Hnval|].
    rewrite Hv1. unfold assigned_view.
    rewrite decide_False, decide_False by assumption. reflexivity. }
  pose proof (same_problem_trans _ _ _ Hsp1 Hsp2)
    as (_ & _ & Hocc & Hform & Hlen & _ & _).
  destruct (clauses_of_counters s s2 Hform (inv_counters _ _ Hinv) Hc2 Hv)
    as (Hcl & Hsat & Hunsat).
  exists s1, s2. split; [exact Hmake|]. split; [exact Ht1|].
  split; [exact Hf1|]. split; [exact Hundo|]. split; [exact Hcl|].
  split; [exact Hsat|]. split; [exact Hunsat|]. split; [exact Hv|].
  split; [apply fixed_determined; assumption|]. split; [exact Hocc|].
  split; congruence.
Qed.

Lemma undo_assignment_inverts_make_assignment_witness :
  exists s s1 s2,
    load_cnf 3 cnf_toy = Ret s /\
    make_assignment s 2 = Ret s1 /\
    val s1 2 = Some true /\ val s1 (negate 2) = Some false /\
    undo_assignment s1 2 = Ret s2 /\
    clauses s2 = clauses s /\
    n_sat_clauses s2 = n_sat_clauses s /\
    n_unsat_clauses s2 = n_unsat_clauses s /\
    (forall z, val s2 z = val s z) /\
    (fixed <$> lits s2) = (fixed <$> lits s) /\
    occ s2 = occ s /\
    n_assigned s2 = n_assigned s /\
    solver_assigned s2 = solver_assigned s.
Proof.
  destruct (load_cnf 3 cnf_toy) as [s|f] eqn:Hload;
    [|vm_compute in Hload; discriminate].
  assert (Hinv : Inv total s).
  { eapply (load_cnf_Inv total 3 cnf_toy);
      [unfold INT_MAX; lia | simpl; unfold INT_MAX; lia
      | intros _; simpl; unfold UINT_MODULUS; lia | | exact Hload].
    intros _. split; [simpl; unfold SCORED_CLAUSES; lia|].
    intros cl Hcl. unfold cnf_toy in Hcl.
    repeat (apply elem_of_cons in Hcl as [-> | Hcl]);
      try (apply elem_of_nil in Hcl; contradiction); discriminate. }
  vm_compute in Hload. injection Hload as Hs.
  destruct (undo_assignment_inverts_make_assignment s 2 Hinv)
    as (s1 & s2 & H);
    [rewrite <- Hs; simpl; lia | rewrite <- Hs; reflexivity|].
  exists s, s1, s2. split; [reflexivity | exact H].
Defined.

(** ** The scores computed by [update_scores] *)

Lemma only_lits_refl (s : Solver) : only_lits s s.
Proof. destruct s; reflexivity. Qed.

(** A loop over distinct literal codes in which every iteration rewrites
    the state of its own literal only. *)
Lemma foldM_lits_pointwise (G : LitState -> Prop) (g : LitState -> LitState)
    (f : Solver -> Z -> Result Solver) (s : Solver) :
  (forall ls, G ls -> G (g ls)) ->
  (forall st x ls, only_lits s st -> 0 <= x -> G ls ->
     lits st !! Z.to_nat x = Some ls ->
     exists st', f st x = Ret st' /\ only_lits s st' /\
                 lits st' = <[Z.to_nat x := g ls]> (lits st)) ->
  forall l st, NoDup l ->
    (forall x, x ∈ l -> 0 <= x /\ (Z.to_nat x < length (lits st))%nat) ->
    only_lits s st -> Forall G (lits st) ->
    exists st', foldM f l st = Ret st' /\ only_lits s st' /\
      length (lits st') = length (lits st) /\
      forall i, lits st' !! i =
        if decide (Z.of_nat i ∈ l) then g <$> lits st !! i else lits st !! i.
Proof.
  intros HG Hstep. induction l as [|x l IH]; intros st Hnd Hl Hol HGs.
  - exists st. simpl. repeat split; auto.
  - apply list.NoDup_cons in Hnd as [Hx Hnd].
    destruct (Hl x ltac:(left)) as [Hx0 Hxlt].
    destruct (lookup_lt_is_Some_2 _ _ Hxlt) as [ls Hls].
    assert (HGls : G ls).
    { eapply list.Forall_forall; [exact HGs|].
      apply list_elem_of_lookup. eauto. }
    destruct (Hstep st x ls Hol Hx0 HGls Hls) as (st1 & Hf & Hol1 & Hl1).
    destruct (IH st1 Hnd) as (st' & Hfold & Hol' & Hlen' & Hlk').
    { intros y Hy. destruct (Hl y ltac:(now right)) as [Hy0 Hylt].
      split; [exact Hy0|]. rewrite Hl1, length_insert. exact Hylt. }
    { exact Hol1. }
    { rewrite Hl1. apply Forall_insert; [exact HGs | apply HG, HGls]. }
    exists st'. simpl. rewrite Hf. simpl. split; [exact Hfold|].
    split; [exact Hol'|]. split.
    { rewrite Hlen', Hl1, length_insert. reflexivity. }
    intros i. rewrite Hlk', Hl1.
    destruct (decide (i = Z.to_nat x)) as [->|Hne].
    + rewrite Z2Nat.id by exact Hx0.
      rewrite decide_False by exact Hx.
      rewrite decide_True by (now left).
      rewrite list_lookup_insert_eq by exact Hxlt. rewrite Hls. reflexivity.
    + rewrite list_lookup_insert_ne by congruence.
      destruct (decide (Z.of_nat i ∈ l)) as [Hin|Hnin].
      * rewrite decide_True by (now right). reflexivity.
      * rewrite decide_False; [reflexivity|].
        intros [Heq|Hin]%elem_of_cons; [|contradiction].
        apply Hne. rewrite <- Heq, Nat2Z.id. reflexivity.
Qed.

(** The loop over all the literal codes. *)
Lemma foldM_all_lits (strict : Mode) (G : LitState -> Prop)
    (g : LitState -> LitState) (f : Solver -> Z -> Result Solver)
    (s st : Solver) :
  Shape strict s ->
  (forall ls, G ls -> G (g ls)) ->
  (forall st x ls, only_lits s st -> 0 <= x -> G ls ->
     lits st !! Z.to_nat x = Some ls ->
     exists st', f st x = Ret st' /\ only_lits s st' /\
                 lits st' = <[Z.to_nat x := g ls]> (lits st)) ->
  only_lits s st -> length (lits st) = length (lits s) ->
  Forall G (lits st) ->
  foldM f (all_lits st) st = Ret (set_lits (g <$> lits st) s).
Proof.
  intros Hs HG Hstep Hol Hlen HGs.
  assert (Hall : all_lits st = seqZ 0 (2 * n_vars s)).
  { unfold all_lits. destruct (only_lits_fields _ _ Hol) as (-> & _).
    rewrite (shape_shift _ _ Hs). reflexivity. }
  pose proof (shape_vars _ _ Hs) as Hnv.
  pose proof (shape_lits _ _ Hs) as Hll.
  destruct (foldM_lits_pointwise G g f s HG Hstep (all_lits st) st)
    as (st' & Hfold & Hol' & Hlen' & Hlk); auto.
  { rewrite Hall. apply NoDup_seqZ. }
  { rewrite Hall. intros x Hx%elem_of_seqZ. rewrite Hlen, Hll. lia. }
  rewrite Hfold. f_equal. rewrite Hol'. f_equal.
  apply list_eq. intros i. rewrite Hlk, list_lookup_fmap.
  destruct (decide (Z.of_nat i ∈ all_lits st)) as [Hin|Hnin]; [reflexivity|].
  rewrite (lookup_ge_None_2 (lits st) i); [reflexivity|].
  rewrite Hlen, Hll. rewrite Hall, elem_of_seqZ in Hnin. lia.
Qed.

Lemma add_weights_sum (s : Solver) (l : list nat) (acc : Z) :
  0 <= acc < UINT_MODULUS ->
  add_weights s acc l =
  u32 (acc + foldr Z.add 0
               ((fun ci => from_option clause_weight 0 (clauses s !! ci))
                  <$> l)).
Proof.
  revert acc. induction l as [|ci l IH]; intros acc Hacc.
  - simpl. rewrite Z.add_0_r. symmetry. apply u32_small, Hacc.
  - unfold add_weights in *. simpl.
    destruct (clauses s !! ci) as [c|]; simpl.
    + assert (Hw : clause_weight c =
                   if n_assigned_true c =? 0
                   then score_weight (n_free_lits c) else 0) by reflexivity.
      destruct (n_assigned_true c =? 0); rewrite Hw.
      * rewrite IH by apply u32_range. unfold u32.
        rewrite Zplus_mod_idemp_l. f_equal. rewrite <- Z.add_assoc. reflexivity.
      * rewrite IH by exact Hacc. f_equal.
    + rewrite IH by exact Hacc. f_equal.
Qed.

Lemma score_clauses_exact (s st : Solver) (lit : Z) (ls : LitState)
    (l : list nat) :
  only_lits s st -> lits st !! Z.to_nat lit = Some ls ->
  (forall ci, ci ∈ l -> (ci < length (clauses s))%nat) ->
  exists st', foldM (score_clause lit) l st = Ret st' /\ only_lits s st' /\
    lits st' =
    <[Z.to_nat lit := set_score (add_weights s (score ls) l) ls]> (lits st).
Proof.
  revert st ls. induction l as [|ci l IH]; intros st ls Hol Hls Hl.
  - exists st. simpl. split; [reflexivity|]. split; [exact Hol|].
    rewrite list_insert_id; [reflexivity|]. rewrite Hls. f_equal.
    destruct ls; reflexivity.
  - destruct (lookup_lt_is_Some_2 (clauses s) ci) as [c Hc];
      [apply Hl; now left|].
    destruct (only_lits_fields _ _ Hol) as (_ & _ & Hcl & _).
    simpl foldM. unfold score_clause at 1, clause_at. rewrite Hcl, Hc. simpl.
    unfold add_weights. simpl. rewrite Hc.
    destruct (n_assigned_true c =? 0); simpl.
    + rewrite (proj2 (lit_at_Ret _ _ _) Hls). simpl.
      set (ls1 := set_score (u32 (score ls + score_weight (n_free_lits c))) ls).
      destruct (IH (set_lit lit ls1 st) ls1) as (st' & Hfold & Hol' & Hl').
      * eapply only_lits_trans; [exact Hol | apply only_lits_set_lit].
      * simpl. apply list_lookup_insert_eq. eapply lookup_lt_Some; eauto.
      * intros; apply Hl; now right.
      * exists st'. split; [exact Hfold|]. split; [exact Hol'|].
        rewrite Hl'. simpl. rewrite list_insert_insert_eq. reflexivity.
    + apply IH; auto. intros; apply Hl; now right.
Qed.

Lemma update_scores_closed_form (strict : Mode) (s : Solver) :
  Shape strict s ->
  update_scores s =
  Ret (set_lits ((fun ls => set_score (occurrence_score s ls) ls) <$> lits s)
         s).
Proof.
  intros Hs. unfold update_scores.
  set (G := fun ls : LitState =>
              forall ci, ci ∈ cont_clauses ls -> (ci < length (clauses s))%nat).
  assert (HG0 : Forall G (lits s)).
  { apply list.Forall_forall. intros ls [i Hi]%list_elem_of_lookup ci Hci.
    destruct (shape_occ _ _ Hs (Z.of_nat i) (cont_clauses ls)) as [_ Hocc];
      [lia | unfold occ; rewrite list_lookup_fmap, Nat2Z.id, Hi; reflexivity|].
    apply Hocc in Hci as (cl & Hcl & _).
    apply lookup_lt_Some in Hcl. rewrite formula_length in Hcl. exact Hcl. }
  rewrite (foldM_all_lits strict G (set_score 0) clear_score s s Hs);
    [| intros ls Hls; exact Hls | | apply only_lits_refl | reflexivity
     | exact HG0].
  2:{ intros st x ls Hol Hx _ Hls. unfold clear_score.
      rewrite (proj2 (lit_at_Ret _ _ _) Hls). simpl.
      eexists. split; [reflexivity|]. split; [|reflexivity].
      eapply only_lits_trans; [exact Hol | apply only_lits_set_lit]. }
  simpl.
  set (s1 := set_lits (set_score 0 <$> lits s) s).
  set (g := fun ls : LitState =>
              if fixed ls then ls
              else set_score (add_weights s (score ls) (cont_clauses ls)) ls).
  rewrite (foldM_all_lits strict G g score_lit s s1 Hs).
  - f_equal. unfold s1. simpl. f_equal. rewrite <- list_fmap_compose.
    apply list_fmap_ext. intros i ls _. unfold g, occurrence_score. simpl.
    destruct (fixed ls) eqn:F; [reflexivity|].
    rewrite add_weights_sum by (unfold UINT_MODULUS; lia).
    destruct ls; reflexivity.
  - intros ls Hls. unfold g. destruct (fixed ls); exact Hls.
  - intros st x ls Hol Hx HGls Hls. unfold score_lit.
    rewrite (proj2 (lit_at_Ret _ _ _) Hls). simpl. unfold g.
    destruct (fixed ls).
    + exists st. split; [reflexivity|]. split; [exact Hol|].
      rewrite list_insert_id by exact Hls. reflexivity.
    + apply score_clauses_exact; auto.
  - reflexivity.
  - unfold s1. simpl. apply length_fmap.
  - unfold s1. simpl. apply Forall_fmap.
    apply list.Forall_forall. intros ls Hls.
    exact (proj1 (list.Forall_forall G (lits s)) HG0 ls Hls).
Qed.


(** X10. [update_scores] computes, for every literal, the score
    [occurrence_score]: zero for a fixed literal, and else the sum, in
    [unsigned int], over the clauses on the occurrence list of the literal
    that have no true literal, of the weight 4 for a clause with two free
    literals, 2 with three and 1 otherwise.  The call returns and changes
    nothing but the scores. *)
Theorem update_scores_exact (strict : Mode) (s : Solver) :
  Shape strict s ->
  exists s1,
    update_scores s = Ret s1 /\ score_eq s s1 /\
    s1 = set_lits
           ((fun ls => set_score (occurrence_score s ls) ls) <$> lits s) s /\
    forall lit ls, lits s !! Z.to_nat lit = Some ls ->
      lit_score s1 lit = occurrence_score s ls.
Proof.
  intros Hs. eexists. split; [apply (update_scores_closed_form strict s Hs)|].
  split; [|split; [reflexivity|]].
  - pose proof (update_scores_safe strict s Hs) as Hsafe.
    rewrite (update_scores_closed_form strict s Hs) in Hsafe.
    apply Hsafe.
  - intros lit ls Hls. unfold lit_score. simpl.
    rewrite list_lookup_fmap, Hls. reflexivity.
Qed.

Lemma update_scores_exact_witness :
  exists s,
    load_cnf 3 cnf_toy = Ret s /\
    exists s1,
      update_scores s = Ret s1 /\ score_eq s s1 /\
      s1 = set_lits
             ((fun ls => set_score (occurrence_score s ls) ls) <$> lits s) s /\
      forall lit ls, lits s !! Z.to_nat lit = Some ls ->
        lit_score s1 lit = occurrence_score s ls.
Proof.
  destruct (load_cnf 3 cnf_toy) as [s|f] eqn:Hload;
    [|vm_compute in Hload; discriminate].
  exists s. split; [reflexivity|].
  apply (update_scores_exact lax s), inv_shape.
  eapply (load_cnf_Inv lax 3 cnf_toy);
    [unfold INT_MAX; lia | simpl; unfold INT_MAX; lia
    | intros [] | intros [] | exact Hload].
Defined.

(** ** The literal chosen by [choose_branch] *)

(** The loop of [choose_branch] over an increasing list of literal codes,
    started with [best0]: the best score only grows, it bounds the score
    of every pair that is not fixed, and the literal returned is either
    the initial one or the higher-scoring literal of the first pair that
    reaches the best score. *)
Lemma choose_loop_spec (strict : Mode) (s : Solver) :
  Shape strict s ->
  forall (m : nat) (a : Z) (best0 : Z * Z),
    let l := (fun k => 2 * k) <$> seqZ a (Z.of_nat m) in
    0 <= a -> a + Z.of_nat m <= n_vars s ->
    exists best, foldM (choose_step s) l best0 = Ret best /\
      snd best0 <= snd best /\
      (forall e, e ∈ l -> val s e = None -> pair_score s e <= snd best) /\
      (best = best0 \/
       exists e, e ∈ l /\ val s e = None /\
         pair_score s e = snd best /\ snd best0 < snd best /\
         fst best = (if lit_score s (negate e) <=? lit_score s e
                     then e else negate e) /\
         forall e', e' ∈ l -> e' < e -> val s e' = None ->
                    pair_score s e' < snd best).
Proof.
  intros Hs. induction m as [|m IH]; intros a best0 l Ha Hm; subst l.
  - exists best0. simpl. split; [reflexivity|]. split; [lia|].
    split; [intros e He; inversion He | left; reflexivity].
  - rewrite seqZ_cons by lia.
    replace (Z.pred (Z.of_nat (S m))) with (Z.of_nat m) by lia.
    rewrite fmap_cons.
    set (h := 2 * a). set (tl := (fun k => 2 * k) <$> seqZ (Z.succ a) (Z.of_nat m)).
    assert (Hh : 0 <= h < 2 * n_vars s) by (unfold h; lia).
    assert (Hgt : forall e', e' ∈ tl -> h < e').
    { intros e' (k & -> & Hk%elem_of_seqZ)%list_elem_of_fmap. unfold h. lia. }
    assert (Hsorted : 0 <= Z.succ a) by lia.
    assert (Hrange : Z.succ a + Z.of_nat m <= n_vars s) by lia.
    specialize (IH (Z.succ a)). fold tl in IH.
    destruct (lookup_lt_is_Some_2 (lits s) (Z.to_nat h)) as [ls Hls];
      [eapply shape_lit_bound; eauto|].
    destruct (lookup_lt_is_Some_2 (lits s) (Z.to_nat (negate h))) as [nls Hnls];
      [eapply shape_lit_bound; eauto; apply negate_range, Hh|].
    pose proof (val_lookup s h ls (proj1 Hh) Hls) as Hvh.
    assert (Hps : pair_score s h = u32 (u32 (score ls + 1) * u32 (score nls + 1))).
    { unfold pair_score, lit_score. rewrite Hls, Hnls. reflexivity. }
    simpl foldM. unfold choose_step at 1.
    rewrite (proj2 (lit_at_Ret _ _ _) Hls). simpl.
    destruct (fixed ls) eqn:F.
    + destruct (IH best0 Hsorted Hrange) as (best & Hfold & Hle & Hmax & Hch).
      exists best. simpl. split; [exact Hfold|]. split; [exact Hle|]. split.
      * intros e [->|He]%elem_of_cons Hv; [congruence | auto].
      * destruct Hch as [->|(e & He & Hv & Hsc & Hlt & Hpol & Hfirst)];
          [left; reflexivity|].
        right. exists e. split; [now right|]. repeat (split; [assumption|]).
        intros e' [->|He']%elem_of_cons Hlt' Hv'; [congruence|auto].
    + rewrite (proj2 (lit_at_Ret _ _ _) Hnls). simpl. rewrite <- Hps.
      assert (Hpol : (if score nls <=? score ls then h else negate h) =
                     (if lit_score s (negate h) <=? lit_score s h
                      then h else negate h)).
      { unfold lit_score. rewrite Hls, Hnls. reflexivity. }
      destruct (Z.ltb_spec (snd best0) (pair_score s h)) as [Hup|Hno].
      * destruct (IH (if score nls <=? score ls then h else negate h,
                      pair_score s h) Hsorted Hrange)
          as (best & Hfold & Hle & Hmax & Hch).
        simpl in Hle.
        exists best. split; [exact Hfold|]. split; [lia|]. split.
        { intros e [->|He]%elem_of_cons Hv; [lia | auto]. }
        right. destruct Hch as [->|(e & He & Hv & Hsc & Hlt & Hpo & Hfirst)].
        { exists h. simpl. split; [now left|]. split; [rewrite Hvh; reflexivity|].
          split; [reflexivity|]. split; [exact Hup|]. split; [exact Hpol|].
          intros e' [->|He']%elem_of_cons Hlt' _; [lia|].
          specialize (Hgt e' He'). lia. }
        { simpl in Hlt. exists e. split; [now right|]. split; [exact Hv|].
          split; [exact Hsc|]. split; [lia|]. split; [exact Hpo|].
          intros e' [->|He']%elem_of_cons Hlt' Hv'; [lia | auto]. }
      * destruct (IH best0 Hsorted Hrange) as (best & Hfold & Hle & Hmax & Hch).
        exists best. split; [exact Hfold|]. split; [exact Hle|]. split.
        { intros e [->|He]%elem_of_cons Hv; [lia | auto]. }
        destruct Hch as [->|(e & He & Hv & Hsc & Hlt & Hpo & Hfirst)];
          [left; reflexivity|].
        right. exists e. split; [now right|]. repeat (split; [assumption|]).
        intros e' [->|He']%elem_of_cons Hlt' Hv'; [lia | auto].
Qed.

Lemma even_lits_seq (strict : Mode) (s : Solver) :
  Shape strict s ->
  even_lits s = (fun k => 2 * k) <$> seqZ 0 (Z.of_nat (Z.to_nat (n_vars s))).
Proof.
  intros Hs. pose proof (shape_vars _ _ Hs). unfold even_lits.
  rewrite (shape_shift _ _ Hs).
  replace (2 * n_vars s / 2) with (n_vars s)
    by (rewrite Z.mul_comm, Z.div_mul; lia).
  rewrite Z2Nat.id by lia. reflexivity.
Qed.

(** X11. The branching rule.  In a state satisfying the solver invariants
    of a clean formula, with some clause unsatisfied and none counted as
    contradicted, [choose_branch] returns, after the scores have been
    brought up to date, a literal of the unassigned variable whose pair
    score [(a + 1) * (b + 1)] is the greatest among the unassigned
    variables (no product wraps around), of the first such variable when
    several reach it; of the two literals of that variable it returns the
    one with the higher score, and the positive one when they are equal. *)
Theorem choose_branch_best_pair (s : Solver) :
  Inv total s -> n_unsat_clauses s = 0 -> n_sat_clauses s <> n_clauses s ->
  exists lit s1 k,
    choose_branch s = Ret (lit, s1) /\ update_scores s = Ret s1 /\
    0 <= k < n_vars s /\ val s (2 * k) = None /\
    lit = (if lit_score s1 (2 * k + 1) <=? lit_score s1 (2 * k)
           then 2 * k else 2 * k + 1) /\
    (forall k', 0 <= k' < n_vars s ->
       pair_score s1 (2 * k') =
       (lit_score s1 (2 * k') + 1) * (lit_score s1 (2 * k' + 1) + 1)) /\
    (forall k', 0 <= k' < n_vars s -> val s (2 * k') = None ->
       pair_score s1 (2 * k') <= pair_score s1 (2 * k) /\
       (k' < k -> pair_score s1 (2 * k') < pair_score s1 (2 * k))).
Proof.
  intros Hinv Hunsat Hsat.
  pose proof (inv_shape _ _ Hinv) as Hs.
  pose proof (shape_vars _ _ Hs) as Hnv.
  destruct (shape_clean _ _ Hs I) as [Hnc Hne].
  destruct (open_free_literal total s Hinv (shape_clean _ _ Hs I) Hunsat Hsat)
    as (x & Hx & Hvx).
  pose proof (trail_room _ _ _ Hs (inv_trail _ _ Hinv) Hx Hvx) as Hroom.
  pose proof (update_scores_safe total s Hs) as Hsafe.
  pose proof (update_scores_closed_form total s Hs) as Hupd.
  set (s1 := set_lits _ s) in Hupd. rewrite Hupd in Hsafe.
  destruct Hsafe as [Hse Hsc]. simpl in Hse, Hsc.
  pose proof (Inv_score_eq total s s1 Hse Hinv) as Hinv1.
  pose proof (inv_shape _ _ Hinv1) as Hs1.
  assert (Hnv1 : n_vars s1 = n_vars s) by reflexivity.
  assert (Hval : forall z, val s1 z = val s z)
    by (intros z; apply val_flags, Hse).
  (* the scores are small, no product wraps *)
  assert (Hls : forall z, 0 <= z < 2 * n_vars s ->
            0 <= lit_score s1 z <= 4 * SCORED_CLAUSES).
  { intros z Hz. unfold lit_score.
    destruct (lookup_lt_is_Some_2 (lits s1) (Z.to_nat z)) as [ls Hl];
      [eapply shape_lit_bound; eauto|].
    rewrite Hl. simpl. specialize (Hsc _ _ Hl). lia. }
  assert (Hprod : forall k', 0 <= k' < n_vars s ->
            pair_score s1 (2 * k') =
            (lit_score s1 (2 * k') + 1) * (lit_score s1 (2 * k' + 1) + 1)).
  { intros k' Hk'. unfold pair_score. rewrite negate_even.
    pose proof (Hls (2 * k') ltac:(lia)) as H1.
    pose proof (Hls (2 * k' + 1) ltac:(lia)) as H2.
    unfold SCORED_CLAUSES in H1, H2.
    rewrite (u32_small (_ + 1)), (u32_small (_ + 1))
      by (unfold UINT_MODULUS; lia).
    apply u32_small. unfold UINT_MODULUS. nia. }
  destruct (choose_loop_spec total s1 Hs1 (Z.to_nat (n_vars s1)) 0 (0, 0))
    as (best & Hfold & _ & Hmax & Hch); [lia | rewrite Hnv1; lia|].
  rewrite <- (even_lits_seq total s1 Hs1) in Hfold, Hmax, Hch.
  assert (Hev : forall k', 0 <= k' < n_vars s -> 2 * k' ∈ even_lits s1).
  { intros k' Hk'. rewrite (even_lits_seq total s1 Hs1).
    apply list_elem_of_fmap. exists k'. split; [reflexivity|].
    apply elem_of_seqZ. rewrite Hnv1. lia. }
  destruct Hch as [->|(e & He & Hve & Hsce & _ & Hpol & Hfirst)].
  { exfalso.
    destruct (even_sibling total s1 x Hs1 (inv_trail _ _ Hinv1))
      as (e & He & Hve); [rewrite Hnv1; exact Hx | rewrite Hval; exact Hvx|].
    specialize (Hmax e He Hve). simpl in Hmax.
    rewrite (even_lits_seq total s1 Hs1) in He.
    apply list_elem_of_fmap in He as (k' & -> & Hk'%elem_of_seqZ).
    rewrite Hprod in Hmax by lia.
    pose proof (Hls (2 * k') ltac:(lia)).
    pose proof (Hls (2 * k' + 1) ltac:(lia)). nia. }
  rewrite (even_lits_seq total s1 Hs1) in He.
  apply list_elem_of_fmap in He as (k & -> & Hk%elem_of_seqZ).
  rewrite Hnv1 in Hk. rewrite negate_even in Hpol.
  exists (fst best), s1, k.
  split.
  { unfold choose_branch.
    replace (n_assigned s =? n_vars s) with false
      by (symmetry; apply Z.eqb_neq; lia).
    replace (n_sat_clauses s =? n_clauses s) with false
      by (symmetry; apply Z.eqb_neq; exact Hsat).
    simpl. rewrite Hupd. simpl. rewrite Hfold. reflexivity. }
  split; [exact Hupd|]. split; [lia|].
  split; [rewrite <- Hval; exact Hve|]. split; [exact Hpol|].
  split; [exact Hprod|].
  intros k' Hk' Hvk'. rewrite Hsce. split.
  - apply Hmax; [apply Hev, Hk' | rewrite Hval; exact Hvk'].
  - intros Hlt. apply Hfirst; [apply Hev, Hk' | lia | rewrite Hval; exact Hvk'].
Qed.

Lemma choose_branch_best_pair_witness :
  exists s lit s1 k,
    load_cnf 3 cnf_toy = Ret s /\
    choose_branch s = Ret (lit, s1) /\ update_scores s = Ret s1 /\
    0 <= k < n_vars s /\ val s (2 * k) = None /\
    lit = (if lit_score s1 (2 * k + 1) <=? lit_score s1 (2 * k)
           then 2 * k else 2 * k + 1) /\
    (forall k', 0 <= k' < n_vars s ->
       pair_score s1 (2 * k') =
       (lit_score s1 (2 * k') + 1) * (lit_score s1 (2 * k' + 1) + 1)) /\
    (forall k', 0 <= k' < n_vars s -> val s (2 * k') = None ->
       pair_score s1 (2 * k') <= pair_score s1 (2 * k) /\
       (k' < k -> pair_score s1 (2 * k') < pair_score s1 (2 * k))).
Proof.
  destruct (load_cnf 3 cnf_toy) as [s|f] eqn:Hload;
    [|vm_compute in Hload; discriminate].
  assert (Hinv : Inv total s).
  { eapply (load_cnf_Inv total 3 cnf_toy);
      [unfold INT_MAX; lia | simpl; unfold INT_MAX; lia
      | intros _; simpl; unfold UINT_MODULUS; lia | | exact Hload].
    intros _. split; [simpl; unfold SCORED_CLAUSES; lia|].
    intros cl Hcl. unfold cnf_toy in Hcl.
    repeat (apply elem_of_cons in Hcl as [-> | Hcl]);
      try (apply elem_of_nil in Hcl; contradiction); discriminate. }
  vm_compute in Hload. injection Hload as Hs.
  destruct (choose_branch_best_pair s Hinv)
    as (lit & s1 & k & H);
    [rewrite <- Hs; reflexivity | rewrite <- Hs; discriminate|].
  exists s, lit, s1, k. split; [reflexivity | exact H].
Defined.

(** ** The DIMACS reader *)

Lemma skip_space_length (l : list ascii) :
  (length (skip_space l) <= length l)%nat.
Proof.
  induction l as [|c l IH]; simpl; [lia|].
  destruct (is_space c); simpl; lia.
Qed.

Lemma scan_digits_length (l : list ascii) (acc : Z) :
  (length (snd (scan_digits acc l)) <= length l)%nat.
Proof.
  revert acc. induction l as [|c l IH]; intros acc; simpl; [lia|].
  destruct (is_digit c); simpl; [|lia].
  specialize (IH (10 * acc + digit_value c)). lia.
Qed.

(** A conversion [%d] that succeeds consumes at least one character. *)
Lemma scan_int_shorter (l rest : list ascii) (v : Z) :
  scan_int l = Some (v, rest) -> (length rest < length l)%nat.
Proof.
  unfold scan_int. pose proof (skip_space_length l) as Hsp.
  set (l0 := skip_space l) in *. clearbody l0.
  assert (Hd : forall l1 : list ascii, (length l1 <= length l)%nat ->
            match l1 with
            | c :: _ =>
                if is_digit c
                then let '(v0, rest0) := scan_digits 0 l1 in
                     (length rest0 < length l)%nat
                else True
            | [] => True
            end).
  { intros [|c l1] Hl1; [exact I|]. destruct (is_digit c) eqn:D; [|exact I].
    simpl. rewrite D.
    pose proof (scan_digits_length l1 (10 * 0 + digit_value c)) as Hlen.
    destruct (scan_digits _ l1) as [v0 rest0]. simpl in *. lia. }
  assert (Hgen : forall (neg : bool) (l1 : list ascii),
            (length l1 <= length l)%nat ->
            match l1 with
            | c :: _ =>
                if is_digit c
                then let '(v0, rest0) := scan_digits 0 l1 in
                     Some (s32 (if neg then - v0 else v0), rest0)
                else None
            | [] => None
            end = Some (v, rest) -> (length rest < length l)%nat).
  { intros neg l1 Hl1 H. specialize (Hd l1 Hl1).
    destruct l1 as [|c l1]; [discriminate|].
    destruct (is_digit c); [|discriminate].
    destruct (scan_digits 0 (c :: l1)) as [v0 rest0].
    injection H as _ <-. exact Hd. }
  destruct l0 as [|c r]; [discriminate|].
  destruct (Ascii.eqb_spec c "-"%char) as [->|Hm].
  { apply (Hgen true r). simpl in Hsp. lia. }
  destruct (Ascii.eqb_spec c "+"%char) as [->|Hp].
  { apply (Hgen false r). simpl in Hsp. lia. }
  intros H. apply (Hgen false (c :: r) Hsp).
  destruct c as [[] [] [] [] [] [] [] []]; try exact H; congruence.
Qed.

Lemma s32_range (z : Z) : - INT_MAX - 1 <= s32 z <= INT_MAX.
Proof.
  unfold s32, INT_MAX, UINT_MODULUS.
  pose proof (Z.mod_pos_bound (z + 2147483648) 4294967296 ltac:(lia)). lia.
Qed.

(** What [%d] stores is an [int]. *)
Lemma scan_int_range (l rest : list ascii) (v : Z) :
  scan_int l = Some (v, rest) -> - INT_MAX - 1 <= v <= INT_MAX.
Proof.
  unfold scan_int.
  destruct (match skip_space l with
            | "-"%char :: r => (true, r)
            | "+"%char :: r => (false, r)
            | _ => (false, skip_space l)
            end) as [neg l1].
  destruct l1 as [|c l1]; [discriminate|].
  destruct (is_digit c); [|discriminate].
  destruct (scan_digits 0 (c :: l1)) as [v0 rest0].
  intros [= <- _]. apply s32_range.
Qed.

(** The inner loop of [read_problem] loads the integers of [scan_clause]
    one after the other. *)
Lemma read_clause_scan (fuel : nat) (s : Solver) (ci : nat)
    (stream : list ascii) :
  (length stream < fuel)%nat ->
  read_clause fuel s ci stream =
  let* s' := foldM (load_literal ci) (fst (scan_clause fuel stream)) s in
  Ret (pair s' <$> snd (scan_clause fuel stream)).
Proof.
  revert s stream. induction fuel as [|fuel IH]; intros s stream Hlen; [lia|].
  simpl. destruct (scan_int stream) as [[repr rest]|] eqn:Hscan;
    [|reflexivity].
  destruct (Z.eqb_spec repr 0) as [->|Hne]; [reflexivity|].
  pose proof (scan_int_shorter _ _ _ Hscan) as Hshort.
  destruct (scan_clause fuel rest) as [cl r] eqn:Hsc. simpl.
  unfold load_literal at 1.
  destruct (lit_from_int repr) as [lit|f]; simpl; [|reflexivity].
  destruct (add_literal_to_clause s ci lit) as [s'|f]; simpl; [|reflexivity].
  rewrite IH by lia. rewrite Hsc. reflexivity.
Qed.

Lemma read_clauses_scan (n k : nat) (s : Solver) (stream : list ascii) :
  read_clauses (seq k n) s stream =
  let* s' := foldM load_clause
               (imap (fun i cl => ((k + i)%nat, cl))
                  (fst (scan_clauses n stream))) s in
  Ret (pair s' <$> snd (scan_clauses n stream)).
Proof.
  revert k s stream. induction n as [|n IH]; intros k s stream;
    [reflexivity|].
  change (seq k (S n)) with (k :: seq (S k) n).
  cbn [read_clauses scan_clauses].
  rewrite read_clause_scan by lia.
  destruct (scan_clause (S (length stream)) stream) as [cl [rest|]] eqn:Hsc.
  - destruct (scan_clauses n rest) as [cls r] eqn:Hscs. simpl.
    unfold load_clause at 1. simpl. rewrite Nat.add_0_r.
    destruct (foldM (load_literal k) cl s) as [s'|f]; simpl; [|reflexivity].
    rewrite IH, Hscs. simpl.
    replace (imap ((fun i cl0 => ((k + i)%nat, cl0)) ∘ S) cls)
      with (imap (fun i cl0 => ((S k + i)%nat, cl0)) cls); [reflexivity|].
    apply imap_ext. intros i x _. simpl. f_equal. lia.
  - simpl. unfold load_clause at 1. simpl. rewrite Nat.add_0_r.
    destruct (foldM (load_literal k) cl s) as [s'|f]; reflexivity.
Qed.

(** The integers of a clause are not zero, and they are [int]s. *)
Lemma scan_clause_ints (fuel : nat) (stream : list ascii) (repr : Z) :
  repr ∈ fst (scan_clause fuel stream) ->
  repr <> 0 /\ - INT_MAX - 1 <= repr <= INT_MAX.
Proof.
  revert stream. induction fuel as [|fuel IH]; intros stream; simpl.
  - intros H. inversion H.
  - destruct (scan_int stream) as [[v rest]|] eqn:Hscan;
      [|intros H; inversion H].
    destruct (Z.eqb_spec v 0) as [->|Hne]; [intros H; inversion H|].
    specialize (IH rest). destruct (scan_clause fuel rest) as [cl r].
    simpl in *. intros [->|Hin]%elem_of_cons; [|auto].
    split; [exact Hne | eapply scan_int_range; eauto].
Qed.

Lemma scan_clauses_ints (n : nat) (stream : list ascii) (cl : list Z)
    (repr : Z) :
  cl ∈ fst (scan_clauses n stream) -> repr ∈ cl ->
  repr <> 0 /\ - INT_MAX - 1 <= repr <= INT_MAX.
Proof.
  revert stream. induction n as [|n IH]; intros stream; cbn [scan_clauses].
  - intros H. inversion H.
  - pose proof (scan_clause_ints (S (length stream)) stream repr) as Hc.
    destruct (scan_clause (S (length stream)) stream) as [c [rest|]].
    + specialize (IH rest). destruct (scan_clauses n rest) as [cls r].
      simpl in *. intros [->|Hin]%elem_of_cons; auto.
    + simpl in *. intros [->|Hin]%elem_of_cons; [auto | inversion Hin].
Qed.

Lemma scan_clauses_length (n : nat) (stream rest : list ascii)
    (cls : list (list Z)) :
  scan_clauses n stream = (cls, Some rest) -> length cls = n.
Proof.
  revert stream cls. induction n as [|n IH]; intros stream cls;
    cbn [scan_clauses].
  - intros [= <- _]. reflexivity.
  - destruct (scan_clause (S (length stream)) stream) as [c [r|]];
      [|discriminate].
    specialize (IH r). destruct (scan_clauses n r) as [cls' r'].
    intros [= <- ->]. simpl. f_equal. eapply IH. reflexivity.
Qed.

(** What [read_problem] does once the problem line is accepted. *)
Lemma read_problem_header (stream body : list ascii) (nv nc : Z) :
  scan_header stream = Some (nv, nc, body) ->
  0 < nv <= INT_MAX /\ 0 < nc <= INT_MAX /\
  read_problem stream =
  let* s := create_solver nv nc in
  let* s' := foldM load_clause
               (imap pair (fst (scan_clauses (Z.to_nat nc) body))) s in
  Ret (match snd (scan_clauses (Z.to_nat nc) body) with
       | Some _ => (ERROR_OK, Some s')
       | None => (ERROR_INVALID_FORMAT, None)
       end).
Proof.
  unfold scan_header, read_problem.
  destruct (skip_comments (length stream) stream) as [[buffer rest]|];
    [|discriminate].
  destruct buffer as [|c line]; [discriminate|].
  destruct (Ascii.eqb_spec c "p"%char) as [->|Hc].
  2:{ destruct c as [[] [] [] [] [] [] [] []]; try discriminate; congruence. }
  destruct (scan_problem_line ("p"%char :: line)) as [[[nv0 nc0] tail]|] eqn:Hline;
    [|discriminate].
  destruct (forallb is_space (c_string tail)); simpl; [|discriminate].
  destruct (Z.ltb_spec 0 nv0) as [Hnv|Hnv]; simpl; [|discriminate].
  destruct (Z.ltb_spec 0 nc0) as [Hnc|Hnc]; simpl; [|discriminate].
  intros [= <- <- <-].
  assert (Hr : nv0 <= INT_MAX /\ nc0 <= INT_MAX).
  { unfold scan_problem_line in Hline.
    destruct (c_string ("p"%char :: line)) as [|c0 r1]; [discriminate|].
    destruct (Ascii.eqb_spec c0 "p"%char) as [->|Hc0].
    2:{ destruct c0 as [[] [] [] [] [] [] [] []]; try discriminate; congruence. }
    destruct (skip_space r1) as [|a1 [|a2 [|a3 r2]]]; try discriminate;
      try (destruct a1 as [[] [] [] [] [] [] [] []]; discriminate).
    - destruct a1 as [[] [] [] [] [] [] [] []]; try discriminate;
      destruct a2 as [[] [] [] [] [] [] [] []]; discriminate.
    - destruct (scan_int (skip_space r2)) as [[v1 r3]|] eqn:H1.
      2:{ destruct a1 as [[] [] [] [] [] [] [] []]; try discriminate;
          destruct a2 as [[] [] [] [] [] [] [] []]; try discriminate;
          destruct a3 as [[] [] [] [] [] [] [] []]; discriminate. }
      destruct (scan_int (skip_space r3)) as [[v2 r4]|] eqn:H2.
      2:{ destruct a1 as [[] [] [] [] [] [] [] []]; try discriminate;
          destruct a2 as [[] [] [] [] [] [] [] []]; try discriminate;
          destruct a3 as [[] [] [] [] [] [] [] []]; discriminate. }
      apply scan_int_range in H1, H2.
      assert (Heq : nv0 = v1 /\ nc0 = v2).
      { destruct a1 as [[] [] [] [] [] [] [] []]; try discriminate;
        destruct a2 as [[] [] [] [] [] [] [] []]; try discriminate;
        destruct a3 as [[] [] [] [] [] [] [] []]; try discriminate.
        injection Hline as <- <- _. split; reflexivity. }
      destruct Heq as [-> ->]. lia. }
  split; [lia|]. split; [lia|].
  replace (nv0 <=? 0) with false by (symmetry; apply Z.leb_gt; lia).
  replace (nc0 <=? 0) with false by (symmetry; apply Z.leb_gt; lia).
  simpl. destruct (create_solver nv0 nc0) as [s|f]; simpl; [|reflexivity].
  rewrite (read_clauses_scan (Z.to_nat nc0) 0 s rest).
  simpl. destruct (foldM load_clause _ s) as [s'|f]; simpl; [|reflexivity].
  destruct (snd (scan_clauses (Z.to_nat nc0) rest)) as [r|]; reflexivity.
Qed.

Lemma only_oob_bind {A B : Type} (m : Result A) (k : A -> Result B) :
  only_out_of_bounds m -> (forall a, only_out_of_bounds (k a)) ->
  only_out_of_bounds (bind m k).
Proof.
  intros Hm Hk f. destruct m as [a|f']; simpl.
  - apply Hk.
  - intros [= <-]. apply Hm. reflexivity.
Qed.

Lemma only_oob_foldM {S A : Type} (P : A -> Prop) (f : S -> A -> Result S)
    (l : list A) (s : S) :
  (forall s x, P x -> only_out_of_bounds (f s x)) -> Forall P l ->
  only_out_of_bounds (foldM f l s).
Proof.
  intros Hf Hl. revert s. induction Hl as [|x l Hx _ IH]; intros s; simpl.
  - intros f' H. discriminate.
  - apply only_oob_bind; [apply Hf, Hx | exact IH].
Qed.

Lemma only_oob_add_literal_to_clause (s : Solver) (ci : nat) (lit : Z) :
  only_out_of_bounds (add_literal_to_clause s ci lit).
Proof.
  unfold add_literal_to_clause, clause_at, lit_at. intros f.
  destruct (clauses s !! ci) as [c|]; simpl; [|congruence].
  destruct (existsb _ _); [discriminate|].
  destruct (_ !! _); simpl; congruence.
Qed.

Lemma only_oob_load_literal (s : Solver) (ci : nat) (repr : Z) :
  repr <> 0 -> only_out_of_bounds (load_literal ci s repr).
Proof.
  intros Hne. unfold load_literal, lit_from_int.
  destruct (Z.eqb_spec repr 0) as [|_]; [contradiction|]. simpl.
  destruct (0 <? repr); simpl; apply only_oob_add_literal_to_clause.
Qed.

Lemma only_oob_load_clauses (s : Solver) (l : list (nat * list Z)) :
  (forall icl repr, icl ∈ l -> repr ∈ snd icl -> repr <> 0) ->
  only_out_of_bounds (foldM load_clause l s).
Proof.
  intros Hne.
  apply (only_oob_foldM (fun icl => forall repr, repr ∈ snd icl -> repr <> 0)).
  - intros s' [ci cl] Hcl. unfold load_clause. simpl in *.
    apply (only_oob_foldM (fun repr => repr <> 0)).
    + intros s'' repr Hr. apply only_oob_load_literal, Hr.
    + apply list.Forall_forall. exact Hcl.
  - apply list.Forall_forall. intros icl Hin repr. apply (Hne icl repr Hin).
Qed.

Lemma imap_pair_snd (cls : list (list Z)) (icl : nat * list Z) :
  icl ∈ imap pair cls -> snd icl ∈ cls.
Proof.
  intros [i Hi]%list_elem_of_lookup. rewrite list_lookup_imap in Hi.
  destruct (cls !! i) as [cl|] eqn:E; [|discriminate].
  injection Hi as <-. simpl. apply list_elem_of_lookup. eauto.
Qed.

Lemma parse_dimacs_inv (stream : list ascii) (nv : Z)
    (cls : list (list Z)) :
  parse_dimacs stream = Some (nv, cls) ->
  exists nc body rest,
    scan_header stream = Some (nv, nc, body) /\
    scan_clauses (Z.to_nat nc) body = (cls, Some rest).
Proof.
  unfold parse_dimacs.
  destruct (scan_header stream) as [[[nv0 nc] body]|]; [|discriminate].
  destruct (scan_clauses (Z.to_nat nc) body) as [cls0 [rest|]] eqn:Hsc;
    [|discriminate].
  intros [= <- <-]. eauto.
Qed.

Lemma load_cnf_only_oob (nv : Z) (cls : list (list Z)) :
  0 < nv -> (forall cl repr, cl ∈ cls -> repr ∈ cl -> repr <> 0) ->
  only_out_of_bounds (load_cnf nv cls).
Proof.
  intros Hnv Hne. unfold load_cnf. apply only_oob_bind.
  - unfold create_solver.
    replace (0 <? nv) with true by (symmetry; apply Z.ltb_lt; lia).
    intros f' H. discriminate.
  - intros s. apply only_oob_load_clauses. intros icl r Hicl Hr.
    apply imap_pair_snd in Hicl. apply (Hne (snd icl) r Hicl Hr).
Qed.

Lemma read_problem_of_parse (stream : list ascii) (nv : Z)
    (cls : list (list Z)) :
  parse_dimacs stream = Some (nv, cls) ->
  0 < nv <= INT_MAX /\ 0 < Z.of_nat (length cls) <= INT_MAX /\
  (forall cl repr, cl ∈ cls -> repr ∈ cl ->
     repr <> 0 /\ - INT_MAX - 1 <= repr <= INT_MAX) /\
  read_problem stream =
  let* s := load_cnf nv cls in Ret (ERROR_OK, Some s).
Proof.
  intros (nc & body & rest & Hh & Hsc)%parse_dimacs_inv.
  destruct (read_problem_header _ _ _ _ Hh) as (Hnv & Hnc & Hread).
  pose proof (scan_clauses_length _ _ _ _ Hsc) as Hlen.
  split; [exact Hnv|]. split; [lia|]. split.
  - intros cl repr Hcl. apply (scan_clauses_ints (Z.to_nat nc) body).
    rewrite Hsc. exact Hcl.
  - rewrite Hread, Hsc. unfold load_cnf. rewrite Hlen, Z2Nat.id by lia.
    simpl. destruct (create_solver nv nc) as [s|f]; simpl; [|reflexivity].
    destruct (foldM load_clause (imap pair cls) s); reflexivity.
Qed.

(** X12. The reader and the loader agree.  When the problem line of a
    stream is accepted and all the clauses it announces can be read,
    [read_problem] builds exactly the solver that loading those clauses
    builds ([load_cnf], the object of the correctness properties of the
    search), and returns [ERROR_OK]; it stops on the fault on which the
    loading stops.  The numbers read are C [int]s, the two numbers of the
    problem line are positive and no integer of a clause is zero. *)
Theorem read_problem_loads_formula (stream : list ascii) (nv : Z)
    (cls : list (list Z)) :
  parse_dimacs stream = Some (nv, cls) ->
  cnf_ints nv cls /\ cls <> [] /\
  (forall cl repr, cl ∈ cls -> repr ∈ cl -> repr <> 0) /\
  read_problem stream =
  let* s := load_cnf nv cls in Ret (ERROR_OK, Some s).
Proof.
  intros (nc & body & rest & Hh & Hsc)%parse_dimacs_inv.
  destruct (read_problem_header _ _ _ _ Hh) as (Hnv & Hnc & Hread).
  pose proof (scan_clauses_length _ _ _ _ Hsc) as Hlen.
  assert (Hints : forall cl repr, cl ∈ cls -> repr ∈ cl ->
            repr <> 0 /\ - INT_MAX - 1 <= repr <= INT_MAX).
  { intros cl repr Hcl. apply (scan_clauses_ints (Z.to_nat nc) body).
    rewrite Hsc. exact Hcl. }
  split; [|split; [|split]].
  - unfold cnf_ints. rewrite Hlen. split; [exact Hnv|]. split; [lia|].
    intros cl repr Hcl Hr. apply (Hints cl repr Hcl Hr).
  - intros ->. simpl in Hlen. lia.
  - intros cl repr Hcl Hr. apply (Hints cl repr Hcl Hr).
  - rewrite Hread, Hsc. unfold load_cnf. rewrite Hlen, Z2Nat.id by lia.
    simpl. destruct (create_solver nv nc) as [s|f]; simpl; [|reflexivity].
    destruct (foldM load_clause (imap pair cls) s); reflexivity.
Qed.

Lemma read_problem_loads_formula_witness :
  cnf_ints 3 cnf_toy /\ cnf_toy <> [] /\
  (forall cl repr, cl ∈ cnf_toy -> repr ∈ cl -> repr <> 0) /\
  read_problem
    (text_lines ["c a comment"%string; "p cnf 3 3"%string;
                 "1 2 3 0"%string; "-1 -2 0 -2"%string; "-3 0"%string]) =
  let* s := load_cnf 3 cnf_toy in Ret (ERROR_OK, Some s).
Proof.
  apply (read_problem_loads_formula _ 3 cnf_toy). reflexivity.
Defined.

(** X13. What [read_problem] can return.  On every input stream the
    reader either rejects the input with [ERROR_INVALID_FORMAT] (and no
    solver), or stops on an access outside an array, or returns
    [ERROR_OK] with a solver that satisfies the solver invariants, has
    positive numbers of variables and clauses, no literal assigned and an
    empty unit stack.  It fails no assertion, does not loop for ever, and
    returns no other error code. *)
Theorem read_problem_outcomes (stream : list ascii) :
  read_problem stream = Ret (ERROR_INVALID_FORMAT, None) \/
  read_problem stream = Err OutOfBounds \/
  exists s, read_problem stream = Ret (ERROR_OK, Some s) /\
    Inv lax s /\ 0 < n_vars s /\ 0 < n_clauses s /\
    n_units s = 0 /\ n_assigned s = 0 /\ forall lit, val s lit = None.
Proof.
  destruct (scan_header stream) as [[[nv nc] body]|] eqn:Hh.
  - destruct (read_problem_header _ _ _ _ Hh) as (Hnv & Hnc & Hread).
    rewrite Hread.
    destruct (scan_clauses (Z.to_nat nc) body) as [cls r] eqn:Hsc. simpl.
    assert (Hoob : only_out_of_bounds
              (let* s := create_solver nv nc in
               foldM load_clause (imap pair cls) s)).
    { apply only_oob_bind.
      - unfold create_solver.
        replace (0 <? nv) with true by (symmetry; apply Z.ltb_lt; lia).
        intros f H. discriminate.
      - intros s. apply only_oob_load_clauses. intros icl repr Hicl Hr.
        apply imap_pair_snd in Hicl.
        apply (scan_clauses_ints (Z.to_nat nc) body (snd icl) repr);
          [rewrite Hsc; exact Hicl | exact Hr]. }
    destruct (create_solver nv nc) as [s0|f] eqn:Hcreate; simpl in *.
    2:{ right. left. f_equal. apply Hoob. reflexivity. }
    destruct (foldM load_clause (imap pair cls) s0) as [s|f] eqn:Hload; simpl.
    2:{ right. left. f_equal. apply Hoob. reflexivity. }
    destruct r as [rest|]; [|left; reflexivity].
    right. right. exists s. split; [reflexivity|].
    pose proof (scan_clauses_length _ _ _ _ Hsc) as Hlen.
    destruct (load_cnf_Inv lax nv cls s) as (Hinv & Hnu & Hna & Hv & Hc & Hval & _).
    + exact Hnv.
    + rewrite Hlen. lia.
    + intros [].
    + intros [].
    + unfold load_cnf. rewrite Hlen, Z2Nat.id, Hcreate by lia. exact Hload.
    + rewrite Hv, Hc, Hlen.
      split; [exact Hinv|]. split; [lia|]. split; [lia|]. auto.
  - left. unfold scan_header in Hh. unfold read_problem.
    destruct (skip_comments (length stream) stream) as [[buffer rest]|];
      [|reflexivity].
    destruct buffer as [|c line]; [reflexivity|].
    destruct (Ascii.eqb_spec c "p"%char) as [->|Hc].
    2:{ destruct c as [[] [] [] [] [] [] [] []]; try reflexivity; congruence. }
    destruct (scan_problem_line ("p"%char :: line)) as [[[nv nc] tail]|];
      [|reflexivity].
    destruct (forallb is_space (c_string tail)); simpl in *; [|reflexivity].
    destruct (Z.ltb_spec 0 nv) as [Hnv|Hnv]; simpl in Hh.
    2:{ replace (nv <=? 0) with true by (symmetry; apply Z.leb_le; lia).
        reflexivity. }
    replace (nv <=? 0) with false by (symmetry; apply Z.leb_gt; lia).
    destruct (Z.ltb_spec 0 nc) as [Hnc|Hnc]; simpl in Hh; [discriminate|].
    replace (nc <=? 0) with true by (symmetry; apply Z.leb_le; lia).
    reflexivity.
Qed.

Lemma lit_from_int_code (repr lit : Z) :
  - INT_MAX - 1 <= repr <= INT_MAX -> lit_from_int repr = Ret lit ->
  2 * (Z.abs repr - 1) <= lit.
Proof.
  unfold INT_MAX, lit_from_int. intros Hr.
  destruct (Z.eqb_spec repr 0) as [|Hne]; [discriminate|]. simpl.
  destruct (Z.ltb_spec 0 repr) as [Hpos|Hneg]; intros [= <-].
  - rewrite shiftl_1, u32_small by (unfold UINT_MODULUS; lia). lia.
  - rewrite shiftl_1, lor_even_1, u32_small by (unfold UINT_MODULUS; lia). lia.
Qed.

(** X14. The reader does not check the variables of the clauses against
    the problem line.  When the problem line is accepted and the clauses
    can be read, but one of their integers names a variable greater than
    the number of variables announced, [read_problem] does not report an
    error: [add_literal_to_clause] indexes [solver->lits] with the code
    of that literal, outside the array. *)
Theorem read_problem_unchecked_variable (stream : list ascii) (nv : Z)
    (cls : list (list Z)) (cl : list Z) (repr : Z) :
  parse_dimacs stream = Some (nv, cls) ->
  cl ∈ cls -> repr ∈ cl -> nv < Z.abs repr ->
  read_problem stream = Err OutOfBounds.
Proof.
  intros Hparse Hcl Hrepr Hbig.
  destruct (read_problem_of_parse _ _ _ Hparse) as (Hnv & Hlen & Hints & ->).
  destruct (load_cnf nv cls) as [s|f] eqn:Hload; simpl.
  - exfalso.
    destruct (load_cnf_Inv lax nv cls s Hnv) as
      (Hinv & _ & _ & Hv & Hc & _ & Hinp & Hlit);
      [lia | intros [] | intros [] | exact Hload|].
    apply list_elem_of_lookup in Hcl as [ci Hci].
    pose proof (inv_shape _ _ Hinv) as Hs.
    destruct (lookup_lt_is_Some_2 (clauses s) ci) as [c Hcs].
    { rewrite (shape_cls _ _ Hs), Hc, Nat2Z.id. eapply lookup_lt_Some; eauto. }
    destruct (Hlit ci repr) as [lit Hl]; [rewrite Hci; exact Hrepr|].
    assert (Hin : lit ∈ clause_lits c).
    { apply (Hinp ci c Hcs). exists repr. rewrite Hci. auto. }
    apply (shape_clause _ _ _ _ Hs Hcs) in Hin.
    assert (Hr : - INT_MAX - 1 <= repr <= INT_MAX).
    { apply (Hints cl repr); [apply list_elem_of_lookup; eauto | exact Hrepr]. }
    pose proof (lit_from_int_code repr lit Hr Hl). lia.
  - f_equal. apply (load_cnf_only_oob nv cls); [lia | | exact Hload].
    intros cl0 r Hcl0 Hr0. apply (Hints cl0 r Hcl0 Hr0).
Qed.

Lemma read_problem_unchecked_variable_witness :
  read_problem (text_lines ["p cnf 1 1"%string; "1 -2 0"%string]) =
  Err OutOfBounds.
Proof.
  apply (read_problem_unchecked_variable _ 1 [[1; -2]] [1; -2] (-2)).
  - reflexivity.
  - now left.
  - right. now left.
  - simpl. lia.
Defined.

(** ** Comment lines *)

Lemma fgets_chars_length (k : nat) (stream : list ascii) :
  (length (snd (fgets_chars k stream)) <= length stream)%nat.
Proof.
  revert stream. induction k as [|k IH]; intros [|c r]; simpl; try lia.
  destruct (Ascii.eqb c "010"%char); simpl; [lia|].
  specialize (IH r). destruct (fgets_chars k r). simpl in *. lia.
Qed.

Lemma fgets_chars_head (k : nat) (c : ascii) (r : list ascii) :
  exists b rest, fgets_chars (S k) (c :: r) = (c :: b, rest) /\
                 (length rest <= length r)%nat.
Proof.
  pose proof (fgets_chars_length k r) as Hlen. simpl.
  destruct (Ascii.eqb c "010"%char); [exists [], r; split; [reflexivity|lia]|].
  destruct (fgets_chars k r) as [b rest]. exists b, rest. auto.
Qed.

(** One round of the loop that skips the comments. *)
Lemma skip_comments_cons (fuel : nat) (c : ascii) (r : list ascii) :
  skip_comments fuel (c :: r) =
  let '(b, rest) := fgets_chars 254 (c :: r) in
  match b with
  | "c"%char :: _ =>
      match fuel with
      | O => None
      | S fuel' => skip_comments fuel' rest
      end
  | _ => Some (b, rest)
  end.
Proof. destruct fuel; reflexivity. Qed.

Lemma comment_or_not (x : ascii) (b : list ascii) (A : Type) (u v : A) :
  match x :: b with
  | "c"%char :: _ => u
  | _ => v
  end = if Ascii.eqb x "c"%char then u else v.
Proof.
  destruct (Ascii.eqb_spec x "c"%char) as [->|Hx]; [reflexivity|].
  destruct x as [[] [] [] [] [] [] [] []]; try reflexivity; congruence.
Qed.

(** The number of comment lines is at most the length of the stream: the
    result of the loop does not depend on the fuel beyond that. *)
Lemma skip_comments_fuel (f1 f2 : nat) (stream : list ascii) :
  (length stream <= f1)%nat -> (length stream <= f2)%nat ->
  skip_comments f1 stream = skip_comments f2 stream.
Proof.
  revert f2 stream. induction f1 as [|f1 IH]; intros f2 stream H1 H2.
  - destruct stream; [|simpl in H1; lia]. destruct f2; reflexivity.
  - destruct stream as [|c r]; [destruct f2; reflexivity|].
    destruct f2 as [|f2]; [simpl in H2; lia|].
    rewrite !skip_comments_cons.
    destruct (fgets_chars_head 253 c r) as (b & rest & -> & Hlen).
    rewrite !(comment_or_not c b).
    destruct (Ascii.eqb c "c"%char); [|reflexivity].
    apply IH; simpl in *; lia.
Qed.

(** [fgets] on a line without newline in its first [k] characters. *)
Lemma fgets_chars_line (k : nat) (body rest : list ascii) :
  LF ∉ body -> (length body < k)%nat ->
  fgets_chars k (body ++ LF :: rest) = (body ++ [LF], rest).
Proof.
  revert k. induction body as [|c body IH]; intros k Hnl Hlen.
  - destruct k; [simpl in Hlen; lia|]. reflexivity.
  - destruct k; [simpl in Hlen; lia|]. simpl.
    destruct (Ascii.eqb_spec c "010"%char) as [->|_].
    { exfalso. apply Hnl. now left. }
    rewrite IH; [reflexivity | intros H; apply Hnl; now right | simpl in Hlen; lia].
Qed.

Lemma fgets_chars_full (body rest : list ascii) :
  LF ∉ body ->
  fgets_chars (length body) (body ++ rest) = (body, rest).
Proof.
  induction body as [|c body IH]; intros Hnl.
  - destruct rest; reflexivity.
  - simpl. destruct (Ascii.eqb_spec c "010"%char) as [->|_].
    { exfalso. apply Hnl. now left. }
    rewrite IH; [reflexivity | intros H; apply Hnl; now right].
Qed.

(** [read_problem] depends on the stream through the first line that is
    not a comment. *)
Lemma read_problem_skip (stream stream' : list ascii) :
  skip_comments (length stream) stream =
  skip_comments (length stream') stream' ->
  read_problem stream = read_problem stream'.
Proof. unfold read_problem. intros ->. reflexivity. Qed.

Lemma skip_comments_chunk (chunk rest : list ascii) :
  fgets_chars 254 (("c"%char :: chunk) ++ rest) = ("c"%char :: chunk, rest) ->
  read_problem (("c"%char :: chunk) ++ rest) = read_problem rest.
Proof.
  intros Hf. apply read_problem_skip.
  rewrite length_app. cbn [length Nat.add].
  change (("c"%char :: chunk) ++ rest) with ("c"%char :: chunk ++ rest) in *.
  rewrite skip_comments_cons, Hf.
  change (skip_comments (length chunk + length rest) rest =
          skip_comments (length rest) rest).
  apply skip_comments_fuel; lia.
Qed.

(** X15. Comment lines and the line buffer.  A line that starts with [c]
    and has at most 254 characters, newline included, is skipped:
    [read_problem] returns what it returns on the rest of the stream.
    Lines are read 254 characters at a time: of a longer comment line the
    first 254 characters are skipped and what follows is taken for a new
    line, so that the input is rejected with [ERROR_INVALID_FORMAT] when
    the 255th character of the line is neither [c] nor [p]. *)
Theorem read_problem_comment_lines (body rest : list ascii) :
  LF ∉ body ->
  ((length body <= 252)%nat ->
   read_problem ("c"%char :: body ++ LF :: rest) = read_problem rest) /\
  (length body = 253%nat ->
   read_problem ("c"%char :: body ++ rest) = read_problem rest /\
   forall x r, rest = x :: r -> x <> "c"%char -> x <> "p"%char ->
     read_problem ("c"%char :: body ++ rest) =
     Ret (ERROR_INVALID_FORMAT, None)).
Proof.
  intros Hnl.
  assert (Hc : LF ∉ "c"%char :: body).
  { intros [H|H]%elem_of_cons; [discriminate | contradiction]. }
  split.
  - intros Hlen.
    change ("c"%char :: body ++ LF :: rest)
      with (("c"%char :: body) ++ LF :: rest).
    replace (("c"%char :: body) ++ LF :: rest)
      with (("c"%char :: body ++ [LF]) ++ rest)
      by (simpl; rewrite <- app_assoc; reflexivity).
    apply skip_comments_chunk.
    replace (("c"%char :: body ++ [LF]) ++ rest)
      with (("c"%char :: body) ++ LF :: rest)
      by (simpl; rewrite <- app_assoc; reflexivity).
    rewrite fgets_chars_line; [reflexivity | exact Hc | simpl; lia].
  - intros Hlen.
    assert (Heq : read_problem ("c"%char :: body ++ rest) = read_problem rest).
    { apply (skip_comments_chunk body rest).
      replace 254%nat with (length ("c"%char :: body)) by (simpl; lia).
      apply fgets_chars_full, Hc. }
    split; [exact Heq|].
    intros x r -> Hx Hp. rewrite Heq. unfold read_problem.
    rewrite skip_comments_cons.
    destruct (fgets_chars_head 253 x r) as (b & rest' & -> & _).
    rewrite (comment_or_not x b).
    destruct (Ascii.eqb_spec x "c"%char) as [|_]; [contradiction|].
    destruct x as [[] [] [] [] [] [] [] []]; try reflexivity; congruence.
Qed.

Lemma read_problem_comment_lines_witness :
  ((length (list_ascii_of_string " two clauses") <= 252)%nat ->
   read_problem
     ("c"%char :: list_ascii_of_string " two clauses" ++
      LF :: text_lines ["p cnf 1 2"%string; "1 0 -1 0"%string]) =
   read_problem (text_lines ["p cnf 1 2"%string; "1 0 -1 0"%string])) /\
  (length (list_ascii_of_string " two clauses") = 253%nat ->
   read_problem
     ("c"%char :: list_ascii_of_string " two clauses" ++
      text_lines ["p cnf 1 2"%string; "1 0 -1 0"%string]) =
   read_problem (text_lines ["p cnf 1 2"%string; "1 0 -1 0"%string]) /\
   forall x r,
     text_lines ["p cnf 1 2"%string; "1 0 -1 0"%string] = x :: r ->
     x <> "c"%char -> x <> "p"%char ->
     read_problem
       ("c"%char :: list_ascii_of_string " two clauses" ++
        text_lines ["p cnf 1 2"%string; "1 0 -1 0"%string]) =
     Ret (ERROR_INVALID_FORMAT, None)).
Proof.
  apply (read_problem_comment_lines (list_ascii_of_string " two clauses")).
  intros H. vm_compute in H.
  repeat (apply elem_of_cons in H as [H|H]; [discriminate|]).
  inversion H.
Defined.

(** ** The command line *)

(** Arguments that were parsed without error are not looked at again. *)
Lemma parse_args_app (args more : list string) (opts o : Options) :
  parse_args opts args = (ERROR_OK, o) ->
  parse_args opts (args ++ more) = parse_args o more.
Proof.
  assert (H : forall n args, (length args <= n)%nat -> forall opts,
            parse_args opts args = (ERROR_OK, o) ->
            parse_args opts (args ++ more) = parse_args o more).
  { induction n as [|n IH]; intros [|arg rest] Hlen opts0; simpl in *;
      try lia; try (intros [= ->]; reflexivity).
    destruct (is_option arg).
    - destruct (String.eqb arg "--help"); [apply IH; lia|].
      destruct (String.eqb arg "--version"); [apply IH; lia|].
      destruct (String.eqb arg "-o"); [|discriminate].
      destruct rest as [|file rest']; [discriminate|].
      simpl in *. apply IH. lia.
    - destruct (infile opts0); [discriminate|]. apply IH. lia. }
  apply (H (length args)). lia.
Qed.

(** X16. The arguments are read from left to right, and what was read
    without error is kept.  After arguments accepted with options [o]:
    a further [--help] or [--version] sets the action and overrides an
    earlier one; [-o] takes the next argument as the output file,
    whatever it is, and overrides an earlier one; a last [-o] without
    argument, any other argument that starts with [-] (a lone [-]
    included) and a second input file are usage errors; an argument that
    does not start with [-] (the empty string included) is the input file
    when none was given. *)
Theorem parse_options_left_to_right (prog : string) (args : list string)
    (o : Options) :
  parse_options (prog :: args) = (ERROR_OK, o) ->
  parse_options (prog :: args ++ ["--help"%string]) =
    (ERROR_OK, set_action ACTION_SHOW_HELP o) /\
  parse_options (prog :: args ++ ["--version"%string]) =
    (ERROR_OK, set_action ACTION_SHOW_VERSION o) /\
  (forall f, parse_options (prog :: args ++ ["-o"%string; f]) =
             (ERROR_OK, set_outfile (Some f) o)) /\
  parse_options (prog :: args ++ ["-o"%string]) = (ERROR_INVALID_USAGE, o) /\
  (forall a, is_option a = true -> a <> "--help"%string ->
     a <> "--version"%string -> a <> "-o"%string ->
     parse_options (prog :: args ++ [a]) = (ERROR_INVALID_USAGE, o)) /\
  (forall f, is_option f = false ->
     parse_options (prog :: args ++ [f]) =
     match infile o with
     | None => (ERROR_OK, set_infile (Some f) o)
     | Some _ => (ERROR_INVALID_USAGE, o)
     end).
Proof.
  unfold parse_options. simpl tail. intros Hargs.
  repeat split; try intros f; try intros Hf;
    rewrite (parse_args_app args _ _ o Hargs); try reflexivity.
  - intros H1 H2 H3. simpl. rewrite Hf.
    apply String.eqb_neq in H1, H2, H3. rewrite H1, H2, H3. reflexivity.
  - simpl. rewrite Hf. destruct (infile o); reflexivity.
Qed.

Lemma parse_options_left_to_right_witness :
  parse_options ["simplesat"; "in.cnf"; "-o"; "--help"; "--help"]%string =
    (ERROR_OK,
     set_action ACTION_SHOW_HELP
       (mkOptions (Some "in.cnf"%string) (Some "--help"%string)
          ACTION_SOLVE_PROBLEM)) /\
  parse_options ["simplesat"; "in.cnf"; "-o"; "--help"; "--version"]%string =
    (ERROR_OK,
     set_action ACTION_SHOW_VERSION
       (mkOptions (Some "in.cnf"%string) (Some "--help"%string)
          ACTION_SOLVE_PROBLEM)) /\
  (forall f,
     parse_options ["simplesat"; "in.cnf"; "-o"; "--help"; "-o"; f]%string =
     (ERROR_OK,
      set_outfile (Some f)
        (mkOptions (Some "in.cnf"%string) (Some "--help"%string)
           ACTION_SOLVE_PROBLEM))) /\
  parse_options ["simplesat"; "in.cnf"; "-o"; "--help"; "-o"]%string =
    (ERROR_INVALID_USAGE,
     mkOptions (Some "in.cnf"%string) (Some "--help"%string)
       ACTION_SOLVE_PROBLEM) /\
  (forall a, is_option a = true -> a <> "--help"%string ->
     a <> "--version"%string -> a <> "-o"%string ->
     parse_options ["simplesat"; "in.cnf"; "-o"; "--help"; a]%string =
     (ERROR_INVALID_USAGE,
      mkOptions (Some "in.cnf"%string) (Some "--help"%string)
        ACTION_SOLVE_PROBLEM)) /\
  (forall f, is_option f = false ->
     parse_options ["simplesat"; "in.cnf"; "-o"; "--help"; f]%string =
     match infile (mkOptions (Some "in.cnf"%string) (Some "--help"%string)
                     ACTION_SOLVE_PROBLEM) with
     | None =>
         (ERROR_OK,
          set_infile (Some f)
            (mkOptions (Some "in.cnf"%string) (Some "--help"%string)
               ACTION_SOLVE_PROBLEM))
     | Some _ =>
         (ERROR_INVALID_USAGE,
          mkOptions (Some "in.cnf"%string) (Some "--help"%string)
            ACTION_SOLVE_PROBLEM)
     end).
Proof.
  apply (parse_options_left_to_right "simplesat"
           ["in.cnf"; "-o"; "--help"]%string).
  reflexivity.
Defined.

(** ** The lines of values written by [write_solution] *)

Lemma print_digits_length (fuel : nat) (n : Z) (acc : list ascii) :
  (length (print_digits fuel n acc) <= fuel + length acc)%nat.
Proof.
  revert n acc. induction fuel as [|fuel IH]; intros n acc; simpl; [lia|].
  destruct (n <? 10); simpl; [lia|].
  specialize (IH (n / 10) (digit_char (n mod 10) :: acc)). simpl in IH. lia.
Qed.

Lemma digit_char_not_newline (n : Z) : digit_char (n mod 10) <> LF.
Proof.
  pose proof (Z.mod_pos_bound n 10 ltac:(lia)) as H.
  assert (Hd : n mod 10 = 0 \/ n mod 10 = 1 \/ n mod 10 = 2 \/ n mod 10 = 3 \/
               n mod 10 = 4 \/ n mod 10 = 5 \/ n mod 10 = 6 \/ n mod 10 = 7 \/
               n mod 10 = 8 \/ n mod 10 = 9) by lia.
  repeat (destruct Hd as [-> | Hd]; [discriminate|]). rewrite Hd. discriminate.
Qed.

Lemma print_digits_no_newline (fuel : nat) (n : Z) (acc : list ascii) :
  LF ∉ acc -> LF ∉ print_digits fuel n acc.
Proof.
  revert n acc. induction fuel as [|fuel IH]; intros n acc Hacc; simpl;
    [exact Hacc|].
  assert (H : LF ∉ digit_char (n mod 10) :: acc).
  { intros [Heq|Hin]%elem_of_cons; [|contradiction].
    symmetry in Heq. revert Heq. apply digit_char_not_newline. }
  destruct (n <? 10); [exact H | apply IH, H].
Qed.

Lemma print_literal_word (lit : Z) :
  (LF ∉ print_literal lit) /\ (1 <= length (print_literal lit) <= 12)%nat.
Proof.
  unfold print_literal, print_int. split.
  - intros [Heq|Hin]%elem_of_cons; [discriminate|]. revert Hin.
    destruct (int_from_lit lit <? 0).
    + intros [Heq|Hin]%elem_of_cons; [discriminate|]. revert Hin.
      apply print_digits_no_newline, not_elem_of_nil.
    + apply print_digits_no_newline, not_elem_of_nil.
  - simpl length. destruct (int_from_lit lit <? 0); simpl length.
    + pose proof (print_digits_length 10 (- int_from_lit lit) []).
      simpl in *. lia.
    + pose proof (print_digits_length 10 (int_from_lit lit) []).
      simpl in *. lia.
Qed.

(** Reading a word that has no newline lengthens the current line. *)
Lemma line_state_word (w : list ascii) (cur best : nat) :
  LF ∉ w -> foldl line_state (cur, best) w = ((cur + length w)%nat, best).
Proof.
  revert cur. induction w as [|c w IH]; intros cur Hw; simpl.
  - f_equal. lia.
  - unfold line_state at 2. simpl.
    destruct (Ascii.eqb_spec c LF) as [->|_].
    { exfalso. apply Hw. now left. }
    rewrite IH by (intros H; apply Hw; now right). f_equal. lia.
Qed.

Lemma laid_out_snoc (breaks : list bool) (words : list (list ascii))
    (b : bool) (w : list ascii) :
  length breaks = length words ->
  laid_out (breaks ++ [b]) (words ++ [w]) =
  laid_out breaks words ++ (if b then [LF; "v"%char] else []) ++ w.
Proof.
  intros Hlen. unfold laid_out.
  rewrite zip_with_app by exact Hlen. rewrite concat_app. simpl.
  rewrite app_nil_r. reflexivity.
Qed.

Lemma write_literal_step (strict : Mode) (s : Solver)
    (words : list (list ascii)) (st : list ascii * Z) (lit : Z) :
  Shape strict s -> 0 <= lit < 2 * n_vars s -> values_written words st ->
  exists st', write_literal s st lit = Ret st' /\
    values_written
      (words ++ (if decide (val s lit = Some true)
                 then [print_literal lit] else [])) st'.
Proof.
  intros Hs Hlit (breaks & cur & best & Hlen & Hout & Hline & Hbest & Hcol).
  destruct (lookup_lt_is_Some_2 (lits s) (Z.to_nat lit)) as [ls Hls];
    [eapply shape_lit_bound; eauto|].
  pose proof (val_lookup s lit ls (proj1 Hlit) Hls) as Hval.
  destruct (print_literal_word lit) as [Hnl Hwlen].
  unfold write_literal. rewrite (proj2 (lit_at_Ret _ _ _) Hls), bind_Ret.
  destruct (fixed ls) eqn:F, (assigned ls) eqn:A; cbn [andb];
    try (rewrite decide_False by congruence; rewrite app_nil_r;
         exists st; split; [reflexivity|];
         exists breaks, cur, best; auto).
  rewrite decide_True by congruence. cbv zeta.
  set (w := print_literal lit) in *.
  destruct (Z.ltb_spec 79 (snd st + Z.of_nat (length w))) as [Hbreak|Hfit].
  - eexists. split; [reflexivity|].
    exists (breaks ++ [true]), (1 + length w)%nat, (Nat.max cur best).
    split; [rewrite !length_app, Hlen; reflexivity|]. cbn [fst snd].
    split.
    { rewrite Hout, laid_out_snoc by exact Hlen. simpl.
      rewrite <- !app_assoc. reflexivity. }
    split.
    { rewrite !foldl_app, Hline.
      change (foldl line_state (cur, best) [LF; "v"%char])
        with (1%nat, Nat.max cur best).
      apply line_state_word, Hnl. }
    split; [lia|].
    rewrite u32_small by (unfold UINT_MODULUS; lia). lia.
  - eexists. split; [reflexivity|].
    exists (breaks ++ [false]), (cur + length w)%nat, best.
    split; [rewrite !length_app, Hlen; reflexivity|]. cbn [fst snd].
    split.
    { rewrite Hout, laid_out_snoc by exact Hlen. simpl. reflexivity. }
    split.
    { rewrite foldl_app, Hline. apply line_state_word, Hnl. }
    split; [exact Hbest|].
    rewrite u32_small by (unfold UINT_MODULUS; lia). lia.
Qed.

Lemma write_literals_loop (strict : Mode) (s : Solver) (l : list Z) :
  Shape strict s -> Forall (fun lit => 0 <= lit < 2 * n_vars s) l ->
  forall words st, values_written words st ->
  exists st', foldM (write_literal s) l st = Ret st' /\
    values_written
      (words ++ (print_literal <$> filter (fun lit => val s lit = Some true) l))
      st'.
Proof.
  intros Hs. induction 1 as [|lit l Hlit _ IH]; intros words st Hst.
  - exists st. split; [reflexivity|]. simpl. rewrite app_nil_r. exact Hst.
  - destruct (write_literal_step strict s words st lit Hs Hlit Hst)
      as (st1 & Hstep & Hst1).
    destruct (IH _ _ Hst1) as (st' & Hfold & Hst').
    exists st'. simpl. rewrite Hstep. simpl. split; [exact Hfold|].
    rewrite filter_cons. rewrite <- app_assoc in Hst'.
    destruct (decide (val s lit = Some true)); exact Hst'.
Qed.

(** X17. The lines of values.  For a well-formed solver, the third part of
    [write_solution] writes [v], then one word [ n] for every literal that
    is fixed and assigned true, in the order of the literal codes and with
    [n = int_from_lit(lit)], then the word [ 0] and a newline; a word may
    be preceded by a line break (a newline and [v]) and is never cut.  No
    line written has more than 79 characters. *)
Theorem write_assignment_lines (strict : Mode) (s : Solver) :
  Shape strict s ->
  exists text breaks,
    write_assignment s = Ret text /\
    length breaks = length (value_words s) /\
    text = "v"%char :: laid_out breaks (value_words s) ++ [LF] /\
    (widest_line text <= 79)%nat.
Proof.
  intros Hs. unfold write_assignment.
  destruct (write_literals_loop strict s (all_lits s) Hs
              (all_lits_range _ _ Hs) [] (["v"%char], 2))
    as ([out column] & Hfold & breaks & cur & best & Hlen & Hout & Hline
        & Hbest & Hcol).
  { exists [], 1%nat, O. simpl. repeat split; lia. }
  rewrite Hfold. simpl in *. fold (true_lits s) in Hlen, Hout.
  rewrite u32_small by (unfold UINT_MODULUS; lia).
  destruct (Z.ltb_spec 79 (column + 2)) as [Hbreak|Hfit].
  - eexists. exists (breaks ++ [true]). split; [reflexivity|].
    unfold value_words.
    split; [rewrite !length_app, Hlen; reflexivity|]. split.
    + rewrite Hout, laid_out_snoc by exact Hlen. simpl.
      rewrite <- !app_assoc. reflexivity.
    + unfold widest_line. rewrite foldl_app, Hline. simpl. lia.
  - eexists. exists (breaks ++ [false]). split; [reflexivity|].
    unfold value_words.
    split; [rewrite !length_app, Hlen; reflexivity|]. split.
    + rewrite Hout, laid_out_snoc by exact Hlen. simpl.
      rewrite <- !app_assoc. reflexivity.
    + unfold widest_line. rewrite foldl_app, Hline. simpl. lia.
Qed.

Lemma write_assignment_lines_witness :
  exists s text breaks,
    load_cnf 3 cnf_toy = Ret s /\
    write_assignment s = Ret text /\
    length breaks = length (value_words s) /\
    text = "v"%char :: laid_out breaks (value_words s) ++ [LF] /\
    (widest_line text <= 79)%nat.
Proof.
  destruct (load_cnf 3 cnf_toy) as [s|f] eqn:Hload;
    [|vm_compute in Hload; discriminate].
  assert (Hs : Shape lax s).
  { apply inv_shape. eapply (load_cnf_Inv lax 3 cnf_toy);
      [unfold INT_MAX; lia | simpl; unfold INT_MAX; lia
      | intros [] | intros [] | exact Hload]. }
  destruct (write_assignment_lines lax s Hs) as (text & breaks & H).
  exists s, text, breaks. split; [reflexivity | exact H].
Defined.

(** ** The whole program *)

Lemma write_assignment_returns (strict : Mode) (s : Solver) :
  Shape strict s -> exists text, write_assignment s = Ret text.
Proof.
  intros Hs. unfold write_assignment.
  destruct (write_literals_loop strict s (all_lits s) Hs
              (all_lits_range _ _ Hs) [] (["v"%char], 2))
    as (st & Hfold & _).
  { exists [], 1%nat, O. simpl. repeat split; lia. }
  rewrite Hfold. simpl. destruct (79 <? _); eauto.
Qed.

Lemma int_from_lit_of_repr (repr lit : Z) :
  repr <> 0 -> Z.abs repr <= INT_MAX -> lit_from_int repr = Ret lit ->
  int_from_lit lit = repr.
Proof.
  unfold lit_from_int. intros Hne Habs.
  destruct (Z.eqb_spec repr 0) as [|_]; [contradiction|]. simpl.
  destruct (Z.ltb_spec 0 repr) as [Hpos|Hneg]; intros [= <-].
  - rewrite shiftl_1, u32_small by (unfold UINT_MODULUS, INT_MAX in *; lia).
    rewrite int_from_lit_even by lia. lia.
  - rewrite shiftl_1, lor_even_1,
      u32_small by (unfold UINT_MODULUS, INT_MAX in *; lia).
    rewrite int_from_lit_odd by lia. lia.
Qed.

Lemma set_solution_score_eq (sol : Solution) (s : Solver) :
  score_eq s (set_solution sol s).
Proof. unfold score_eq. simpl. tauto. Qed.

(** X18. The program decides clean inputs.  When the command line names
    an input file and no output file, the file can be opened, its problem
    line is accepted and its clauses can be read, every integer of a
    clause names a variable of the problem, no clause is empty, there are
    at most 16383 clauses and [2 * n_vars + n_clauses < 2^32], then [main]
    returns [EXIT_SUCCESS] after writing on the standard output what
    [write_solution] writes for the final solver, whose solution is
    either SATISFIABLE, and then every clause of the input has an integer
    that is among the values written and no variable is written with both
    signs, or UNSATISFIABLE, and then no assignment makes every clause
    of the input true. *)
Theorem main_decides (w : World) (argv : list string) (name : string)
    (stream : list ascii) (nv : Z) (cls : list (list Z)) :
  parse_options argv =
    (ERROR_OK, mkOptions (Some name) None ACTION_SOLVE_PROBLEM) ->
  file_contents w name = Some stream ->
  parse_dimacs stream = Some (nv, cls) ->
  (forall cl repr, cl ∈ cls -> repr ∈ cl -> Z.abs repr <= nv) ->
  (forall cl, cl ∈ cls -> cl <> []) ->
  Z.of_nat (length cls) <= SCORED_CLAUSES ->
  2 * nv + Z.of_nat (length cls) < UINT_MODULUS ->
  exists s text,
    main w argv = Ret (mkOutcome EXIT_SUCCESS (ToStdout text)) /\
    write_solution (banner_text w) (elapsed_text w) s = Ret text /\
    Inv total s /\
    ((solution s = SOLUTION_SATISFIABLE /\
      (forall cl, cl ∈ cls ->
         exists repr, repr ∈ cl /\
                      (" "%char :: print_int repr) ∈ value_words s) /\
      (forall lit, lit ∈ true_lits s -> negate lit ∉ true_lits s)) \/
     (solution s = SOLUTION_UNSATISFIABLE /\
      forall a : Z -> bool, ~ cnf_true a cls)).
Proof.
  intros Hopts Hfile Hparse Hvars Hne Hsmall Hfit.
  destruct (read_problem_of_parse _ _ _ Hparse)
    as (Hnv & Hlen & Hints & Hread).
  assert (Hnc : Z.of_nat (length cls) <= INT_MAX) by lia.
  assert (Hrange : forall cl repr, cl ∈ cls -> repr ∈ cl ->
            repr <> 0 /\ Z.abs repr <= nv).
  { intros cl repr Hcl Hr.
    split; [apply (Hints cl repr Hcl Hr) | apply (Hvars cl repr Hcl Hr)]. }
  assert (Hcnf : cnf_ints nv cls).
  { split; [exact Hnv|]. split; [exact Hnc|].
    intros cl repr Hcl Hr. apply (Hints cl repr Hcl Hr). }
  destruct (load_cnf_total nv cls Hnv Hnc Hrange) as [s0 Hload].
  destruct (load_cnf_Inv total nv cls s0 Hnv Hnc (fun _ => Hfit)
              (fun _ => conj Hsmall Hne) Hload)
    as (Hinv & Hnu & Hna & Hnvs & Hncs & _).
  set (fuel := Z.to_nat (search_fuel s0)).
  pose proof (search_assignments_safe total fuel s0 Hinv Hnu) as Hsafe.
  assert (Hfueled : fueled (search_assignments fuel s0)).
  { apply (search_assignments_fueled total fuel s0 Hinv Hnu).
    unfold fuel, search_fuel. rewrite Hnvs, Hncs, Hna. lia. }
  destruct (total_returns _ _ Hsafe Hfueled)
    as ([sol s'] & Hsearch & Hinv' & _ & Hsp & _ & Hsol).
  simpl in Hinv', Hsp, Hsol.
  set (s := set_solution sol s').
  assert (Hinvs : Inv total s)
    by (apply (Inv_score_eq total s' s (set_solution_score_eq sol s') Hinv')).
  assert (Hval : forall z, val s z = val s' z) by reflexivity.
  assert (Hmain : forall text,
            write_solution (banner_text w) (elapsed_text w) s = Ret text ->
            main w argv = Ret (mkOutcome EXIT_SUCCESS (ToStdout text))).
  { intros text Hw. unfold main. rewrite Hopts. cbn [action].
    unfold solve_problem. cbn [infile outfile].
    rewrite Hfile, Hread, Hload. rewrite !bind_Ret.
    fold fuel. rewrite Hsearch. rewrite !bind_Ret. fold s. rewrite Hw.
    reflexivity. }
  destruct sol; [destruct Hsol | |].
  - (* SATISFIABLE *)
    destruct (write_assignment_returns total s (inv_shape _ _ Hinvs))
      as [v Hv].
    exists s. eexists. split.
    { apply Hmain. unfold write_solution. simpl solution. rewrite Hv.
      reflexivity. }
    split; [unfold write_solution; simpl solution; rewrite Hv; reflexivity|].
    split; [exact Hinvs|]. left. split; [reflexivity|]. split.
    + intros cl Hcl.
      destruct (all_satisfied_model total nv cls s0 s' Hnv Hnc Hload Hsp
                  Hinv' Hsol cl Hcl) as (repr & lit & Hr & Hlit & Hv').
      exists repr. split; [exact Hr|].
      unfold value_words. apply elem_of_app. left.
      apply list_elem_of_fmap. exists lit. split.
      * unfold print_literal.
        rewrite (int_from_lit_of_repr repr lit); auto.
        -- apply (Hrange cl repr Hcl Hr).
        -- destruct (Hrange cl repr Hcl Hr). lia.
      * unfold true_lits. apply list_elem_of_filter. split; [exact Hv'|].
        pose proof (trail_in_range _ _ _ _ (inv_shape _ _ Hinvs) Hv') as Hin.
        unfold all_lits. rewrite (shape_shift _ _ (inv_shape _ _ Hinvs)).
        apply elem_of_seqZ. lia.
    + intros lit [Hv' _]%list_elem_of_filter [Hn _]%list_elem_of_filter.
      pose proof (trail_in_range _ _ _ _ (inv_shape _ _ Hinvs) Hv') as Hin.
      rewrite (trail_pair _ (inv_trail _ _ Hinvs) lit Hin), Hv' in Hn.
      discriminate.
  - (* UNSATISFIABLE *)
    exists s. eexists. split; [apply Hmain; reflexivity|].
    split; [reflexivity|]. split; [exact Hinvs|]. right.
    split; [reflexivity|].
    apply (loaded_no_model nv cls s0 Hcnf Hload). apply Hsol.
Qed.

Lemma main_decides_witness :
  exists s text,
    main world_toy ["simplesat"; "toy.cnf"]%string =
      Ret (mkOutcome EXIT_SUCCESS (ToStdout text)) /\
    write_solution (banner_text world_toy) (elapsed_text world_toy) s =
      Ret text /\
    Inv total s /\
    ((solution s = SOLUTION_SATISFIABLE /\
      (forall cl, cl ∈ cnf_toy ->
         exists repr, repr ∈ cl /\
                      (" "%char :: print_int repr) ∈ value_words s) /\
      (forall lit, lit ∈ true_lits s -> negate lit ∉ true_lits s)) \/
     (solution s = SOLUTION_UNSATISFIABLE /\
      forall a : Z -> bool, ~ cnf_true a cnf_toy)).
Proof.
  apply (main_decides world_toy _ "toy.cnf" stream_toy 3 cnf_toy).
  - reflexivity.
  - reflexivity.
  - reflexivity.
  - intros cl repr Hcl Hr. unfold cnf_toy in Hcl.
    repeat (apply elem_of_cons in Hcl as [-> | Hcl]);
      try (apply elem_of_nil in Hcl; contradiction);
      repeat (apply elem_of_cons in Hr as [-> | Hr]);
      try (apply elem_of_nil in Hr; contradiction); simpl; lia.
  - intros cl Hcl. unfold cnf_toy in Hcl.
    repeat (apply elem_of_cons in Hcl as [-> | Hcl]);
      try (apply elem_of_nil in Hcl; contradiction); discriminate.
  - simpl. unfold SCORED_CLAUSES. lia.
  - simpl. unfold UINT_MODULUS. lia.
Defined.

(** [read_problem] hands over a solver exactly when it returns
    [ERROR_OK]. *)
Lemma read_problem_solver (stream : list ascii) (err : Error)
    (os : option Solver) :
  read_problem stream = Ret (err, os) ->
  (err = ERROR_OK /\ exists s, os = Some s) \/
  (err = ERROR_INVALID_FORMAT /\ os = None).
Proof.
  destruct (scan_header stream) as [[[nv nc] body]|] eqn:Hh.
  - destruct (read_problem_header _ _ _ _ Hh) as (_ & _ & ->).
    destruct (create_solver nv nc) as [s0|f]; simpl; [|discriminate].
    destruct (foldM load_clause _ s0) as [s|f]; simpl; [|discriminate].
    destruct (snd (scan_clauses (Z.to_nat nc) body)); intros [= <- <-]; eauto.
  - unfold scan_header in Hh. unfold read_problem.
    assert (Hbad : Ret (ERROR_INVALID_FORMAT, None) = Ret (err, os) ->
              (err = ERROR_OK /\ exists s, os = Some s) \/
              (err = ERROR_INVALID_FORMAT /\ os = None))
      by (intros [= <- <-]; auto).
    destruct (skip_comments (length stream) stream) as [[buffer rest]|];
      [|exact Hbad].
    destruct buffer as [|c line]; [exact Hbad|].
    destruct (Ascii.eqb_spec c "p"%char) as [->|Hc].
    2:{ destruct c as [[] [] [] [] [] [] [] []]; try exact Hbad; congruence. }
    destruct (scan_problem_line ("p"%char :: line)) as [[[nv nc] tail]|];
      [|exact Hbad].
    destruct (forallb is_space (c_string tail)); simpl in *; [|exact Hbad].
    destruct (Z.ltb_spec 0 nv) as [Hnv|Hnv]; simpl in Hh.
    2:{ replace (nv <=? 0) with true by (symmetry; apply Z.leb_le; lia).
        exact Hbad. }
    replace (nv <=? 0) with false by (symmetry; apply Z.leb_gt; lia).
    destruct (Z.ltb_spec 0 nc) as [Hnc|Hnc]; simpl in Hh; [discriminate|].
    replace (nc <=? 0) with true by (symmetry; apply Z.leb_le; lia).
    exact Hbad.
Qed.

(** X19. Exit status and output.  Whenever [main] returns, it returns
    [EXIT_SUCCESS] exactly when it has written something, and
    [EXIT_FAILURE] otherwise: no error leaves a partial output and no
    success is silent.  A file is written only if it is the file named
    after [-o] and could be opened; the standard output is used for the
    help text, the version, and the solution when no output file was
    named. *)
Theorem main_exit_status (w : World) (argv : list string) (out : Outcome) :
  main w argv = Ret out ->
  match written out with
  | NothingWritten => exit_code out = EXIT_FAILURE
  | ToStdout _ =>
      exit_code out = EXIT_SUCCESS /\
      fst (parse_options argv) = ERROR_OK /\
      (action (snd (parse_options argv)) = ACTION_SOLVE_PROBLEM ->
       outfile (snd (parse_options argv)) = None)
  | ToFile name _ =>
      exit_code out = EXIT_SUCCESS /\
      parse_options argv =
        (ERROR_OK,
         mkOptions (infile (snd (parse_options argv))) (Some name)
           ACTION_SOLVE_PROBLEM) /\
      file_writable w name = true
  end.
Proof.
  unfold main. destruct (parse_options argv) as [err opts] eqn:Hopts.
  destruct err; try (intros [= <-]; reflexivity).
  destruct opts as [inf outf act]. simpl action.
  destruct act; try (intros [= <-]; simpl; split; [reflexivity|];
                     split; [reflexivity | discriminate]).
  unfold solve_problem. simpl infile. simpl outfile.
  set (rd := match inf with
             | Some name =>
                 match file_contents w name with
                 | Some stream => read_problem stream
                 | None => Ret (ERROR_FILE_ACCESS, None)
                 end
             | None => read_problem (standard_input w)
             end).
  assert (Hrd : forall err os, rd = Ret (err, os) ->
            (err = ERROR_OK /\ exists s, os = Some s) \/
            (err <> ERROR_OK /\ os = None)).
  { intros err os. unfold rd.
    assert (Hread : forall stream, read_problem stream = Ret (err, os) ->
              (err = ERROR_OK /\ exists s, os = Some s) \/
              (err <> ERROR_OK /\ os = None)).
    { intros stream [H|[-> ->]]%read_problem_solver; [left; exact H|].
      right. split; [discriminate | reflexivity]. }
    destruct inf as [name|]; [|apply Hread].
    destruct (file_contents w name); [apply Hread|].
    intros [= <- <-]. right. split; [discriminate | reflexivity]. }
  destruct rd as [[err os]|f]; simpl; [|discriminate].
  destruct (Hrd err os eq_refl) as [[-> [s ->]]|[Herr ->]].
  2:{ destruct err; try contradiction; intros [= <-]; reflexivity. }
  destruct (search_assignments _ s) as [[sol s1]|f]; simpl; [|discriminate].
  destruct outf as [name|].
  - destruct (file_writable w name) eqn:Hw; [|intros [= <-]; reflexivity].
    destruct (write_solution _ _ _) as [text|f]; simpl; [|discriminate].
    intros [= <-]. simpl. auto.
  - destruct (write_solution _ _ _) as [text|f]; simpl; [|discriminate].
    intros [= <-]. simpl. auto.
Qed.

Lemma main_exit_status_witness :
  exists out,
    main world_toy ["simplesat"; "toy.cnf"]%string = Ret out /\
    match written out with
    | NothingWritten => exit_code out = EXIT_FAILURE
    | ToStdout _ =>
        exit_code out = EXIT_SUCCESS /\
        fst (parse_options ["simplesat"; "toy.cnf"]%string) = ERROR_OK /\
        (action (snd (parse_options ["simplesat"; "toy.cnf"]%string)) =
         ACTION_SOLVE_PROBLEM ->
         outfile (snd (parse_options ["simplesat"; "toy.cnf"]%string)) = None)
    | ToFile name _ =>
        exit_code out = EXIT_SUCCESS /\
        parse_options ["simplesat"; "toy.cnf"]%string =
          (ERROR_OK,
           mkOptions
             (infile (snd (parse_options ["simplesat"; "toy.cnf"]%string)))
             (Some name) ACTION_SOLVE_PROBLEM) /\
        file_writable world_toy name = true
    end.
Proof.
  destruct (main world_toy ["simplesat"; "toy.cnf"]%string) as [out|f] eqn:Hrun;
    [|vm_compute in Hrun; discriminate].
  exists out. split; [reflexivity|].
  apply (main_exit_status world_toy ["simplesat"; "toy.cnf"]%string out Hrun).
Defined.

(** ** The capacity of the unit stack when it wraps around *)

Section Capacity.

Variable nv : Z.
Variable m : nat.
Hypothesis Hnv : 0 < nv <= INT_MAX.
Hypothesis Hcodes : u32 (Z.shiftl nv 1) = Z.of_nat (4 + m).
Hypothesis Hcap : u32 (u32 (Z.shiftl nv 1) + 2) = 0.

Lemma exclusive_load :
  load_cnf nv cnf_exclusive = Ret (exclusive_solver nv m 0).
Proof.
  unfold load_cnf, create_solver.
  change (Z.of_nat (length cnf_exclusive)) with 2.
  replace (0 <? nv) with true by (symmetry; apply Z.ltb_lt; lia).
  unfold assert. cbn [bind]. rewrite Hcap, Hcodes, Nat2Z.id.
  reflexivity.
Qed.

Lemma exclusive_shape : Shape lax (exclusive_solver nv m 0).
Proof.
  apply inv_shape.
  eapply (load_cnf_Inv lax nv cnf_exclusive);
    [exact Hnv | simpl; unfold INT_MAX; lia | intros [] | intros []
    | apply exclusive_load].
Qed.

Lemma exclusive_update_scores :
  update_scores (exclusive_solver nv m 0) = Ret (exclusive_solver nv m 4).
Proof.
  rewrite (update_scores_closed_form lax _ exclusive_shape).
  unfold exclusive_solver, set_lits. cbn [lits n_vars n_clauses clauses
    n_sat_clauses n_unsat_clauses n_units n_assigned unit_stack
    solver_assigned solution t_branches t_unit_props].
  rewrite fmap_app, fmap_replicate. reflexivity.
Qed.

(** The pairs of the variables that occur in no clause do not beat the
    score 25 of the first pair. *)
Lemma exclusive_choose_rest (ks : list Z) :
  Forall (fun k => 2 <= k /\ 2 * k + 1 < Z.of_nat (4 + m)) ks ->
  foldM (choose_step (exclusive_solver nv m 4)) ((fun k => 2 * k) <$> ks)
    (0, 25) = Ret (0, 25).
Proof.
  induction 1 as [|k ks [Hk Hlt] _ IH]; [reflexivity|].
  rewrite fmap_cons. cbn [foldM].
  assert (Hlook : forall i, (4 <= i < 4 + m)%nat ->
            lits (exclusive_solver nv m 4) !! i = Some create_lit_state).
  { intros i Hi. unfold exclusive_solver. cbn [lits].
    rewrite lookup_app_r by (simpl; lia).
    apply lookup_replicate. split; [reflexivity | simpl; lia]. }
  unfold choose_step at 1.
  rewrite (proj2 (lit_at_Ret _ _ _) (Hlook (Z.to_nat (2 * k)) ltac:(lia))).
  rewrite negate_even.
  rewrite bind_Ret. cbn [fixed create_lit_state].
  rewrite (proj2 (lit_at_Ret _ _ _) (Hlook (Z.to_nat (2 * k + 1)) ltac:(lia))).
  rewrite bind_Ret. exact IH.
Qed.

Lemma exclusive_even_lits :
  exists ks,
    even_lits (exclusive_solver nv m 4) = 0 :: 2 :: ((fun k => 2 * k) <$> ks) /\
    Forall (fun k => 2 <= k /\ 2 * k + 1 < Z.of_nat (4 + m)) ks.
Proof.
  unfold even_lits. cbn [n_vars exclusive_solver]. rewrite Hcodes.
  assert (Heven : Z.of_nat (4 + m) = 2 * (Z.of_nat (4 + m) / 2)).
  { rewrite <- Hcodes, shiftl_1. unfold u32, UINT_MODULUS.
    change 4294967296 with (2 * 2147483648).
    rewrite Z.mul_mod_distr_l by lia.
    rewrite (Z.mul_comm 2 (nv mod 2147483648)), Z.div_mul by lia. lia. }
  set (K := Z.of_nat (4 + m) / 2) in *.
  assert (HK : 2 <= K) by lia.
  exists (seqZ 2 (K - 2)). split.
  - rewrite (seqZ_cons 0) by lia. rewrite (seqZ_cons (Z.succ 0)) by lia.
    replace (Z.pred (Z.pred K)) with (K - 2) by lia. reflexivity.
  - apply list.Forall_forall. intros k Hk%elem_of_seqZ. lia.
Qed.

Lemma exclusive_choose_branch :
  choose_branch (exclusive_solver nv m 0) =
  Ret (0, exclusive_solver nv m 4).
Proof.
  unfold choose_branch.
  change (n_assigned (exclusive_solver nv m 0)) with 0.
  change (n_vars (exclusive_solver nv m 0)) with nv.
  replace (0 =? nv) with false by (symmetry; apply Z.eqb_neq; lia).
  change (assert (negb false)) with (Ret (A := unit) tt).
  rewrite bind_Ret.
  change (assert (negb (n_sat_clauses (exclusive_solver nv m 0)
                        =? n_clauses (exclusive_solver nv m 0))))
    with (Ret (A := unit) tt).
  rewrite bind_Ret, exclusive_update_scores, bind_Ret.
  destruct exclusive_even_lits as (ks & -> & Hks).
  change (foldM (choose_step (exclusive_solver nv m 4))
            (0 :: 2 :: ((fun k => 2 * k) <$> ks)) (0, 0))
    with (foldM (choose_step (exclusive_solver nv m 4))
            ((fun k => 2 * k) <$> ks) (0, 25)).
  rewrite (exclusive_choose_rest ks Hks). reflexivity.
Qed.

(** The first assignment makes the second clause unit, and the unit stack
    has no slot for its literal. *)
Lemma exclusive_try (search : Solver -> Result (Solution * Solver))
    (fuel : nat) :
  try_assignment_with search fuel (exclusive_solver nv m 4) 0 =
  Err OutOfBounds.
Proof. reflexivity. Qed.

Lemma exclusive_search (fuel : nat) :
  search_assignments (S fuel) (exclusive_solver nv m 0) = Err OutOfBounds.
Proof.
  rewrite search_assignments_unfold.
  change (any_contradiction (exclusive_solver nv m 0)) with false.
  change (all_satisfied (exclusive_solver nv m 0)) with false.
  cbv iota. rewrite exclusive_choose_branch, bind_Ret, exclusive_try.
  reflexivity.
Qed.

End Capacity.

(** C8. The capacity of the unit stack is computed in [unsigned int] and
    wraps around.  The input [p cnf 2147483647 2] with the clauses
    [1 2 0] and [-1 -2 0] is accepted by [read_problem]; for it
    [2 * n_vars + n_clauses] is [2^32] and [create_solver] allocates a unit
    stack of [(n_vars << 1) + n_clauses = 0] slots.  The search branches
    on [x1]; [make_assignment] calls [add_false_assignment] on the second
    clause, which becomes unit, and the write
    [unit_stack[n_units++]] with [n_units = 0 <= n_clauses] falls outside
    the array: the run of [search_assignments] stops on this access for
    every amount of fuel. *)
Theorem unit_stack_capacity_wraps :
  exists s0,
    read_problem stream_exclusive = Ret (ERROR_OK, Some s0) /\
    load_cnf INT_MAX cnf_exclusive = Ret s0 /\
    n_units s0 = 0 /\
    2 * n_vars s0 + n_clauses s0 = UINT_MODULUS /\
    length (unit_stack s0) = 0%nat /\
    forall fuel, search_assignments (S fuel) s0 = Err OutOfBounds.
Proof.
  assert (Hnv : 0 < INT_MAX <= INT_MAX) by (unfold INT_MAX; lia).
  assert (Hcodes : u32 (Z.shiftl INT_MAX 1) =
                   Z.of_nat (4 + Z.to_nat 4294967290)).
  { rewrite Nat2Z.inj_add, Z2Nat.id by lia. reflexivity. }
  assert (Hcap : u32 (u32 (Z.shiftl INT_MAX 1) + 2) = 0) by reflexivity.
  pose proof (exclusive_load INT_MAX _ Hnv Hcodes Hcap) as Hload.
  exists (exclusive_solver INT_MAX (Z.to_nat 4294967290) 0).
  split.
  { destruct (read_problem_of_parse stream_exclusive INT_MAX cnf_exclusive)
      as (_ & _ & _ & ->); [reflexivity|].
    rewrite Hload. reflexivity. }
  split; [exact Hload|]. split; [reflexivity|]. split; [reflexivity|].
  split; [reflexivity|].
  intros fuel. apply (exclusive_search INT_MAX _ Hnv Hcodes Hcap).
Qed.
